(** * The ionic transmit/receive engine (drivers/linux/eth/ionic/ionic_txrx.c)

    A shallow embedding of the descriptor-ring, buffer-recycling,
    completion-service, TSO and backpressure code of ionic_txrx.c, with the
    properties of the specification stated and proved over it.

    Conventions.
    - C integers are [Z]; where the source stores into a narrower type the
      wrap-around is written with [u8], [u16], [u32], [u64].
    - Pointers that may be NULL are [option]s.
    - Arrays are lists read with [!!!] and written with [alter]; an index
      outside the array reads the default element and writes nothing (the C
      code has undefined behaviour there).
    - Calls into the kernel are recorded, in program order, in a trace of
      [event]s; what the kernel answers (page allocation, DMA mapping, skb
      allocation, jiffies) is read from scripts carried by the state.
    - Constants, macros and inline helpers that ionic_txrx.c takes from
      ionic_dev.h / ionic_if.h are the fields of the class [ionic_consts]
      or are modelled from the specification, as said at each definition. *)

From Stdlib Require Import ZArith Lia Bool List.
From stdpp Require Import base list.
Import ListNotations.

Open Scope Z_scope.

(** ** Machine integers *)

Definition u8 (x : Z) : Z := x mod 2 ^ 8.
Definition u16 (x : Z) : Z := x mod 2 ^ 16.
Definition u32 (x : Z) : Z := x mod 2 ^ 32.
Definition u64 (x : Z) : Z := x mod 2 ^ 64.


(** The kernel's ALIGN(x, a) for a power of two [a], on u32 operands:
    [(x + (a - 1)) & ~(a - 1)]. *)
Definition ALIGN (x a : Z) : Z :=
  Z.land (u32 (x + (a - 1))) (u32 (Z.lnot (a - 1))).

(** Kernel constants (linux/if_ether.h, linux/if_vlan.h, errno). *)
Definition ETH_HLEN : Z := 14.
Definition VLAN_HLEN : Z := 4.
Definition EIO : Z := 5.
Definition ENOMEM : Z := 12.
Definition EINVAL : Z := 22.

(** ** What ionic_txrx.c takes from headers outside the sources *)

Class ionic_consts := {
  IONIC_PAGE_ORDER : Z;
  IONIC_PAGE_SIZE : Z;
  IONIC_PAGE_SPLIT_SZ : Z;
  IONIC_PAGE_SPLIT_MAX_MTU : Z;
  IONIC_RX_MAX_SG_ELEMS : Z;
  IONIC_RX_MIN_DOORBELL_DEADLINE : Z;
  IONIC_RX_MAX_DOORBELL_DEADLINE : Z;
  IONIC_TXQ_DESC_FLAG_VLAN : Z;
  IONIC_TXQ_DESC_FLAG_ENCAP : Z;
  IONIC_TXQ_DESC_FLAG_TSO_SOT : Z;
  IONIC_TXQ_DESC_FLAG_TSO_EOT : Z;
  IONIC_RXQ_COMP_CSUM_F_TCP_BAD : Z;
  IONIC_RXQ_COMP_CSUM_F_UDP_BAD : Z;
  IONIC_RXQ_COMP_CSUM_F_IP_BAD : Z;
  (** the kernel's error cookie of the DMA API *)
  DMA_MAPPING_ERROR : Z;
  (** color_match(color, done_color) of ionic_dev.h *)
  color_match : Z -> Z -> bool;
  (** dev_page_is_reusable(page) of the kernel, on page handles *)
  dev_page_is_reusable : Z -> bool;
  (** IS_ENABLED(CONFIG_PTP_1588_CLOCK) *)
  CONFIG_PTP_1588_CLOCK : bool;
  (** defined(IONIC_SUPPORTS_BQL) *)
  IONIC_SUPPORTS_BQL : bool;
  (** defined(HAVE_SKB_XMIT_MORE) *)
  HAVE_SKB_XMIT_MORE : bool
}.

(** dma_mapping_error(dev, addr) of linux/dma-mapping.h. *)
Definition dma_mapping_error `{ionic_consts} (a : Z) : bool :=
  a =? DMA_MAPPING_ERROR.

(** ** Data model *)

(** struct page *: a handle. *)
Definition page := Z.

(** struct ionic_buf_info. *)
Record ionic_buf_info := mk_buf_info {
  bi_page : option page;
  bi_dma_addr : Z;
  bi_page_offset : Z;
  bi_len : Z;
  bi_pagecnt_bias : Z
}.

(** One scatter-gather element of a descriptor (addr, len). *)
Record ionic_sg_elem := mk_sg_elem {
  sg_addr : Z;
  sg_len : Z
}.

(** The packet handed to the transmit entry point: the fields of
    struct sk_buff and its shared info that ionic_txrx.c reads. *)
Record sk_buff := mk_skb {
  skb_id : Z;
  skb_len : Z;
  skb_headlen : Z;
  skb_frags : list Z;              (* skb_frag_size of each fragment *)
  skb_gso_size : Z;
  skb_gso_segs : Z;
  skb_is_gso : bool;
  skb_gso_outer_csum : bool;       (* gso_type & (GRE_CSUM | UDP_TUNNEL_CSUM) *)
  skb_vlan_present : bool;
  skb_vlan_tci : Z;
  skb_encapsulation : bool;
  skb_csum_partial : bool;         (* ip_summed == CHECKSUM_PARTIAL *)
  skb_csum_start : Z;
  skb_csum_offset : Z;
  skb_transport_hdr_end : Z;       (* skb_transport_offset + tcp_hdrlen *)
  skb_inner_transport_hdr_end : Z; (* inner transport offset + inner_tcp_hdrlen *)
  skb_hw_tstamp : bool;            (* tx_flags & SKBTX_HW_TSTAMP *)
  skb_queue_mapping : Z
}.

(** The callbacks stored in a ring slot (ionic_desc_cb). *)
Inductive ionic_desc_cb := cb_ionic_rx_clean | cb_ionic_tx_clean.

(** Descriptor opcodes (enum ionic_txq_desc_opcode, ionic_rxq_desc_opcode),
    as far as ionic_txrx.c uses them. *)
Inductive txq_opcode :=
| IONIC_TXQ_DESC_OPCODE_CSUM_NONE
| IONIC_TXQ_DESC_OPCODE_CSUM_PARTIAL
| IONIC_TXQ_DESC_OPCODE_TSO.

Inductive rxq_opcode :=
| IONIC_RXQ_DESC_OPCODE_SIMPLE
| IONIC_RXQ_DESC_OPCODE_SG.

(** Transmit descriptor: the arguments of encode_txq_desc_cmd are kept
    apart (its bit layout lives in ionic_if.h), then the other fields. *)
Record ionic_txq_desc := mk_txq_desc {
  txd_opcode : txq_opcode;
  txd_flags : Z;
  txd_nsge : Z;
  txd_addr : Z;
  txd_len : Z;
  txd_vlan_tci : Z;
  txd_hdr_len : Z;
  txd_mss : Z;
  txd_csum_start : Z;
  txd_csum_offset : Z
}.

Record ionic_rxq_desc := mk_rxq_desc {
  rxd_opcode : rxq_opcode;
  rxd_addr : Z;
  rxd_len : Z
}.

(** desc_info->desc is a union of the descriptor kinds. *)
Inductive hw_desc :=
| desc_zero
| desc_txq (d : ionic_txq_desc)
| desc_rxq (d : ionic_rxq_desc).

(** struct ionic_desc_info: the software side of one ring slot. *)
Record ionic_desc_info := mk_desc_info {
  di_desc : hw_desc;
  di_sg_elems : list ionic_sg_elem;
  di_cb : option ionic_desc_cb;
  di_cb_arg : option sk_buff;
  di_nbufs : Z;
  di_bufs : list ionic_buf_info;
  di_bytes : Z
}.

Definition buf_zero : ionic_buf_info := mk_buf_info None 0 0 0 0.
Definition desc_info_zero : ionic_desc_info :=
  mk_desc_info desc_zero [] None None 0 [] 0.

#[global] Instance ionic_buf_info_inhabited : Inhabited ionic_buf_info :=
  populate buf_zero.
#[global] Instance ionic_sg_elem_inhabited : Inhabited ionic_sg_elem :=
  populate (mk_sg_elem 0 0).
#[global] Instance ionic_desc_info_inhabited : Inhabited ionic_desc_info :=
  populate desc_info_zero.

(** Completion entries, decoded (the fields hold the values that
    le16_to_cpu and friends return). *)
Record ionic_rxq_comp := mk_rxq_comp {
  rxc_status : Z;
  rxc_num_sg_elems : Z;
  rxc_comp_index : Z;
  rxc_len : Z;
  rxc_csum_flags : Z;
  rxc_pkt_type_color : Z
}.

Record ionic_txq_comp := mk_txq_comp {
  txc_status : Z;
  txc_comp_index : Z;
  txc_color : Z
}.

(** struct ionic_cq, as far as the service routines read it. *)
Record ionic_cq := mk_cq {
  cq_done_color : Z
}.

(** struct ionic_cq_info: the completion descriptor and, when the queue
    timestamps, the hardware stamp stored in front of it. *)
Record ionic_cq_info (C : Type) := mk_cq_info {
  cqi_comp : C;
  cqi_hwstamp : Z
}.
Arguments mk_cq_info {C}.
Arguments cqi_comp {C}.
Arguments cqi_hwstamp {C}.

(** ** Statistics counters (struct ionic_tx_stats / ionic_rx_stats, and the
    stop/wake/drop counters of the queue) *)

Inductive counter :=
| rx_pkts | rx_bytes | rx_dropped | rx_alloc_err | rx_dma_map_err
| rx_csum_error | rx_hwstamp_valid | rx_hwstamp_invalid
| tx_pkts | tx_bytes | tx_tso | tx_tso_bytes | tx_clean | tx_linearize
| tx_dma_map_err | tx_hwstamp_valid | tx_hwstamp_invalid
| q_stop | q_wake | q_drop.

#[global] Instance counter_eq_dec : EqDecision counter.
Proof. solve_decision. Defined.

(** ** Calls into the kernel, and two markers of the driver's own *)

Inductive event :=
| ev_dbell_ring (val : Z)
| ev_free_pages (p : page)
| ev_dma_map_page (a len : Z)
| ev_dma_map_single (a len : Z)
| ev_dma_unmap_page (a len : Z)
| ev_dma_unmap_single (a len : Z)
| ev_page_ref_add (p : page) (n : Z)
| ev_page_ref_sub (p : page) (n : Z)
| ev_get_page (p : page)
| ev_napi_gro_receive (len : Z)
| ev_napi_gro_frags (frags : list (page * Z * Z))
| ev_kfree_rx_skb
| ev_dev_kfree_skb (skb : sk_buff)
| ev_dev_consume_skb_any (skb : sk_buff)
| ev_skb_tstamp_tx (skb : sk_buff) (hwstamp : Z)
| ev_skb_tx_timestamp (skb : sk_buff)
| ev_netif_stop_subqueue (qi : Z)
| ev_netif_wake_subqueue (qi : Z)
| ev_netdev_tx_sent_queue (bytes : Z)
| ev_netdev_tx_completed_queue (pkts bytes : Z)
| ev_mod_timer
(** the cleaner [cb] ran on ring slot [i] *)
| ev_clean (cb : ionic_desc_cb) (i : Z)
(** ring slot [i], holding descriptor [d], was posted *)
| ev_q_post (i : Z) (d : hw_desc) (ring_dbell : bool)
            (cb : option ionic_desc_cb) (cb_arg : option sk_buff).

(** ** struct ionic_queue *)

Record ionic_queue := mk_queue {
  q_index : Z;
  q_num_descs : Z;
  q_max_sg_elems : Z;
  q_head_idx : Z;
  q_tail_idx : Z;
  q_info : list ionic_desc_info;
  q_dbval : Z;
  q_dbell_deadline : Z;
  q_dbell_jiffies : Z;
  q_hwstamp : bool;        (* features & IONIC_TXQ_F_HWSTAMP / IONIC_RXQ_F_HWSTAMP *)
  q_stats : list (counter * Z)  (* the counters touched so far; the others are 0 *)
}.

(** ** The kernel and the net device around the queue *)

Record kernel := mk_kernel {
  k_mtu : Z;                          (* netdev->mtu *)
  k_rx_copybreak : Z;                 (* lif->rx_copybreak *)
  k_stopped : list Z;                 (* stopped transmit subqueues *)
  k_jiffies : Z;
  k_xmit_more : bool;                 (* netdev_xmit_more() *)
  k_trace : list event;
  k_alloc_pages : list (option page); (* answers of alloc_pages *)
  k_dma_map : list Z;                 (* answers of dma_map_{page,single}, skb_frag_dma_map *)
  k_alloc_skb : list bool;            (* napi_get_frags / napi_alloc_skb succeed? *)
  k_cow_head : list Z;                (* answers of skb_cow_head *)
  k_linearize : list Z;               (* answers of skb_linearize *)
  k_racing_tail : list Z              (* tail_idx as seen after smp_rmb() *)
}.

Record world := mk_world {
  q : ionic_queue;
  k : kernel
}.

(** *** Field updates *)

Definition set_head_idx (v : Z) (x : ionic_queue) : ionic_queue :=
  mk_queue (q_index x) (q_num_descs x) (q_max_sg_elems x) v (q_tail_idx x)
    (q_info x) (q_dbval x) (q_dbell_deadline x) (q_dbell_jiffies x)
    (q_hwstamp x) (q_stats x).
Definition set_tail_idx (v : Z) (x : ionic_queue) : ionic_queue :=
  mk_queue (q_index x) (q_num_descs x) (q_max_sg_elems x) (q_head_idx x) v
    (q_info x) (q_dbval x) (q_dbell_deadline x) (q_dbell_jiffies x)
    (q_hwstamp x) (q_stats x).
Definition set_info (v : list ionic_desc_info) (x : ionic_queue) : ionic_queue :=
  mk_queue (q_index x) (q_num_descs x) (q_max_sg_elems x) (q_head_idx x)
    (q_tail_idx x) v (q_dbval x) (q_dbell_deadline x) (q_dbell_jiffies x)
    (q_hwstamp x) (q_stats x).
Definition set_dbell_deadline (v : Z) (x : ionic_queue) : ionic_queue :=
  mk_queue (q_index x) (q_num_descs x) (q_max_sg_elems x) (q_head_idx x)
    (q_tail_idx x) (q_info x) (q_dbval x) v (q_dbell_jiffies x)
    (q_hwstamp x) (q_stats x).
Definition set_dbell_jiffies (v : Z) (x : ionic_queue) : ionic_queue :=
  mk_queue (q_index x) (q_num_descs x) (q_max_sg_elems x) (q_head_idx x)
    (q_tail_idx x) (q_info x) (q_dbval x) (q_dbell_deadline x) v
    (q_hwstamp x) (q_stats x).
Definition set_stats (v : list (counter * Z)) (x : ionic_queue) : ionic_queue :=
  mk_queue (q_index x) (q_num_descs x) (q_max_sg_elems x) (q_head_idx x)
    (q_tail_idx x) (q_info x) (q_dbval x) (q_dbell_deadline x)
    (q_dbell_jiffies x) (q_hwstamp x) v.

Definition set_stopped (v : list Z) (x : kernel) : kernel :=
  mk_kernel (k_mtu x) (k_rx_copybreak x) v (k_jiffies x) (k_xmit_more x)
    (k_trace x) (k_alloc_pages x) (k_dma_map x) (k_alloc_skb x)
    (k_cow_head x) (k_linearize x) (k_racing_tail x).
Definition set_trace (v : list event) (x : kernel) : kernel :=
  mk_kernel (k_mtu x) (k_rx_copybreak x) (k_stopped x) (k_jiffies x)
    (k_xmit_more x) v (k_alloc_pages x) (k_dma_map x) (k_alloc_skb x)
    (k_cow_head x) (k_linearize x) (k_racing_tail x).
Definition set_alloc_pages (v : list (option page)) (x : kernel) : kernel :=
  mk_kernel (k_mtu x) (k_rx_copybreak x) (k_stopped x) (k_jiffies x)
    (k_xmit_more x) (k_trace x) v (k_dma_map x) (k_alloc_skb x)
    (k_cow_head x) (k_linearize x) (k_racing_tail x).
Definition set_dma_map (v : list Z) (x : kernel) : kernel :=
  mk_kernel (k_mtu x) (k_rx_copybreak x) (k_stopped x) (k_jiffies x)
    (k_xmit_more x) (k_trace x) (k_alloc_pages x) v (k_alloc_skb x)
    (k_cow_head x) (k_linearize x) (k_racing_tail x).
Definition set_alloc_skb (v : list bool) (x : kernel) : kernel :=
  mk_kernel (k_mtu x) (k_rx_copybreak x) (k_stopped x) (k_jiffies x)
    (k_xmit_more x) (k_trace x) (k_alloc_pages x) (k_dma_map x) v
    (k_cow_head x) (k_linearize x) (k_racing_tail x).
Definition set_cow_head (v : list Z) (x : kernel) : kernel :=
  mk_kernel (k_mtu x) (k_rx_copybreak x) (k_stopped x) (k_jiffies x)
    (k_xmit_more x) (k_trace x) (k_alloc_pages x) (k_dma_map x)
    (k_alloc_skb x) v (k_linearize x) (k_racing_tail x).
Definition set_linearize (v : list Z) (x : kernel) : kernel :=
  mk_kernel (k_mtu x) (k_rx_copybreak x) (k_stopped x) (k_jiffies x)
    (k_xmit_more x) (k_trace x) (k_alloc_pages x) (k_dma_map x)
    (k_alloc_skb x) (k_cow_head x) v (k_racing_tail x).
Definition set_racing_tail (v : list Z) (x : kernel) : kernel :=
  mk_kernel (k_mtu x) (k_rx_copybreak x) (k_stopped x) (k_jiffies x)
    (k_xmit_more x) (k_trace x) (k_alloc_pages x) (k_dma_map x)
    (k_alloc_skb x) (k_cow_head x) (k_linearize x) v.

Definition upd_q (f : ionic_queue -> ionic_queue) (w : world) : world :=
  mk_world (f (q w)) (k w).
Definition upd_k (f : kernel -> kernel) (w : world) : world :=
  mk_world (q w) (f (k w)).

Definition set_bi_page (v : option page) (b : ionic_buf_info) : ionic_buf_info :=
  mk_buf_info v (bi_dma_addr b) (bi_page_offset b) (bi_len b) (bi_pagecnt_bias b).
Definition set_bi_dma_addr (v : Z) (b : ionic_buf_info) : ionic_buf_info :=
  mk_buf_info (bi_page b) v (bi_page_offset b) (bi_len b) (bi_pagecnt_bias b).
Definition set_bi_page_offset (v : Z) (b : ionic_buf_info) : ionic_buf_info :=
  mk_buf_info (bi_page b) (bi_dma_addr b) v (bi_len b) (bi_pagecnt_bias b).
Definition set_bi_len (v : Z) (b : ionic_buf_info) : ionic_buf_info :=
  mk_buf_info (bi_page b) (bi_dma_addr b) (bi_page_offset b) v (bi_pagecnt_bias b).
Definition set_bi_pagecnt_bias (v : Z) (b : ionic_buf_info) : ionic_buf_info :=
  mk_buf_info (bi_page b) (bi_dma_addr b) (bi_page_offset b) (bi_len b) v.

Definition set_di_desc (v : hw_desc) (d : ionic_desc_info) : ionic_desc_info :=
  mk_desc_info v (di_sg_elems d) (di_cb d) (di_cb_arg d) (di_nbufs d)
    (di_bufs d) (di_bytes d).
Definition set_di_sg_elems (v : list ionic_sg_elem) (d : ionic_desc_info) : ionic_desc_info :=
  mk_desc_info (di_desc d) v (di_cb d) (di_cb_arg d) (di_nbufs d)
    (di_bufs d) (di_bytes d).
Definition set_di_cb (v : option ionic_desc_cb) (d : ionic_desc_info) : ionic_desc_info :=
  mk_desc_info (di_desc d) (di_sg_elems d) v (di_cb_arg d) (di_nbufs d)
    (di_bufs d) (di_bytes d).
Definition set_di_cb_arg (v : option sk_buff) (d : ionic_desc_info) : ionic_desc_info :=
  mk_desc_info (di_desc d) (di_sg_elems d) (di_cb d) v (di_nbufs d)
    (di_bufs d) (di_bytes d).
Definition set_di_nbufs (v : Z) (d : ionic_desc_info) : ionic_desc_info :=
  mk_desc_info (di_desc d) (di_sg_elems d) (di_cb d) (di_cb_arg d) v
    (di_bufs d) (di_bytes d).
Definition set_di_bufs (v : list ionic_buf_info) (d : ionic_desc_info) : ionic_desc_info :=
  mk_desc_info (di_desc d) (di_sg_elems d) (di_cb d) (di_cb_arg d)
    (di_nbufs d) v (di_bytes d).
Definition set_di_bytes (v : Z) (d : ionic_desc_info) : ionic_desc_info :=
  mk_desc_info (di_desc d) (di_sg_elems d) (di_cb d) (di_cb_arg d)
    (di_nbufs d) (di_bufs d) v.

(** *** Reading and writing array elements *)

(** [desc_info->bufs[j]] *)
Definition di_buf (d : ionic_desc_info) (j : Z) : ionic_buf_info :=
  di_bufs d !!! Z.to_nat j.
Definition set_di_buf (j : Z) (b : ionic_buf_info) (d : ionic_desc_info)
  : ionic_desc_info :=
  set_di_bufs (alter (fun _ => b) (Z.to_nat j) (di_bufs d)) d.

(** [q->info[i]] *)
Definition slot (w : world) (i : Z) : ionic_desc_info :=
  q_info (q w) !!! Z.to_nat i.
Definition upd_slot (i : Z) (f : ionic_desc_info -> ionic_desc_info)
  (w : world) : world :=
  upd_q (fun x => set_info (alter f (Z.to_nat i) (q_info x)) x) w.
Definition store_slot (i : Z) (d : ionic_desc_info) (w : world) : world :=
  upd_slot i (fun _ => d) w.

(** *** The trace, the counters and the kernel's answers *)

Definition log (e : event) (w : world) : world :=
  upd_k (fun x => set_trace (k_trace x ++ [e]) x) w.
Definition logs (es : list event) (w : world) : world :=
  upd_k (fun x => set_trace (k_trace x ++ es) x) w.

(** The value of counter [c]. *)
Fixpoint stat (c : counter) (st : list (counter * Z)) : Z :=
  match st with
  | [] => 0
  | (c', v) :: st' => if bool_decide (c' = c) then v else stat c st'
  end.

Fixpoint stat_set (c : counter) (v : Z) (st : list (counter * Z))
  : list (counter * Z) :=
  match st with
  | [] => [(c, v)]
  | (c', v') :: st' =>
      if bool_decide (c' = c) then (c, v) :: st'
      else (c', v') :: stat_set c v st'
  end.

(** [stats->c += n] on a u64 counter. *)
Definition bump (c : counter) (n : Z) (w : world) : world :=
  upd_q (fun x =>
    set_stats (stat_set c (u64 (stat c (q_stats x) + n)) (q_stats x)) x) w.
(** [stats->c = n] *)
Definition assign (c : counter) (n : Z) (w : world) : world :=
  upd_q (fun x => set_stats (stat_set c (u64 n) (q_stats x)) x) w.

Section Kernel.
Context `{ionic_consts}.

Definition pop_alloc_pages (w : world) : option page * world :=
  match k_alloc_pages (k w) with
  | [] => (None, w)
  | r :: rest => (r, upd_k (set_alloc_pages rest) w)
  end.

(** A mapping request; an exhausted script answers with the error cookie. *)
Definition pop_dma_map (w : world) : Z * world :=
  match k_dma_map (k w) with
  | [] => (DMA_MAPPING_ERROR, w)
  | a :: rest => (a, upd_k (set_dma_map rest) w)
  end.

Definition pop_alloc_skb (w : world) : bool * world :=
  match k_alloc_skb (k w) with
  | [] => (false, w)
  | r :: rest => (r, upd_k (set_alloc_skb rest) w)
  end.

Definition pop_cow_head (w : world) : Z * world :=
  match k_cow_head (k w) with
  | [] => (0, w)
  | r :: rest => (r, upd_k (set_cow_head rest) w)
  end.

Definition pop_linearize (w : world) : Z * world :=
  match k_linearize (k w) with
  | [] => (0, w)
  | r :: rest => (r, upd_k (set_linearize rest) w)
  end.

End Kernel.

(** ** Receive buffers *)

Section RxBuffers.
Context `{ionic_consts}.

(** ionic_rx_page_alloc(q, buf_info): [b] is [*buf_info]. *)
Definition ionic_rx_page_alloc (b : ionic_buf_info) (w : world)
  : Z * ionic_buf_info * world :=
  match pop_alloc_pages w with
  | (None, w) => (- ENOMEM, b, bump rx_alloc_err 1 w)
  | (Some p, w) =>
      let '(a, w) := pop_dma_map w in
      let w := log (ev_dma_map_page a IONIC_PAGE_SIZE) w in
      let b := set_bi_dma_addr a b in
      if dma_mapping_error a then
        (- EIO, b, bump rx_dma_map_err 1 (log (ev_free_pages p) w))
      else
        let b := set_bi_page_offset 0 (set_bi_page (Some p) b) in
        let b := if 0 <? IONIC_PAGE_ORDER then set_bi_pagecnt_bias 0 b
                 else b in
        (0, b, w)
  end.

(** ionic_rx_page_free(q, buf_info) *)
Definition ionic_rx_page_free (b : ionic_buf_info) (w : world)
  : ionic_buf_info * world :=
  match bi_page b with
  | None => (b, w)
  | Some p =>
      let w := log (ev_dma_unmap_page (bi_dma_addr b) IONIC_PAGE_SIZE) w in
      let w := if (0 <? IONIC_PAGE_ORDER) && negb (bi_pagecnt_bias b =? 0)
               then log (ev_page_ref_sub p (bi_pagecnt_bias b)) w
               else w in
      let w := log (ev_free_pages p) w in
      (set_bi_page None b, w)
  end.

(** ionic_rx_buf_recycle(q, buf_info, used): the answer, the buffer as the
    call leaves it, and the kernel calls made.  [mtu] is
    [q->lif->netdev->mtu].  The page pointer is not NULL at the only call
    site. *)
Definition ionic_rx_buf_recycle (mtu : Z) (b : ionic_buf_info) (used : Z)
  : bool * ionic_buf_info * list event :=
  match bi_page b with
  | None => (false, b, [])
  | Some p =>
      if negb (dev_page_is_reusable p) then (false, b, [])
      else if IONIC_PAGE_SPLIT_MAX_MTU <? mtu then (false, b, [])
      else
        let size := ALIGN used IONIC_PAGE_SPLIT_SZ in
        let b := set_bi_page_offset (u32 (bi_page_offset b + size)) b in
        if IONIC_PAGE_SIZE <=? bi_page_offset b then (false, b, [])
        else if 0 <? IONIC_PAGE_ORDER then
          (true, set_bi_pagecnt_bias (u32 (bi_pagecnt_bias b - 1)) b, [])
        else
          (true, b, [ev_get_page p])
  end.

(** The receive skb under construction. *)
Inductive rx_skb :=
| rx_skb_linear (len : Z)
| rx_skb_frags (frags : list (page * Z * Z)).

(** The do-while loop of ionic_rx_frags: [n] iterations left, [j] is the
    position of [buf_info] in [desc_info->bufs]. *)
Fixpoint rx_frags_loop (n : nat) (j len : Z) (frags : list (page * Z * Z))
  (d : ionic_desc_info) (w : world)
  : option rx_skb * ionic_desc_info * world :=
  match n with
  | O => (Some (rx_skb_frags frags), d, w)
  | S n' =>
      let b := di_buf d j in
      match bi_page b with
      | None => (None, d, log ev_kfree_rx_skb w)
      | Some p =>
          let frag_len :=
            Z.min (u16 len) (u16 (IONIC_PAGE_SIZE - bi_page_offset b)) in
          let len := u16 (len - frag_len) in
          let frags := frags ++ [(p, bi_page_offset b, frag_len)] in
          let '(r, b, evs) := ionic_rx_buf_recycle (k_mtu (k w)) b frag_len in
          let w := logs evs w in
          let '(b, w) :=
            if r then (b, w)
            else (set_bi_page None b,
                  log (ev_dma_unmap_page (bi_dma_addr b) IONIC_PAGE_SIZE) w) in
          rx_frags_loop n' (j + 1) len frags (set_di_buf j b d) w
      end
  end.

(** ionic_rx_frags(q, desc_info, comp) *)
Definition ionic_rx_frags (d : ionic_desc_info) (comp : ionic_rxq_comp)
  (w : world) : option rx_skb * ionic_desc_info * world :=
  let '(ok, w) := pop_alloc_skb w in          (* napi_get_frags *)
  if negb ok then (None, d, bump rx_alloc_err 1 w)
  else
    (* i = comp->num_sg_elems + 1; do { ... i--; } while (i > 0); *)
    rx_frags_loop (S (Z.to_nat (u8 (rxc_num_sg_elems comp)))) 0
      (rxc_len comp) [] d w.

(** ionic_rx_copybreak(q, desc_info, comp) *)
Definition ionic_rx_copybreak (d : ionic_desc_info) (comp : ionic_rxq_comp)
  (w : world) : option rx_skb * ionic_desc_info * world :=
  let '(ok, w) := pop_alloc_skb w in          (* napi_alloc_skb *)
  if negb ok then (None, d, bump rx_alloc_err 1 w)
  else
    match bi_page (di_buf d 0) with
    | None => (None, d, log ev_kfree_rx_skb w)
    | Some _ => (Some (rx_skb_linear (rxc_len comp)), d, w)
    end.

(** IONIC_HWSTAMP_INVALID: the all-ones stamp. *)
Definition IONIC_HWSTAMP_INVALID : Z := 2 ^ 64 - 1.

(** ionic_rx_clean(q, desc_info, cq_info, cb_arg).  The hash, checksum and
    VLAN fields only decorate the skb that is handed up; they are not
    modelled, nor are the counters kept under IONIC_DEBUG_STATS alone
    (csum_complete, csum_none, vlan_stripped).  The limit
    netdev->mtu + ETH_HLEN + VLAN_HLEN is taken as the plain sum: an mtu
    within 18 of 2^32, where the unsigned sum of the source wraps, is outside
    this model. *)
Definition ionic_rx_clean (d : ionic_desc_info)
  (cq_info : ionic_cq_info ionic_rxq_comp) (cb_arg : option sk_buff)
  (w : world) : ionic_desc_info * world :=
  let comp := cqi_comp cq_info in
  if negb (rxc_status comp =? 0) then (d, bump rx_dropped 1 w)
  else if k_mtu (k w) + ETH_HLEN + VLAN_HLEN <? rxc_len comp then
    (d, bump rx_dropped 1 w)
  else
    let w := bump rx_bytes (rxc_len comp) (bump rx_pkts 1 w) in
    let '(skb, d, w) :=
      if rxc_len comp <=? k_rx_copybreak (k w)
      then ionic_rx_copybreak d comp w
      else ionic_rx_frags d comp w in
    match skb with
    | None => (d, bump rx_dropped 1 w)
    | Some skb =>
        let csum_flags := rxc_csum_flags comp in
        let w :=
          if negb (Z.land csum_flags IONIC_RXQ_COMP_CSUM_F_TCP_BAD =? 0)
             || negb (Z.land csum_flags IONIC_RXQ_COMP_CSUM_F_UDP_BAD =? 0)
             || negb (Z.land csum_flags IONIC_RXQ_COMP_CSUM_F_IP_BAD =? 0)
          then bump rx_csum_error 1 w
          else w in
        let w :=
          if q_hwstamp (q w) then
            if negb (cqi_hwstamp cq_info =? IONIC_HWSTAMP_INVALID)
            then bump rx_hwstamp_valid 1 w
            else bump rx_hwstamp_invalid 1 w
          else w in
        match skb with
        | rx_skb_linear len => (d, log (ev_napi_gro_receive len) w)
        | rx_skb_frags frags => (d, log (ev_napi_gro_frags frags) w)
        end
    end.

(** ionic_rx_service(cq, cq_info); [cq->bound_q] is the queue of [w]. *)
Definition ionic_rx_service (cq : ionic_cq)
  (cq_info : ionic_cq_info ionic_rxq_comp) (w : world) : bool * world :=
  let comp := cqi_comp cq_info in
  if negb (color_match (rxc_pkt_type_color comp) (cq_done_color cq)) then
    (false, w)
  else if q_tail_idx (q w) =? q_head_idx (q w) then (false, w)
  else if negb (q_tail_idx (q w) =? rxc_comp_index comp) then (false, w)
  else
    let i := q_tail_idx (q w) in
    let d := slot w i in
    let w := upd_q (set_tail_idx (Z.land (i + 1) (q_num_descs (q w) - 1))) w in
    let w := log (ev_clean cb_ionic_rx_clean i) w in
    let '(d, w) := ionic_rx_clean d cq_info (di_cb_arg d) w in
    let d := set_di_cb_arg None (set_di_cb None d) in
    (true, store_slot i d w).

End RxBuffers.

(** ** The descriptor ring (ionic_dev.c / ionic_dev.h) *)

Section Ring.
Context `{ionic_consts}.

(** Modelled from the spec: ionic_q_post of ionic_dev.c is not in
    ionic_txrx.c.  "post(descriptor, ring_doorbell, completion_callback,
    callback_arg) writes one descriptor + software metadata at head_idx,
    advances head_idx modulo N, and conditionally signals hardware via a
    doorbell."  The descriptor itself has been written into the slot by the
    caller. *)
Definition ionic_q_post (ring_dbell : bool) (cb : option ionic_desc_cb)
  (cb_arg : option sk_buff) (w : world) : world :=
  let i := q_head_idx (q w) in
  let w := upd_slot i (fun d => set_di_cb_arg cb_arg (set_di_cb cb d)) w in
  let w := log (ev_q_post i (di_desc (slot w i)) ring_dbell cb cb_arg) w in
  let w := upd_q (set_head_idx ((i + 1) mod q_num_descs (q w))) w in
  if ring_dbell
  then log (ev_dbell_ring (Z.lor (q_dbval (q w)) (q_head_idx (q w)))) w
  else w.

(** Modelled from the spec: ionic_q_space_avail of ionic_dev.h.
    "space_available() returns count of free slots =
    N - 1 - ((head_idx - tail_idx) mod N)". *)
Definition ionic_q_space_avail (x : ionic_queue) : Z :=
  q_num_descs x - 1 - ((q_head_idx x - q_tail_idx x) mod q_num_descs x).

(** Modelled from the spec: ionic_q_has_space of ionic_dev.h, the check
    "has_space(n)" made before posting [n] descriptors. *)
Definition ionic_q_has_space (x : ionic_queue) (want : Z) : bool :=
  want <=? ionic_q_space_avail x.

(** ionic_txq_post / ionic_rxq_post: ionic_q_post and a debug counter. *)
Definition ionic_txq_post := ionic_q_post.
Definition ionic_rxq_post := ionic_q_post.

End Ring.

(** ** Transmit completion *)

Section TxClean.
Context `{ionic_consts}.

Definition netif_subqueue_stopped (qi : Z) (w : world) : bool :=
  bool_decide (qi ∈ k_stopped (k w)).
Definition netif_stop_subqueue (qi : Z) (w : world) : world :=
  log (ev_netif_stop_subqueue qi)
    (upd_k (fun x => set_stopped (qi :: k_stopped x) x) w).
Definition netif_wake_subqueue (qi : Z) (w : world) : world :=
  log (ev_netif_wake_subqueue qi)
    (upd_k (fun x =>
       set_stopped (filter (fun y => y ≠ qi) (k_stopped x)) x) w).

(** ionic_tx_desc_unmap_bufs(q, desc_info) *)
Definition ionic_tx_desc_unmap_bufs (d : ionic_desc_info) (w : world)
  : ionic_desc_info * world :=
  if di_nbufs d =? 0 then (d, w)
  else
    let w := log (ev_dma_unmap_single (bi_dma_addr (di_buf d 0))
                                      (bi_len (di_buf d 0))) w in
    let w := fold_left (fun w i =>
               log (ev_dma_unmap_page (bi_dma_addr (di_buf d i))
                                      (bi_len (di_buf d i))) w)
               (seqZ 1 (di_nbufs d - 1)) w in
    (set_di_nbufs 0 d, w).

(** ionic_tx_clean(q, desc_info, cq_info, cb_arg); [cq_info] is NULL when
    called from ionic_tx_empty. *)
Definition ionic_tx_clean (d : ionic_desc_info)
  (cq_info : option (ionic_cq_info ionic_txq_comp))
  (cb_arg : option sk_buff) (w : world) : ionic_desc_info * world :=
  let '(d, w) := ionic_tx_desc_unmap_bufs d w in
  match cb_arg with
  | None => (d, w)
  | Some skb =>
      let qi := skb_queue_mapping skb in
      let w :=
        if q_hwstamp (q w) then
          match cq_info with
          | Some ci =>
              if negb (cqi_hwstamp ci =? IONIC_HWSTAMP_INVALID)
              then bump tx_hwstamp_valid 1
                     (log (ev_skb_tstamp_tx skb (cqi_hwstamp ci)) w)
              else bump tx_hwstamp_invalid 1 w
          | None => w
          end
        else if netif_subqueue_stopped qi w
        then bump q_wake 1 (netif_wake_subqueue qi w)
        else w in
      let d := set_di_bytes (skb_len skb) d in
      let w := bump tx_clean 1 w in
      (d, log (ev_dev_consume_skb_any skb) w)
  end.

(** One round of the loops of ionic_tx_service and ionic_tx_empty: clean
    the slot at tail_idx and step tail_idx.  Gives the index cleaned, the
    new packet and byte counts and the new state.  [pkts] and [bytes] are
    ints in the source; the sums are taken as they stand, which is what the
    source computes while they stay below 2^31. *)
Definition tx_drain_one (cq_info : option (ionic_cq_info ionic_txq_comp))
  (pkts bytes : Z) (w : world) : Z * Z * Z * world :=
  let i := q_tail_idx (q w) in
  let d := set_di_bytes 0 (slot w i) in
  let w := upd_q (set_tail_idx (Z.land (i + 1) (q_num_descs (q w) - 1))) w in
  let w := log (ev_clean cb_ionic_tx_clean i) w in
  let '(d, w) := ionic_tx_clean d cq_info (di_cb_arg d) w in
  let '(pkts, bytes) :=
    match di_cb_arg d with
    | Some _ => (pkts + 1, bytes + di_bytes d)
    | None => (pkts, bytes)
    end in
  let d := set_di_cb_arg None (set_di_cb None d) in
  (i, pkts, bytes, store_slot i d w).

(** The do-while loop of ionic_tx_service; [index] is a u16.  [None]: the
    loop has not met [comp_index] within [fuel] rounds. *)
Fixpoint tx_service_loop (fuel : nat) (cq_info : ionic_cq_info ionic_txq_comp)
  (pkts bytes : Z) (w : world) : option (Z * Z * world) :=
  match fuel with
  | O => None
  | S fuel' =>
      let '(i, pkts, bytes, w) := tx_drain_one (Some cq_info) pkts bytes w in
      let index := u16 i in
      if negb (index =? txc_comp_index (cqi_comp cq_info))
      then tx_service_loop fuel' cq_info pkts bytes w
      else Some (pkts, bytes, w)
  end.

Definition bql_completed (pkts bytes : Z) (w : world) : world :=
  if IONIC_SUPPORTS_BQL && negb (pkts =? 0) && negb (bytes =? 0)
     && negb (q_hwstamp (q w))
  then log (ev_netdev_tx_completed_queue pkts bytes) w
  else w.

(** ionic_tx_service(cq, cq_info).  tail_idx takes at most num_descs + 1
    different values, so that many rounds decide whether the loop ends. *)
Definition ionic_tx_service (cq : ionic_cq)
  (cq_info : ionic_cq_info ionic_txq_comp) (w : world)
  : option (bool * world) :=
  if negb (color_match (txc_color (cqi_comp cq_info)) (cq_done_color cq))
  then Some (false, w)
  else
    match tx_service_loop (S (Z.to_nat (q_num_descs (q w)))) cq_info 0 0 w with
    | None => None
    | Some (pkts, bytes, w) => Some (true, bql_completed pkts bytes w)
    end.

(** The while loop of ionic_tx_empty. *)
Fixpoint tx_empty_loop (fuel : nat) (pkts bytes : Z) (w : world)
  : option (Z * Z * world) :=
  if q_head_idx (q w) =? q_tail_idx (q w) then Some (pkts, bytes, w)
  else
    match fuel with
    | O => None
    | S fuel' =>
        let '(_, pkts, bytes, w) := tx_drain_one None pkts bytes w in
        tx_empty_loop fuel' pkts bytes w
    end.

(** ionic_tx_empty(q) *)
Definition ionic_tx_empty (w : world) : option world :=
  match tx_empty_loop (S (Z.to_nat (q_num_descs (q w)))) 0 0 w with
  | None => None
  | Some (pkts, bytes, w) => Some (bql_completed pkts bytes w)
  end.

End TxClean.

(** ** Receive fill and teardown *)

Section RxFill.
Context `{ionic_consts}.

(** "alloc a new buffer?": the page allocation of ionic_rx_fill for the
    buffer at position [j] of [d], with the bias set-up of high-order
    pages.  [false]: the allocation failed and ionic_rx_fill returns. *)
Definition rx_fill_alloc (nsplits j : Z) (d : ionic_desc_info) (w : world)
  : bool * ionic_desc_info * world :=
  match bi_page (di_buf d j) with
  | Some _ => (true, d, w)
  | None =>
      let '(err, b, w) := ionic_rx_page_alloc (di_buf d j) w in
      let d := set_di_buf j b d in
      if negb (err =? 0) then (false, d, w)
      else if 0 <? IONIC_PAGE_ORDER then
        let b := set_bi_pagecnt_bias (u32 (nsplits - 1)) b in
        let w := match bi_page b with
                 | Some p => if negb (bi_pagecnt_bias b =? 0)
                             then log (ev_page_ref_add p (bi_pagecnt_bias b)) w
                             else w
                 | None => w
                 end in
        (true, set_di_buf j b d, w)
      else (true, d, w)
  end.

Definition set_sg_elem (j : Z) (e : ionic_sg_elem) (d : ionic_desc_info)
  : ionic_desc_info :=
  set_di_sg_elems (alter (fun _ => e) (Z.to_nat j) (di_sg_elems d)) d.

(** "fill sg descriptors - buf[1..n]": the inner for loop, [n] being
    [max_sg_elems - j].  Gives [false] on an allocation failure, and the
    final [j], [nfrags]. *)
Fixpoint rx_fill_sg (n : nat) (nsplits j remain_len nfrags : Z)
  (d : ionic_desc_info) (w : world)
  : bool * Z * Z * ionic_desc_info * world :=
  match n with
  | O => (true, j, nfrags, d, w)
  | S n' =>
      if negb (0 <? remain_len) then (true, j, nfrags, d, w)
      else
        let '(ok, d, w) := rx_fill_alloc nsplits (j + 1) d w in
        if negb ok then (false, j, nfrags, set_sg_elem j (mk_sg_elem 0 0) d, w)
        else
          let b := di_buf d (j + 1) in
          let frag_len :=
            Z.min (u16 remain_len) (u16 (IONIC_PAGE_SIZE - bi_page_offset b)) in
          let d := set_sg_elem j
                     (mk_sg_elem (u64 (bi_dma_addr b + bi_page_offset b))
                                 frag_len) d in
          rx_fill_sg n' nsplits (j + 1) (u32 (remain_len - frag_len))
            (nfrags + 1) d w
  end.

(** One round of the outer for loop of ionic_rx_fill: fill and post the
    slot at head_idx.  [false]: an allocation failed. *)
Definition rx_fill_one (len nsplits : Z) (w : world) : bool * world :=
  let i := q_head_idx (q w) in
  let d := slot w i in
  let '(ok, d, w) := rx_fill_alloc nsplits 0 d w in
  if negb ok then (false, store_slot i d w)
  else
    let b := di_buf d 0 in
    let addr := u64 (bi_dma_addr b + bi_page_offset b) in
    let frag_len :=
      Z.min (u16 len) (u16 (IONIC_PAGE_SIZE - bi_page_offset b)) in
    let remain_len := u32 (len - frag_len) in
    let '(ok, j, nfrags, d, w) :=
      rx_fill_sg (Z.to_nat (q_max_sg_elems (q w))) nsplits 0 remain_len 1 d w in
    if negb ok then (false, store_slot i d w)
    else
      let d := if j <? q_max_sg_elems (q w)
               then set_sg_elem j (mk_sg_elem 0 0) d else d in
      let opcode := if 1 <? nfrags then IONIC_RXQ_DESC_OPCODE_SG
                    else IONIC_RXQ_DESC_OPCODE_SIMPLE in
      let d := set_di_nbufs nfrags d in
      let d := set_di_desc (desc_rxq (mk_rxq_desc opcode addr frag_len)) d in
      let w := store_slot i d w in
      (true, ionic_rxq_post false (Some cb_ionic_rx_clean) None w).

(** The outer for loop: [for (i = ionic_q_space_avail(q); i; i--)]. *)
Fixpoint rx_fill_loop (n : nat) (len nsplits : Z) (w : world) : bool * world :=
  match n with
  | O => (true, w)
  | S n' =>
      let '(ok, w) := rx_fill_one len nsplits w in
      if negb ok then (false, w) else rx_fill_loop n' len nsplits w
  end.

(** The fill pass of ionic_rx_fill: its for loop, from the set-up of
    [len] and [nsplits] on.  [false]: the pass was cut short by an
    allocation failure. *)
Definition rx_fill_pass (w : world) : bool * world :=
  let len := u32 (k_mtu (k w) + ETH_HLEN + VLAN_HLEN) in
  let nsplits := IONIC_PAGE_SIZE / ALIGN len IONIC_PAGE_SPLIT_SZ in
  rx_fill_loop (Z.to_nat (u32 (ionic_q_space_avail (q w)))) len nsplits w.

(** ionic_rx_fill(q) *)
Definition ionic_rx_fill (w : world) : world :=
  let '(ok, w) := rx_fill_pass w in
  if negb ok then w
  else
    let w := log (ev_dbell_ring (Z.lor (q_dbval (q w)) (q_head_idx (q w)))) w in
    let w := upd_q (set_dbell_deadline IONIC_RX_MIN_DOORBELL_DEADLINE) w in
    let w := upd_q (set_dbell_jiffies (k_jiffies (k w))) w in
    log ev_mod_timer w.

(** The body of the inner for loop of ionic_rx_empty, at buffer [j]. *)
Definition rx_empty_buf (dw : ionic_desc_info * world) (j : Z)
  : ionic_desc_info * world :=
  let '(d, w) := dw in
  match bi_page (di_buf d j) with
  | Some _ =>
      let '(b, w) := ionic_rx_page_free (di_buf d j) w in
      (set_di_buf j b d, w)
  | None => (d, w)
  end.

(** The inner for loop of ionic_rx_empty over [desc_info->bufs]. *)
Definition rx_empty_bufs (d : ionic_desc_info) (w : world)
  : ionic_desc_info * world :=
  fold_left rx_empty_buf (seqZ 0 (IONIC_RX_MAX_SG_ELEMS + 1)) (d, w).

(** The body of the outer for loop of ionic_rx_empty, at slot [i]. *)
Definition rx_empty_one (w : world) (i : Z) : world :=
  let '(d, w) := rx_empty_bufs (slot w i) w in
  let d := set_di_cb_arg None (set_di_cb None (set_di_nbufs 0 d)) in
  store_slot i d w.

(** ionic_rx_empty(q) *)
Definition ionic_rx_empty (w : world) : world :=
  let w := fold_left rx_empty_one (seqZ 0 (q_num_descs (q w))) w in
  upd_q (set_tail_idx 0) (upd_q (set_head_idx 0) w).

End RxFill.

(** ** Doorbell pokes *)

Section Doorbell.
Context `{ionic_consts}.



End Doorbell.

(** ** Transmit: DMA mapping *)

Section TxMap.
Context `{ionic_consts}.

(** ionic_tx_map_single(q, data, len): 0 when the mapping failed. *)
Definition ionic_tx_map_single (len : Z) (w : world) : Z * world :=
  let '(a, w) := pop_dma_map w in            (* dma_map_single *)
  let w := log (ev_dma_map_single a len) w in
  if dma_mapping_error a then (0, bump tx_dma_map_err 1 w) else (a, w).

(** ionic_tx_map_frag(q, frag, offset, len): the address, also on error. *)
Definition ionic_tx_map_frag (len : Z) (w : world) : Z * world :=
  let '(a, w) := pop_dma_map w in            (* skb_frag_dma_map *)
  let w := log (ev_dma_map_page a len) w in
  if dma_mapping_error a then (a, bump tx_dma_map_err 1 w) else (a, w).

(** The for loop of ionic_tx_map_skb over the fragments still to map;
    [j] is the position of [buf_info] in [desc_info->bufs].  [false]: a
    mapping failed and control goes to dma_fail with this [frag_idx] and
    [buf_info]. *)
Fixpoint tx_map_frags (frags : list Z) (frag_idx j : Z)
  (d : ionic_desc_info) (w : world)
  : bool * Z * Z * ionic_desc_info * world :=
  match frags with
  | [] => (true, frag_idx, j, d, w)
  | size :: frags' =>
      let '(dma_addr, w) := ionic_tx_map_frag size w in
      if dma_mapping_error dma_addr then
        (false, frag_idx, j, d, bump tx_dma_map_err 1 w)
      else
        let d := set_di_buf j
                   (set_bi_len size (set_bi_dma_addr dma_addr (di_buf d j))) d in
        tx_map_frags frags' (frag_idx + 1) (j + 1) d w
  end.

(** The while loop at dma_fail: [n] is frag_idx. *)
Fixpoint tx_map_unwind (n : nat) (j : Z) (d : ionic_desc_info) (w : world)
  : Z * world :=
  match n with
  | O => (j, w)
  | S n' =>
      let j := j - 1 in
      let w := log (ev_dma_unmap_page (bi_dma_addr (di_buf d j))
                                      (bi_len (di_buf d j))) w in
      tx_map_unwind n' j d w
  end.

(** ionic_tx_map_skb(q, skb, desc_info): 0 or -EIO. *)
Definition ionic_tx_map_skb (skb : sk_buff) (d : ionic_desc_info) (w : world)
  : Z * ionic_desc_info * world :=
  let '(dma_addr, w) := ionic_tx_map_single (skb_headlen skb) w in
  if dma_mapping_error dma_addr then (- EIO, d, bump tx_dma_map_err 1 w)
  else
    let d := set_di_buf 0
               (set_bi_len (skb_headlen skb)
                  (set_bi_dma_addr dma_addr (di_buf d 0))) d in
    let nfrags := Z.of_nat (length (skb_frags skb)) in
    let '(ok, frag_idx, j, d, w) := tx_map_frags (skb_frags skb) 0 1 d w in
    if ok then (0, set_di_nbufs (1 + nfrags) d, w)
    else
      (* dma_fail: unwind the frag mappings and the head mapping *)
      let '(j, w) := tx_map_unwind (Z.to_nat frag_idx) j d w in
      let w := log (ev_dma_unmap_single (bi_dma_addr (di_buf d j))
                                        (bi_len (di_buf d j))) w in
      (- EIO, d, w).

End TxMap.

(** ** Transmit: TSO *)

Section Tso.
Context `{ionic_consts}.

(** ionic_tx_tcp_pseudo_csum / ionic_tx_tcp_inner_pseudo_csum: the result of
    skb_cow_head; the checksum seed written into the packet's TCP header is
    packet data, which is not modelled. *)
Definition ionic_tx_tcp_pseudo_csum (w : world) : Z * world := pop_cow_head w.
Definition ionic_tx_tcp_inner_pseudo_csum (w : world) : Z * world :=
  pop_cow_head w.

Definition bql_sent (skb : sk_buff) (w : world) : world :=
  if IONIC_SUPPORTS_BQL && negb (q_hwstamp (q w))
  then log (ev_netdev_tx_sent_queue (skb_len skb)) w
  else w.

(** The flags byte built by ionic_tx_tso_post. *)
Definition tso_flags (has_vlan outer_csum start done : bool) : Z :=
  let flags := 0 in
  let flags := u8 (Z.lor flags (if has_vlan then IONIC_TXQ_DESC_FLAG_VLAN else 0)) in
  let flags := u8 (Z.lor flags (if outer_csum then IONIC_TXQ_DESC_FLAG_ENCAP else 0)) in
  let flags := u8 (Z.lor flags (if start then IONIC_TXQ_DESC_FLAG_TSO_SOT else 0)) in
  let flags := u8 (Z.lor flags (if done then IONIC_TXQ_DESC_FLAG_TSO_EOT else 0)) in
  flags.

(** ionic_tx_tso_post(q, desc, skb, addr, nsge, len, hdrlen, mss,
    outer_csum, vlan_tci, has_vlan, start, done).  [desc] is the slot whose
    descriptor it points to; [None] is the NULL pointer, which the memcpy
    dereferences. *)
Definition ionic_tx_tso_post (desc : option Z) (skb : sk_buff)
  (addr nsge len hdrlen mss : Z) (outer_csum : bool) (vlan_tci : Z)
  (has_vlan start done : bool) (w : world) : option world :=
  match desc with
  | None => None
  | Some i =>
      let flags := tso_flags has_vlan outer_csum start done in
      let tmp_desc :=
        mk_txq_desc IONIC_TXQ_DESC_OPCODE_TSO flags nsge addr
          (u16 len) (u16 vlan_tci) (u16 hdrlen) (u16 mss) 0 0 in
      let w := upd_slot i (set_di_desc (desc_txq tmp_desc)) w in
      if start then
        let w := log (ev_skb_tx_timestamp skb) w in
        let w := bql_sent skb w in
        Some (ionic_txq_post false (Some cb_ionic_tx_clean) (Some skb) w)
      else
        Some (ionic_txq_post done None None w)
  end.

(** The walk over the mapped buffers: position of [buf_info] in the bufs of
    the first slot, address and bytes left of the current fragment, bytes
    left of the packet and of the segment. *)
Record tso_walk := mk_tso_walk {
  tw_buf : Z;
  tw_frag_addr : Z;
  tw_frag_rem : Z;
  tw_tso_rem : Z;
  tw_seg_rem : Z
}.

(** The descriptor being assembled: [desc] (slot, or NULL), position of
    [elem] in the slot's sg list, and desc_addr, desc_len, desc_nsge. *)
Record tso_desc := mk_tso_desc {
  td_desc : option Z;
  td_elem : Z;
  td_addr : Z;
  td_len : Z;
  td_nsge : Z
}.

(** The inner while loop of ionic_tx_tso: "use fragments until we have
    enough to post a single descriptor".  [head0] is the slot that holds the
    buffers, [cur] the slot of [desc_info].  [None]: out of fuel. *)
Fixpoint tso_segment (fuel : nat) (head0 cur : Z) (t : tso_walk)
  (s : tso_desc) (w : world) : option (tso_walk * tso_desc * world) :=
  if negb (0 <? tw_seg_rem t) then Some (t, s, w)
  else
    match fuel with
    | O => None
    | S fuel' =>
        let b := di_buf (slot w head0) (tw_buf t) in
        let '(frag_addr, frag_rem, bj) :=
          if tw_frag_rem t =? 0
          then (bi_dma_addr b, u32 (bi_len b), tw_buf t + 1)
          else (tw_frag_addr t, tw_frag_rem t, tw_buf t) in
        let chunk_len := Z.min frag_rem (tw_seg_rem t) in
        let '(s, w) :=
          match td_desc s with
          | None => (mk_tso_desc (Some cur) 0 frag_addr (u16 chunk_len) 0, w)
          | Some _ =>
              (mk_tso_desc (td_desc s) (td_elem s + 1) (td_addr s) (td_len s)
                 (u8 (td_nsge s + 1)),
               upd_slot cur
                 (set_sg_elem (td_elem s) (mk_sg_elem frag_addr (u16 chunk_len)))
                 w)
          end in
        tso_segment fuel' head0 cur
          (mk_tso_walk bj (u64 (frag_addr + chunk_len))
             (u32 (frag_rem - chunk_len)) (u32 (tw_tso_rem t - chunk_len))
             (u32 (tw_seg_rem t - chunk_len)))
          s w
    end.

(** The outer while loop of ionic_tx_tso; [inner] is the fuel handed to
    each run of the inner loop.  [None]: out of fuel, or a NULL descriptor
    was posted. *)
Fixpoint tso_loop (fuel inner : nat) (skb : sk_buff) (hdrlen mss : Z)
  (head0 cur : Z) (t : tso_walk) (start : bool) (w : world) : option world :=
  if negb (0 <? tw_tso_rem t) then Some w
  else
    match fuel with
    | O => None
    | S fuel' =>
        match tso_segment inner head0 cur t (mk_tso_desc None 0 0 0 0) w with
        | None => None
        | Some (t, s, w) =>
            let t := mk_tso_walk (tw_buf t) (tw_frag_addr t) (tw_frag_rem t)
                       (tw_tso_rem t) (Z.min (tw_tso_rem t) mss) in
            let done := tw_tso_rem t =? 0 in
            match ionic_tx_tso_post (td_desc s) skb (td_addr s) (td_nsge s)
                    (td_len s) hdrlen mss (skb_gso_outer_csum skb)
                    (skb_vlan_tci skb) (skb_vlan_present skb) start done w with
            | None => None
            | Some w =>
                (* Buffer information is stored with the first tso descriptor *)
                let cur := q_head_idx (q w) in
                let w := upd_slot cur (set_di_nbufs 0) w in
                tso_loop fuel' inner skb hdrlen mss head0 cur t false w
            end
        end
    end.

(** DIV_ROUND_UP(n, d) on unsigned int. *)
Definition DIV_ROUND_UP (n d : Z) : Z := u32 (n + d - 1) / d.

(** ionic_tx_tso(q, skb): 0 or a negative errno.  Every round of either
    loop consumes a byte of the packet or moves to the next buffer, so
    [skb->len] plus the size of the bufs array, plus one, bounds the rounds
    of a run that ends. *)
Definition ionic_tx_tso (skb : sk_buff) (w : world) : option (Z * world) :=
  let head0 := q_head_idx (q w) in
  let '(err, d, w) := ionic_tx_map_skb skb (slot w head0) w in
  let w := store_slot head0 d w in
  if negb (err =? 0) then Some (- EIO, w)
  else
    let len := skb_len skb in
    let mss := skb_gso_size skb in
    let encap := skb_encapsulation skb in
    let '(err, w) := if encap then ionic_tx_tcp_inner_pseudo_csum w
                     else ionic_tx_tcp_pseudo_csum w in
    if negb (err =? 0) then
      (* clean up mapping from ionic_tx_map_skb *)
      let '(d, w) := ionic_tx_desc_unmap_bufs (slot w head0) w in
      Some (err, store_slot head0 d w)
    else
      let hdrlen := if encap then skb_inner_transport_hdr_end skb
                    else skb_transport_hdr_end skb in
      let tso_rem := len in
      let seg_rem := Z.min tso_rem (u32 (hdrlen + mss)) in
      let fuel := S (Z.to_nat len + length (di_bufs (slot w head0))) in
      match tso_loop fuel fuel skb hdrlen mss head0 head0
              (mk_tso_walk 0 0 0 tso_rem seg_rem) true w with
      | None => None
      | Some w =>
          let w := bump tx_pkts (DIV_ROUND_UP (u32 (len - hdrlen)) mss) w in
          let w := bump tx_bytes len w in
          let w := bump tx_tso 1 w in
          let w := assign tx_tso_bytes len w in
          Some (0, w)
      end.

End Tso.

(** ** Transmit: the send entry point *)

Inductive netdev_tx_t := NETDEV_TX_OK | NETDEV_TX_BUSY.

(** struct ionic_lif, as far as ionic_start_xmit reads it, with the kernel
    state shared by its queues. *)
Record ionic_lif := mk_lif {
  lif_up : bool;                          (* test_bit(IONIC_LIF_F_UP, lif->state) *)
  lif_nxqs : Z;
  lif_txqs : list ionic_queue;            (* lif->txqcqs[i]->q *)
  lif_hwstamp_txq : option ionic_queue;   (* lif->hwstamp_txq *)
  lif_ts_config_tx_mode : Z;              (* lif->phc->ts_config_tx_mode *)
  lif_k : kernel
}.

#[global] Instance ionic_queue_inhabited : Inhabited ionic_queue :=
  populate (mk_queue 0 0 0 0 0 [] 0 0 0 false []).

Section Xmit.
Context `{ionic_consts}.

Definition txq_flags (has_vlan encap : bool) : Z :=
  let flags := 0 in
  let flags := u8 (Z.lor flags (if has_vlan then IONIC_TXQ_DESC_FLAG_VLAN else 0)) in
  let flags := u8 (Z.lor flags (if encap then IONIC_TXQ_DESC_FLAG_ENCAP else 0)) in
  flags.

(** ionic_tx_calc_csum(q, skb, desc_info) *)
Definition ionic_tx_calc_csum (skb : sk_buff) (d : ionic_desc_info)
  : ionic_desc_info :=
  let b := di_buf d 0 in
  let has_vlan := skb_vlan_present skb in
  let flags := txq_flags has_vlan (skb_encapsulation skb) in
  set_di_desc
    (desc_txq
       (mk_txq_desc IONIC_TXQ_DESC_OPCODE_CSUM_PARTIAL flags
          (u8 (Z.of_nat (length (skb_frags skb)))) (bi_dma_addr b)
          (u16 (bi_len b)) (if has_vlan then u16 (skb_vlan_tci skb) else 0)
          0 0 (u16 (skb_csum_start skb)) (u16 (skb_csum_offset skb)))) d.

(** ionic_tx_calc_no_csum(q, skb, desc_info) *)
Definition ionic_tx_calc_no_csum (skb : sk_buff) (d : ionic_desc_info)
  : ionic_desc_info :=
  let b := di_buf d 0 in
  let has_vlan := skb_vlan_present skb in
  let flags := txq_flags has_vlan (skb_encapsulation skb) in
  set_di_desc
    (desc_txq
       (mk_txq_desc IONIC_TXQ_DESC_OPCODE_CSUM_NONE flags
          (u8 (Z.of_nat (length (skb_frags skb)))) (bi_dma_addr b)
          (u16 (bi_len b)) (if has_vlan then u16 (skb_vlan_tci skb) else 0)
          0 0 0 0)) d.

(** ionic_tx_skb_frags(q, skb, desc_info): buffer i + 1 becomes sg
    element i. *)
Definition ionic_tx_skb_frags (skb : sk_buff) (d : ionic_desc_info)
  : ionic_desc_info :=
  fold_left (fun d i =>
               set_sg_elem i
                 (mk_sg_elem (bi_dma_addr (di_buf d (i + 1)))
                             (u16 (bi_len (di_buf d (i + 1))))) d)
            (seqZ 0 (Z.of_nat (length (skb_frags skb)))) d.

(** ionic_tx(q, skb): 0 or -EIO. *)
Definition ionic_tx (skb : sk_buff) (w : world) : Z * world :=
  let i := q_head_idx (q w) in
  let '(err, d, w) := ionic_tx_map_skb skb (slot w i) w in
  if negb (err =? 0) then (- EIO, store_slot i d w)
  else
    let d := if skb_csum_partial skb then ionic_tx_calc_csum skb d
             else ionic_tx_calc_no_csum skb d in
    let d := ionic_tx_skb_frags skb d in
    let w := store_slot i d w in
    let w := log (ev_skb_tx_timestamp skb) w in
    let w := bump tx_bytes (skb_len skb) (bump tx_pkts 1 w) in
    let w := bql_sent skb w in
    let ring := if HAVE_SKB_XMIT_MORE then negb (k_xmit_more (k w)) else true in
    (0, ionic_txq_post ring (Some cb_ionic_tx_clean) (Some skb) w).

(** skb_linearize(skb) on success: all bytes are in the head. *)
Definition linearized (skb : sk_buff) : sk_buff :=
  mk_skb (skb_id skb) (skb_len skb) (skb_len skb) [] (skb_gso_size skb)
    (skb_gso_segs skb) (skb_is_gso skb) (skb_gso_outer_csum skb)
    (skb_vlan_present skb) (skb_vlan_tci skb) (skb_encapsulation skb)
    (skb_csum_partial skb) (skb_csum_start skb) (skb_csum_offset skb)
    (skb_transport_hdr_end skb) (skb_inner_transport_hdr_end skb)
    (skb_hw_tstamp skb) (skb_queue_mapping skb).

(** ionic_tx_descs_needed(q, skb): the count or a negative errno, and the
    skb as the call leaves it. *)
Definition ionic_tx_descs_needed (skb : sk_buff) (w : world)
  : Z * sk_buff * world :=
  let ndescs := if skb_is_gso skb then skb_gso_segs skb else 1 in
  if Z.of_nat (length (skb_frags skb)) <=? q_max_sg_elems (q w)
  then (ndescs, skb, w)
  else
    let '(err, w) := pop_linearize w in
    if negb (err =? 0) then (err, skb, w)
    else (ndescs, linearized skb, bump tx_linearize 1 w).

(** smp_rmb(): the completion path may have run on another CPU since the
    first look at the ring; what it did to tail_idx, the one field the
    second look reads, is taken from the script. *)
Definition smp_rmb (w : world) : world :=
  match k_racing_tail (k w) with
  | [] => w
  | t :: rest => upd_q (set_tail_idx t) (upd_k (set_racing_tail rest) w)
  end.

(** ionic_maybe_stop_tx(q, ndescs) *)
Definition ionic_maybe_stop_tx (ndescs : Z) (w : world) : Z * world :=
  if negb (ionic_q_has_space (q w) ndescs) then
    let w := netif_stop_subqueue (q_index (q w)) w in
    let w := bump q_stop 1 w in
    (* Might race with ionic_tx_clean, check again *)
    let w := smp_rmb w in
    if ionic_q_has_space (q w) ndescs
    then (0, netif_wake_subqueue (q_index (q w)) w)
    else (1, w)
  else (0, w).

(** The part of ionic_start_hwstamp_xmit and ionic_start_xmit that runs on
    the chosen queue. *)
Definition xmit_tso_or_tx (skb : sk_buff) (w : world) : option (Z * world) :=
  if skb_is_gso skb then ionic_tx_tso skb w else Some (ionic_tx skb w).

Definition drop_skb (skb : sk_buff) (w : world) : world :=
  log (ev_dev_kfree_skb skb) (bump q_drop 1 w).

(** ionic_start_hwstamp_xmit(skb, netdev), on [lif->hwstamp_txq->q]. *)
Definition ionic_start_hwstamp_xmit (skb : sk_buff) (w : world)
  : option (netdev_tx_t * world) :=
  let '(ndescs, skb, w) := ionic_tx_descs_needed skb w in
  if ndescs <? 0 then Some (NETDEV_TX_OK, drop_skb skb w)
  else if negb (ionic_q_has_space (q w) ndescs) then
    Some (NETDEV_TX_OK, drop_skb skb w)
  else
    match xmit_tso_or_tx skb w with
    | None => None
    | Some (err, w) =>
        if negb (err =? 0) then Some (NETDEV_TX_OK, drop_skb skb w)
        else Some (NETDEV_TX_OK, w)
    end.

(** The tail of ionic_start_xmit, once the ring has room: post the
    packet, then stop the queue if the next packet would not fit. *)
Definition xmit_post (skb : sk_buff) (w : world)
  : option (netdev_tx_t * world) :=
  match xmit_tso_or_tx skb w with
  | None => None
  | Some (err, w) =>
      if negb (err =? 0)
      then Some (NETDEV_TX_OK, drop_skb skb (bump q_stop 1 w))
      else
        (* Stop the queue if there aren't descriptors for the next packet *)
        let '(_, w) := ionic_maybe_stop_tx 4 w in
        Some (NETDEV_TX_OK, w)
  end.

(** ionic_start_xmit(skb, netdev), from the choice of the queue on. *)
Definition start_xmit_on (skb : sk_buff) (w : world)
  : option (netdev_tx_t * world) :=
  let '(ndescs, skb, w) := ionic_tx_descs_needed skb w in
  if ndescs <? 0 then Some (NETDEV_TX_OK, drop_skb skb (bump q_stop 1 w))
  else
    let '(stopped, w) := ionic_maybe_stop_tx ndescs w in
    if negb (stopped =? 0) then Some (NETDEV_TX_BUSY, w)
    else xmit_post skb w.

Definition set_lif_k (v : kernel) (l : ionic_lif) : ionic_lif :=
  mk_lif (lif_up l) (lif_nxqs l) (lif_txqs l) (lif_hwstamp_txq l)
    (lif_ts_config_tx_mode l) v.

(** Write the queue and the kernel state of [w] back into the lif. *)
Definition put_txq (i : Z) (w : world) (l : ionic_lif) : ionic_lif :=
  mk_lif (lif_up l) (lif_nxqs l)
    (alter (fun _ => q w) (Z.to_nat i) (lif_txqs l))
    (lif_hwstamp_txq l) (lif_ts_config_tx_mode l) (k w).
Definition put_hwstamp_txq (w : world) (l : ionic_lif) : ionic_lif :=
  mk_lif (lif_up l) (lif_nxqs l) (lif_txqs l) (Some (q w))
    (lif_ts_config_tx_mode l) (k w).

(** The queue of the hardware-timestamp path, when ionic_start_xmit hands
    the packet to ionic_start_hwstamp_xmit. *)
Definition hwstamp_divert (skb : sk_buff) (l : ionic_lif)
  : option ionic_queue :=
  if CONFIG_PTP_1588_CLOCK && skb_hw_tstamp skb
     && negb (lif_ts_config_tx_mode l =? 0)
  then lif_hwstamp_txq l else None.

(** The index of the transmit queue ionic_start_xmit picks. *)
Definition xmit_queue_index (skb : sk_buff) (l : ionic_lif) : Z :=
  let queue_index := u16 (skb_queue_mapping skb) in
  if lif_nxqs l <=? queue_index then 0 else queue_index.

(** [lif->txqcqs[i]->q], with the kernel state around it. *)
Definition txq_world (i : Z) (l : ionic_lif) : world :=
  mk_world (lif_txqs l !!! Z.to_nat i) (lif_k l).

(** ionic_start_xmit(skb, netdev) *)
Definition ionic_start_xmit (skb : sk_buff) (l : ionic_lif)
  : option (netdev_tx_t * ionic_lif) :=
  if negb (lif_up l) then
    Some (NETDEV_TX_OK,
          set_lif_k (set_trace (k_trace (lif_k l) ++ [ev_dev_kfree_skb skb])
                       (lif_k l)) l)
  else
    match hwstamp_divert skb l with
    | Some hq =>
        match ionic_start_hwstamp_xmit skb (mk_world hq (lif_k l)) with
        | None => None
        | Some (r, w) => Some (r, put_hwstamp_txq w l)
        end
    | None =>
        let queue_index := xmit_queue_index skb l in
        match start_xmit_on skb (txq_world queue_index l) with
        | None => None
        | Some (r, w) => Some (r, put_txq queue_index w l)
        end
    end.

End Xmit.

(** * Properties *)

(** ** Observing a trace *)

(** The ring slots on which a cleaner ran, in order. *)
Definition cleaned (tr : list event) : list (ionic_desc_cb * Z) :=
  omap (fun e => match e with
                 | ev_clean cb i => Some (cb, i)
                 | _ => None
                 end) tr.

(** The descriptors posted, in order: descriptor, doorbell request,
    callback and callback argument of each ionic_q_post. *)
Definition posted (tr : list event)
  : list (hw_desc * bool * option ionic_desc_cb * option sk_buff) :=
  omap (fun e => match e with
                 | ev_q_post _ d db cb arg => Some (d, db, cb, arg)
                 | _ => None
                 end) tr.

(** Events among which no cleaner ran and nothing was posted. *)
Definition silent (es : list event) : Prop :=
  cleaned es = [] /\ posted es = [].

(** [quiet w w']: from [w] to [w'] the queue changed in its counters at
    most, and the kernel calls made in between are silent. *)
Definition quiet (w w' : world) : Prop :=
  (exists st, q w' = set_stats st (q w)) /\
  (exists es, k_trace (k w') = k_trace (k w) ++ es /\ silent es).

Lemma posted_app tr1 tr2 : posted (tr1 ++ tr2) = posted tr1 ++ posted tr2.
Proof. apply omap_app. Qed.

Lemma silent_nil : silent [].
Proof. split; reflexivity. Qed.

Lemma silent_app es1 es2 : silent es1 -> silent es2 -> silent (es1 ++ es2).
Proof.
  intros [H1 H2] [H3 H4]. split.
  - unfold cleaned. rewrite omap_app. fold (cleaned es1) (cleaned es2).
    rewrite H1, H3. reflexivity.
  - rewrite posted_app, H2, H4. reflexivity.
Qed.

Lemma cleaned_app tr1 tr2 : cleaned (tr1 ++ tr2) = cleaned tr1 ++ cleaned tr2.
Proof. apply omap_app. Qed.

Lemma quiet_refl w : quiet w w.
Proof.
  split.
  - exists (q_stats (q w)). destruct (q w); reflexivity.
  - exists []. rewrite app_nil_r. split; [reflexivity | apply silent_nil].
Qed.

Lemma quiet_trans w1 w2 w3 : quiet w1 w2 -> quiet w2 w3 -> quiet w1 w3.
Proof.
  intros [[st1 Hq1] [es1 [Ht1 Hc1]]] [[st2 Hq2] [es2 [Ht2 Hc2]]]. split.
  - exists st2. rewrite Hq2, Hq1. reflexivity.
  - exists (es1 ++ es2). rewrite Ht2, Ht1, <- app_assoc. split; [reflexivity|].
    apply silent_app; assumption.
Qed.

Lemma quiet_log e w : silent [e] -> quiet w (log e w).
Proof.
  intros He. split.
  - exists (q_stats (q w)). simpl. destruct (q w); reflexivity.
  - exists [e]. split; [reflexivity | exact He].
Qed.

Lemma quiet_logs es w : silent es -> quiet w (logs es w).
Proof.
  intros He. split.
  - exists (q_stats (q w)). simpl. destruct (q w); reflexivity.
  - exists es. split; [reflexivity | exact He].
Qed.

Lemma quiet_bump c n w : quiet w (bump c n w).
Proof.
  split.
  - eexists. reflexivity.
  - exists []. simpl. rewrite app_nil_r. split; [reflexivity | apply silent_nil].
Qed.

Lemma quiet_assign c n w : quiet w (assign c n w).
Proof.
  split.
  - eexists. reflexivity.
  - exists []. simpl. rewrite app_nil_r. split; [reflexivity | apply silent_nil].
Qed.

(** An update of the kernel's scripts that leaves the trace alone. *)
Lemma quiet_upd_k f w :
  (forall x, k_trace (f x) = k_trace x) -> quiet w (upd_k f w).
Proof.
  intros Hf. split.
  - exists (q_stats (q w)). simpl. destruct (q w); reflexivity.
  - exists []. simpl. rewrite Hf, app_nil_r.
    split; [reflexivity | apply silent_nil].
Qed.

#[global] Arguments log : simpl never.
#[global] Arguments logs : simpl never.
#[global] Arguments bump : simpl never.
#[global] Arguments assign : simpl never.
#[global] Arguments upd_k : simpl never.

Create HintDb quiet.
#[global] Hint Resolve quiet_refl quiet_bump quiet_assign : quiet.
#[global] Hint Extern 1 (quiet _ (log _ _)) =>
  (apply quiet_log; split; reflexivity) : quiet.
#[global] Hint Extern 1 (quiet _ (upd_k _ _)) =>
  (apply quiet_upd_k; intros; reflexivity) : quiet.

(** Chain quiet steps from the outside in. *)
Ltac quiet_step :=
  match goal with
  | |- quiet ?w ?w => apply quiet_refl
  | |- quiet ?w (bump _ _ ?w1) =>
      apply (quiet_trans w w1); [| apply quiet_bump]
  | |- quiet ?w (assign _ _ ?w1) =>
      apply (quiet_trans w w1); [| apply quiet_assign]
  | |- quiet ?w (log ?e ?w1) =>
      apply (quiet_trans w w1); [| apply quiet_log; split; reflexivity]
  | |- quiet ?w (logs ?es ?w1) =>
      apply (quiet_trans w w1); [| apply quiet_logs]
  | |- quiet ?w (upd_k ?f ?w1) =>
      apply (quiet_trans w w1);
      [| apply quiet_upd_k; intros; reflexivity]
  end.

Section QuietKernel.
Context `{ionic_consts}.

Lemma quiet_pop_alloc_pages w : quiet w (snd (pop_alloc_pages w)).
Proof.
  unfold pop_alloc_pages. destruct (k_alloc_pages (k w)); simpl; auto with quiet.
Qed.

Lemma quiet_pop_dma_map w : quiet w (snd (pop_dma_map w)).
Proof.
  unfold pop_dma_map. destruct (k_dma_map (k w)); simpl; auto with quiet.
Qed.

Lemma quiet_pop_alloc_skb w : quiet w (snd (pop_alloc_skb w)).
Proof.
  unfold pop_alloc_skb. destruct (k_alloc_skb (k w)); simpl; auto with quiet.
Qed.

Lemma quiet_pop_cow_head w : quiet w (snd (pop_cow_head w)).
Proof.
  unfold pop_cow_head. destruct (k_cow_head (k w)); simpl; auto with quiet.
Qed.

Lemma quiet_pop_linearize w : quiet w (snd (pop_linearize w)).
Proof.
  unfold pop_linearize. destruct (k_linearize (k w)); simpl; auto with quiet.
Qed.

End QuietKernel.

(** ** The receive cleaner is quiet *)

Section RxQuiet.
Context `{ionic_consts}.

Lemma rx_buf_recycle_events mtu b used :
  silent (snd (ionic_rx_buf_recycle mtu b used)).
Proof.
  unfold ionic_rx_buf_recycle.
  destruct (bi_page b); [|apply silent_nil].
  destruct (negb _); [apply silent_nil|].
  destruct (_ <? mtu); [apply silent_nil|].
  destruct (_ <=? _); [apply silent_nil|].
  destruct (0 <? _); split; reflexivity.
Qed.

Lemma quiet_rx_frags_loop n : forall j len frags d w,
  quiet w (snd (rx_frags_loop n j len frags d w)).
Proof.
  induction n as [|n IH]; intros j len frags d w; simpl.
  - apply quiet_refl.
  - destruct (bi_page (di_buf d j)) as [p|]; simpl; [|auto with quiet].
    pose proof (rx_buf_recycle_events (k_mtu (k w)) (di_buf d j)
      (Z.min (u16 len) (u16 (IONIC_PAGE_SIZE - bi_page_offset (di_buf d j)))))
      as Hev.
    destruct (ionic_rx_buf_recycle _ _ _) as [[r b] evs]. simpl in Hev.
    destruct r.
    + eapply quiet_trans; [|apply IH]. apply quiet_logs, Hev.
    + eapply quiet_trans; [|apply IH].
      quiet_step. apply quiet_logs, Hev.
Qed.

Lemma quiet_rx_frags d comp w : quiet w (snd (ionic_rx_frags d comp w)).
Proof.
  unfold ionic_rx_frags.
  pose proof (quiet_pop_alloc_skb w) as Hp.
  destruct (pop_alloc_skb w) as [ok w1]. simpl in Hp.
  destruct ok; cbn [negb].
  - eapply quiet_trans; [exact Hp|]. apply quiet_rx_frags_loop.
  - simpl. quiet_step. exact Hp.
Qed.

Lemma quiet_rx_copybreak d comp w :
  quiet w (snd (ionic_rx_copybreak d comp w)).
Proof.
  unfold ionic_rx_copybreak.
  pose proof (quiet_pop_alloc_skb w) as Hp.
  destruct (pop_alloc_skb w) as [ok w1]. simpl in Hp.
  destruct ok; simpl.
  - destruct (bi_page _); simpl; [exact Hp|]. quiet_step. exact Hp.
  - quiet_step. exact Hp.
Qed.

Lemma quiet_rx_clean d ci arg w : quiet w (snd (ionic_rx_clean d ci arg w)).
Proof.
  unfold ionic_rx_clean.
  destruct (negb (rxc_status _ =? 0)); simpl; [auto with quiet|].
  destruct (_ <? rxc_len _); simpl; [auto with quiet|].
  set (w1 := bump rx_bytes _ _).
  assert (Hw1 : quiet w w1) by (unfold w1; repeat quiet_step).
  assert (Hskb : quiet w1 (snd (if rxc_len (cqi_comp ci) <=? k_rx_copybreak (k w1)
                                then ionic_rx_copybreak d (cqi_comp ci) w1
                                else ionic_rx_frags d (cqi_comp ci) w1))).
  { destruct (_ <=? _); [apply quiet_rx_copybreak | apply quiet_rx_frags]. }
  destruct (if rxc_len (cqi_comp ci) <=? k_rx_copybreak (k w1) then _ else _)
    as [[skb d'] w2]. simpl in Hskb.
  assert (Hw2 : quiet w w2) by exact (quiet_trans _ _ _ Hw1 Hskb).
  destruct skb as [skb|]; [|simpl; quiet_step; exact Hw2].
  cbv zeta.
  set (wc := if _ || _ then bump rx_csum_error 1 w2 else w2).
  assert (Hwc : quiet w wc).
  { unfold wc. destruct (_ || _); [quiet_step|]; exact Hw2. }
  clearbody wc.
  set (w3 := if q_hwstamp (q wc) then _ else wc).
  assert (Hw3 : quiet w w3).
  { unfold w3. destruct (q_hwstamp _); [|exact Hwc].
    destruct (negb _); quiet_step; exact Hwc. }
  destruct skb; cbn [snd]; quiet_step; exact Hw3.
Qed.

End RxQuiet.

(** ** Ring arithmetic *)

Definition is_pow2 (n : Z) : Prop := exists e, 0 <= e /\ n = 2 ^ e.

(** The [n] ring indices from [t] on, stepping modulo [N]. *)
Fixpoint ring_walk (N t : Z) (n : nat) : list Z :=
  match n with
  | O => []
  | S n' => t :: ring_walk N ((t + 1) mod N) n'
  end.

Lemma is_pow2_pos n : is_pow2 n -> 0 < n.
Proof. intros [e [He ->]]. apply Z.pow_pos_nonneg; lia. Qed.

(** The mask of the ring code is the remainder. *)
Lemma land_mask_mod N x : is_pow2 N -> 0 <= x -> Z.land x (N - 1) = x mod N.
Proof.
  intros [e [He ->]] Hx.
  replace (2 ^ e - 1) with (Z.ones e) by (rewrite Z.ones_equiv; lia).
  apply Z.land_ones. exact He.
Qed.

(** Remainders of numbers one ring away from [0, N). *)
Lemma mod_near N a :
  0 < N -> - N <= a < 2 * N ->
  a mod N = if a <? 0 then a + N else if a <? N then a else a - N.
Proof.
  intros HN Ha.
  destruct (a <? 0) eqn:E0; [|destruct (a <? N) eqn:E1].
  - apply Z.ltb_lt in E0. symmetry. apply (Z.mod_unique a N (-1)); lia.
  - apply Z.ltb_ge in E0. apply Z.ltb_lt in E1. apply Z.mod_small. lia.
  - apply Z.ltb_ge in E0. apply Z.ltb_ge in E1.
    symmetry. apply (Z.mod_unique a N 1); lia.
Qed.

Lemma ring_step_mask N t :
  is_pow2 N -> 0 <= t < N ->
  Z.land (t + 1) (N - 1) = (t + 1) mod N /\ 0 <= (t + 1) mod N < N.
Proof.
  intros HN Ht. split.
  - apply land_mask_mod; [exact HN | lia].
  - apply Z.mod_pos_bound. apply is_pow2_pos, HN.
Qed.

Lemma u16_small x : 0 <= x < 2 ^ 16 -> u16 x = x.
Proof. intros Hx. unfold u16. apply Z.mod_small. exact Hx. Qed.

(** ** What a quiet step keeps *)

Lemma quiet_tail w w' : quiet w w' -> q_tail_idx (q w') = q_tail_idx (q w).
Proof. intros [[st ->] _]. reflexivity. Qed.
Lemma quiet_head w w' : quiet w w' -> q_head_idx (q w') = q_head_idx (q w).
Proof. intros [[st ->] _]. reflexivity. Qed.
Lemma quiet_num_descs w w' :
  quiet w w' -> q_num_descs (q w') = q_num_descs (q w).
Proof. intros [[st ->] _]. reflexivity. Qed.
Lemma quiet_info w w' : quiet w w' -> q_info (q w') = q_info (q w).
Proof. intros [[st ->] _]. reflexivity. Qed.
Lemma quiet_hwstamp w w' : quiet w w' -> q_hwstamp (q w') = q_hwstamp (q w).
Proof. intros [[st ->] _]. reflexivity. Qed.
Lemma quiet_deadline w w' :
  quiet w w' -> q_dbell_deadline (q w') = q_dbell_deadline (q w).
Proof. intros [[st ->] _]. reflexivity. Qed.
Lemma quiet_cleaned w w' :
  quiet w w' -> cleaned (k_trace (k w')) = cleaned (k_trace (k w)).
Proof.
  intros [_ [es [-> [Hes _]]]]. rewrite cleaned_app, Hes. apply app_nil_r.
Qed.
Lemma quiet_posted w w' :
  quiet w w' -> posted (k_trace (k w')) = posted (k_trace (k w)).
Proof.
  intros [_ [es [-> [_ Hes]]]]. rewrite posted_app, Hes. apply app_nil_r.
Qed.
Lemma quiet_grows w w' e :
  quiet w w' -> In e (k_trace (k w)) -> In e (k_trace (k w')).
Proof. intros [_ [es [-> _]]] He. apply in_or_app. left. exact He. Qed.

Lemma trace_log e w : k_trace (k (log e w)) = k_trace (k w) ++ [e].
Proof. reflexivity. Qed.
Lemma trace_logs es w : k_trace (k (logs es w)) = k_trace (k w) ++ es.
Proof. reflexivity. Qed.
Lemma trace_upd_q f w : k_trace (k (upd_q f w)) = k_trace (k w).
Proof. reflexivity. Qed.
Lemma trace_store_slot i d w : k_trace (k (store_slot i d w)) = k_trace (k w).
Proof. reflexivity. Qed.
Lemma q_log e w : q (log e w) = q w.
Proof. reflexivity. Qed.

(** ** The transmit cleaner *)

Section TxCleanFacts.
Context `{ionic_consts}.

(** The unmap calls ionic_tx_desc_unmap_bufs makes for a slot. *)
Definition tx_unmap_events (d : ionic_desc_info) : list event :=
  if di_nbufs d =? 0 then []
  else
    ev_dma_unmap_single (bi_dma_addr (di_buf d 0)) (bi_len (di_buf d 0))
    :: map (fun i => ev_dma_unmap_page (bi_dma_addr (di_buf d i))
                                       (bi_len (di_buf d i)))
           (seqZ 1 (di_nbufs d - 1)).

Lemma fold_log_trace (g : Z -> event) l : forall w,
  k_trace (k (fold_left (fun w i => log (g i) w) l w))
  = k_trace (k w) ++ map g l.
Proof.
  induction l as [|x l IH]; intros w; simpl.
  - symmetry. apply app_nil_r.
  - rewrite IH, trace_log, <- app_assoc. reflexivity.
Qed.

Lemma fold_log_q (g : Z -> event) l : forall w,
  q (fold_left (fun w i => log (g i) w) l w) = q w.
Proof.
  induction l as [|x l IH]; intros w; simpl; [reflexivity|].
  rewrite IH. reflexivity.
Qed.

Lemma tx_desc_unmap_bufs_trace d w :
  k_trace (k (snd (ionic_tx_desc_unmap_bufs d w)))
  = k_trace (k w) ++ tx_unmap_events d.
Proof.
  unfold ionic_tx_desc_unmap_bufs, tx_unmap_events.
  destruct (di_nbufs d =? 0); simpl.
  - symmetry. apply app_nil_r.
  - rewrite fold_log_trace, trace_log, <- app_assoc. reflexivity.
Qed.

Lemma tx_desc_unmap_bufs_q d w : q (snd (ionic_tx_desc_unmap_bufs d w)) = q w.
Proof.
  unfold ionic_tx_desc_unmap_bufs.
  destruct (di_nbufs d =? 0); simpl; [reflexivity|].
  rewrite fold_log_q. reflexivity.
Qed.

Lemma tx_unmap_events_quiet d : silent (tx_unmap_events d).
Proof.
  unfold tx_unmap_events. destruct (di_nbufs d =? 0); [apply silent_nil|].
  split; simpl; induction (seqZ 1 (di_nbufs d - 1));
    try reflexivity; assumption.
Qed.

Lemma quiet_tx_desc_unmap_bufs d w :
  quiet w (snd (ionic_tx_desc_unmap_bufs d w)).
Proof.
  split.
  - exists (q_stats (q w)). rewrite tx_desc_unmap_bufs_q.
    destruct (q w); reflexivity.
  - exists (tx_unmap_events d). split.
    + apply tx_desc_unmap_bufs_trace.
    + apply tx_unmap_events_quiet.
Qed.

(** What ionic_tx_desc_unmap_bufs leaves in the slot. *)
Lemma tx_desc_unmap_bufs_fst d w :
  let d' := fst (ionic_tx_desc_unmap_bufs d w) in
  di_nbufs d' = 0 /\ di_cb d' = di_cb d /\ di_cb_arg d' = di_cb_arg d.
Proof.
  unfold ionic_tx_desc_unmap_bufs.
  destruct (di_nbufs d =? 0) eqn:E; simpl.
  - apply Z.eqb_eq in E. auto.
  - auto.
Qed.

Lemma quiet_netif_wake_subqueue qi w : quiet w (netif_wake_subqueue qi w).
Proof. unfold netif_wake_subqueue. repeat quiet_step. Qed.

Lemma quiet_netif_stop_subqueue qi w : quiet w (netif_stop_subqueue qi w).
Proof. unfold netif_stop_subqueue. repeat quiet_step. Qed.

Lemma quiet_tx_clean d ci arg w : quiet w (snd (ionic_tx_clean d ci arg w)).
Proof.
  unfold ionic_tx_clean.
  pose proof (quiet_tx_desc_unmap_bufs d w) as Hu.
  destruct (ionic_tx_desc_unmap_bufs d w) as [d1 w1]. simpl in Hu.
  destruct arg as [skb|]; simpl; [|exact Hu].
  do 2 quiet_step.
  destruct (q_hwstamp (q w1)).
  - destruct ci as [ci|]; [|exact Hu].
    destruct (negb _); repeat quiet_step; exact Hu.
  - destruct (netif_subqueue_stopped _ _); [|exact Hu].
    quiet_step. eapply quiet_trans; [exact Hu|].
    apply quiet_netif_wake_subqueue.
Qed.

Lemma tx_clean_fst d ci arg w :
  let d' := fst (ionic_tx_clean d ci arg w) in
  di_nbufs d' = 0 /\ di_cb d' = di_cb d /\ di_cb_arg d' = di_cb_arg d.
Proof.
  unfold ionic_tx_clean.
  pose proof (tx_desc_unmap_bufs_fst d w) as Hu.
  destruct (ionic_tx_desc_unmap_bufs d w) as [d1 w1]. simpl in Hu.
  destruct arg as [skb|]; simpl; exact Hu.
Qed.

(** Every buffer of the slot is unmapped. *)
Lemma tx_clean_unmaps d ci arg w e :
  In e (tx_unmap_events d) ->
  In e (k_trace (k (snd (ionic_tx_clean d ci arg w)))).
Proof.
  intros He. unfold ionic_tx_clean.
  pose proof (tx_desc_unmap_bufs_trace d w) as Hu.
  destruct (ionic_tx_desc_unmap_bufs d w) as [d1 w1]. simpl in Hu.
  assert (H1 : In e (k_trace (k w1))).
  { rewrite Hu. apply in_or_app. right. exact He. }
  destruct arg as [skb|]; simpl; [|exact H1].
  apply in_or_app. left. unfold netif_wake_subqueue.
  destruct (q_hwstamp (q w1)); [destruct ci as [ci|]; [destruct (negb _)|]
                               | destruct (netif_subqueue_stopped _ _)];
    simpl; repeat (try exact H1; apply in_or_app; left).
Qed.

(** The packet of the slot is released. *)
Lemma tx_clean_consumes d ci skb w :
  In (ev_dev_consume_skb_any skb)
     (k_trace (k (snd (ionic_tx_clean d ci (Some skb) w)))).
Proof.
  unfold ionic_tx_clean.
  destruct (ionic_tx_desc_unmap_bufs d w) as [d1 w1]. simpl.
  apply in_or_app. right. left. reflexivity.
Qed.

End TxCleanFacts.

(** ** One round of the transmit drain *)

(** A slot that holds nothing any more. *)
Definition slot_clean (d : ionic_desc_info) : Prop :=
  di_nbufs d = 0 /\ di_cb d = None /\ di_cb_arg d = None.

Section TxDrainFacts.
Context `{ionic_consts}.

(** [drained w w']: [w'] is [w] after the slot at tail_idx was cleaned and
    tail_idx stepped. *)
Record drained (w w' : world) : Prop := {
  dr_num : q_num_descs (q w') = q_num_descs (q w);
  dr_head : q_head_idx (q w') = q_head_idx (q w);
  dr_tail : q_tail_idx (q w')
            = Z.land (q_tail_idx (q w) + 1) (q_num_descs (q w) - 1);
  dr_cleaned : cleaned (k_trace (k w'))
               = cleaned (k_trace (k w))
                   ++ [(cb_ionic_tx_clean, q_tail_idx (q w))];
  dr_info : exists d', slot_clean d' /\
              q_info (q w')
              = alter (fun _ => d') (Z.to_nat (q_tail_idx (q w))) (q_info (q w));
  dr_grows : forall e, In e (k_trace (k w)) -> In e (k_trace (k w'));
  dr_unmaps : forall e, In e (tx_unmap_events (slot w (q_tail_idx (q w)))) ->
                        In e (k_trace (k w'));
  dr_consumes : forall skb,
      di_cb_arg (slot w (q_tail_idx (q w))) = Some skb ->
      In (ev_dev_consume_skb_any skb) (k_trace (k w'))
}.

Lemma tx_drain_one_spec ci pkts bytes w :
  exists pkts' bytes' w',
    tx_drain_one ci pkts bytes w = (q_tail_idx (q w), pkts', bytes', w')
    /\ drained w w'.
Proof.
  unfold tx_drain_one.
  set (t := q_tail_idx (q w)).
  set (d0 := set_di_bytes 0 (slot w t)).
  set (w1 := log (ev_clean cb_ionic_tx_clean t) _).
  pose proof (quiet_tx_clean d0 ci (di_cb_arg d0) w1) as Hq.
  pose proof (tx_clean_fst d0 ci (di_cb_arg d0) w1) as Hd.
  pose proof (tx_clean_unmaps d0 ci (di_cb_arg d0) w1) as Hun.
  pose proof (fun skb => tx_clean_consumes d0 ci skb w1) as Hco.
  destruct (di_cb_arg d0) as [skb0|] eqn:Earg.
  - destruct (ionic_tx_clean d0 ci (Some skb0) w1) as [d1 w2] eqn:Ecl.
    simpl in Hq, Hd, Hun. destruct Hd as [Hn [Hcb Hca]].
    rewrite Hca. do 3 eexists. split; [reflexivity|].
    split; simpl.
    + rewrite (quiet_num_descs _ _ Hq). reflexivity.
    + rewrite (quiet_head _ _ Hq). reflexivity.
    + rewrite (quiet_tail _ _ Hq). reflexivity.
    + rewrite (quiet_cleaned _ _ Hq). unfold w1.
      rewrite trace_log, cleaned_app. reflexivity.
    + eexists. split; [|rewrite (quiet_info _ _ Hq); reflexivity].
      repeat split; simpl; exact Hn.
    + intros e He. apply (quiet_grows _ _ _ Hq). unfold w1.
      rewrite trace_log. apply in_or_app. left. exact He.
    + intros e He. apply Hun. exact He.
    + intros skb Hskb. fold t in Hskb.
      assert (skb = skb0) as -> by (unfold d0 in Earg; simpl in Earg; congruence).
      specialize (Hco skb0). rewrite Ecl in Hco. exact Hco.
  - destruct (ionic_tx_clean d0 ci None w1) as [d1 w2] eqn:Ecl.
    simpl in Hq, Hd, Hun. destruct Hd as [Hn [Hcb Hca]].
    rewrite Hca. do 3 eexists. split; [reflexivity|].
    split; simpl.
    + rewrite (quiet_num_descs _ _ Hq). reflexivity.
    + rewrite (quiet_head _ _ Hq). reflexivity.
    + rewrite (quiet_tail _ _ Hq). reflexivity.
    + rewrite (quiet_cleaned _ _ Hq). unfold w1.
      rewrite trace_log, cleaned_app. reflexivity.
    + eexists. split; [|rewrite (quiet_info _ _ Hq); reflexivity].
      repeat split; simpl; exact Hn.
    + intros e He. apply (quiet_grows _ _ _ Hq). unfold w1.
      rewrite trace_log. apply in_or_app. left. exact He.
    + intros e He. apply Hun. exact He.
    + intros skb Hskb. fold t in Hskb.
      unfold d0 in Earg; simpl in Earg; congruence.
Qed.

End TxDrainFacts.

(** ** Walking the ring *)

(** The index [n] steps after [t]. *)
Fixpoint ring_at (N t : Z) (n : nat) : Z :=
  match n with
  | O => t
  | S n' => ring_at N ((t + 1) mod N) n'
  end.

Lemma ring_at_closed N n : forall t,
  0 < N -> 0 <= t < N -> ring_at N t n = (t + Z.of_nat n) mod N.
Proof.
  induction n as [|n IH]; intros t HN Ht.
  - simpl. rewrite Z.add_0_r, Z.mod_small; lia.
  - cbn [ring_at]. rewrite IH; [|exact HN|apply Z.mod_pos_bound; exact HN].
    rewrite Z.add_mod_idemp_l by lia. f_equal. lia.
Qed.

Lemma ring_walk_in N n : forall t j,
  0 < N -> 0 <= t < N ->
  In j (ring_walk N t n) <->
  exists i, (i < n)%nat /\ j = (t + Z.of_nat i) mod N.
Proof.
  induction n as [|n IH]; intros t j HN Ht; cbn [ring_walk].
  - split; [intros [] | intros [i [Hi _]]; lia].
  - cbn [In]. rewrite IH; [|exact HN|apply Z.mod_pos_bound; exact HN]. split.
    + intros [<-|[i [Hi ->]]].
      * exists O. split; [lia|]. rewrite Z.add_0_r, Z.mod_small; lia.
      * exists (S i). split; [lia|].
        rewrite Z.add_mod_idemp_l by lia. f_equal. lia.
    + intros [[|i] [Hi ->]].
      * left. rewrite Z.add_0_r, Z.mod_small; lia.
      * right. exists i. split; [lia|].
        rewrite Z.add_mod_idemp_l by lia. f_equal. lia.
Qed.

Lemma ring_walk_length N n : forall t, length (ring_walk N t n) = n.
Proof. induction n as [|n IH]; intros t; simpl; [|rewrite IH]; reflexivity. Qed.

Lemma ring_walk_range N n t j :
  0 < N -> 0 <= t < N -> In j (ring_walk N t n) -> 0 <= j < N.
Proof.
  intros HN Ht Hj. apply ring_walk_in in Hj; [|exact HN|exact Ht].
  destruct Hj as [i [_ ->]]. apply Z.mod_pos_bound. exact HN.
Qed.

(** From [t], the index [c] is first met after [(c - t) mod N] steps. *)
Lemma ring_reach N t c :
  0 < N -> 0 <= t < N -> 0 <= c < N ->
  let n := Z.to_nat ((c - t) mod N) in
  ring_at N t n = c /\ ~ In c (ring_walk N t n) /\ (Z.of_nat n < N).
Proof.
  intros HN Ht Hc n.
  pose proof (Z.mod_pos_bound (c - t) N HN) as Hb.
  assert (Hn : Z.of_nat n = (c - t) mod N) by (unfold n; lia).
  repeat split.
  - rewrite ring_at_closed by assumption. rewrite Hn.
    rewrite Z.add_mod_idemp_r by lia.
    replace (t + (c - t)) with c by lia. apply Z.mod_small. exact Hc.
  - intros Hin. apply ring_walk_in in Hin; [|exact HN|exact Ht].
    destruct Hin as [i [Hi Hci]].
    assert (Hk : (c - t) mod N = Z.of_nat i).
    { rewrite Hci. rewrite Zminus_mod_idemp_l.
      replace (t + Z.of_nat i - t) with (Z.of_nat i) by lia.
      apply Z.mod_small. lia. }
    lia.
  - lia.
Qed.

(** ** Any number of drain rounds *)

Section DrainRounds.
Context `{ionic_consts}.

Inductive drained_n : nat -> world -> world -> Prop :=
| drained_0 w : drained_n O w w
| drained_S n w w1 w' :
    drained w w1 -> drained_n n w1 w' -> drained_n (S n) w w'.

(** Every buffer and the packet of slot contents [d] have been released. *)
Definition released (d : ionic_desc_info) (w' : world) : Prop :=
  (forall e, In e (tx_unmap_events d) -> In e (k_trace (k w'))) /\
  (forall skb, di_cb_arg d = Some skb ->
               In (ev_dev_consume_skb_any skb) (k_trace (k w'))).

Lemma drained_step_ok w w1 :
  is_pow2 (q_num_descs (q w)) ->
  0 <= q_tail_idx (q w) < q_num_descs (q w) ->
  drained w w1 ->
  q_tail_idx (q w1) = (q_tail_idx (q w) + 1) mod q_num_descs (q w)
  /\ 0 <= q_tail_idx (q w1) < q_num_descs (q w1).
Proof.
  intros HN Ht Hd.
  destruct (ring_step_mask _ _ HN Ht) as [Hm Hr].
  rewrite (dr_tail _ _ Hd), (dr_num _ _ Hd), Hm. split; [reflexivity|exact Hr].
Qed.

Lemma drained_slot_other w w1 j :
  drained w w1 -> j <> q_tail_idx (q w) -> 0 <= j -> 0 <= q_tail_idx (q w) ->
  slot w1 j = slot w j.
Proof.
  intros Hd Hj Hj0 Ht0. destruct (dr_info _ _ Hd) as [d' [_ Hi]].
  unfold slot. rewrite Hi. apply list_lookup_total_alter_ne. lia.
Qed.

Lemma drained_slot_clean w w1 j :
  drained w w1 -> slot_clean (slot w j) -> slot_clean (slot w1 j).
Proof.
  intros Hd Hc. destruct (dr_info _ _ Hd) as [d' [Hd' Hi]].
  unfold slot in *. rewrite Hi, list_lookup_total_alter.
  case_decide; [exact Hd' | exact Hc].
Qed.

Lemma drained_slot_tail w w1 :
  drained w w1 ->
  (Z.to_nat (q_tail_idx (q w)) < length (q_info (q w)))%nat ->
  slot_clean (slot w1 (q_tail_idx (q w))).
Proof.
  intros Hd Hl. destruct (dr_info _ _ Hd) as [d' [Hd' Hi]].
  unfold slot. rewrite Hi, list_lookup_total_alter_eq by exact Hl. exact Hd'.
Qed.

Lemma drained_length w w1 :
  drained w w1 -> length (q_info (q w1)) = length (q_info (q w)).
Proof.
  intros Hd. destruct (dr_info _ _ Hd) as [d' [_ ->]]. apply length_alter.
Qed.

End DrainRounds.

Section Walked.
Context `{ionic_consts}.

(** What [n] drain rounds from [w] amount to. *)
Record walked (n : nat) (w w' : world) : Prop := {
  wk_num : q_num_descs (q w') = q_num_descs (q w);
  wk_head : q_head_idx (q w') = q_head_idx (q w);
  wk_tail : q_tail_idx (q w')
            = ring_at (q_num_descs (q w)) (q_tail_idx (q w)) n;
  wk_cleaned :
    cleaned (k_trace (k w'))
    = cleaned (k_trace (k w))
        ++ map (pair cb_ionic_tx_clean)
               (ring_walk (q_num_descs (q w)) (q_tail_idx (q w)) n);
  wk_length : length (q_info (q w')) = length (q_info (q w));
  wk_grows : forall e, In e (k_trace (k w)) -> In e (k_trace (k w'));
  wk_released : forall j,
      In j (ring_walk (q_num_descs (q w)) (q_tail_idx (q w)) n) ->
      released (slot w j) w';
  wk_other : forall j,
      0 <= j ->
      ~ In j (ring_walk (q_num_descs (q w)) (q_tail_idx (q w)) n) ->
      slot w' j = slot w j;
  wk_stays_clean : forall j, slot_clean (slot w j) -> slot_clean (slot w' j);
  wk_clean : forall j,
      In j (ring_walk (q_num_descs (q w)) (q_tail_idx (q w)) n) ->
      (Z.to_nat j < length (q_info (q w)))%nat ->
      slot_clean (slot w' j)
}.

Lemma drained_n_walked n : forall w w',
  is_pow2 (q_num_descs (q w)) ->
  0 <= q_tail_idx (q w) < q_num_descs (q w) ->
  drained_n n w w' -> walked n w w'.
Proof.
  induction n as [|n IH]; intros w w' HN Ht Hd; inversion Hd; subst.
  - split; simpl; try reflexivity; try tauto.
    symmetry. apply app_nil_r.
  - match goal with
    | H1 : drained w ?x, H2 : drained_n n ?x w' |- _ =>
        rename x into w1; rename H1 into Hd1; rename H2 into Hdn
    end.
    destruct (drained_step_ok _ _ HN Ht Hd1) as [Ht1 Hr1].
    assert (HN1 : is_pow2 (q_num_descs (q w1)))
      by (rewrite (dr_num _ _ Hd1); exact HN).
    specialize (IH w1 w' HN1 Hr1 Hdn).
    destruct IH as [In_ Ih It Ic Il Ig Ir Io Is Icl].
    rewrite (dr_num _ _ Hd1) in *. rewrite Ht1 in *.
    split; cbn [ring_at ring_walk map].
    + exact In_.
    + rewrite Ih. apply (dr_head _ _ Hd1).
    + exact It.
    + rewrite Ic, (dr_cleaned _ _ Hd1), <- app_assoc. reflexivity.
    + rewrite Il. apply (drained_length _ _ Hd1).
    + intros e He. apply Ig, (dr_grows _ _ Hd1), He.
    + intros j Hj.
      destruct (Z.eq_dec j (q_tail_idx (q w))) as [->|Hne].
      * split.
        -- intros e He. apply Ig, (dr_unmaps _ _ Hd1), He.
        -- intros skb Hs. apply Ig, (dr_consumes _ _ Hd1), Hs.
      * destruct Hj as [Hj|Hj]; [congruence|].
        assert (Hj0 : 0 <= j).
        { apply ring_walk_range in Hj; [lia| |].
          - apply is_pow2_pos, HN.
          - exact Hr1. }
        rewrite <- (drained_slot_other _ _ _ Hd1 Hne Hj0) by lia.
        apply Ir, Hj.
    + intros j Hj0 Hj.
      rewrite Io; [|exact Hj0|intros Hin; apply Hj; right; exact Hin].
      apply (drained_slot_other _ _ _ Hd1); [|exact Hj0|lia].
      intros ->. apply Hj. left. reflexivity.
    + intros j Hc. apply Is, (drained_slot_clean _ _ _ Hd1), Hc.
    + intros j Hj Hl.
      destruct (Z.eq_dec j (q_tail_idx (q w))) as [->|Hne].
      * apply Is, (drained_slot_tail _ _ Hd1), Hl.
      * destruct Hj as [Hj|Hj]; [congruence|].
        apply Icl; [exact Hj|]. rewrite (drained_length _ _ Hd1). exact Hl.
Qed.

End Walked.

(** ** The loops of ionic_tx_service and ionic_tx_empty *)

Section TxLoops.
Context `{ionic_consts}.

Lemma quiet_bql_completed pkts bytes w : quiet w (bql_completed pkts bytes w).
Proof.
  unfold bql_completed. destruct (_ && _); [quiet_step|]; apply quiet_refl.
Qed.

(** The service loop stops right after the round that cleans comp_index. *)
Lemma tx_service_loop_runs n : forall fuel ci pkts bytes w,
  is_pow2 (q_num_descs (q w)) ->
  q_num_descs (q w) <= 2 ^ 16 ->
  0 <= q_tail_idx (q w) < q_num_descs (q w) ->
  ring_at (q_num_descs (q w)) (q_tail_idx (q w)) n
    = txc_comp_index (cqi_comp ci) ->
  ~ In (txc_comp_index (cqi_comp ci))
       (ring_walk (q_num_descs (q w)) (q_tail_idx (q w)) n) ->
  (n < fuel)%nat ->
  exists pkts' bytes' w',
    tx_service_loop fuel ci pkts bytes w = Some (pkts', bytes', w')
    /\ drained_n (S n) w w'.
Proof.
  induction n as [|n IH]; intros fuel ci pkts bytes w HN H16 Ht Hat Hnin Hf;
    (destruct fuel as [|fuel]; [lia|]); cbn [tx_service_loop];
    destruct (tx_drain_one_spec (Some ci) pkts bytes w)
      as [p1 [b1 [w1 [-> Hd]]]];
    rewrite u16_small by lia.
  - cbn [ring_at] in Hat. rewrite Hat, Z.eqb_refl. cbn [negb].
    do 3 eexists. split; [reflexivity|].
    eapply drained_S; [exact Hd | constructor].
  - cbn [ring_at ring_walk] in Hat, Hnin.
    destruct (Z.eqb_spec (q_tail_idx (q w)) (txc_comp_index (cqi_comp ci)))
      as [E|E]; [exfalso; apply Hnin; left; exact E|]. cbn [negb].
    destruct (drained_step_ok _ _ HN Ht Hd) as [Ht1 Hr1].
    pose proof (dr_num _ _ Hd) as HN1.
    destruct (IH fuel ci p1 b1 w1) as [p2 [b2 [w2 [E2 Hd2]]]].
    + rewrite HN1. exact HN.
    + rewrite HN1. exact H16.
    + exact Hr1.
    + rewrite HN1, Ht1. exact Hat.
    + rewrite HN1, Ht1. intros Hin. apply Hnin. right. exact Hin.
    + lia.
    + rewrite E2. do 3 eexists. split; [reflexivity|].
      eapply drained_S; [exact Hd | exact Hd2].
Qed.

(** The teardown loop stops when tail_idx has reached head_idx. *)
Lemma tx_empty_loop_runs n : forall fuel pkts bytes w,
  is_pow2 (q_num_descs (q w)) ->
  0 <= q_tail_idx (q w) < q_num_descs (q w) ->
  ring_at (q_num_descs (q w)) (q_tail_idx (q w)) n = q_head_idx (q w) ->
  ~ In (q_head_idx (q w))
       (ring_walk (q_num_descs (q w)) (q_tail_idx (q w)) n) ->
  (n <= fuel)%nat ->
  exists pkts' bytes' w',
    tx_empty_loop fuel pkts bytes w = Some (pkts', bytes', w')
    /\ drained_n n w w'.
Proof.
  induction n as [|n IH]; intros fuel pkts bytes w HN Ht Hat Hnin Hf.
  - cbn [ring_at] in Hat.
    assert (E : (q_head_idx (q w) =? q_tail_idx (q w)) = true)
      by (apply Z.eqb_eq; congruence).
    destruct fuel; cbn [tx_empty_loop]; rewrite E;
      do 3 eexists; (split; [reflexivity | constructor]).
  - destruct fuel as [|fuel]; [lia|]. cbn [tx_empty_loop].
    cbn [ring_at ring_walk] in Hat, Hnin.
    destruct (Z.eqb_spec (q_head_idx (q w)) (q_tail_idx (q w))) as [E|E];
      [exfalso; apply Hnin; left; symmetry; exact E|].
    destruct (tx_drain_one_spec None pkts bytes w) as [p1 [b1 [w1 [-> Hd]]]].
    destruct (drained_step_ok _ _ HN Ht Hd) as [Ht1 Hr1].
    pose proof (dr_num _ _ Hd) as HN1. pose proof (dr_head _ _ Hd) as Hh1.
    destruct (IH fuel p1 b1 w1) as [p2 [b2 [w2 [E2 Hd2]]]].
    + rewrite HN1. exact HN.
    + exact Hr1.
    + rewrite HN1, Ht1, Hh1. exact Hat.
    + rewrite HN1, Ht1, Hh1. intros Hin. apply Hnin. right. exact Hin.
    + lia.
    + rewrite E2. do 3 eexists. split; [reflexivity|].
      eapply drained_S; [exact Hd | exact Hd2].
Qed.

(** Whatever the completion says, a service loop that ends has made some
    rounds of the drain. *)
Lemma tx_service_loop_rounds fuel : forall ci pkts bytes w r,
  tx_service_loop fuel ci pkts bytes w = Some r ->
  exists n, drained_n (S n) w (snd r).
Proof.
  induction fuel as [|fuel IH]; intros ci pkts bytes w r; cbn [tx_service_loop];
    [discriminate|].
  destruct (tx_drain_one_spec (Some ci) pkts bytes w)
    as [p1 [b1 [w1 [-> Hd]]]].
  destruct (negb _).
  - intros Hr. destruct (IH _ _ _ _ _ Hr) as [n Hn].
    exists (S n). eapply drained_S; [exact Hd | exact Hn].
  - intros [= <-]. exists O. eapply drained_S; [exact Hd | constructor].
Qed.

Lemma tx_empty_loop_rounds fuel : forall pkts bytes w r,
  tx_empty_loop fuel pkts bytes w = Some r ->
  exists n, drained_n n w (snd r).
Proof.
  induction fuel as [|fuel IH]; intros pkts bytes w r; cbn [tx_empty_loop];
    destruct (_ =? _).
  - intros [= <-]. exists O. constructor.
  - discriminate.
  - intros [= <-]. exists O. constructor.
  - destruct (tx_drain_one_spec None pkts bytes w) as [p1 [b1 [w1 [-> Hd]]]].
    intros Hr. destruct (IH _ _ _ _ Hr) as [n Hn].
    exists (S n). eapply drained_S; [exact Hd | exact Hn].
Qed.

End TxLoops.

(** ** The receive service *)

Section RxServiceFacts.
Context `{ionic_consts}.

(** What an accepted receive completion does to the ring. *)
Lemma rx_service_accepts cq ci w w' :
  ionic_rx_service cq ci w = (true, w') ->
  color_match (rxc_pkt_type_color (cqi_comp ci)) (cq_done_color cq) = true
  /\ q_tail_idx (q w) <> q_head_idx (q w)
  /\ q_tail_idx (q w) = rxc_comp_index (cqi_comp ci)
  /\ q_num_descs (q w') = q_num_descs (q w)
  /\ q_head_idx (q w') = q_head_idx (q w)
  /\ q_tail_idx (q w')
     = Z.land (q_tail_idx (q w) + 1) (q_num_descs (q w) - 1)
  /\ cleaned (k_trace (k w'))
     = cleaned (k_trace (k w)) ++ [(cb_ionic_rx_clean, q_tail_idx (q w))].
Proof.
  unfold ionic_rx_service.
  destruct (color_match _ _) eqn:Ec; cbn [negb]; [|discriminate].
  destruct (Z.eqb_spec (q_tail_idx (q w)) (q_head_idx (q w))) as [Ee|Ee];
    [discriminate|].
  destruct (Z.eqb_spec (q_tail_idx (q w)) (rxc_comp_index (cqi_comp ci)))
    as [Ei|Ei]; cbn [negb]; [|discriminate].
  set (t := q_tail_idx (q w)). set (w1 := log _ _).
  pose proof (quiet_rx_clean (slot w t) ci (di_cb_arg (slot w t)) w1) as Hq.
  destruct (ionic_rx_clean _ _ _ _) as [d1 w2]. simpl in Hq.
  intros [= <-]. repeat split; try assumption; simpl.
  - rewrite (quiet_num_descs _ _ Hq). reflexivity.
  - rewrite (quiet_head _ _ Hq). reflexivity.
  - rewrite (quiet_tail _ _ Hq). reflexivity.
  - rewrite (quiet_cleaned _ _ Hq). unfold w1.
    rewrite trace_log, cleaned_app. reflexivity.
Qed.

(** When it accepts. *)
Lemma rx_service_accept_iff cq ci w :
  fst (ionic_rx_service cq ci w) = true <->
  color_match (rxc_pkt_type_color (cqi_comp ci)) (cq_done_color cq) = true
  /\ q_tail_idx (q w) <> q_head_idx (q w)
  /\ q_tail_idx (q w) = rxc_comp_index (cqi_comp ci).
Proof.
  split.
  - intros Hr. destruct (ionic_rx_service cq ci w) as [b w'] eqn:E.
    simpl in Hr. subst b. apply rx_service_accepts in E. tauto.
  - intros [Hc [He Hi]]. unfold ionic_rx_service. rewrite Hc. cbn [negb].
    destruct (Z.eqb_spec (q_tail_idx (q w)) (q_head_idx (q w))); [tauto|].
    destruct (Z.eqb_spec (q_tail_idx (q w)) (rxc_comp_index (cqi_comp ci)));
      [|tauto]. cbn [negb].
    destruct (ionic_rx_clean _ _ _ _). reflexivity.
Qed.

(** A refused completion leaves everything as it was. *)
Lemma rx_service_refuses cq ci w :
  fst (ionic_rx_service cq ci w) = false -> ionic_rx_service cq ci w = (false, w).
Proof.
  unfold ionic_rx_service.
  destruct (negb (color_match _ _)); [reflexivity|].
  destruct (_ =? q_head_idx _); [reflexivity|].
  destruct (negb _); [reflexivity|].
  destruct (ionic_rx_clean _ _ _ _). simpl. discriminate.
Qed.

End RxServiceFacts.


(** ** Example inputs *)

(** The constants of a build for 4 KiB pages, to run the model on. *)
Definition example_consts : ionic_consts := {|
  IONIC_PAGE_ORDER := 0;
  IONIC_PAGE_SIZE := 4096;
  IONIC_PAGE_SPLIT_SZ := 2048;
  IONIC_PAGE_SPLIT_MAX_MTU := 2030;
  IONIC_RX_MAX_SG_ELEMS := 8;
  IONIC_RX_MIN_DOORBELL_DEADLINE := 10;
  IONIC_RX_MAX_DOORBELL_DEADLINE := 4000;
  IONIC_TXQ_DESC_FLAG_VLAN := 1;
  IONIC_TXQ_DESC_FLAG_ENCAP := 2;
  IONIC_TXQ_DESC_FLAG_TSO_SOT := 4;
  IONIC_TXQ_DESC_FLAG_TSO_EOT := 8;
  IONIC_RXQ_COMP_CSUM_F_TCP_BAD := 2;
  IONIC_RXQ_COMP_CSUM_F_UDP_BAD := 8;
  IONIC_RXQ_COMP_CSUM_F_IP_BAD := 32;
  DMA_MAPPING_ERROR := 2 ^ 64 - 1;
  color_match := fun color done_color =>
    (if Z.testbit color 7 then 1 else 0) =? done_color;
  dev_page_is_reusable := fun _ => true;
  CONFIG_PTP_1588_CLOCK := true;
  IONIC_SUPPORTS_BQL := true;
  HAVE_SKB_XMIT_MORE := true
|}.

Definition example_kernel : kernel :=
  mk_kernel 1500 256 [] 1000 false [] [] [] [] [] [] [].

(** A ring slot with [n] buffers and sg elements, all zero. *)
Definition blank_slot (n : nat) : ionic_desc_info :=
  mk_desc_info desc_zero (replicate n (mk_sg_elem 0 0)) None None 0
    (replicate n buf_zero) 0.

(** A queue of [N] descriptors over the given slots. *)
Definition example_queue (N head tail : Z) (info : list ionic_desc_info)
  : ionic_queue :=
  mk_queue 0 N 8 head tail info 0 10 0 false [].

Definition example_skb (id len : Z) : sk_buff :=
  mk_skb id len len [] 0 0 false false false 0 false false 0 0 54 0 false 0.

(** A slot holding a posted packet with its head mapping. *)
Definition posted_slot (skb : sk_buff) (addr : Z) : ionic_desc_info :=
  mk_desc_info desc_zero (replicate 9 (mk_sg_elem 0 0))
    (Some cb_ionic_tx_clean) (Some skb) 1
    (mk_buf_info None addr 0 (skb_len skb) 0 :: replicate 8 buf_zero) 0.

(** A slot holding a receive buffer. *)
Definition filled_slot (p : page) (addr : Z) : ionic_desc_info :=
  mk_desc_info desc_zero (replicate 9 (mk_sg_elem 0 0))
    (Some cb_ionic_rx_clean) None 1
    (mk_buf_info (Some p) addr 0 0 0 :: replicate 8 buf_zero) 0.

(** * The claims *)

(** ** Completion service *)

(** C10.  A receive completion whose color matches but whose comp_index is
    not the current tail_idx is refused: ionic_rx_service returns false and
    the whole state (tail_idx, every slot, every buffer, the trace of
    kernel calls) is what it was. *)
Theorem rx_service_index_mismatch `{ionic_consts} cq ci w :
  color_match (rxc_pkt_type_color (cqi_comp ci)) (cq_done_color cq) = true ->
  rxc_comp_index (cqi_comp ci) <> q_tail_idx (q w) ->
  ionic_rx_service cq ci w = (false, w).
Proof.
  intros Hc Hi. apply rx_service_refuses.
  destruct (fst (ionic_rx_service cq ci w)) eqn:E; [|reflexivity].
  apply rx_service_accept_iff in E. destruct E as [_ [_ E]]. congruence.
Qed.

(** A receive ring of four slots, slots 1 and 2 filled. *)
Definition rx_world_1_3 : world :=
  mk_world
    (example_queue 4 3 1
       [blank_slot 9; filled_slot 71 4096; filled_slot 72 8192; blank_slot 9])
    (mk_kernel 1500 256 [] 1000 false [] [] [] [true; true] [] [] []).

Definition rx_comp (index len color : Z) : ionic_cq_info ionic_rxq_comp :=
  mk_cq_info (mk_rxq_comp 0 0 index len 0 color) 0.

Lemma rx_service_index_mismatch_witness :
  @ionic_rx_service example_consts (mk_cq 1) (rx_comp 2 128 128) rx_world_1_3
  = (false, rx_world_1_3).
Proof.
  apply (@rx_service_index_mismatch example_consts).
  - reflexivity.
  - simpl. lia.
Defined.



Definition tx_comp (index color : Z) : ionic_cq_info ionic_txq_comp :=
  mk_cq_info (mk_txq_comp 0 index color) 0.





(** A transmit ring of four slots with packets posted in slots 3 and 0. *)
Definition tx_world_3_1 : world :=
  mk_world
    (example_queue 4 1 3
       [posted_slot (example_skb 2 60) 8192; blank_slot 9; blank_slot 9;
        posted_slot (example_skb 1 1500) 4096])
    example_kernel.


(** ** Steps that touch only the slots and the counters *)

(** [fills w w']: the queue of [w'] is that of [w] but for the contents of
    its slots and its counters. *)
Definition fills (w w' : world) : Prop :=
  exists st inf, q w' = set_stats st (set_info inf (q w)).

Lemma fills_refl w : fills w w.
Proof. exists (q_stats (q w)), (q_info (q w)). destruct (q w); reflexivity. Qed.

Lemma fills_trans w1 w2 w3 : fills w1 w2 -> fills w2 w3 -> fills w1 w3.
Proof.
  intros [st1 [i1 H1]] [st2 [i2 H2]]. exists st2, i2. rewrite H2, H1.
  reflexivity.
Qed.

Lemma quiet_fills w w' : quiet w w' -> fills w w'.
Proof.
  intros [[st Hq] _]. exists st, (q_info (q w)). rewrite Hq.
  destruct (q w); reflexivity.
Qed.

Lemma fills_upd_slot i f w : fills w (upd_slot i f w).
Proof.
  exists (q_stats (q w)), (alter f (Z.to_nat i) (q_info (q w))).
  simpl. destruct (q w); reflexivity.
Qed.

Lemma fills_store_slot i d w : fills w (store_slot i d w).
Proof. apply fills_upd_slot. Qed.

Lemma fills_num_descs w w' :
  fills w w' -> q_num_descs (q w') = q_num_descs (q w).
Proof. intros [st [inf ->]]. reflexivity. Qed.
Lemma fills_head w w' : fills w w' -> q_head_idx (q w') = q_head_idx (q w).
Proof. intros [st [inf ->]]. reflexivity. Qed.
Lemma fills_tail w w' : fills w w' -> q_tail_idx (q w') = q_tail_idx (q w).
Proof. intros [st [inf ->]]. reflexivity. Qed.
Lemma fills_deadline w w' :
  fills w w' -> q_dbell_deadline (q w') = q_dbell_deadline (q w).
Proof. intros [st [inf ->]]. reflexivity. Qed.
Lemma fills_max_sg w w' :
  fills w w' -> q_max_sg_elems (q w') = q_max_sg_elems (q w).
Proof. intros [st [inf ->]]. reflexivity. Qed.

Section FillFacts.
Context `{ionic_consts}.

Lemma quiet_rx_page_alloc b w : quiet w (snd (ionic_rx_page_alloc b w)).
Proof.
  unfold ionic_rx_page_alloc.
  pose proof (quiet_pop_alloc_pages w) as Hp.
  destruct (pop_alloc_pages w) as [[p|] w1]; simpl in Hp |- *.
  - pose proof (quiet_pop_dma_map w1) as Hm.
    destruct (pop_dma_map w1) as [a w2]. simpl in Hm.
    pose proof (quiet_trans _ _ _ Hp Hm) as H2.
    destruct (dma_mapping_error a); simpl; repeat quiet_step; exact H2.
  - quiet_step. exact Hp.
Qed.

Lemma quiet_rx_page_free b w : quiet w (snd (ionic_rx_page_free b w)).
Proof.
  unfold ionic_rx_page_free.
  destruct (bi_page b); simpl; [|apply quiet_refl].
  quiet_step. destruct (_ && _); repeat quiet_step.
Qed.

Lemma quiet_rx_fill_alloc nsplits j d w :
  quiet w (snd (rx_fill_alloc nsplits j d w)).
Proof.
  unfold rx_fill_alloc.
  destruct (bi_page (di_buf d j)); simpl; [apply quiet_refl|].
  pose proof (quiet_rx_page_alloc (di_buf d j) w) as Ha.
  destruct (ionic_rx_page_alloc _ _) as [[err b] w1]. simpl in Ha.
  destruct (negb _); simpl; [exact Ha|].
  destruct (0 <? _); simpl; [|exact Ha].
  destruct (bi_page _); [|exact Ha].
  destruct (negb _); [quiet_step|]; exact Ha.
Qed.

Lemma quiet_rx_fill_sg n : forall nsplits j remain nfrags d w,
  quiet w (snd (rx_fill_sg n nsplits j remain nfrags d w)).
Proof.
  induction n as [|n IH]; intros nsplits j remain nfrags d w;
    cbn [rx_fill_sg]; [apply quiet_refl|].
  destruct (negb (0 <? remain)); [apply quiet_refl|].
  pose proof (quiet_rx_fill_alloc nsplits (j + 1) d w) as Ha.
  destruct (rx_fill_alloc _ _ _ _) as [[ok d1] w1]. simpl in Ha.
  destruct ok; cbn [negb].
  - eapply quiet_trans; [exact Ha | apply IH].
  - exact Ha.
Qed.

(** The head index after ionic_q_post. *)
Lemma q_post_queue db cb arg w :
  exists inf,
    q (ionic_q_post db cb arg w)
    = set_head_idx ((q_head_idx (q w) + 1) mod q_num_descs (q w))
        (set_info inf (q w)).
Proof.
  unfold ionic_q_post. eexists. destruct db; simpl; reflexivity.
Qed.

Lemma q_post_cleaned db cb arg w :
  cleaned (k_trace (k (ionic_q_post db cb arg w))) = cleaned (k_trace (k w)).
Proof.
  unfold ionic_q_post. destruct db; simpl; rewrite ?cleaned_app; simpl;
    rewrite ?app_nil_r; reflexivity.
Qed.

(** One round of the fill either gives up, the indices being what they
    were, or posts one descriptor. *)
Lemma rx_fill_one_spec len nsplits w :
  let r := rx_fill_one len nsplits w in
  (fst r = false /\ fills w (snd r))
  \/ (fst r = true /\ exists w1,
        fills w w1 /\
        q (snd r)
        = set_head_idx ((q_head_idx (q w) + 1) mod q_num_descs (q w)) (q w1)).
Proof.
  unfold rx_fill_one.
  pose proof (quiet_rx_fill_alloc nsplits 0 (slot w (q_head_idx (q w))) w) as Ha.
  destruct (rx_fill_alloc _ _ _ _) as [[ok d1] w1]. simpl in Ha.
  destruct ok; cbn [negb].
  - match goal with
    | |- context [rx_fill_sg ?n ?a ?b ?c ?e ?f ?g] =>
        pose proof (quiet_rx_fill_sg n a b c e f g) as Hs;
        destruct (rx_fill_sg n a b c e f g) as [[[[ok2 j] nfrags] d2] w2]
    end. simpl in Hs.
    pose proof (quiet_trans _ _ _ Ha Hs) as H2.
    destruct ok2; cbn [negb].
    + right. split; [reflexivity|]. cbn [snd].
      match goal with
      | |- context [ionic_rxq_post ?db ?cb ?arg ?x] =>
          destruct (q_post_queue db cb arg x) as [inf Hp]; set (wp := x) in *
      end.
      assert (Hf : fills w wp).
      { eapply fills_trans; [apply quiet_fills, H2 | apply fills_store_slot]. }
      exists (upd_q (set_info inf) wp). split.
      * eapply fills_trans; [exact Hf|].
        exists (q_stats (q wp)), inf. simpl. destruct (q wp); reflexivity.
      * unfold ionic_rxq_post. rewrite Hp.
        rewrite (fills_head _ _ Hf), (fills_num_descs _ _ Hf). reflexivity.
    + left. split; [reflexivity|]. cbn [snd].
      eapply fills_trans; [apply quiet_fills, H2 | apply fills_store_slot].
  - left. split; [reflexivity|]. cbn [snd].
    eapply fills_trans; [apply quiet_fills, Ha | apply fills_store_slot].
Qed.

End FillFacts.

(** ** The ring indices under the queue operations *)

(** head_idx and tail_idx lie inside the ring. *)
Definition ring_inv (x : ionic_queue) : Prop :=
  0 <= q_head_idx x < q_num_descs x /\ 0 <= q_tail_idx x < q_num_descs x.

Inductive ring_op :=
| op_rx_service (cq : ionic_cq) (ci : ionic_cq_info ionic_rxq_comp)
| op_tx_service (cq : ionic_cq) (ci : ionic_cq_info ionic_txq_comp)
| op_rx_fill
| op_tx_empty
| op_rx_empty.

(** A transmit completion that names a slot of a ring of [N]. *)
Definition op_valid (N : Z) (o : ring_op) : Prop :=
  match o with
  | op_tx_service _ ci => 0 <= txc_comp_index (cqi_comp ci) < N
  | _ => True
  end.

Section RingOps.
Context `{ionic_consts}.

(** The queue is empty. *)
Definition ring_empty (w : world) : Prop :=
  q_head_idx (q w) = q_tail_idx (q w).

(** The queue is full: posting one more would make head_idx equal
    tail_idx. *)
Definition ring_full (w : world) : Prop :=
  q_head_idx (q (ionic_q_post false None None w)) = q_tail_idx (q w).

Definition run_op (o : ring_op) (w : world) : option world :=
  match o with
  | op_rx_service cq ci => Some (snd (ionic_rx_service cq ci w))
  | op_tx_service cq ci =>
      match ionic_tx_service cq ci w with
      | Some r => Some (snd r)
      | None => None
      end
  | op_rx_fill => Some (ionic_rx_fill w)
  | op_tx_empty => ionic_tx_empty w
  | op_rx_empty => Some (ionic_rx_empty w)
  end.

Fixpoint run_ops (os : list ring_op) (w : world) : option world :=
  match os with
  | [] => Some w
  | o :: os' =>
      match run_op o w with
      | Some w1 => run_ops os' w1
      | None => None
      end
  end.

Lemma ring_full_unfold w :
  ring_full w <->
  (q_head_idx (q w) + 1) mod q_num_descs (q w) = q_tail_idx (q w).
Proof.
  unfold ring_full. destruct (q_post_queue false None None w) as [inf ->].
  reflexivity.
Qed.

Lemma not_full_and_empty w :
  2 <= q_num_descs (q w) -> ring_inv (q w) -> ~ (ring_full w /\ ring_empty w).
Proof.
  intros HN [Hh Ht] [Hf He]. apply ring_full_unfold in Hf.
  unfold ring_empty in He. rewrite <- He in Hf.
  rewrite mod_near in Hf by lia.
  destruct (q_head_idx (q w) + 1 <? 0) eqn:E0; [lia|].
  destruct (q_head_idx (q w) + 1 <? q_num_descs (q w)) eqn:E1; lia.
Qed.

Lemma rx_fill_loop_inv n : forall len nsplits w,
  let w' := snd (rx_fill_loop n len nsplits w) in
  q_num_descs (q w') = q_num_descs (q w)
  /\ q_tail_idx (q w') = q_tail_idx (q w)
  /\ q_dbell_deadline (q w') = q_dbell_deadline (q w)
  /\ (0 < q_num_descs (q w) ->
      0 <= q_head_idx (q w) < q_num_descs (q w) ->
      0 <= q_head_idx (q w') < q_num_descs (q w')).
Proof.
  induction n as [|n IH]; intros len nsplits w; cbn [rx_fill_loop].
  - simpl. tauto.
  - pose proof (rx_fill_one_spec len nsplits w) as Hs. cbv zeta in Hs.
    destruct (rx_fill_one len nsplits w) as [ok w1]. cbn [fst snd] in Hs.
    destruct Hs as [[-> Hf] | [-> [w0 [Hf Hq]]]]; cbn [negb].
    + cbn [snd]. rewrite (fills_num_descs _ _ Hf), (fills_tail _ _ Hf),
        (fills_deadline _ _ Hf), (fills_head _ _ Hf). tauto.
    + assert (HN1 : q_num_descs (q w1) = q_num_descs (q w))
        by (rewrite Hq; simpl; apply (fills_num_descs _ _ Hf)).
      assert (Ht1 : q_tail_idx (q w1) = q_tail_idx (q w))
        by (rewrite Hq; simpl; apply (fills_tail _ _ Hf)).
      assert (Hd1 : q_dbell_deadline (q w1) = q_dbell_deadline (q w))
        by (rewrite Hq; simpl; apply (fills_deadline _ _ Hf)).
      assert (Hh1 : 0 < q_num_descs (q w) ->
                    0 <= q_head_idx (q w1) < q_num_descs (q w1)).
      { intros HN. rewrite HN1, Hq. simpl. apply Z.mod_pos_bound. exact HN. }
      specialize (IH len nsplits w1). cbv zeta in IH.
      destruct IH as [I1 [I2 [I3 I4]]].
      rewrite I2, I3, Ht1, Hd1. rewrite I1 in *. rewrite HN1 in *.
      split; [reflexivity|]. split; [reflexivity|]. split; [reflexivity|].
      intros HN Hh. apply (I4 HN (Hh1 HN)).
Qed.

Lemma rx_fill_inv w :
  0 < q_num_descs (q w) -> ring_inv (q w) ->
  q_num_descs (q (ionic_rx_fill w)) = q_num_descs (q w)
  /\ ring_inv (q (ionic_rx_fill w)).
Proof.
  intros HN [Hh Ht]. unfold ionic_rx_fill, rx_fill_pass.
  match goal with
  | |- context [rx_fill_loop ?n ?l ?s w] =>
      pose proof (rx_fill_loop_inv n l s w) as Hl;
      destruct (rx_fill_loop n l s w) as [ok w1]
  end. cbv zeta in Hl. cbn [snd] in Hl.
  destruct Hl as [H1 [H2 [_ H4]]]. specialize (H4 HN Hh).
  unfold ring_inv.
  destruct ok; cbn [negb]; simpl; rewrite ?H1, ?H2; rewrite H1 in H4; tauto.
Qed.

End RingOps.

(** ** Arrays of buffers and slots *)

Lemma lookup_total_out {A} `{Inhabited A} (l : list A) (i : nat) :
  (length l <= i)%nat -> l !!! i = inhabitant.
Proof.
  intros Hl. rewrite list_lookup_total_alt, (lookup_ge_None_2 l i Hl).
  reflexivity.
Qed.

Lemma di_buf_set_ne j j' b d :
  0 <= j -> 0 <= j' -> j <> j' -> di_buf (set_di_buf j b d) j' = di_buf d j'.
Proof.
  intros Hj Hj' Hne. unfold di_buf, set_di_buf. simpl.
  apply list_lookup_total_alter_ne. lia.
Qed.

Lemma di_buf_in_range d j p :
  bi_page (di_buf d j) = Some p -> (Z.to_nat j < length (di_bufs d))%nat.
Proof.
  intros Hp. destruct (decide (Z.to_nat j < length (di_bufs d))%nat) as [Hl|Hl];
    [exact Hl|].
  unfold di_buf in Hp. rewrite lookup_total_out in Hp by lia. discriminate.
Qed.

Lemma di_buf_set_eq j b d :
  (Z.to_nat j < length (di_bufs d))%nat -> di_buf (set_di_buf j b d) j = b.
Proof.
  intros Hl. unfold di_buf, set_di_buf. simpl.
  rewrite list_lookup_total_alter_eq by exact Hl. reflexivity.
Qed.

Lemma slot_store_ne i i' d w :
  0 <= i -> 0 <= i' -> i <> i' -> slot (store_slot i d w) i' = slot w i'.
Proof.
  intros Hi Hi' Hne. unfold slot, store_slot, upd_slot. simpl.
  apply list_lookup_total_alter_ne. lia.
Qed.

Lemma slot_store_eq i d w :
  (Z.to_nat i < length (q_info (q w)))%nat -> slot (store_slot i d w) i = d.
Proof.
  intros Hl. unfold slot, store_slot, upd_slot. simpl.
  rewrite list_lookup_total_alter_eq by exact Hl. reflexivity.
Qed.

Lemma slot_store_out i d w :
  (length (q_info (q w)) <= Z.to_nat i)%nat ->
  slot (store_slot i d w) i = desc_info_zero.
Proof.
  intros Hl. unfold slot, store_slot, upd_slot. simpl.
  rewrite lookup_total_out by (rewrite length_alter; exact Hl). reflexivity.
Qed.

Lemma In_seqZ j m n : In j (seqZ m n) <-> m <= j < m + n.
Proof. rewrite <- list_elem_of_In. apply elem_of_seqZ. Qed.

(** ** Receive teardown *)

(** Every page of the slot has been given back and the slot holds no
    callback. *)
Definition slot_freed `{ionic_consts} (d : ionic_desc_info) : Prop :=
  slot_clean d /\
  forall j, 0 <= j <= IONIC_RX_MAX_SG_ELEMS -> bi_page (di_buf d j) = None.

(** The page of buffer [b], if any, has been unmapped and freed. *)
Definition page_released `{ionic_consts} (b : ionic_buf_info) (w' : world)
  : Prop :=
  forall p, bi_page b = Some p ->
    In (ev_dma_unmap_page (bi_dma_addr b) IONIC_PAGE_SIZE) (k_trace (k w'))
    /\ In (ev_free_pages p) (k_trace (k w')).

Section RxEmptyFacts.
Context `{ionic_consts}.

Lemma rx_page_free_spec b w :
  let r := ionic_rx_page_free b w in
  quiet w (snd r) /\ bi_page (fst r) = None /\ page_released b (snd r).
Proof.
  cbv zeta. split; [apply quiet_rx_page_free|].
  unfold ionic_rx_page_free, page_released.
  destruct (bi_page b) as [p|] eqn:Ep; simpl; [|split; [exact Ep|discriminate]].
  split; [reflexivity|]. intros p' [= <-].
  destruct (_ && _); simpl; rewrite <- ?app_assoc; split;
    rewrite ?in_app_iff; simpl; tauto.
Qed.

Lemma rx_empty_buf_spec d w x :
  0 <= x ->
  let r := rx_empty_buf (d, w) x in
  quiet w (snd r)
  /\ (forall j, 0 <= j -> j <> x -> di_buf (fst r) j = di_buf d j)
  /\ bi_page (di_buf (fst r) x) = None
  /\ page_released (di_buf d x) (snd r).
Proof.
  intros Hx. unfold rx_empty_buf.
  destruct (bi_page (di_buf d x)) as [p|] eqn:Ep.
  - pose proof (rx_page_free_spec (di_buf d x) w) as Hs. cbv zeta in Hs.
    destruct (ionic_rx_page_free _ _) as [b w1]. cbn [fst snd] in *.
    destruct Hs as [Hq [Hb Hr]].
    split; [exact Hq|]. split; [|split; [|exact Hr]].
    + intros j Hj Hne. apply di_buf_set_ne; [exact Hx|exact Hj|congruence].
    + rewrite di_buf_set_eq; [exact Hb|]. eapply di_buf_in_range, Ep.
  - cbn [fst snd]. split; [apply quiet_refl|]. split; [reflexivity|].
    split; [exact Ep|]. intros p. rewrite Ep. discriminate.
Qed.

Lemma rx_empty_bufs_fold l : forall d w,
  Forall (fun j => 0 <= j) l ->
  let r := fold_left rx_empty_buf l (d, w) in
  quiet w (snd r)
  /\ (forall j, 0 <= j -> bi_page (di_buf d j) = None ->
                bi_page (di_buf (fst r) j) = None)
  /\ (forall j, In j l -> bi_page (di_buf (fst r) j) = None)
  /\ (forall j, In j l -> page_released (di_buf d j) (snd r)).
Proof.
  induction l as [|x l IH]; intros d w Hl; cbn [fold_left].
  - cbn [fst snd]. split; [apply quiet_refl|]. split; [tauto|].
    split; intros j [].
  - inversion Hl as [|? ? Hx Hl']; subst.
    pose proof (rx_empty_buf_spec d w x Hx) as Hs. cbv zeta in Hs.
    destruct (rx_empty_buf (d, w) x) as [d1 w1]. cbn [fst snd] in Hs.
    destruct Hs as [Hq [Hne [Hnone Hrel]]].
    specialize (IH d1 w1 Hl'). cbv zeta in IH.
    destruct IH as [Iq [Ikeep [Iin Irel]]].
    assert (Hkeep1 : forall j, 0 <= j -> bi_page (di_buf d j) = None ->
                               bi_page (di_buf d1 j) = None).
    { intros j Hj Hp. destruct (Z.eq_dec j x) as [->|E]; [exact Hnone|].
      rewrite Hne by assumption. exact Hp. }
    split; [exact (quiet_trans _ _ _ Hq Iq)|]. split; [|split].
    + intros j Hj Hp. apply Ikeep; [exact Hj|]. apply Hkeep1; assumption.
    + intros j [<-|Hin]; [apply Ikeep; assumption|apply Iin, Hin].
    + intros j Hin p Hp.
      destruct (Z.eq_dec j x) as [->|E].
      * destruct (Hrel p Hp) as [H1 H2].
        split; apply (quiet_grows _ _ _ Iq); assumption.
      * destruct Hin as [Hin|Hin]; [congruence|].
        assert (Hj : 0 <= j)
          by (rewrite Forall_forall in Hl'; apply Hl', list_elem_of_In, Hin).
        rewrite <- (Hne j Hj E). apply (Irel j Hin p).
        rewrite Hne by assumption. exact Hp.
Qed.

End RxEmptyFacts.

Section RxEmptySlots.
Context `{ionic_consts}.

Lemma blank_slot_freed : slot_freed desc_info_zero.
Proof. split; [repeat split|]. intros j _. reflexivity. Qed.

Lemma rx_empty_one_spec w i :
  0 <= i ->
  let w1 := rx_empty_one w i in
  fills w w1
  /\ (forall e, In e (k_trace (k w)) -> In e (k_trace (k w1)))
  /\ (forall i', 0 <= i' -> i' <> i -> slot w1 i' = slot w i')
  /\ slot_freed (slot w1 i)
  /\ (forall j, 0 <= j <= IONIC_RX_MAX_SG_ELEMS ->
                page_released (di_buf (slot w i) j) w1).
Proof.
  intros Hi. unfold rx_empty_one, rx_empty_bufs.
  assert (Hl : Forall (fun j => 0 <= j) (seqZ 0 (IONIC_RX_MAX_SG_ELEMS + 1))).
  { apply List.Forall_forall. intros j Hj. apply In_seqZ in Hj. lia. }
  pose proof (rx_empty_bufs_fold _ (slot w i) w Hl) as Hs. cbv zeta in Hs.
  destruct (fold_left rx_empty_buf _ _) as [d1 w1]. cbn [fst snd] in Hs.
  destruct Hs as [Hq [_ [Hin Hrel]]].
  split; [|split; [|split; [|split]]].
  - eapply fills_trans; [apply quiet_fills, Hq | apply fills_store_slot].
  - intros e He. rewrite trace_store_slot. apply (quiet_grows _ _ _ Hq), He.
  - intros i' Hi' Hne. rewrite slot_store_ne by (try assumption; congruence).
    unfold slot. rewrite (quiet_info _ _ Hq). reflexivity.
  - destruct (decide (Z.to_nat i < length (q_info (q w1)))%nat) as [Hr|Hr].
    + rewrite slot_store_eq by exact Hr. split; [repeat split|].
      intros j Hj. apply (Hin j). apply In_seqZ. lia.
    + rewrite slot_store_out by lia. apply blank_slot_freed.
  - intros j Hj p Hp. rewrite trace_store_slot.
    apply (Hrel j); [apply In_seqZ; lia | exact Hp].
Qed.

Lemma rx_empty_fold l : forall w,
  Forall (fun i => 0 <= i) l ->
  let w' := fold_left rx_empty_one l w in
  fills w w'
  /\ (forall e, In e (k_trace (k w)) -> In e (k_trace (k w')))
  /\ (forall i, 0 <= i -> slot_freed (slot w i) -> slot_freed (slot w' i))
  /\ (forall i, In i l -> slot_freed (slot w' i))
  /\ (forall i j, In i l -> 0 <= j <= IONIC_RX_MAX_SG_ELEMS ->
                  page_released (di_buf (slot w i) j) w').
Proof.
  induction l as [|x l IH]; intros w Hl; cbn [fold_left].
  - split; [apply fills_refl|]. split; [tauto|]. split; [tauto|].
    split; [intros i []|intros i j []].
  - inversion Hl as [|? ? Hx Hl']; subst.
    pose proof (rx_empty_one_spec w x Hx) as Hs. cbv zeta in Hs.
    destruct Hs as [Hf [Hg [Hne [Hfr Hrel]]]].
    specialize (IH (rx_empty_one w x) Hl'). cbv zeta in IH.
    destruct IH as [If [Ig [Ikeep [Iin Irel]]]].
    split; [exact (fills_trans _ _ _ Hf If)|].
    split; [intros e He; apply Ig, Hg, He|].
    assert (Hkeep1 : forall i, 0 <= i -> slot_freed (slot w i) ->
                               slot_freed (slot (rx_empty_one w x) i)).
    { intros i Hi Hc. destruct (Z.eq_dec i x) as [->|E]; [exact Hfr|].
      rewrite Hne by assumption. exact Hc. }
    split; [|split].
    + intros i Hi Hc. apply Ikeep; [exact Hi|]. apply Hkeep1; assumption.
    + intros i [<-|Hin]; [apply Ikeep; assumption | apply Iin, Hin].
    + intros i j Hin Hj p Hp.
      destruct (Z.eq_dec i x) as [->|E].
      * destruct (Hrel j Hj p Hp) as [H1 H2]. split; apply Ig; assumption.
      * destruct Hin as [Hin|Hin]; [congruence|].
        assert (Hi : 0 <= i)
          by (rewrite Forall_forall in Hl'; apply Hl', list_elem_of_In, Hin).
        rewrite <- (Hne i Hi E). apply (Irel i j Hin Hj p).
        rewrite Hne by assumption. exact Hp.
Qed.

(** ionic_rx_empty: indices at zero, every slot of the ring freed, every
    page it held unmapped and freed. *)
Lemma rx_empty_spec w :
  let w' := ionic_rx_empty w in
  q_head_idx (q w') = 0 /\ q_tail_idx (q w') = 0
  /\ q_num_descs (q w') = q_num_descs (q w)
  /\ forall i, 0 <= i < q_num_descs (q w) ->
       slot_freed (slot w' i)
       /\ forall j, 0 <= j <= IONIC_RX_MAX_SG_ELEMS ->
                    page_released (di_buf (slot w i) j) w'.
Proof.
  cbv zeta. unfold ionic_rx_empty.
  assert (Hl : Forall (fun i => 0 <= i) (seqZ 0 (q_num_descs (q w)))).
  { apply List.Forall_forall. intros i Hi. apply In_seqZ in Hi. lia. }
  pose proof (rx_empty_fold _ w Hl) as Hs. cbv zeta in Hs.
  set (w1 := fold_left rx_empty_one _ w) in *.
  destruct Hs as [Hf [_ [_ [Hin Hrel]]]].
  split; [reflexivity|]. split; [reflexivity|].
  split; [simpl; apply (fills_num_descs _ _ Hf)|].
  intros i Hi. split.
  - apply (Hin i). apply In_seqZ. lia.
  - intros j Hj. apply (Hrel i j); [apply In_seqZ; lia | exact Hj].
Qed.

End RxEmptySlots.

(** ** Teardown *)

(** C3, as stated, fails for transmit: ionic_tx_empty on a ring with
    head_idx = 1 and tail_idx = 3 ends with both indices at 1, not at
    zero. *)
Lemma tx_empty_indices_counterexample :
  ~ (exists w',
       @ionic_tx_empty example_consts tx_world_3_1 = Some w'
       /\ q_head_idx (q w') = 0 /\ q_tail_idx (q w') = 0).
Proof.
  intros [w' [Hr [Hh _]]]. vm_compute in Hr. injection Hr as <-.
  vm_compute in Hh. discriminate.
Qed.

(** C3, amended.  ionic_rx_empty leaves head_idx = tail_idx = 0, every slot
    of the ring without callback and without page, and every page a slot
    held has been unmapped and freed.  ionic_tx_empty, on a ring of N slots
    (N a power of two) with both indices inside, ends; it leaves the queue
    empty with tail_idx equal to head_idx, which keeps its value; every
    slot from the old tail_idx up to head_idx has had its buffers unmapped
    and its packet released, and holds nothing any more. *)
Theorem teardown_releases `{ionic_consts} (wrx wtx : world) :
  is_pow2 (q_num_descs (q wtx)) ->
  ring_inv (q wtx) ->
  (let w' := ionic_rx_empty wrx in
   q_head_idx (q w') = 0 /\ q_tail_idx (q w') = 0
   /\ forall i, 0 <= i < q_num_descs (q wrx) ->
        slot_freed (slot w' i)
        /\ forall j, 0 <= j <= IONIC_RX_MAX_SG_ELEMS ->
                     page_released (di_buf (slot wrx i) j) w')
  /\
  (exists w',
     ionic_tx_empty wtx = Some w'
     /\ q_head_idx (q w') = q_head_idx (q wtx)
     /\ q_tail_idx (q w') = q_head_idx (q wtx)
     /\ forall i,
          In i (ring_walk (q_num_descs (q wtx)) (q_tail_idx (q wtx))
                  (Z.to_nat ((q_head_idx (q wtx) - q_tail_idx (q wtx))
                             mod q_num_descs (q wtx)))) ->
          released (slot wtx i) w'
          /\ ((Z.to_nat i < length (q_info (q wtx)))%nat ->
              slot_clean (slot w' i))).
Proof.
  intros HN [Hh Ht]. split.
  - pose proof (rx_empty_spec wrx) as Hs. cbv zeta in Hs |- *. tauto.
  - destruct (ring_reach _ _ _ (is_pow2_pos _ HN) Ht Hh) as [Hat [Hnin Hlt]].
    set (n := Z.to_nat _) in *.
    destruct (tx_empty_loop_runs n (S (Z.to_nat (q_num_descs (q wtx))))
                0 0 wtx HN Ht Hat Hnin ltac:(lia)) as [p [b [w1 [Hl Hd]]]].
    unfold ionic_tx_empty. rewrite Hl.
    pose proof (drained_n_walked _ _ _ HN Ht Hd) as Hw.
    pose proof (quiet_bql_completed p b w1) as Hq.
    eexists. split; [reflexivity|].
    split; [|split].
    + rewrite (quiet_head _ _ Hq). apply (wk_head _ _ _ Hw).
    + rewrite (quiet_tail _ _ Hq), (wk_tail _ _ _ Hw). exact Hat.
    + intros i Hi. split.
      * destruct (wk_released _ _ _ Hw i Hi) as [Hu Hc]. split.
        -- intros e He. apply (quiet_grows _ _ _ Hq), Hu, He.
        -- intros skb Hs. apply (quiet_grows _ _ _ Hq), Hc, Hs.
      * intros Hr. unfold slot. rewrite (quiet_info _ _ Hq).
        apply (wk_clean _ _ _ Hw i Hi Hr).
Qed.

Lemma teardown_releases_witness :
  (q_head_idx (q (@ionic_rx_empty example_consts rx_world_1_3)) = 0
   /\ q_tail_idx (q (@ionic_rx_empty example_consts rx_world_1_3)) = 0
   /\ In (ev_free_pages 71)
         (k_trace (k (@ionic_rx_empty example_consts rx_world_1_3))))
  /\ exists w',
       @ionic_tx_empty example_consts tx_world_3_1 = Some w'
       /\ q_tail_idx (q w') = 1
       /\ In (ev_dev_consume_skb_any (example_skb 1 1500)) (k_trace (k w')).
Proof.
  destruct (@teardown_releases example_consts rx_world_1_3 tx_world_3_1)
    as [Hrx Htx].
  - exists 2. split; [lia | reflexivity].
  - unfold ring_inv. simpl. lia.
  - split.
    + cbv zeta in Hrx. destruct Hrx as [Hh [Ht Hs]].
      split; [exact Hh|]. split; [exact Ht|].
      destruct (Hs 1 ltac:(simpl; lia)) as [_ Hp].
      apply (Hp 0 ltac:(simpl; lia) 71). reflexivity.
    + destruct Htx as [w' [Hr [_ [Ht Hs]]]].
      exists w'. split; [exact Hr|]. split; [exact Ht|].
      destruct (Hs 3 ltac:(simpl; tauto)) as [[_ Hc] _].
      apply Hc. reflexivity.
Defined.

(** ** The indices stay inside the ring *)

Section RingInvariant.
Context `{ionic_consts}.

Lemma drained_n_inv n w w' :
  is_pow2 (q_num_descs (q w)) -> ring_inv (q w) -> drained_n n w w' ->
  q_num_descs (q w') = q_num_descs (q w) /\ ring_inv (q w').
Proof.
  intros HN [Hh Ht] Hd. pose proof (drained_n_walked _ _ _ HN Ht Hd) as Hw.
  pose proof (is_pow2_pos _ HN) as Hpos.
  split; [apply (wk_num _ _ _ Hw)|]. unfold ring_inv.
  rewrite (wk_num _ _ _ Hw), (wk_head _ _ _ Hw), (wk_tail _ _ _ Hw).
  split; [exact Hh|]. rewrite ring_at_closed by assumption.
  apply Z.mod_pos_bound. exact Hpos.
Qed.

Lemma quiet_inv w w' :
  quiet w w' -> ring_inv (q w) ->
  q_num_descs (q w') = q_num_descs (q w) /\ ring_inv (q w').
Proof.
  intros Hq Hi. unfold ring_inv in *.
  rewrite (quiet_num_descs _ _ Hq), (quiet_head _ _ Hq), (quiet_tail _ _ Hq).
  tauto.
Qed.

Lemma run_op_inv o w w' :
  is_pow2 (q_num_descs (q w)) -> ring_inv (q w) ->
  run_op o w = Some w' ->
  q_num_descs (q w') = q_num_descs (q w) /\ ring_inv (q w').
Proof.
  intros HN Hi. pose proof (is_pow2_pos _ HN) as Hpos.
  destruct o as [cq ci|cq ci| | |]; cbn [run_op].
  - intros [= <-]. destruct (ionic_rx_service cq ci w) as [[|] w1] eqn:E.
    + apply rx_service_accepts in E.
      destruct E as [_ [_ [_ [E1 [E2 [E3 _]]]]]]. cbn [snd].
      destruct Hi as [Hh Ht]. destruct (ring_step_mask _ _ HN Ht) as [Hm Hr].
      unfold ring_inv. rewrite E1, E2, E3, Hm. tauto.
    + rewrite (rx_service_refuses cq ci w) in E by (rewrite E; reflexivity).
      injection E as <-. cbn [snd]. tauto.
  - unfold ionic_tx_service. destruct (negb _).
    + intros [= <-]. cbn [snd]. tauto.
    + destruct (tx_service_loop _ _ _ _ _) as [[[p b] w1]|] eqn:E;
        [|discriminate].
      intros [= <-]. cbn [snd].
      destruct (tx_service_loop_rounds _ _ _ _ _ _ E) as [n Hd].
      cbn [snd] in Hd. destruct (drained_n_inv _ _ _ HN Hi Hd) as [H1 H2].
      destruct (quiet_inv _ _ (quiet_bql_completed p b w1) H2) as [H3 H4].
      split; [congruence | exact H4].
  - intros [= <-]. apply rx_fill_inv; assumption.
  - unfold ionic_tx_empty.
    destruct (tx_empty_loop _ _ _ _) as [[[p b] w1]|] eqn:E; [|discriminate].
    intros [= <-].
    destruct (tx_empty_loop_rounds _ _ _ _ _ E) as [n Hd].
    cbn [snd] in Hd. destruct (drained_n_inv _ _ _ HN Hi Hd) as [H1 H2].
    destruct (quiet_inv _ _ (quiet_bql_completed p b w1) H2) as [H3 H4].
    split; [congruence | exact H4].
  - intros [= <-]. pose proof (rx_empty_spec w) as Hs. cbv zeta in Hs.
    destruct Hs as [Hh [Ht [Hn _]]]. unfold ring_inv. rewrite Hh, Ht, Hn.
    split; [reflexivity | lia].
Qed.

Lemma run_op_total o w :
  is_pow2 (q_num_descs (q w)) -> q_num_descs (q w) <= 2 ^ 16 ->
  ring_inv (q w) -> op_valid (q_num_descs (q w)) o ->
  exists w', run_op o w = Some w'.
Proof.
  intros HN H16 [Hh Ht] Hv. pose proof (is_pow2_pos _ HN) as Hpos.
  destruct o as [cq ci|cq ci| | |]; cbn [run_op]; try (eexists; reflexivity).
  - unfold ionic_tx_service. destruct (negb _); [eexists; reflexivity|].
    cbn [op_valid] in Hv.
    destruct (ring_reach _ _ _ Hpos Ht Hv) as [Hat [Hnin Hlt]].
    destruct (tx_service_loop_runs _ (S (Z.to_nat (q_num_descs (q w))))
                ci 0 0 w HN H16 Ht Hat Hnin ltac:(lia))
      as [p [b [w1 [-> _]]]].
    eexists. reflexivity.
  - unfold ionic_tx_empty.
    destruct (ring_reach _ _ _ Hpos Ht Hh) as [Hat [Hnin Hlt]].
    destruct (tx_empty_loop_runs _ (S (Z.to_nat (q_num_descs (q w))))
                0 0 w HN Ht Hat Hnin ltac:(lia)) as [p [b [w1 [-> _]]]].
    eexists. reflexivity.
Qed.

Lemma run_ops_inv os : forall w w',
  is_pow2 (q_num_descs (q w)) -> ring_inv (q w) ->
  run_ops os w = Some w' ->
  q_num_descs (q w') = q_num_descs (q w) /\ ring_inv (q w').
Proof.
  induction os as [|o os IH]; intros w w' HN Hi; cbn [run_ops].
  - intros [= <-]. tauto.
  - destruct (run_op o w) as [w1|] eqn:E; [|discriminate].
    destruct (run_op_inv _ _ _ HN Hi E) as [H1 H2]. intros Hr.
    destruct (IH w1 w') as [H3 H4]; try assumption.
    + rewrite H1. exact HN.
    + split; [congruence | exact H4].
Qed.

Lemma run_ops_total os : forall w,
  is_pow2 (q_num_descs (q w)) -> q_num_descs (q w) <= 2 ^ 16 ->
  ring_inv (q w) -> Forall (op_valid (q_num_descs (q w))) os ->
  exists w', run_ops os w = Some w'.
Proof.
  induction os as [|o os IH]; intros w HN H16 Hi Hv; cbn [run_ops].
  - eexists. reflexivity.
  - inversion Hv as [|? ? Ho Hos]; subst.
    destruct (run_op_total _ _ HN H16 Hi Ho) as [w1 E]. rewrite E.
    destruct (run_op_inv _ _ _ HN Hi E) as [H1 H2].
    apply IH; rewrite ?H1; assumption.
Qed.

End RingInvariant.

(** A ring of one slot. *)
Definition ring_of_one : world :=
  mk_world (example_queue 1 0 0 [blank_slot 9]) example_kernel.

(** C2, as stated, fails for the ring of one slot (1 is a power of two):
    with head_idx = tail_idx = 0 the queue is empty, and posting one more
    would leave head_idx at 0 = tail_idx, so it is full as well. *)
Lemma ring_of_one_counterexample :
  is_pow2 (q_num_descs (q ring_of_one))
  /\ ring_inv (q ring_of_one)
  /\ exists w', @run_ops example_consts [op_rx_empty] ring_of_one = Some w'
       /\ ring_full w' /\ ring_empty w'.
Proof.
  split; [exists 0; split; [lia | reflexivity]|].
  split; [unfold ring_inv; simpl; lia|].
  eexists. split; [vm_compute; reflexivity|].
  split; vm_compute; reflexivity.
Qed.

(** C2, amended.  On a queue of N descriptors, N a power of two and at
    least 2, with head_idx and tail_idx in [0, N): after any sequence of
    ionic_rx_service, ionic_tx_service, ionic_rx_fill, ionic_tx_empty and
    ionic_rx_empty calls, N is unchanged, both indices are in [0, N), and
    the queue is not full and empty at once.  The sequence runs to its end
    when N <= 2^16 and every transmit completion names a slot of the
    ring. *)
Theorem ring_indices_invariant `{ionic_consts} os w :
  is_pow2 (q_num_descs (q w)) ->
  2 <= q_num_descs (q w) ->
  ring_inv (q w) ->
  (forall w', run_ops os w = Some w' ->
     q_num_descs (q w') = q_num_descs (q w)
     /\ ring_inv (q w')
     /\ ~ (ring_full w' /\ ring_empty w'))
  /\ (q_num_descs (q w) <= 2 ^ 16 ->
      Forall (op_valid (q_num_descs (q w))) os ->
      exists w', run_ops os w = Some w').
Proof.
  intros HN H2 Hi. split.
  - intros w' Hr. destruct (run_ops_inv _ _ _ HN Hi Hr) as [H1 H3].
    split; [exact H1|]. split; [exact H3|].
    apply not_full_and_empty; [lia | exact H3].
  - intros H16 Hv. apply run_ops_total; assumption.
Qed.

Definition example_ops : list ring_op :=
  [op_rx_service (mk_cq 1) (rx_comp 1 128 128); op_rx_fill;
   op_tx_service (mk_cq 1) (tx_comp 3 128); op_tx_empty; op_rx_empty].

Lemma ring_indices_invariant_witness :
  exists w', @run_ops example_consts example_ops rx_world_1_3 = Some w'
    /\ ring_inv (q w')
    /\ ~ (ring_full w' /\ ring_empty w').
Proof.
  destruct (@ring_indices_invariant example_consts example_ops rx_world_1_3)
    as [Hinv Htot].
  - exists 2. split; [lia | reflexivity].
  - simpl. lia.
  - unfold ring_inv. simpl. lia.
  - destruct Htot as [w' Hr].
    + simpl. lia.
    + repeat constructor; simpl; lia.
    + exists w'. split; [exact Hr|]. apply (Hinv w' Hr).
Defined.

(** ** Buffer recycling *)

(** The spec's align_up: the least multiple of [a] that is at least [x]. *)
Definition align_up (x a : Z) : Z := (x + a - 1) / a * a.

Lemma u32_small x : 0 <= x < 2 ^ 32 -> u32 x = x.
Proof. intros Hx. unfold u32. apply Z.mod_small. exact Hx. Qed.

(** Masking a u32 with the u32 image of [m] is masking with [m]. *)
Lemma land_u32_r y m : 0 <= y < 2 ^ 32 -> Z.land y (u32 m) = Z.land y m.
Proof.
  intros Hy. apply Z.bits_inj'. intros n Hn. rewrite !Z.land_spec.
  destruct (Z.lt_ge_cases n 32) as [Hlt|Hge].
  - unfold u32. rewrite Z.mod_pow2_bits_low by lia. reflexivity.
  - replace y with (y mod 2 ^ 32) by (apply Z.mod_small; exact Hy).
    rewrite Z.mod_pow2_bits_high by lia. reflexivity.
Qed.

(** The macro computes the spec's align_up when nothing wraps. *)
Lemma ALIGN_align_up x a :
  is_pow2 a -> 0 <= x -> x + a - 1 < 2 ^ 32 -> ALIGN x a = align_up x a.
Proof.
  intros [e [He ->]] Hx Hw. unfold ALIGN, align_up.
  assert (Hp : 0 < 2 ^ e) by (apply Z.pow_pos_nonneg; lia).
  rewrite (u32_small (x + (2 ^ e - 1))) by lia.
  rewrite land_u32_r by lia.
  replace (2 ^ e - 1) with (Z.ones e) by (rewrite Z.ones_equiv; lia).
  rewrite <- Z.ldiff_land, Z.ldiff_ones_r by exact He.
  rewrite Z.shiftl_mul_pow2, Z.shiftr_div_pow2 by exact He.
  replace (x + Z.ones e) with (x + 2 ^ e - 1)
    by (rewrite Z.ones_equiv; lia).
  reflexivity.
Qed.

Lemma align_up_bounds x a : 0 < a -> 0 <= x -> x <= align_up x a < x + a.
Proof.
  intros Ha Hx. unfold align_up.
  pose proof (Z.div_mod (x + a - 1) a ltac:(lia)) as Hd.
  pose proof (Z.mod_pos_bound (x + a - 1) a Ha) as Hm.
  nia.
Qed.

(** C4.  ionic_rx_buf_recycle(q, buf_info, used), for a buffer that holds a
    page and sizes that do not wrap a u32, answers true exactly when the
    page is reusable, the MTU is at most IONIC_PAGE_SPLIT_MAX_MTU and the
    page offset advanced by align_up(used, IONIC_PAGE_SPLIT_SZ) is still
    below IONIC_PAGE_SIZE.  When it answers true the offset has advanced by
    that amount and the page count is adjusted (the bias is decremented for
    high-order pages, a page reference is taken otherwise).  With the MTU
    above the split maximum it answers false, and the round of
    ionic_rx_frags that asked then unmaps the page and clears the
    buffer's page pointer. *)
Theorem rx_buf_recycle_decision `{ionic_consts} mtu b used p :
  bi_page b = Some p ->
  is_pow2 IONIC_PAGE_SPLIT_SZ ->
  0 <= used ->
  used + IONIC_PAGE_SPLIT_SZ - 1 < 2 ^ 32 ->
  0 <= bi_page_offset b ->
  bi_page_offset b + align_up used IONIC_PAGE_SPLIT_SZ < 2 ^ 32 ->
  let r := ionic_rx_buf_recycle mtu b used in
  let reusable := fst (fst r) in
  let b' := snd (fst r) in
  let size := align_up used IONIC_PAGE_SPLIT_SZ in
  (reusable = true <->
     dev_page_is_reusable p = true
     /\ mtu <= IONIC_PAGE_SPLIT_MAX_MTU
     /\ bi_page_offset b + size < IONIC_PAGE_SIZE)
  /\ (reusable = true ->
        bi_page_offset b' = bi_page_offset b + size
        /\ bi_page b' = Some p
        /\ bi_dma_addr b' = bi_dma_addr b
        /\ if 0 <? IONIC_PAGE_ORDER
           then bi_pagecnt_bias b' = u32 (bi_pagecnt_bias b - 1) /\ snd r = []
           else bi_pagecnt_bias b' = bi_pagecnt_bias b
                /\ snd r = [ev_get_page p])
  /\ (IONIC_PAGE_SPLIT_MAX_MTU < mtu -> reusable = false)
  /\ (forall w d j len frags,
        k_mtu (k w) = mtu -> IONIC_PAGE_SPLIT_MAX_MTU < mtu ->
        di_buf d j = b ->
        let r1 := rx_frags_loop 1 j len frags d w in
        bi_page (di_buf (snd (fst r1)) j) = None
        /\ In (ev_dma_unmap_page (bi_dma_addr b) IONIC_PAGE_SIZE)
              (k_trace (k (snd r1)))).
Proof.
  intros Hp HSZ Hu Huw Ho How. cbv zeta.
  pose proof (align_up_bounds used IONIC_PAGE_SPLIT_SZ (is_pow2_pos _ HSZ) Hu)
    as Hab.
  assert (Hmtu : forall used', IONIC_PAGE_SPLIT_MAX_MTU < mtu ->
            ionic_rx_buf_recycle mtu b used' = (false, b, [])).
  { intros used' Hm. unfold ionic_rx_buf_recycle. rewrite Hp.
    destruct (negb _); [reflexivity|].
    destruct (Z.ltb_spec IONIC_PAGE_SPLIT_MAX_MTU mtu); [reflexivity|lia]. }
  split; [|split; [|split]].
  - unfold ionic_rx_buf_recycle. rewrite Hp.
    destruct (dev_page_is_reusable p); cbn [negb]; [|cbn; intuition congruence].
    destruct (Z.ltb_spec IONIC_PAGE_SPLIT_MAX_MTU mtu) as [Hm|Hm];
      [cbn; intuition (try congruence; lia)|].
    rewrite ALIGN_align_up by assumption. cbn [bi_page_offset set_bi_page_offset].
    rewrite u32_small by lia.
    destruct (Z.leb_spec IONIC_PAGE_SIZE
                (bi_page_offset b + align_up used IONIC_PAGE_SPLIT_SZ));
      [cbn; intuition (try congruence; lia)|].
    destruct (0 <? IONIC_PAGE_ORDER); cbn; intuition lia.
  - unfold ionic_rx_buf_recycle. rewrite Hp.
    destruct (negb _); [cbn; discriminate|].
    destruct (_ <? mtu); [cbn; discriminate|].
    rewrite ALIGN_align_up by assumption. cbn [bi_page_offset set_bi_page_offset].
    rewrite u32_small by lia.
    destruct (_ <=? _); [cbn; discriminate|].
    destruct (0 <? IONIC_PAGE_ORDER); cbn; intros _; repeat split; assumption.
  - intros Hm. rewrite (Hmtu used Hm). reflexivity.
  - intros w d j len frags Hk Hm Hb. cbn [rx_frags_loop]. rewrite Hb, Hp, Hk.
    rewrite (Hmtu _ Hm). cbn [fst snd].
    split.
    + rewrite di_buf_set_eq; [reflexivity|].
      apply (di_buf_in_range d j p). rewrite Hb. exact Hp.
    + rewrite trace_log. apply in_or_app. right. left. reflexivity.
Qed.

Lemma rx_buf_recycle_decision_witness :
  fst (fst (@ionic_rx_buf_recycle example_consts 1500
              (mk_buf_info (Some 71) 4096 0 0 0) 1000)) = true
  /\ bi_page_offset
       (snd (fst (@ionic_rx_buf_recycle example_consts 1500
                    (mk_buf_info (Some 71) 4096 0 0 0) 1000))) = 2048
  /\ fst (fst (@ionic_rx_buf_recycle example_consts 1500
                 (mk_buf_info (Some 71) 4096 0 0 0) 3000)) = false
  /\ fst (fst (@ionic_rx_buf_recycle example_consts 9000
                 (mk_buf_info (Some 71) 4096 0 0 0) 1000)) = false.
Proof.
  destruct (@rx_buf_recycle_decision example_consts 1500
              (mk_buf_info (Some 71) 4096 0 0 0) 1000 71)
    as [Hiff [Hadv _]];
    [reflexivity | exists 11; split; [lia|reflexivity]
     | lia | simpl; lia | simpl; lia | vm_compute; reflexivity |].
  destruct (@rx_buf_recycle_decision example_consts 1500
              (mk_buf_info (Some 71) 4096 0 0 0) 3000 71)
    as [Hiff2 _];
    [reflexivity | exists 11; split; [lia|reflexivity]
     | lia | simpl; lia | simpl; lia | vm_compute; reflexivity |].
  destruct (@rx_buf_recycle_decision example_consts 9000
              (mk_buf_info (Some 71) 4096 0 0 0) 1000 71)
    as [_ [_ [Hmtu _]]];
    [reflexivity | exists 11; split; [lia|reflexivity]
     | lia | simpl; lia | simpl; lia | vm_compute; reflexivity |].
  cbv zeta in *.
  assert (Ht : fst (fst (@ionic_rx_buf_recycle example_consts 1500
                           (mk_buf_info (Some 71) 4096 0 0 0) 1000)) = true).
  { apply Hiff. split; [reflexivity|]. split; [simpl; lia|].
    vm_compute. reflexivity. }
  split; [exact Ht|]. split; [apply (Hadv Ht)|]. split.
  - apply not_true_is_false. intros E.
    apply Hiff2 in E. destruct E as [_ [_ E]]. vm_compute in E. discriminate.
  - apply Hmtu. simpl. lia.
Defined.

(** ** Doorbell pacing *)






(** ** Backpressure *)

Section XmitFacts.
Context `{ionic_consts}.

Lemma descs_needed_trace skb w :
  k_trace (k (snd (ionic_tx_descs_needed skb w))) = k_trace (k w).
Proof.
  unfold ionic_tx_descs_needed. destruct (_ <=? _); [reflexivity|].
  unfold pop_linearize. destruct (k_linearize (k w)) as [|e rest]; cbn.
  - reflexivity.
  - destruct (negb _); reflexivity.
Qed.

Lemma smp_rmb_kernel w :
  k_trace (k (smp_rmb w)) = k_trace (k w)
  /\ k_stopped (k (smp_rmb w)) = k_stopped (k w)
  /\ q_index (q (smp_rmb w)) = q_index (q w).
Proof.
  unfold smp_rmb. destruct (k_racing_tail (k w)); repeat split; reflexivity.
Qed.

End XmitFacts.

(** A transmit ring of four slots with three descriptors outstanding: no
    room for another. *)
Definition txq_full : ionic_queue :=
  example_queue 4 3 0
    [posted_slot (example_skb 1 1500) 4096; posted_slot (example_skb 2 60) 8192;
     posted_slot (example_skb 3 60) 12288; blank_slot 9].

(** A packet that asks for a hardware timestamp. *)
Definition stamped_skb : sk_buff :=
  mk_skb 9 60 60 [] 0 0 false false false 0 false false 0 0 54 0 true 0.

(** An interface that is up, with a timestamping queue that is full. *)
Definition lif_hwstamp_full : ionic_lif :=
  mk_lif true 1 [example_queue 4 0 0 (replicate 4 (blank_slot 9))]
    (Some txq_full) 1 example_kernel.

(** C6, as stated, fails on the timestamping path: the ring lacks the one
    descriptor the packet needs, yet ionic_start_xmit returns NETDEV_TX_OK,
    frees the packet and stops no subqueue. *)
Lemma hwstamp_xmit_counterexample :
  lif_up lif_hwstamp_full = true
  /\ ionic_q_has_space txq_full 1 = false
  /\ exists l',
       @ionic_start_xmit example_consts stamped_skb lif_hwstamp_full
       = Some (NETDEV_TX_OK, l')
       /\ In (ev_dev_kfree_skb stamped_skb) (k_trace (lif_k l'))
       /\ k_stopped (lif_k l') = [].
Proof.
  split; [reflexivity|]. split; [reflexivity|].
  eexists. split; [vm_compute; reflexivity|].
  split; [left; reflexivity | reflexivity].
Qed.

(** An interface whose only transmit queue is full; at the barrier the
    completion path is seen to have moved tail_idx to [racing]. *)
Definition lif_txq_full (racing : list Z) : ionic_lif :=
  mk_lif true 1 [txq_full] None 0
    (mk_kernel 1500 256 [] 1000 false [] [] [4096] [] [] [] racing).

(** ** Unwinding a failed transmit mapping *)

Section TxMapFacts.
Context `{ionic_consts}.

Lemma tx_map_unwind_end n : forall j d w,
  fst (tx_map_unwind n j d w) = j - Z.of_nat n.
Proof.
  induction n as [|n IH]; intros j d w; cbn [tx_map_unwind].
  - simpl. lia.
  - rewrite IH. lia.
Qed.

(** When a fragment mapping fails, [buf_info] is one past [frag_idx]. *)
Lemma tx_map_frags_fail frags : forall frag_idx j d w,
  0 <= frag_idx ->
  let r := tx_map_frags frags frag_idx j d w in
  fst (fst (fst (fst r))) = false ->
  0 <= snd (fst (fst (fst r)))
  /\ snd (fst (fst r)) - snd (fst (fst (fst r))) = j - frag_idx.
Proof.
  induction frags as [|size frags IH]; intros frag_idx j d w Hf;
    cbn [tx_map_frags].
  - cbn. discriminate.
  - destruct (ionic_tx_map_frag size w) as [a w1].
    destruct (dma_mapping_error a).
    + cbn. intros _. lia.
    + intros Hr.
      pose proof (IH (frag_idx + 1) (j + 1) _ w1 ltac:(lia) Hr) as IH'. lia.
Qed.

(** Whenever the head was mapped and a fragment mapping fails, the last
    call of ionic_tx_map_skb is a dma_unmap_single of [bufs[1]]: the
    unwinding loop stops with [buf_info] at [bufs[1]], not at the head
    buffer [bufs[0]]. *)
Lemma tx_map_skb_unwind_target skb d w :
  dma_mapping_error (fst (ionic_tx_map_single (skb_headlen skb) w)) = false ->
  let r := ionic_tx_map_skb skb d w in
  fst (fst r) <> 0 ->
  exists tr,
    k_trace (k (snd r))
    = tr ++ [ev_dma_unmap_single (bi_dma_addr (di_buf (snd (fst r)) 1))
                                 (bi_len (di_buf (snd (fst r)) 1))].
Proof.
  intros Hhead. unfold ionic_tx_map_skb.
  destruct (ionic_tx_map_single (skb_headlen skb) w) as [a w1].
  cbn [fst] in Hhead. rewrite Hhead.
  match goal with
  | |- context [tx_map_frags ?f ?i ?j ?d0 ?w0] =>
      pose proof (tx_map_frags_fail f i j d0 w0 ltac:(lia)) as Hf;
      destruct (tx_map_frags f i j d0 w0) as [[[[ok fi] j1] d1] w2]
  end.
  cbv zeta in Hf. cbn [fst snd] in Hf.
  destruct ok; cbn [fst snd]; [intros Hne; exfalso; apply Hne; reflexivity|].
  intros _. destruct (Hf eq_refl) as [Hfi Hj].
  pose proof (tx_map_unwind_end (Z.to_nat fi) j1 d1 w2) as He.
  destruct (tx_map_unwind (Z.to_nat fi) j1 d1 w2) as [j2 w3].
  cbn [fst snd] in *. assert (j2 = 1) as -> by lia.
  eexists. rewrite trace_log. reflexivity.
Qed.

End TxMapFacts.

(** A packet with a 100-byte head and one 200-byte fragment. *)
Definition skb_head_frag : sk_buff :=
  mk_skb 5 300 100 [200] 0 0 false false false 0 false false 0 0 54 0 false 0.

(** A free slot whose [bufs[1]] still holds the address and length of an
    earlier packet. *)
Definition slot_stale_buf1 : ionic_desc_info :=
  mk_desc_info desc_zero (replicate 9 (mk_sg_elem 0 0)) None None 0
    (buf_zero :: mk_buf_info None 12288 0 300 0 :: replicate 7 buf_zero) 0.

(** The kernel maps the head at 4096 and fails the fragment. *)
Definition world_frag_map_fails : world :=
  mk_world (example_queue 4 0 0 (replicate 4 (blank_slot 9)))
    (mk_kernel 1500 256 [] 1000 false [] [] [4096; 2 ^ 64 - 1] [] [] [] []).

(** ionic_tx_map_skb on that packet, slot and kernel. *)
Definition frag_map_failure_run : Z * ionic_desc_info * world :=
  @ionic_tx_map_skb example_consts skb_head_frag slot_stale_buf1
    world_frag_map_fails.

(** C7 is not met by the code.  The head is mapped at 4096, the mapping of
    the one fragment fails: ionic_tx_map_skb returns -EIO, but the head
    mapping is never unmapped; the dma_unmap_single that should release it
    is made on the stale contents of [bufs[1]]. *)
Theorem tx_map_skb_leaks_head :
  fst (fst frag_map_failure_run) = - EIO
  /\ k_trace (k (snd frag_map_failure_run))
     = [ev_dma_map_single 4096 100;
        ev_dma_map_page (2 ^ 64 - 1) 200;
        ev_dma_unmap_single 12288 300]
  /\ ~ In (ev_dma_unmap_single 4096 100)
          (k_trace (k (snd frag_map_failure_run))).
Proof.
  split; [reflexivity|]. split; [reflexivity|].
  vm_compute. intros [E|[E|[E|[]]]]; discriminate.
Qed.

(** The kernel fails the head mapping and maps the fragment at 8192. *)
Definition world_head_map_fails : world :=
  mk_world (example_queue 4 0 0 (replicate 4 (blank_slot 9)))
    (mk_kernel 1500 256 [] 1000 false [] [] [2 ^ 64 - 1; 8192] [] [] [] []).

(** A failed head mapping goes unnoticed: ionic_tx_map_single turns the
    error cookie into 0, which dma_mapping_error does not take for an
    error, and ionic_tx_map_skb returns 0 with address 0 in [bufs[0]]. *)
Lemma tx_map_skb_head_failure_unnoticed :
  exists d w,
    @ionic_tx_map_skb example_consts skb_head_frag slot_stale_buf1
      world_head_map_fails = (0, d, w)
    /\ bi_dma_addr (di_buf d 0) = 0
    /\ di_nbufs d = 2.
Proof. do 2 eexists. split; [vm_compute; reflexivity|]. split; reflexivity. Qed.

(** ** TSO: the flags of a descriptor *)

(** The descriptor carries flag [F]. *)
Definition carries (F : Z) (h : hw_desc) : Prop :=
  match h with
  | desc_txq d => Z.land (txd_flags d) F <> 0
  | _ => False
  end.

(** The four flag constants of ionic_if.h are different bits of one
    byte, as far as the start and end flags are concerned. *)
Record tso_flag_bits `{ionic_consts} : Prop := {
  fb_sot : 0 < IONIC_TXQ_DESC_FLAG_TSO_SOT < 2 ^ 8;
  fb_eot : 0 < IONIC_TXQ_DESC_FLAG_TSO_EOT < 2 ^ 8;
  fb_sot_eot : Z.land IONIC_TXQ_DESC_FLAG_TSO_SOT IONIC_TXQ_DESC_FLAG_TSO_EOT = 0;
  fb_vlan_sot : Z.land IONIC_TXQ_DESC_FLAG_VLAN IONIC_TXQ_DESC_FLAG_TSO_SOT = 0;
  fb_vlan_eot : Z.land IONIC_TXQ_DESC_FLAG_VLAN IONIC_TXQ_DESC_FLAG_TSO_EOT = 0;
  fb_encap_sot : Z.land IONIC_TXQ_DESC_FLAG_ENCAP IONIC_TXQ_DESC_FLAG_TSO_SOT = 0;
  fb_encap_eot : Z.land IONIC_TXQ_DESC_FLAG_ENCAP IONIC_TXQ_DESC_FLAG_TSO_EOT = 0
}.

Lemma land_u8 x F : 0 <= F < 2 ^ 8 -> Z.land (u8 x) F = Z.land x F.
Proof.
  intros HF. unfold u8. rewrite <- Z.land_ones by lia.
  rewrite <- Z.land_assoc. f_equal.
  rewrite Z.land_comm, Z.land_ones by lia. apply Z.mod_small. exact HF.
Qed.

Section TsoFlags.
Context `{ionic_consts}.
Hypothesis bits : tso_flag_bits.

Lemma tso_flags_sot v e s d :
  Z.land (tso_flags v e s d) IONIC_TXQ_DESC_FLAG_TSO_SOT
  = if s then IONIC_TXQ_DESC_FLAG_TSO_SOT else 0.
Proof.
  destruct bits as [Hs He Hse Hvs Hve Hes Hee].
  unfold tso_flags. rewrite !land_u8, !Z.land_lor_distr_l by lia.
  rewrite !land_u8, !Z.land_lor_distr_l by lia.
  rewrite !land_u8, !Z.land_lor_distr_l by lia.
  rewrite !land_u8, !Z.land_lor_distr_l by lia.
  rewrite (Z.land_comm IONIC_TXQ_DESC_FLAG_TSO_SOT) in Hse.
  destruct v, e, s, d;
    rewrite ?Hse, ?Hvs, ?Hes, ?Z.land_diag, ?Z.land_0_l, ?Z.lor_0_l,
      ?Z.lor_0_r; reflexivity.
Qed.

Lemma tso_flags_eot v e s d :
  Z.land (tso_flags v e s d) IONIC_TXQ_DESC_FLAG_TSO_EOT
  = if d then IONIC_TXQ_DESC_FLAG_TSO_EOT else 0.
Proof.
  destruct bits as [Hs He Hse Hvs Hve Hes Hee].
  unfold tso_flags. rewrite !land_u8, !Z.land_lor_distr_l by lia.
  rewrite !land_u8, !Z.land_lor_distr_l by lia.
  rewrite !land_u8, !Z.land_lor_distr_l by lia.
  rewrite !land_u8, !Z.land_lor_distr_l by lia.
  destruct v, e, s, d;
    rewrite ?Hse, ?Hve, ?Hee, ?Z.land_diag, ?Z.land_0_l, ?Z.lor_0_l,
      ?Z.lor_0_r; reflexivity.
Qed.

(** The descriptor written by ionic_tx_tso_post carries the start flag
    exactly when [start], the end flag exactly when [done]. *)
Lemma tso_desc_carries v e s d nsge addr len vlan hdr mss :
  let h := desc_txq (mk_txq_desc IONIC_TXQ_DESC_OPCODE_TSO (tso_flags v e s d)
                       nsge addr len vlan hdr mss 0 0) in
  (carries IONIC_TXQ_DESC_FLAG_TSO_SOT h <-> s = true)
  /\ (carries IONIC_TXQ_DESC_FLAG_TSO_EOT h <-> d = true).
Proof.
  cbv zeta. unfold carries. cbn [txd_flags].
  rewrite tso_flags_sot, tso_flags_eot.
  destruct bits as [Hs He _ _ _ _ _].
  destruct s, d; split; split; intros; try congruence; try lia.
Qed.

End TsoFlags.

(** ** TSO: steps that write descriptors only *)

(** [frames w w']: the geometry of the ring, head_idx and the buffers of
    every slot are the same in [w'] as in [w]. *)
Record frames (w w' : world) : Prop := {
  fr_num : q_num_descs (q w') = q_num_descs (q w);
  fr_head : q_head_idx (q w') = q_head_idx (q w);
  fr_length : length (q_info (q w')) = length (q_info (q w));
  fr_hwstamp : q_hwstamp (q w') = q_hwstamp (q w);
  fr_bufs : forall j, di_bufs (slot w' j) = di_bufs (slot w j)
}.

Lemma frames_refl w : frames w w.
Proof. split; reflexivity. Qed.

Lemma frames_trans w1 w2 w3 : frames w1 w2 -> frames w2 w3 -> frames w1 w3.
Proof.
  intros [A1 A2 A3 A4 A5] [B1 B2 B3 B4 B5].
  split; try congruence; intros j; rewrite B5; apply A5.
Qed.

Lemma slot_upd_slot i f w j :
  slot (upd_slot i f w) j
  = if decide (Z.to_nat i = Z.to_nat j
               /\ (Z.to_nat i < length (q_info (q w)))%nat)
    then f (slot w i) else slot w j.
Proof. unfold slot, upd_slot. simpl. apply list_lookup_total_alter. Qed.

Lemma frames_upd_slot i f w :
  (forall d, di_bufs (f d) = di_bufs d) -> frames w (upd_slot i f w).
Proof.
  intros Hf. split; try reflexivity.
  - simpl. apply length_alter.
  - intros j. rewrite slot_upd_slot. case_decide as Hd; [|reflexivity].
    rewrite Hf. destruct Hd as [Hd _]. unfold slot. rewrite Hd. reflexivity.
Qed.

Lemma quiet_frames w w' : quiet w w' -> frames w w'.
Proof.
  intros Hq. split.
  - apply (quiet_num_descs _ _ Hq).
  - apply (quiet_head _ _ Hq).
  - rewrite (quiet_info _ _ Hq). reflexivity.
  - apply (quiet_hwstamp _ _ Hq).
  - intros j. unfold slot. rewrite (quiet_info _ _ Hq). reflexivity.
Qed.

(** ** TSO: the walk over the mapped buffers *)

Definition zsum (l : list Z) : Z := fold_right Z.add 0 l.

(** The first buffers of slot [head0] hold the byte counts [lens]. *)
Definition bufs_hold (lens : list Z) (w : world) (head0 : Z) : Prop :=
  forall j x, 0 <= j -> lens !! Z.to_nat j = Some x ->
              u32 (bi_len (di_buf (slot w head0) j)) = x.

(** The walk is consistent with the bytes still to send. *)
Record walk_ok (lens : list Z) (t : tso_walk) : Prop := {
  wo_buf : 0 <= tw_buf t;
  wo_frag : 0 <= tw_frag_rem t < 2 ^ 32;
  wo_sum : tw_frag_rem t + zsum (drop (Z.to_nat (tw_buf t)) lens)
           = tw_tso_rem t;
  wo_seg : 0 <= tw_seg_rem t <= tw_tso_rem t;
  wo_tso : tw_tso_rem t < 2 ^ 32
}.

Lemma bufs_hold_frames lens w w' head0 :
  frames w w' -> bufs_hold lens w head0 -> bufs_hold lens w' head0.
Proof.
  intros Hf Hb j x Hj Hx. unfold di_buf. rewrite (fr_bufs _ _ Hf).
  apply (Hb j x Hj Hx).
Qed.

Lemma zsum_nonneg l : Forall (fun x => 0 <= x < 2 ^ 32) l -> 0 <= zsum l.
Proof.
  induction 1 as [|x l Hx Hl IH]; simpl; lia.
Qed.

Lemma Forall_drop_range n (l : list Z) :
  Forall (fun x => 0 <= x < 2 ^ 32) l ->
  Forall (fun x => 0 <= x < 2 ^ 32) (drop n l).
Proof. apply Forall_drop. Qed.

(** The next buffer, when bytes are still owed by the buffers. *)
Lemma drop_next (lens : list Z) n :
  Forall (fun x => 0 <= x < 2 ^ 32) lens ->
  0 < zsum (drop n lens) ->
  exists x, lens !! n = Some x /\ 0 <= x < 2 ^ 32
            /\ zsum (drop n lens) = x + zsum (drop (S n) lens)
            /\ (n < length lens)%nat.
Proof.
  intros Hl Hs. destruct (lens !! n) as [x|] eqn:E.
  - exists x. split; [reflexivity|].
    rewrite (drop_S _ _ _ E). simpl.
    rewrite Forall_forall in Hl. split; [|split; [reflexivity|]].
    + apply Hl. eapply list_elem_of_lookup_2, E.
    + eapply lookup_lt_Some, E.
  - apply lookup_ge_None_1 in E. rewrite drop_ge in Hs by exact E.
    simpl in Hs. lia.
Qed.

Section TsoSegment.
Context `{ionic_consts}.
Variable lens : list Z.
Variables head0 cur : Z.
Hypothesis lens_range : Forall (fun x => 0 <= x < 2 ^ 32) lens.

Lemma tso_segment_spec fuel : forall t s w,
  bufs_hold lens w head0 ->
  walk_ok lens t ->
  td_desc s = None \/ td_desc s = Some cur ->
  (Z.to_nat (tw_seg_rem t) + (length lens - Z.to_nat (tw_buf t)) <= fuel)%nat ->
  exists t' s' w',
    tso_segment fuel head0 cur t s w = Some (t', s', w')
    /\ walk_ok lens t'
    /\ tw_tso_rem t' = tw_tso_rem t - tw_seg_rem t
    /\ tw_seg_rem t' = 0
    /\ (0 < tw_seg_rem t \/ td_desc s = Some cur -> td_desc s' = Some cur)
    /\ frames w w' /\ k w' = k w.
Proof.
  induction fuel as [|fuel IH]; intros t s w Hb [Wb Wf Ws Wg Wt] Hs Hfuel.
  - assert (E : tw_seg_rem t = 0) by lia.
    cbn [tso_segment]. rewrite E. cbn.
    exists t, s, w. split; [reflexivity|].
    split; [split; assumption|]. split; [lia|]. split; [exact E|].
    split; [intros [?|?]; [lia|assumption]|].
    split; [apply frames_refl | reflexivity].
  - cbn [tso_segment].
    destruct (Z.ltb_spec 0 (tw_seg_rem t)) as [Hpos|Hzero]; cbn [negb].
    2:{ assert (E : tw_seg_rem t = 0) by lia.
        exists t, s, w. split; [reflexivity|].
        split; [split; assumption|]. split; [lia|]. split; [exact E|].
        split; [intros [?|?]; [lia|assumption]|].
        split; [apply frames_refl | reflexivity]. }
    (* the fragment to take bytes from *)
    assert (Hfrag : exists fa fr bj,
      (if tw_frag_rem t =? 0
       then (bi_dma_addr (di_buf (slot w head0) (tw_buf t)),
             u32 (bi_len (di_buf (slot w head0) (tw_buf t))), tw_buf t + 1)
       else (tw_frag_addr t, tw_frag_rem t, tw_buf t)) = (fa, fr, bj)
      /\ 0 < fr < 2 ^ 32 /\ tw_buf t <= bj
      /\ fr + zsum (drop (Z.to_nat bj) lens) = tw_tso_rem t
      /\ (Z.to_nat (tw_seg_rem t - Z.min fr (tw_seg_rem t))
          + (length lens - Z.to_nat bj) <= fuel)%nat
         \/ (if tw_frag_rem t =? 0
       then (bi_dma_addr (di_buf (slot w head0) (tw_buf t)),
             u32 (bi_len (di_buf (slot w head0) (tw_buf t))), tw_buf t + 1)
       else (tw_frag_addr t, tw_frag_rem t, tw_buf t)) = (fa, fr, bj)
      /\ fr = 0 /\ tw_buf t <= bj
      /\ fr + zsum (drop (Z.to_nat bj) lens) = tw_tso_rem t
      /\ (Z.to_nat (tw_seg_rem t) + (length lens - Z.to_nat bj) <= fuel)%nat).
    { destruct (Z.eqb_spec (tw_frag_rem t) 0) as [E0|E0].
      - destruct (drop_next lens (Z.to_nat (tw_buf t)) lens_range ltac:(lia))
          as [x [Hx [Hxr [Hsum Hlt]]]].
        rewrite (Hb (tw_buf t) x Wb Hx).
        do 3 eexists.
        replace (Z.to_nat (tw_buf t + 1)) with (S (Z.to_nat (tw_buf t))) by lia.
        destruct (Z.eq_dec x 0) as [->|Hx0].
        + right. split; [reflexivity|]. repeat split; lia.
        + left. split; [reflexivity|]. repeat split; lia.
      - do 3 eexists. left. split; [reflexivity|]. repeat split; lia. }
    destruct Hfrag as [fa [fr [bj Hfrag]]].
    assert (Hcase : (if tw_frag_rem t =? 0
       then (bi_dma_addr (di_buf (slot w head0) (tw_buf t)),
             u32 (bi_len (di_buf (slot w head0) (tw_buf t))), tw_buf t + 1)
       else (tw_frag_addr t, tw_frag_rem t, tw_buf t)) = (fa, fr, bj))
      by (destruct Hfrag as [[E _]|[E _]]; exact E).
    rewrite Hcase.
    set (chunk := Z.min fr (tw_seg_rem t)).
    assert (Hchunk : 0 <= chunk <= tw_seg_rem t /\ chunk <= fr
                     /\ 0 <= fr < 2 ^ 32 /\ tw_buf t <= bj
                     /\ fr + zsum (drop (Z.to_nat bj) lens) = tw_tso_rem t
                     /\ (Z.to_nat (tw_seg_rem t - chunk)
                         + (length lens - Z.to_nat bj) <= fuel)%nat).
    { unfold chunk. destruct Hfrag as [[_ [? [? [? ?]]]]|[_ [-> [? [? ?]]]]].
      - repeat split; lia.
      - rewrite Z.min_l by lia. repeat split; lia. }
    destruct Hchunk as [Hc1 [Hc2 [Hfr [Hbj [Hsum Hfl]]]]].
    set (t1 := mk_tso_walk bj (u64 (fa + chunk)) (u32 (fr - chunk))
                 (u32 (tw_tso_rem t - chunk)) (u32 (tw_seg_rem t - chunk))).
    assert (Ht1 : walk_ok lens t1
                  /\ tw_tso_rem t1 = tw_tso_rem t - chunk
                  /\ tw_seg_rem t1 = tw_seg_rem t - chunk).
    { unfold t1. cbn. rewrite !u32_small by lia.
      split; [split; cbn; rewrite ?u32_small; lia|]. split; reflexivity. }
    destruct Ht1 as [Hok1 [Htso1 Hseg1]].
    destruct (td_desc s) as [dd|] eqn:Ed.
    + destruct Hs as [Hs|Hs]; [discriminate|]. injection Hs as ->.
      match goal with
      | |- context [tso_segment fuel head0 cur t1 ?s1 ?w1] =>
          destruct (IH t1 s1 w1) as [t' [s' [w' [E [Hok [Ht' [Hs' [Hd [Hf Hk]]]]]]]]]
      end.
      * eapply bufs_hold_frames; [|exact Hb]. apply frames_upd_slot.
        intros d. reflexivity.
      * exact Hok1.
      * right. reflexivity.
      * rewrite Hseg1. cbn [tw_buf t1]. exact Hfl.
      * exists t', s', w'. split; [exact E|]. split; [exact Hok|].
        split; [lia|]. split; [exact Hs'|].
        split; [intros _; apply Hd; right; reflexivity|].
        split; [|rewrite Hk; reflexivity].
        eapply frames_trans; [|exact Hf]. apply frames_upd_slot.
        intros d. reflexivity.
    + match goal with
      | |- context [tso_segment fuel head0 cur t1 ?s1 ?w1] =>
          destruct (IH t1 s1 w1) as [t' [s' [w' [E [Hok [Ht' [Hs' [Hd [Hf Hk]]]]]]]]]
      end.
      * exact Hb.
      * exact Hok1.
      * right. reflexivity.
      * rewrite Hseg1. cbn [tw_buf t1]. exact Hfl.
      * exists t', s', w'. split; [exact E|]. split; [exact Hok|].
        split; [lia|]. split; [exact Hs'|].
        split; [intros _; apply Hd; right; reflexivity|].
        split; [exact Hf | exact Hk].
Qed.

End TsoSegment.

(** ** TSO: posting the descriptors *)

(** What ionic_q_post records for a TSO descriptor [h]: the start
    descriptor is posted with the cleaner and the packet and without
    doorbell, the others with no callback, no argument, and the doorbell
    when [done]. *)
Definition tso_post_entry (skb : sk_buff) (start done : bool) (h : hw_desc)
  : hw_desc * bool * option ionic_desc_cb * option sk_buff :=
  (h, if start then false else done,
   if start then Some cb_ionic_tx_clean else None,
   if start then Some skb else None).

Section TsoPost.
Context `{ionic_consts}.

Lemma bufs_hold_bufs lens w w' head0 :
  (forall j, di_bufs (slot w' j) = di_bufs (slot w j)) ->
  bufs_hold lens w head0 -> bufs_hold lens w' head0.
Proof.
  intros Hf Hb j x Hj Hx. unfold di_buf. rewrite Hf. apply (Hb j x Hj Hx).
Qed.

(** ionic_q_post on a slot inside the ring. *)
Lemma q_post_spec db cb arg w :
  (Z.to_nat (q_head_idx (q w)) < length (q_info (q w)))%nat ->
  let w' := ionic_q_post db cb arg w in
  posted (k_trace (k w'))
  = posted (k_trace (k w))
      ++ [(di_desc (slot w (q_head_idx (q w))), db, cb, arg)]
  /\ q_num_descs (q w') = q_num_descs (q w)
  /\ q_head_idx (q w') = (q_head_idx (q w) + 1) mod q_num_descs (q w)
  /\ length (q_info (q w')) = length (q_info (q w))
  /\ q_hwstamp (q w') = q_hwstamp (q w)
  /\ (forall j, di_bufs (slot w' j) = di_bufs (slot w j)).
Proof.
  intros Hr. cbv zeta. unfold ionic_q_post.
  set (i := q_head_idx (q w)) in *.
  set (w1 := upd_slot i _ w).
  assert (Hd : di_desc (slot w1 i) = di_desc (slot w i)).
  { unfold w1. rewrite slot_upd_slot. case_decide; reflexivity. }
  assert (Hf : frames w w1)
    by (apply frames_upd_slot; intros d; reflexivity).
  rewrite Hd. split.
  { destruct db; rewrite ?trace_log, ?trace_upd_q, ?trace_log;
      change (k_trace (k w1)) with (k_trace (k w));
      rewrite !posted_app; simpl; rewrite ?app_nil_r; reflexivity. }
  destruct db;
    (split; [reflexivity|]); (split; [reflexivity|]);
    (split; [apply length_alter|]); (split; [reflexivity|]);
    apply (fr_bufs _ _ Hf).
Qed.

Lemma quiet_bql_sent skb w : quiet w (bql_sent skb w).
Proof.
  unfold bql_sent. destruct (_ && _); [quiet_step|]; apply quiet_refl.
Qed.

(** ionic_tx_tso_post through the descriptor of the slot at head_idx. *)
Lemma tso_post_spec skb addr nsge len hdrlen mss oc vlan hv start done w :
  (Z.to_nat (q_head_idx (q w)) < length (q_info (q w)))%nat ->
  exists w',
    ionic_tx_tso_post (Some (q_head_idx (q w))) skb addr nsge len hdrlen mss
      oc vlan hv start done w = Some w'
    /\ posted (k_trace (k w'))
       = posted (k_trace (k w))
           ++ [tso_post_entry skb start done
                 (desc_txq (mk_txq_desc IONIC_TXQ_DESC_OPCODE_TSO
                              (tso_flags hv oc start done) nsge addr
                              (u16 len) (u16 vlan) (u16 hdrlen) (u16 mss)
                              0 0))]
    /\ q_num_descs (q w') = q_num_descs (q w)
    /\ q_head_idx (q w') = (q_head_idx (q w) + 1) mod q_num_descs (q w)
    /\ length (q_info (q w')) = length (q_info (q w))
    /\ q_hwstamp (q w') = q_hwstamp (q w)
    /\ (forall j, di_bufs (slot w' j) = di_bufs (slot w j)).
Proof.
  intros Hr. unfold ionic_tx_tso_post.
  set (i := q_head_idx (q w)) in *.
  set (h := desc_txq _).
  set (w1 := upd_slot i (set_di_desc h) w).
  assert (Hf1 : frames w w1)
    by (apply frames_upd_slot; intros d; reflexivity).
  assert (Hd1 : di_desc (slot w1 i) = h).
  { unfold w1. rewrite slot_upd_slot. case_decide as Hc; [reflexivity|].
    exfalso. apply Hc. split; [reflexivity | exact Hr]. }
  assert (Ht1 : k w1 = k w) by reflexivity.
  destruct start.
  - set (w2 := bql_sent skb (log (ev_skb_tx_timestamp skb) w1)).
    assert (Hq2 : quiet w1 w2).
    { unfold w2. eapply quiet_trans; [|apply quiet_bql_sent].
      apply quiet_log. split; reflexivity. }
    pose proof (quiet_frames _ _ Hq2) as Hf2.
    assert (Hr2 : (Z.to_nat (q_head_idx (q w2)) < length (q_info (q w2)))%nat).
    { rewrite (fr_head _ _ Hf2), (fr_length _ _ Hf2),
        (fr_head _ _ Hf1), (fr_length _ _ Hf1). exact Hr. }
    pose proof (q_post_spec false (Some cb_ionic_tx_clean) (Some skb) w2 Hr2)
      as Hp. cbv zeta in Hp.
    destruct Hp as [P1 [P2 [P3 [P4 [P5 P6]]]]].
    eexists. split; [reflexivity|]. unfold ionic_txq_post.
    rewrite P1, P2, P3, P4, P5.
    rewrite (quiet_posted _ _ Hq2), Ht1.
    rewrite (fr_head _ _ Hf2), (fr_head _ _ Hf1).
    rewrite (fr_num _ _ Hf2), (fr_num _ _ Hf1).
    rewrite (fr_length _ _ Hf2), (fr_length _ _ Hf1).
    rewrite (fr_hwstamp _ _ Hf2), (fr_hwstamp _ _ Hf1).
    replace (di_desc (slot w2 (q_head_idx (q w)))) with h
      by (unfold slot; rewrite (quiet_info _ _ Hq2); symmetry; exact Hd1).
    repeat split. intros j.
    rewrite P6, (fr_bufs _ _ Hf2), (fr_bufs _ _ Hf1). reflexivity.
  - assert (Hr1 : (Z.to_nat (q_head_idx (q w1)) < length (q_info (q w1)))%nat).
    { rewrite (fr_head _ _ Hf1), (fr_length _ _ Hf1). exact Hr. }
    pose proof (q_post_spec done None None w1 Hr1) as Hp. cbv zeta in Hp.
    destruct Hp as [P1 [P2 [P3 [P4 [P5 P6]]]]].
    eexists. split; [reflexivity|]. unfold ionic_txq_post.
    rewrite P1, P2, P3, P4, P5, Ht1.
    rewrite (fr_head _ _ Hf1), (fr_num _ _ Hf1), (fr_length _ _ Hf1),
      (fr_hwstamp _ _ Hf1).
    fold i. rewrite Hd1.
    repeat split. intros j.
    rewrite P6, (fr_bufs _ _ Hf1). reflexivity.
Qed.

End TsoPost.

(** ** TSO: the descriptors of one packet *)

Section TsoLoop.
Context `{ionic_consts}.
Hypothesis bits : tso_flag_bits.
Variable skb : sk_buff.
Variable lens : list Z.
Variables hdrlen mss head0 : Z.
Variable inner : nat.
Hypothesis lens_range : Forall (fun x => 0 <= x < 2 ^ 32) lens.
Hypothesis mss_pos : 0 < mss.

(** The posts of a TSO send from a point on: each descriptor carries the
    start flag (and the cleaner with the packet) exactly when it is the
    start descriptor; the last one, and no other, carries the end flag. *)
Inductive tso_shape : bool ->
  list (hw_desc * bool * option ionic_desc_cb * option sk_buff) -> Prop :=
| shape_last start h :
    (carries IONIC_TXQ_DESC_FLAG_TSO_SOT h <-> start = true) ->
    carries IONIC_TXQ_DESC_FLAG_TSO_EOT h ->
    tso_shape start [tso_post_entry skb start true h]
| shape_more start h ps :
    (carries IONIC_TXQ_DESC_FLAG_TSO_SOT h <-> start = true) ->
    ~ carries IONIC_TXQ_DESC_FLAG_TSO_EOT h ->
    tso_shape false ps ->
    tso_shape start (tso_post_entry skb start false h :: ps).

Lemma tso_loop_done fuel cur t start w :
  tw_tso_rem t <= 0 ->
  tso_loop fuel inner skb hdrlen mss head0 cur t start w = Some w.
Proof.
  intros Hz. destruct fuel; cbn [tso_loop];
    destruct (Z.ltb_spec 0 (tw_tso_rem t)); try lia; reflexivity.
Qed.

Lemma tso_loop_spec fuel : forall t start w,
  0 < q_num_descs (q w) ->
  0 <= q_head_idx (q w) < q_num_descs (q w) ->
  length (q_info (q w)) = Z.to_nat (q_num_descs (q w)) ->
  bufs_hold lens w head0 ->
  walk_ok lens t ->
  0 < tw_seg_rem t ->
  (Z.to_nat (tw_tso_rem t) <= fuel)%nat ->
  (Z.to_nat (tw_tso_rem t) + length lens <= inner)%nat ->
  exists w' ps,
    tso_loop fuel inner skb hdrlen mss head0 (q_head_idx (q w)) t start w
    = Some w'
    /\ posted (k_trace (k w')) = posted (k_trace (k w)) ++ ps
    /\ tso_shape start ps.
Proof.
  induction fuel as [|fuel IH]; intros t start w HN Hh Hlen Hb Hok Hseg Hf Hin.
  - destruct Hok as [_ _ _ Wg _]. lia.
  - pose proof Hok as [Wb Wf Ws Wg Wt].
    cbn [tso_loop].
    destruct (Z.ltb_spec 0 (tw_tso_rem t)) as [Hpos|Hz]; [|lia]. cbn [negb].
    destruct (tso_segment_spec lens head0 (q_head_idx (q w)) lens_range inner
                t (mk_tso_desc None 0 0 0 0) w Hb Hok
                ltac:(left; reflexivity) ltac:(lia))
      as [t1 [s1 [w1 [E1 [Hok1 [Ht1 [Hs1 [Hd1 [Hf1 Hk1]]]]]]]]].
    rewrite E1. rewrite (Hd1 ltac:(left; exact Hseg)).
    set (t2 := mk_tso_walk _ _ _ _ _).
    assert (Hr1 : (Z.to_nat (q_head_idx (q w1)) < length (q_info (q w1)))%nat).
    { rewrite (fr_head _ _ Hf1), (fr_length _ _ Hf1), Hlen. lia. }
    rewrite <- (fr_head _ _ Hf1).
    destruct (tso_post_spec skb (td_addr s1) (td_nsge s1) (td_len s1) hdrlen
                mss (skb_gso_outer_csum skb) (skb_vlan_tci skb)
                (skb_vlan_present skb) start (tw_tso_rem t2 =? 0) w1 Hr1)
      as [w2 [E2 [P1 [P2 [P3 [P4 [P5 P6]]]]]]].
    rewrite E2.
    set (h := desc_txq _) in P1.
    destruct (tso_desc_carries bits (skb_vlan_present skb)
                (skb_gso_outer_csum skb) start (tw_tso_rem t2 =? 0)
                (td_nsge s1) (td_addr s1) (u16 (td_len s1))
                (u16 (skb_vlan_tci skb)) (u16 hdrlen) (u16 mss))
      as [Hsot Heot]. fold h in Hsot, Heot.
    set (w3 := upd_slot (q_head_idx (q w2)) (set_di_nbufs 0) w2).
    assert (Hf3 : frames w2 w3)
      by (apply frames_upd_slot; intros d; reflexivity).
    assert (Hk3 : k w3 = k w2) by reflexivity.
    assert (Htso2 : tw_tso_rem t2 = tw_tso_rem t - tw_seg_rem t)
      by (unfold t2; cbn; exact Ht1).
    destruct (Z.eqb_spec (tw_tso_rem t2) 0) as [Hdone|Hmore].
    + rewrite tso_loop_done by lia.
      exists w3, [tso_post_entry skb start true h].
      split; [reflexivity|]. split.
      * rewrite Hk3, P1, Hk1. reflexivity.
      * apply shape_last; [exact Hsot | apply Heot; reflexivity].
    + destruct Hok1 as [Wb1 Wf1 Ws1 Wg1 Wt1].
      assert (Hok2 : walk_ok lens t2).
      { unfold t2. split; cbn; try assumption. lia. }
      assert (Hseg2 : 0 < tw_seg_rem t2) by (unfold t2; cbn; lia).
      assert (HN3 : q_num_descs (q w3) = q_num_descs (q w)).
      { rewrite (fr_num _ _ Hf3), P2. apply (fr_num _ _ Hf1). }
      assert (Hh3 : q_head_idx (q w3) = q_head_idx (q w2))
        by apply (fr_head _ _ Hf3).
      rewrite <- Hh3.
      destruct (IH t2 false w3) as [w' [ps [E3 [Hp3 Hsh]]]].
      * rewrite HN3. exact HN.
      * rewrite HN3, Hh3, P3, (fr_num _ _ Hf1). apply Z.mod_pos_bound.
        exact HN.
      * rewrite (fr_length _ _ Hf3), P4, (fr_length _ _ Hf1), HN3. exact Hlen.
      * apply (bufs_hold_bufs lens w2); [apply (fr_bufs _ _ Hf3)|].
        apply (bufs_hold_bufs lens w1); [exact P6|].
        apply (bufs_hold_frames lens w); assumption.
      * exact Hok2.
      * exact Hseg2.
      * lia.
      * lia.
      * exists w', (tso_post_entry skb start false h :: ps).
        split; [exact E3|]. split.
        -- rewrite Hp3, Hk3, P1, Hk1, <- app_assoc. reflexivity.
        -- apply shape_more; [exact Hsot | | exact Hsh].
           intros Hc. apply Heot in Hc. discriminate.
Qed.

End TsoLoop.

(** ** TSO: a successful mapping *)

Section TxMapOk.
Context `{ionic_consts}.

Lemma tx_map_single_spec len w :
  let r := ionic_tx_map_single len w in
  quiet w (snd r) /\ k_cow_head (k (snd r)) = k_cow_head (k w).
Proof.
  cbv zeta. unfold ionic_tx_map_single, pop_dma_map.
  destruct (k_dma_map (k w)) as [|a rest]; cbn [fst snd];
    destruct (dma_mapping_error _); cbn [fst snd];
    (split; [repeat quiet_step | reflexivity]).
Qed.

Lemma tx_map_frag_spec len w :
  let r := ionic_tx_map_frag len w in
  quiet w (snd r) /\ k_cow_head (k (snd r)) = k_cow_head (k w).
Proof.
  cbv zeta. unfold ionic_tx_map_frag, pop_dma_map.
  destruct (k_dma_map (k w)) as [|a rest]; cbn [fst snd];
    destruct (dma_mapping_error _); cbn [fst snd];
    (split; [repeat quiet_step | reflexivity]).
Qed.

Lemma set_di_buf_length j b d :
  length (di_bufs (set_di_buf j b d)) = length (di_bufs d).
Proof. unfold set_di_buf. simpl. apply length_alter. Qed.

(** When every fragment is mapped, the buffers from [j] on hold the
    fragment sizes, and those before [j] are what they were. *)
Lemma tx_map_frags_ok frags : forall fi j d w,
  0 <= j ->
  (Z.to_nat j + length frags <= length (di_bufs d))%nat ->
  let r := tx_map_frags frags fi j d w in
  fst (fst (fst (fst r))) = true ->
  (forall i x, frags !! i = Some x ->
               bi_len (di_buf (snd (fst r)) (j + Z.of_nat i)) = x)
  /\ (forall j', 0 <= j' < j -> di_buf (snd (fst r)) j' = di_buf d j')
  /\ length (di_bufs (snd (fst r))) = length (di_bufs d)
  /\ di_cb (snd (fst r)) = di_cb d
  /\ quiet w (snd r)
  /\ k_cow_head (k (snd r)) = k_cow_head (k w).
Proof.
  induction frags as [|size frags IH]; intros fi j d w Hj Hlen;
    cbn [tx_map_frags].
  - cbn. intros _. split; [intros i x Hx; discriminate|].
    repeat split; try reflexivity; apply quiet_refl.
  - pose proof (tx_map_frag_spec size w) as Hm. cbv zeta in Hm.
    destruct (ionic_tx_map_frag size w) as [a w1]. cbn [fst snd] in Hm.
    destruct Hm as [Hq1 Hc1].
    destruct (dma_mapping_error a); [cbn; discriminate|].
    set (d1 := set_di_buf j _ d).
    cbn [length] in Hlen.
    assert (Hl1 : length (di_bufs d1) = length (di_bufs d))
      by apply set_di_buf_length.
    intros Hok.
    destruct (IH (fi + 1) (j + 1) d1 w1 ltac:(lia) ltac:(rewrite Hl1; lia) Hok)
      as [I1 [I2 [I3 [I4 [I5 I6]]]]].
    split; [|split; [|split; [|split; [|split]]]].
    + intros [|i] x Hx.
      * injection Hx as <-. rewrite Z.add_0_r, I2 by lia.
        unfold d1. rewrite di_buf_set_eq by lia. reflexivity.
      * replace (j + Z.of_nat (S i)) with (j + 1 + Z.of_nat i) by lia.
        apply I1. exact Hx.
    + intros j' Hj'. rewrite I2 by lia. unfold d1.
      apply di_buf_set_ne; lia.
    + rewrite I3. exact Hl1.
    + rewrite I4. reflexivity.
    + exact (quiet_trans _ _ _ Hq1 I5).
    + rewrite I6. exact Hc1.
Qed.

(** A successful ionic_tx_map_skb leaves the head length and the fragment
    sizes in the first buffers of the slot. *)
Lemma tx_map_skb_ok skb d w :
  (length (skb_frags skb) < length (di_bufs d))%nat ->
  let r := ionic_tx_map_skb skb d w in
  fst (fst r) = 0 ->
  (forall j x, 0 <= j ->
     (skb_headlen skb :: skb_frags skb) !! Z.to_nat j = Some x ->
     bi_len (di_buf (snd (fst r)) j) = x)
  /\ length (di_bufs (snd (fst r))) = length (di_bufs d)
  /\ quiet w (snd r)
  /\ k_cow_head (k (snd r)) = k_cow_head (k w).
Proof.
  intros Hlen. cbv zeta. unfold ionic_tx_map_skb.
  pose proof (tx_map_single_spec (skb_headlen skb) w) as Hm. cbv zeta in Hm.
  destruct (ionic_tx_map_single (skb_headlen skb) w) as [a w1].
  cbn [fst snd] in Hm. destruct Hm as [Hq1 Hc1].
  destruct (dma_mapping_error a); [cbn; unfold EIO; lia|].
  set (d1 := set_di_buf 0 _ d).
  assert (Hl1 : length (di_bufs d1) = length (di_bufs d))
    by apply set_di_buf_length.
  pose proof (tx_map_frags_ok (skb_frags skb) 0 1 d1 w1 ltac:(lia)
                ltac:(rewrite Hl1; lia)) as Hf. cbv zeta in Hf.
  destruct (tx_map_frags (skb_frags skb) 0 1 d1 w1) as [[[[ok fi] j1] d2] w2].
  cbn [fst snd] in Hf.
  destruct ok; cbn [fst snd].
  2:{ destruct (tx_map_unwind _ _ _ _). cbn. unfold EIO. lia. }
  intros _. destruct (Hf eq_refl) as [I1 [I2 [I3 [I4 [I5 I6]]]]].
  split; [|split; [|split]].
  - intros j x Hj Hx. destruct (Z.to_nat j) as [|i] eqn:Ej.
    + cbn in Hx. injection Hx as <-. assert (j = 0) as -> by lia.
      unfold di_buf at 1. cbn [di_bufs set_di_nbufs]. fold (di_buf d2 0).
      rewrite I2 by lia. unfold d1. rewrite di_buf_set_eq by lia. reflexivity.
    + cbn in Hx. assert (j = 1 + Z.of_nat i) as -> by lia.
      unfold di_buf at 1. cbn [di_bufs set_di_nbufs].
      fold (di_buf d2 (1 + Z.of_nat i)). apply I1. exact Hx.
  - cbn [di_bufs set_di_nbufs]. rewrite I3. exact Hl1.
  - exact (quiet_trans _ _ _ Hq1 I5).
  - rewrite I6. exact Hc1.
Qed.

End TxMapOk.

(** ** TSO: one start flag, one end flag *)

Definition post_desc
  (p : hw_desc * bool * option ionic_desc_cb * option sk_buff) : hw_desc :=
  fst (fst (fst p)).
Definition post_cb
  (p : hw_desc * bool * option ionic_desc_cb * option sk_buff)
  : option ionic_desc_cb := snd (fst p).
Definition post_arg
  (p : hw_desc * bool * option ionic_desc_cb * option sk_buff)
  : option sk_buff := snd p.

(** The header length ionic_tx_tso computes: up to the end of the (inner)
    TCP header. *)
Definition tso_hdrlen (skb : sk_buff) : Z :=
  if skb_encapsulation skb then skb_inner_transport_hdr_end skb
  else skb_transport_hdr_end skb.

Section TsoShape.
Context `{ionic_consts}.
Variable skb : sk_buff.

(** A descriptor that is not the start one: no start flag, no callback,
    no argument. *)
Definition plain_post
  (p : hw_desc * bool * option ionic_desc_cb * option sk_buff) : Prop :=
  ~ carries IONIC_TXQ_DESC_FLAG_TSO_SOT (post_desc p)
  /\ post_cb p = None /\ post_arg p = None.

(** The first post carries the start flag, the cleaner and the packet;
    all later ones are plain. *)
Definition starts_once
  (ps : list (hw_desc * bool * option ionic_desc_cb * option sk_buff))
  : Prop :=
  exists first rest,
    ps = first :: rest
    /\ carries IONIC_TXQ_DESC_FLAG_TSO_SOT (post_desc first)
    /\ post_cb first = Some cb_ionic_tx_clean
    /\ post_arg first = Some skb
    /\ Forall plain_post rest.

(** The last post carries the end flag, and no earlier one does. *)
Definition ends_once
  (ps : list (hw_desc * bool * option ionic_desc_cb * option sk_buff))
  : Prop :=
  exists init last,
    ps = init ++ [last]
    /\ carries IONIC_TXQ_DESC_FLAG_TSO_EOT (post_desc last)
    /\ Forall (fun p => ~ carries IONIC_TXQ_DESC_FLAG_TSO_EOT (post_desc p))
         init.

Lemma tso_shape_plain start ps :
  tso_shape skb start ps -> start = false -> Forall plain_post ps.
Proof.
  induction 1 as [start h Hs He | start h ps Hs He Hps IH]; intros ->.
  - constructor; [|constructor]. unfold plain_post, tso_post_entry. cbn.
    split; [|split; reflexivity]. intros Hc. apply Hs in Hc. discriminate.
  - constructor; [|apply IH; reflexivity].
    unfold plain_post, tso_post_entry. cbn.
    split; [|split; reflexivity]. intros Hc. apply Hs in Hc. discriminate.
Qed.

Lemma tso_shape_starts ps : tso_shape skb true ps -> starts_once ps.
Proof.
  intros Hs. inversion Hs as [start h Hc He | start h ps' Hc He Hps]; subst.
  - exists (tso_post_entry skb true true h), []. cbn.
    split; [reflexivity|]. split; [apply Hc; reflexivity|].
    split; [reflexivity|]. split; [reflexivity|constructor].
  - exists (tso_post_entry skb true false h), ps'. cbn.
    split; [reflexivity|]. split; [apply Hc; reflexivity|].
    split; [reflexivity|]. split; [reflexivity|].
    apply (tso_shape_plain false ps' Hps eq_refl).
Qed.

Lemma tso_shape_ends start ps : tso_shape skb start ps -> ends_once ps.
Proof.
  induction 1 as [start h Hs He | start h ps Hs He Hps IH].
  - exists [], (tso_post_entry skb start true h).
    split; [reflexivity|]. split; [exact He|constructor].
  - destruct IH as [init [last [-> [Hl Hi]]]].
    exists (tso_post_entry skb start false h :: init), last.
    split; [reflexivity|]. split; [exact Hl|].
    constructor; [exact He|exact Hi].
Qed.

End TsoShape.

Lemma range_of_sum (l : list Z) (B : Z) :
  Forall (fun x => 0 <= x) l -> zsum l < B ->
  Forall (fun x => 0 <= x < B) l /\ 0 <= zsum l.
Proof.
  induction 1 as [|x l Hx Hl IH]; cbn; intros Hs.
  - split; [constructor|lia].
  - assert (0 <= zsum l).
    { clear -Hl. induction Hl; cbn; [lia|]. unfold zsum in *. lia. }
    destruct IH as [IH _]; [unfold zsum in *; lia|].
    split; [constructor; [unfold zsum in *; lia|exact IH]|unfold zsum in *; lia].
Qed.

(** C5. A TSO packet of positive length and positive MSS whose buffers
    were mapped and whose header was made writable is sent completely by
    ionic_tx_tso, and among the descriptors it posts the first, and only
    the first, carries the start-of-transfer flag and is posted with
    ionic_tx_clean and the packet; every other descriptor is posted with no
    callback and no argument; the last, and only the last, carries the
    end-of-transfer flag (with one descriptor, first and last are the
    same). *)
Theorem tso_one_start_one_end `{ionic_consts} (skb : sk_buff) (w : world) :
  tso_flag_bits ->
  0 < q_num_descs (q w) ->
  0 <= q_head_idx (q w) < q_num_descs (q w) ->
  length (q_info (q w)) = Z.to_nat (q_num_descs (q w)) ->
  (length (skb_frags skb)
   < length (di_bufs (slot w (q_head_idx (q w)))))%nat ->
  0 < skb_len skb < 2 ^ 32 ->
  skb_len skb = skb_headlen skb + zsum (skb_frags skb) ->
  0 <= skb_headlen skb ->
  Forall (fun x => 0 <= x) (skb_frags skb) ->
  0 < skb_gso_size skb ->
  0 <= tso_hdrlen skb ->
  tso_hdrlen skb + skb_gso_size skb < 2 ^ 32 ->
  fst (fst (ionic_tx_map_skb skb (slot w (q_head_idx (q w))) w)) = 0 ->
  hd 0 (k_cow_head (k w)) = 0 ->
  exists w' ps,
    ionic_tx_tso skb w = Some (0, w')
    /\ posted (k_trace (k w')) = posted (k_trace (k w)) ++ ps
    /\ starts_once skb ps
    /\ ends_once ps.
Proof.
  intros Hbits HN Hh Hlen Hbufs Hpos Hsum Hhead Hfr Hmss Hhdr0 Hhdr Hmap Hcow.
  unfold ionic_tx_tso.
  pose proof (tx_map_skb_ok skb (slot w (q_head_idx (q w))) w Hbufs) as Hm.
  cbv zeta in Hm.
  destruct (ionic_tx_map_skb skb (slot w (q_head_idx (q w))) w)
    as [[e d1] w1].
  cbn [fst snd] in Hm, Hmap. subst e.
  destruct (Hm eq_refl) as [Hl [Hlb [Hq1 Hc1]]]. clear Hm.
  cbn [Z.eqb negb].
  set (head := q_head_idx (q w)) in *.
  set (wA := store_slot head d1 w1).
  assert (HinfoA : length (q_info (q wA)) = Z.to_nat (q_num_descs (q w))).
  { unfold wA, store_slot, upd_slot. simpl. rewrite length_alter.
    rewrite (quiet_info _ _ Hq1). exact Hlen. }
  assert (HslotA : slot wA head = d1).
  { unfold wA, store_slot. rewrite slot_upd_slot.
    rewrite decide_True; [reflexivity|].
    split; [reflexivity|]. rewrite (quiet_info _ _ Hq1), Hlen. lia. }
  replace (if skb_encapsulation skb then ionic_tx_tcp_inner_pseudo_csum wA
           else ionic_tx_tcp_pseudo_csum wA)
    with (pop_cow_head wA) by (destruct (skb_encapsulation skb); reflexivity).
  pose proof (quiet_pop_cow_head wA) as HqB.
  assert (HeB : fst (pop_cow_head wA) = 0).
  { unfold pop_cow_head.
    replace (k_cow_head (k wA)) with (k_cow_head (k w)) by (symmetry; exact Hc1).
    destruct (k_cow_head (k w)); [reflexivity|exact Hcow]. }
  destruct (pop_cow_head wA) as [e wB]. cbn [fst snd] in HqB, HeB. subst e.
  cbn [Z.eqb negb].
  fold (tso_hdrlen skb).
  set (lens := skb_headlen skb :: skb_frags skb).
  destruct (range_of_sum (skb_frags skb) (2 ^ 32) Hfr ltac:(lia)) as [Hfr32 Hfs].
  assert (Hlens : Forall (fun x => 0 <= x < 2 ^ 32) lens).
  { constructor; [lia|exact Hfr32]. }
  assert (HheadB : q_head_idx (q wB) = head).
  { rewrite (quiet_head _ _ HqB). unfold wA, store_slot, upd_slot. simpl.
    apply (quiet_head _ _ Hq1). }
  assert (HnumB : q_num_descs (q wB) = q_num_descs (q w)).
  { rewrite (quiet_num_descs _ _ HqB). unfold wA, store_slot, upd_slot. simpl.
    apply (quiet_num_descs _ _ Hq1). }
  assert (HslotB : slot wB head = d1).
  { unfold slot. rewrite (quiet_info _ _ HqB). exact HslotA. }
  assert (HtraceB : posted (k_trace (k wB)) = posted (k_trace (k w))).
  { rewrite (quiet_posted _ _ HqB). unfold wA, store_slot, upd_slot. simpl.
    apply (quiet_posted _ _ Hq1). }
  assert (Hhold : bufs_hold lens wB head).
  { intros j x Hj Hx. rewrite HslotB, (Hl j x Hj Hx).
    apply u32_small.
    apply list_elem_of_lookup_2 in Hx.
    rewrite List.Forall_forall in Hlens. apply Hlens.
    apply list_elem_of_In. exact Hx. }
  set (fuel := S (Z.to_nat (skb_len skb) + length (di_bufs (slot wB head)))).
  set (t0 := mk_tso_walk 0 0 0 (skb_len skb)
               (Z.min (skb_len skb) (u32 (tso_hdrlen skb + skb_gso_size skb)))).
  assert (Hu : u32 (tso_hdrlen skb + skb_gso_size skb)
               = tso_hdrlen skb + skb_gso_size skb) by (apply u32_small; lia).
  destruct (tso_loop_spec Hbits skb lens (tso_hdrlen skb) (skb_gso_size skb)
              head fuel Hlens Hmss fuel t0 true wB) as [w' [ps [Hrun [Hp Hs]]]].
  - rewrite HnumB. exact HN.
  - rewrite HheadB, HnumB. exact Hh.
  - rewrite (quiet_info _ _ HqB), HnumB. exact HinfoA.
  - exact Hhold.
  - unfold t0. split; cbn [tw_buf tw_frag_rem tw_tso_rem tw_seg_rem];
      try lia.
    unfold lens.
    change (drop (Z.to_nat 0) (skb_headlen skb :: skb_frags skb))
      with (skb_headlen skb :: skb_frags skb).
    unfold zsum in *. cbn [fold_right]. lia.
  - unfold t0. cbn [tw_seg_rem]. rewrite Hu. lia.
  - unfold t0, fuel. cbn [tw_tso_rem]. lia.
  - unfold t0, fuel, lens. cbn [tw_tso_rem length].
    rewrite HslotB, Hlb. lia.
  - rewrite HheadB in Hrun. fold fuel t0. rewrite Hrun.
    eexists. exists ps. split; [reflexivity|].
    split; [|split].
    + rewrite <- HtraceB, <- Hp.
      apply quiet_posted. repeat quiet_step.
    + apply tso_shape_starts. exact Hs.
    + apply (tso_shape_ends skb true ps Hs).
Qed.

(** A 3000-byte TSO packet: 1000 bytes of head (54 of headers), one
    fragment of 2000 bytes, MSS 1460. *)
Definition tso_skb : sk_buff :=
  mk_skb 7 3000 1000 [2000] 1460 3 true false false 0 false false 0 0 54 0
    false 0.

(** An empty ring of 8 slots, with both mappings of the packet granted. *)
Definition tso_world : world :=
  mk_world (example_queue 8 0 0 (replicate 8 (blank_slot 9)))
    (set_dma_map [4096; 8192] example_kernel).

Lemma example_tso_flag_bits : @tso_flag_bits example_consts.
Proof. split; vm_compute; try reflexivity; split; reflexivity. Qed.

Lemma tso_one_start_one_end_witness :
  exists w' ps,
    @ionic_tx_tso example_consts tso_skb tso_world = Some (0, w')
    /\ posted (k_trace (k w')) = posted (k_trace (k tso_world)) ++ ps
    /\ @starts_once example_consts tso_skb ps
    /\ @ends_once example_consts ps.
Proof.
  apply (@tso_one_start_one_end example_consts tso_skb tso_world).
  - exact example_tso_flag_bits.
  - simpl. lia.
  - simpl. lia.
  - reflexivity.
  - vm_compute. lia.
  - simpl. lia.
  - reflexivity.
  - simpl. lia.
  - repeat constructor. lia.
  - simpl. lia.
  - vm_compute. discriminate.
  - vm_compute. reflexivity.
  - vm_compute. reflexivity.
  - reflexivity.
Defined.

(** The three descriptors of that packet, as posted: flags, length,
    doorbell request and callback of each. *)
Example tso_run_posts :
  option_map (fun r => map (fun p => (match post_desc p with
                                      | desc_txq d => (txd_flags d, txd_len d)
                                      | _ => (0, 0)
                                      end, snd (fst (fst p)), post_cb p))
                         (posted (k_trace (k (snd r)))))
    (@ionic_tx_tso example_consts tso_skb tso_world)
  = Some [((4, 1000), false, Some cb_ionic_tx_clean);
          ((0, 1460), false, None);
          ((8, 26), true, None)].
Proof. vm_compute. reflexivity. Qed.

(** * Beyond the claims *)

(** ** Interrupt coalescing units (ionic_lif.h) *)

(** ionic_coal_usec_to_hw(ionic, usecs); [mult] and [div] are
    [ionic->ident.dev.intr_coal_mult] and [intr_coal_div], all u32. *)
Definition ionic_coal_usec_to_hw (mult div usecs : Z) : Z :=
  if (div =? 0) || (mult =? 0) then 0
  else
    (* Round up in case usecs is close to the next hw unit *)
    let usecs := u32 (usecs + Z.shiftr (div / mult) 1) in
    (* Convert from usecs to device units *)
    u32 (usecs * mult) / div.

(** ionic_coal_hw_to_usec(ionic, units) *)
Definition ionic_coal_hw_to_usec (mult div units : Z) : Z :=
  if (div =? 0) || (mult =? 0) then 0
  else
    (* Convert from device units to usec *)
    u32 (units * div) / mult.

Lemma coal_guard mult div :
  0 < mult -> 0 < div -> (div =? 0) || (mult =? 0) = false.
Proof.
  intros Hm Hd. apply orb_false_iff. split; apply Z.eqb_neq; lia.
Qed.

Lemma half_bounds r : 0 <= r -> 2 * Z.shiftr r 1 <= r < 2 * Z.shiftr r 1 + 2.
Proof.
  intros Hr. rewrite Z.shiftr_div_pow2 by lia. change (2 ^ 1) with 2.
  pose proof (Z.div_mod r 2 ltac:(lia)).
  pose proof (Z.mod_pos_bound r 2 ltac:(lia)). lia.
Qed.

(** Device units survive the trip through microseconds: when a device unit
    is a whole number of microseconds, or at least two of them, converting
    [units] to microseconds and back gives [units] again (nothing
    overflowing 32 bits). *)
Theorem coal_units_round_trip (mult div units : Z) :
  0 < mult -> 0 < div ->
  2 * mult <= div \/ div mod mult = 0 ->
  0 <= units ->
  (units + 1) * div < 2 ^ 32 ->
  ionic_coal_usec_to_hw mult div (ionic_coal_hw_to_usec mult div units)
  = units.
Proof.
  intros Hm Hd Hratio Hu Hov.
  unfold ionic_coal_usec_to_hw, ionic_coal_hw_to_usec.
  rewrite (coal_guard mult div Hm Hd).
  set (r := div / mult).
  assert (Hr : r * mult <= div < r * mult + mult).
  { unfold r. pose proof (Z.div_mod div mult ltac:(lia)).
    pose proof (Z.mod_pos_bound div mult Hm). lia. }
  assert (Hr0 : 0 <= r) by (apply Z.div_pos; lia).
  pose proof (half_bounds r Hr0) as Hh.
  set (r2 := Z.shiftr r 1) in *.
  assert (Hud : 0 <= units * div) by (apply Z.mul_nonneg_nonneg; lia).
  rewrite (u32_small (units * div)) by lia.
  set (u := units * div / mult).
  assert (Hudef : u * mult <= units * div < u * mult + mult).
  { unfold u. pose proof (Z.div_mod (units * div) mult ltac:(lia)).
    pose proof (Z.mod_pos_bound (units * div) mult Hm). lia. }
  assert (Hu0 : 0 <= u) by (apply Z.div_pos; lia).
  assert (Hr2m : 0 <= r2 * mult /\ 2 * r2 * mult <= r * mult).
  { split; [apply Z.mul_nonneg_nonneg; lia|].
    apply Z.mul_le_mono_nonneg_r; lia. }
  assert (Hup : (u + r2) * mult < (units + 1) * div) by lia.
  assert (Hlow : units * div <= (u + r2) * mult).
  { destruct Hratio as [H2|Hz].
    - assert (2 <= r).
      { destruct (Z.le_gt_cases 2 r) as [?|Hlt]; [assumption|].
        assert (r * mult <= 1 * mult)
          by (apply Z.mul_le_mono_nonneg_r; lia).
        lia. }
      assert (1 * mult <= r2 * mult)
        by (apply Z.mul_le_mono_nonneg_r; lia).
      lia.
    - assert (div = r * mult).
      { unfold r. pose proof (Z.div_mod div mult ltac:(lia)). lia. }
      assert (Hur : u = units * r).
      { unfold u. replace (units * div) with (units * r * mult)
          by (rewrite H at 1; ring).
        apply Z.div_mul. lia. }
      replace (units * div) with (units * r * mult) by (rewrite H at 1; ring).
      rewrite Hur. lia. }
  assert (Hsm : u + r2 <= (u + r2) * mult).
  { rewrite <- (Z.mul_1_r (u + r2)) at 1.
    apply Z.mul_le_mono_nonneg_l; lia. }
  rewrite (u32_small (u + r2)) by lia.
  rewrite (u32_small ((u + r2) * mult)) by lia.
  symmetry. apply (Z.div_unique_pos _ _ _ ((u + r2) * mult - units * div)); lia.
Qed.

Lemma coal_units_round_trip_witness :
  ionic_coal_usec_to_hw 1 3 (ionic_coal_hw_to_usec 1 3 1000) = 1000.
Proof. apply coal_units_round_trip; [lia | lia | left; lia | lia | lia]. Defined.

(** With a device unit between one and two microseconds long the trip
    loses a unit: the condition on the ratio is needed. *)
Example coal_units_lost :
  ionic_coal_usec_to_hw 2 3 (ionic_coal_hw_to_usec 2 3 1) = 0.
Proof. reflexivity. Qed.

(** Microseconds come back from the device units off by at most half a
    device unit and one microsecond: the half unit added before the
    conversion keeps the error centred. *)
Theorem coal_usec_error_bound (mult div usecs : Z) :
  0 < mult -> mult <= div ->
  0 <= usecs ->
  (usecs + div / mult) * mult + div < 2 ^ 32 ->
  let back := ionic_coal_hw_to_usec mult div
                (ionic_coal_usec_to_hw mult div usecs) in
  usecs - (div / mult + 1) / 2 - 1 <= back
  /\ back <= usecs + div / mult / 2.
Proof.
  intros Hm Hmd Hu Hov. cbv zeta.
  assert (Hd : 0 < div) by lia.
  unfold ionic_coal_usec_to_hw, ionic_coal_hw_to_usec.
  rewrite (coal_guard mult div Hm Hd).
  set (r := div / mult) in *.
  assert (Hr : r * mult <= div < r * mult + mult).
  { unfold r. pose proof (Z.div_mod div mult ltac:(lia)).
    pose proof (Z.mod_pos_bound div mult Hm). lia. }
  assert (Hr0 : 1 <= r).
  { destruct (Z.le_gt_cases 1 r) as [?|Hlt]; [assumption|].
    assert (r * mult <= 0 * mult) by (apply Z.mul_le_mono_nonneg_r; lia).
    lia. }
  pose proof (half_bounds r ltac:(lia)) as Hh.
  change (r / 2) with (r / 2 ^ 1).
  rewrite <- (Z.shiftr_div_pow2 r 1) by lia.
  set (r2 := Z.shiftr r 1) in *.
  assert (Hceil : (r + 1) / 2 = r - r2).
  { symmetry. apply (Z.div_unique_pos _ _ _ (r + 1 - 2 * (r - r2))); lia. }
  rewrite Hceil.
  assert (Hum : 0 <= usecs * mult) by (apply Z.mul_nonneg_nonneg; lia).
  assert (Hrm : 0 <= r2 * mult <= r * mult).
  { split; [apply Z.mul_nonneg_nonneg; lia|].
    apply Z.mul_le_mono_nonneg_r; lia. }
  assert (Hsm : usecs + r2 <= (usecs + r2) * mult).
  { rewrite <- (Z.mul_1_r (usecs + r2)) at 1.
    apply Z.mul_le_mono_nonneg_l; lia. }
  rewrite (u32_small (usecs + r2)) by lia.
  rewrite (u32_small ((usecs + r2) * mult)) by lia.
  set (h := (usecs + r2) * mult / div).
  assert (Hh' : h * div <= (usecs + r2) * mult < h * div + div).
  { unfold h. pose proof (Z.div_mod ((usecs + r2) * mult) div ltac:(lia)).
    pose proof (Z.mod_pos_bound ((usecs + r2) * mult) div Hd). lia. }
  assert (Hh0 : 0 <= h) by (apply Z.div_pos; lia).
  assert (Hhd : 0 <= h * div) by (apply Z.mul_nonneg_nonneg; lia).
  rewrite (u32_small (h * div)) by lia.
  set (b := h * div / mult).
  assert (Hb : b * mult <= h * div < b * mult + mult).
  { unfold b. pose proof (Z.div_mod (h * div) mult ltac:(lia)).
    pose proof (Z.mod_pos_bound (h * div) mult Hm). lia. }
  split.
  - assert (Hlt : (usecs + r2) * mult < (b + r + 2) * mult) by lia.
    apply Z.mul_lt_mono_pos_r in Hlt; lia.
  - assert (Hle : b * mult <= (usecs + r2) * mult) by lia.
    apply Z.mul_le_mono_pos_r in Hle; lia.
Qed.

Lemma coal_usec_error_bound_witness :
  let back := ionic_coal_hw_to_usec 1 3 (ionic_coal_usec_to_hw 1 3 100) in
  100 - (3 / 1 + 1) / 2 - 1 <= back /\ back <= 100 + 3 / 1 / 2.
Proof. apply coal_usec_error_bound; try lia; vm_compute; reflexivity. Defined.

(** ** What a step adds to the trace *)

(** [adds P w w']: the kernel calls made from [w] to [w'] all satisfy
    [P]. *)
Definition adds (P : event -> Prop) (w w' : world) : Prop :=
  exists es, k_trace (k w') = k_trace (k w) ++ es /\ Forall P es.

Lemma adds_refl P w : adds P w w.
Proof. exists []. split; [symmetry; apply app_nil_r|constructor]. Qed.

Lemma adds_same P w w' : k_trace (k w') = k_trace (k w) -> adds P w w'.
Proof. intros E. exists []. rewrite E, app_nil_r. split; [reflexivity|constructor]. Qed.

Lemma adds_trans P w1 w2 w3 : adds P w1 w2 -> adds P w2 w3 -> adds P w1 w3.
Proof.
  intros [e1 [E1 F1]] [e2 [E2 F2]]. exists (e1 ++ e2). split.
  - rewrite E2, E1. symmetry. apply app_assoc.
  - apply Forall_app. split; assumption.
Qed.

Lemma adds_log (P : event -> Prop) e w : P e -> adds P w (log e w).
Proof. intros He. exists [e]. split; [reflexivity|]. constructor; [exact He|constructor]. Qed.

Lemma adds_logs (P : event -> Prop) es w : Forall P es -> adds P w (logs es w).
Proof. intros He. exists es. split; [reflexivity|exact He]. Qed.

Lemma adds_weaken (P Q : event -> Prop) w w' :
  (forall e, P e -> Q e) -> adds P w w' -> adds Q w w'.
Proof.
  intros HPQ [es [E F]]. exists es. split; [exact E|].
  eapply Forall_impl; [exact F|exact HPQ].
Qed.

Lemma adds_none w w' :
  adds (fun _ => False) w w' -> k_trace (k w') = k_trace (k w).
Proof.
  intros [es [E F]]. destruct es as [|e es].
  - rewrite E. apply app_nil_r.
  - inversion F as [|? ? []].
Qed.

(** Chain [adds] steps from the outside in; [tac] proves [P] of a logged
    event. *)
Ltac adds_step tac :=
  match goal with
  | |- adds _ ?w ?w => apply adds_refl
  | |- adds ?P ?w (log ?e ?w1) =>
      apply (adds_trans P w w1); [| apply adds_log; tac]
  | |- adds ?P ?w (bump _ _ ?w1) =>
      apply (adds_trans P w w1); [| apply adds_same; reflexivity]
  | |- adds ?P ?w (assign _ _ ?w1) =>
      apply (adds_trans P w w1); [| apply adds_same; reflexivity]
  | |- adds ?P ?w (upd_q _ ?w1) =>
      apply (adds_trans P w w1); [| apply adds_same; reflexivity]
  | |- adds ?P ?w (upd_k _ ?w1) =>
      apply (adds_trans P w w1); [| apply adds_same; reflexivity]
  | |- adds ?P ?w (store_slot _ _ ?w1) =>
      apply (adds_trans P w w1); [| apply adds_same; reflexivity]
  | |- adds ?P ?w (upd_slot _ _ ?w1) =>
      apply (adds_trans P w w1); [| apply adds_same; reflexivity]
  end.

(** *** Counters *)

Lemma stat_stat_set c c' v st :
  stat c (stat_set c' v st) = if bool_decide (c' = c) then v else stat c st.
Proof.
  induction st as [|[c0 v0] st IH]; cbn [stat_set stat].
  - reflexivity.
  - destruct (bool_decide (c0 = c')) eqn:E0; cbn [stat].
    + apply bool_decide_eq_true in E0. subst c0.
      destruct (bool_decide (c' = c)); reflexivity.
    + destruct (bool_decide (c0 = c)) eqn:E1.
      * apply bool_decide_eq_true in E1. apply bool_decide_eq_false in E0.
        rewrite bool_decide_eq_false_2 by congruence. reflexivity.
      * exact IH.
Qed.

(** The value of counter [c] in [w]. *)
Definition counter_of (c : counter) (w : world) : Z := stat c (q_stats (q w)).

Lemma counter_bump c c' n w :
  counter_of c (bump c' n w)
  = if bool_decide (c' = c) then u64 (counter_of c' w + n) else counter_of c w.
Proof. unfold counter_of, bump. cbn. apply stat_stat_set. Qed.

Lemma counter_bump_ne c c' n w :
  c' <> c -> counter_of c (bump c' n w) = counter_of c w.
Proof. intros Hne. rewrite counter_bump, bool_decide_eq_false_2; auto. Qed.

Lemma counter_bump_eq c n w :
  counter_of c (bump c n w) = u64 (counter_of c w + n).
Proof. rewrite counter_bump, bool_decide_eq_true_2; auto. Qed.

Lemma counter_log c e w : counter_of c (log e w) = counter_of c w.
Proof. reflexivity. Qed.

Lemma counter_upd_k c f w : counter_of c (upd_k f w) = counter_of c w.
Proof. reflexivity. Qed.

Lemma counter_store_slot c i d w :
  counter_of c (store_slot i d w) = counter_of c w.
Proof. reflexivity. Qed.

Lemma counter_free_trace c n w :
  k_trace (k (bump c n w)) = k_trace (k w).
Proof. reflexivity. Qed.

Ltac counters :=
  repeat first
    [ rewrite counter_bump_eq
    | rewrite counter_bump_ne by discriminate
    | rewrite counter_log
    | rewrite counter_upd_k
    | rewrite counter_store_slot ];
  try reflexivity.

(** ** Receive pages: what is acquired is released *)

(** The outcomes of ionic_rx_page_alloc, by the answers of alloc_pages
    and dma_map_page; [w0] is [w] with those answers consumed. *)
Lemma rx_page_alloc_spec `{ionic_consts} b w :
  exists w0,
    k_trace (k w0) = k_trace (k w) /\ q w0 = q w /\
    ionic_rx_page_alloc b w
    = match hd None (k_alloc_pages (k w)) with
      | None => (- ENOMEM, b, bump rx_alloc_err 1 w0)
      | Some p =>
          let a := hd DMA_MAPPING_ERROR (k_dma_map (k w)) in
          let w1 := log (ev_dma_map_page a IONIC_PAGE_SIZE) w0 in
          if dma_mapping_error a then
            (- EIO, set_bi_dma_addr a b,
             bump rx_dma_map_err 1 (log (ev_free_pages p) w1))
          else
            (0,
             (let b1 := set_bi_page_offset 0
                          (set_bi_page (Some p) (set_bi_dma_addr a b)) in
              if 0 <? IONIC_PAGE_ORDER then set_bi_pagecnt_bias 0 b1 else b1),
             w1)
      end.
Proof.
  unfold ionic_rx_page_alloc, pop_alloc_pages.
  destruct (k_alloc_pages (k w)) as [|[p|] rest] eqn:Ep; cbn [hd].
  - exists w. repeat split; reflexivity.
  - unfold pop_dma_map.
    change (k_dma_map (k (upd_k (set_alloc_pages rest) w)))
      with (k_dma_map (k w)).
    destruct (k_dma_map (k w)) as [|a rest'] eqn:Ed; cbn [hd].
    + exists (upd_k (set_alloc_pages rest) w). repeat split; reflexivity.
    + exists (upd_k (set_dma_map rest') (upd_k (set_alloc_pages rest) w)).
      repeat split; reflexivity.
  - exists (upd_k (set_alloc_pages rest) w). repeat split; reflexivity.
Qed.

(** ionic_rx_page_alloc on an empty buffer followed by ionic_rx_page_free:
    whatever the allocation met, the page it got from alloc_pages is
    freed exactly once, a mapping that succeeded is unmapped with the same
    address and size, and the buffer holds no page at the end.  A failed
    allocation leaves nothing for ionic_rx_page_free to do. *)
Theorem rx_page_alloc_free `{ionic_consts} b w err b1 w1 b2 w2 :
  bi_page b = None ->
  ionic_rx_page_alloc b w = (err, b1, w1) ->
  ionic_rx_page_free b1 w1 = (b2, w2) ->
  bi_page b2 = None /\
  match hd None (k_alloc_pages (k w)) with
  | None => err = - ENOMEM /\ k_trace (k w2) = k_trace (k w)
  | Some p =>
      let a := hd DMA_MAPPING_ERROR (k_dma_map (k w)) in
      if dma_mapping_error a
      then err = - EIO
           /\ k_trace (k w2)
              = k_trace (k w)
                ++ [ev_dma_map_page a IONIC_PAGE_SIZE; ev_free_pages p]
      else err = 0
           /\ k_trace (k w2)
              = k_trace (k w)
                ++ [ev_dma_map_page a IONIC_PAGE_SIZE;
                    ev_dma_unmap_page a IONIC_PAGE_SIZE; ev_free_pages p]
  end.
Proof.
  intros Hb Ha Hf.
  destruct (rx_page_alloc_spec b w) as [w0 [Ht [_ Hspec]]].
  rewrite Hspec in Ha. clear Hspec.
  destruct (hd None (k_alloc_pages (k w))) as [p|].
  - cbv zeta in Ha |- *.
    destruct (dma_mapping_error (hd DMA_MAPPING_ERROR (k_dma_map (k w)))).
    + injection Ha as <- <- <-. unfold ionic_rx_page_free in Hf.
      cbn [bi_page set_bi_dma_addr] in Hf.
      rewrite Hb in Hf. injection Hf as <- <-.
      split; [exact Hb|]. split; [reflexivity|].
      rewrite counter_free_trace, !trace_log, Ht, <- app_assoc. reflexivity.
    + injection Ha as <- <- <-. unfold ionic_rx_page_free in Hf.
      destruct (0 <? IONIC_PAGE_ORDER) eqn:Eo;
        cbn in Hf; injection Hf as <- <-;
        (split; [reflexivity|]); (split; [reflexivity|]);
        rewrite !trace_log, Ht; cbn; rewrite <- !app_assoc; reflexivity.
  - injection Ha as <- <- <-. unfold ionic_rx_page_free in Hf.
    rewrite Hb in Hf. injection Hf as <- <-.
    split; [exact Hb|]. split; [reflexivity|].
    rewrite counter_free_trace. exact Ht.
Qed.

(** A kernel with one page (handle 71) and one mapping (at 4096) to give. *)
Definition rx_alloc_world : world :=
  mk_world (example_queue 4 0 0 (replicate 4 (blank_slot 9)))
    (set_dma_map [4096] (set_alloc_pages [Some 71] example_kernel)).

Lemma rx_page_alloc_free_witness :
  exists w2,
    k_trace (k w2)
    = [ev_dma_map_page 4096 4096; ev_dma_unmap_page 4096 4096;
       ev_free_pages 71].
Proof.
  destruct (@ionic_rx_page_alloc example_consts buf_zero rx_alloc_world)
    as [[err b1] w1] eqn:Ea.
  destruct (@ionic_rx_page_free example_consts b1 w1) as [b2 w2] eqn:Ef.
  destruct (@rx_page_alloc_free example_consts buf_zero rx_alloc_world
              err b1 w1 b2 w2 eq_refl Ea Ef) as [_ Hm].
  exists w2. vm_compute in Hm. destruct Hm as [_ Ht]. exact Ht.
Defined.

(** ** Receive: delivered or dropped *)

(** The skb is handed to the stack. *)
Definition handed_up (e : event) : bool :=
  match e with
  | ev_napi_gro_receive _ | ev_napi_gro_frags _ => true
  | _ => false
  end.

(** The kernel calls made while a receive skb is built. *)
Definition rx_build_event (e : event) : Prop :=
  match e with
  | ev_kfree_rx_skb | ev_get_page _ | ev_dma_unmap_page _ _ => True
  | _ => False
  end.

Section RxDeliver.
Context `{ionic_consts}.

Lemma rx_buf_recycle_build mtu b used :
  Forall rx_build_event (snd (ionic_rx_buf_recycle mtu b used)).
Proof.
  unfold ionic_rx_buf_recycle.
  destruct (bi_page b); [|constructor].
  destruct (negb _); [constructor|].
  destruct (_ <? mtu); [constructor|].
  destruct (_ <=? _); [constructor|].
  destruct (0 <? _); cbn [snd]; repeat constructor.
Qed.

Lemma rx_frags_loop_build n : forall j len frags d w,
  adds rx_build_event w (snd (rx_frags_loop n j len frags d w))
  /\ q (snd (rx_frags_loop n j len frags d w)) = q w.
Proof.
  induction n as [|n IH]; intros j len frags d w; cbn [rx_frags_loop].
  - split; [apply adds_refl|reflexivity].
  - destruct (bi_page (di_buf d j)) as [p|]; cbn [snd].
    2:{ split; [repeat adds_step ltac:(exact I)|reflexivity]. }
    pose proof (rx_buf_recycle_build (k_mtu (k w)) (di_buf d j)
      (Z.min (u16 len) (u16 (IONIC_PAGE_SIZE - bi_page_offset (di_buf d j)))))
      as Hev.
    destruct (ionic_rx_buf_recycle _ _ _) as [[r b] evs]. cbn [snd] in Hev.
    destruct r.
    + match goal with
      | |- context [rx_frags_loop n ?a ?b ?c ?e (logs evs w)] =>
          destruct (IH a b c e (logs evs w)) as [I1 I2]
      end.
      split; [|rewrite I2; reflexivity].
      eapply adds_trans; [|exact I1]. apply adds_logs, Hev.
    + match goal with
      | |- context [rx_frags_loop n ?a ?b ?c ?e (log ?ev (logs evs w))] =>
          destruct (IH a b c e (log ev (logs evs w))) as [I1 I2]
      end.
      split; [|rewrite I2; reflexivity].
      eapply adds_trans; [|exact I1].
      adds_step ltac:(exact I). apply adds_logs, Hev.
Qed.

(** Building the skb hands nothing up and counts neither a drop nor a
    checksum error. *)
Lemma rx_build_spec d comp w :
  let r := if rxc_len comp <=? k_rx_copybreak (k w)
           then ionic_rx_copybreak d comp w else ionic_rx_frags d comp w in
  adds rx_build_event w (snd r)
  /\ counter_of rx_dropped (snd r) = counter_of rx_dropped w
  /\ counter_of rx_csum_error (snd r) = counter_of rx_csum_error w
  /\ q_hwstamp (q (snd r)) = q_hwstamp (q w).
Proof.
  cbv zeta. destruct (_ <=? _).
  - unfold ionic_rx_copybreak, pop_alloc_skb.
    destruct (k_alloc_skb (k w)) as [|[|] rest]; cbn [negb snd].
    + split; [repeat adds_step ltac:(exact I)
             |split; [counters|split; [counters|reflexivity]]].
    + destruct (bi_page (di_buf d 0)); cbn [snd];
        (split; [repeat adds_step ltac:(exact I)
                |split; [counters|split; [counters|reflexivity]]]).
    + split; [repeat adds_step ltac:(exact I)
             |split; [counters|split; [counters|reflexivity]]].
  - unfold ionic_rx_frags, pop_alloc_skb.
    destruct (k_alloc_skb (k w)) as [|[|] rest]; cbn [negb snd].
    + split; [repeat adds_step ltac:(exact I)
             |split; [counters|split; [counters|reflexivity]]].
    + match goal with
      | |- context [rx_frags_loop ?n ?a ?b ?c ?e ?w0] =>
          destruct (rx_frags_loop_build n a b c e w0) as [I1 I2]
      end.
      split; [|split; [|split]].
      * eapply adds_trans; [|exact I1]. repeat adds_step ltac:(exact I).
      * unfold counter_of. rewrite I2. reflexivity.
      * unfold counter_of. rewrite I2. reflexivity.
      * rewrite I2. reflexivity.
    + split; [repeat adds_step ltac:(exact I)
             |split; [counters|split; [counters|reflexivity]]].
Qed.

End RxDeliver.

Lemma rx_build_not_handed_up e : rx_build_event e -> handed_up e = false.
Proof. destruct e; cbn; intros []; reflexivity. Qed.

(** The checksum verdict of a completion: one of the TCP, UDP or IP "bad"
    flags is set. *)
Definition rx_csum_bad `{ionic_consts} (comp : ionic_rxq_comp) : bool :=
  negb (Z.land (rxc_csum_flags comp) IONIC_RXQ_COMP_CSUM_F_TCP_BAD =? 0)
  || negb (Z.land (rxc_csum_flags comp) IONIC_RXQ_COMP_CSUM_F_UDP_BAD =? 0)
  || negb (Z.land (rxc_csum_flags comp) IONIC_RXQ_COMP_CSUM_F_IP_BAD =? 0).

(** With an mtu for which mtu + ETH_HLEN + VLAN_HLEN fits an unsigned int,
    every completion given to ionic_rx_clean ends in exactly one of two
    ways: one skb is handed to the stack, as the last kernel call,
    rx_dropped stays, and csum_error goes up by one exactly when the
    completion carries a bad-checksum flag; or nothing is handed up,
    rx_dropped goes up by one and csum_error stays.  A frame with an error
    status, or longer than mtu + ETH_HLEN + VLAN_HLEN, is never handed
    up. *)
Theorem rx_clean_delivers_or_drops `{ionic_consts} d ci arg w :
  0 <= k_mtu (k w) ->
  k_mtu (k w) + ETH_HLEN + VLAN_HLEN < 2 ^ 32 ->
  let w' := snd (ionic_rx_clean d ci arg w) in
  exists es,
    k_trace (k w') = k_trace (k w) ++ es /\
    ((exists pre e,
        es = pre ++ [e] /\ handed_up e = true
        /\ Forall (fun x => handed_up x = false) pre
        /\ counter_of rx_dropped w' = counter_of rx_dropped w
        /\ counter_of rx_csum_error w'
           = (if rx_csum_bad (cqi_comp ci)
              then u64 (counter_of rx_csum_error w + 1)
              else counter_of rx_csum_error w)
        /\ rxc_status (cqi_comp ci) = 0
        /\ rxc_len (cqi_comp ci) <= k_mtu (k w) + ETH_HLEN + VLAN_HLEN)
     \/ (Forall (fun x => handed_up x = false) es
         /\ counter_of rx_dropped w'
            = u64 (counter_of rx_dropped w + 1)
         /\ counter_of rx_csum_error w' = counter_of rx_csum_error w)).
Proof.
  intros _ _. cbv zeta. unfold ionic_rx_clean.
  destruct (Z.eqb_spec (rxc_status (cqi_comp ci)) 0) as [Es|Es]; cbn [negb].
  2:{ exists []. cbn [snd]. split; [symmetry; apply app_nil_r|].
      right. split; [constructor|split; counters]. }
  destruct (Z.ltb_spec (k_mtu (k w) + ETH_HLEN + VLAN_HLEN)
              (rxc_len (cqi_comp ci))) as [El|El].
  { exists []. cbn [snd]. split; [symmetry; apply app_nil_r|].
    right. split; [constructor|split; counters]. }
  set (w1 := bump rx_bytes _ _).
  pose proof (rx_build_spec d (cqi_comp ci) w1) as Hb. cbv zeta in Hb.
  destruct (if rxc_len (cqi_comp ci) <=? k_rx_copybreak (k w1) then _ else _)
    as [[skb d'] w2].
  cbn [snd] in Hb. destruct Hb as [[es [Et Fe]] [Hc [Hce Hh]]].
  assert (Fe' : Forall (fun x => handed_up x = false) es).
  { eapply Forall_impl; [exact Fe|]. exact rx_build_not_handed_up. }
  assert (Hc1 : counter_of rx_dropped w1 = counter_of rx_dropped w)
    by (unfold w1; counters).
  assert (Hce1 : counter_of rx_csum_error w1 = counter_of rx_csum_error w)
    by (unfold w1; counters).
  destruct skb as [skb|]; cbn [snd].
  - fold (rx_csum_bad (cqi_comp ci)).
    set (wc := if rx_csum_bad (cqi_comp ci)
               then bump rx_csum_error 1 w2 else w2).
    assert (Hwc : k_trace (k wc) = k_trace (k w2)
                  /\ counter_of rx_dropped wc = counter_of rx_dropped w2
                  /\ counter_of rx_csum_error wc
                     = (if rx_csum_bad (cqi_comp ci)
                        then u64 (counter_of rx_csum_error w + 1)
                        else counter_of rx_csum_error w)).
    { unfold wc. destruct (rx_csum_bad (cqi_comp ci)).
      - split; [apply counter_free_trace|]. split; [counters|].
        rewrite counter_bump_eq, Hce, Hce1. reflexivity.
      - split; [reflexivity|]. split; [reflexivity|].
        rewrite Hce, Hce1. reflexivity. }
    destruct Hwc as [Htc [Hcc Hcec]]. clearbody wc.
    set (w3 := if q_hwstamp (q wc) then _ else wc).
    assert (Hw3 : k_trace (k w3) = k_trace (k wc)
                  /\ counter_of rx_dropped w3 = counter_of rx_dropped wc
                  /\ counter_of rx_csum_error w3
                     = counter_of rx_csum_error wc).
    { unfold w3. destruct (q_hwstamp (q wc)); [|repeat split].
      destruct (negb _); (split; [reflexivity|split; counters]). }
    destruct Hw3 as [Ht3 [Hc3 Hce3]]. clearbody w3.
    assert (Hout : forall e, handed_up e = true ->
             exists es0,
               k_trace (k (log e w3)) = k_trace (k w) ++ es0 /\
               ((exists pre e0,
                   es0 = pre ++ [e0] /\ handed_up e0 = true
                   /\ Forall (fun x => handed_up x = false) pre
                   /\ counter_of rx_dropped (log e w3)
                      = counter_of rx_dropped w
                   /\ counter_of rx_csum_error (log e w3)
                      = (if rx_csum_bad (cqi_comp ci)
                         then u64 (counter_of rx_csum_error w + 1)
                         else counter_of rx_csum_error w)
                   /\ rxc_status (cqi_comp ci) = 0
                   /\ rxc_len (cqi_comp ci)
                      <= k_mtu (k w) + ETH_HLEN + VLAN_HLEN)
                \/ (Forall (fun x => handed_up x = false) es0
                    /\ counter_of rx_dropped (log e w3)
                       = u64 (counter_of rx_dropped w + 1)
                    /\ counter_of rx_csum_error (log e w3)
                       = counter_of rx_csum_error w))).
    { intros e He. exists (es ++ [e]). split.
      - rewrite trace_log, Ht3, Htc, Et. unfold w1.
        rewrite !counter_free_trace. symmetry. apply app_assoc.
      - left. exists es, e. split; [reflexivity|]. split; [exact He|].
        split; [exact Fe'|]. split; [|split; [|split; assumption]].
        + rewrite counter_log, Hc3, Hcc, Hc, Hc1. reflexivity.
        + rewrite counter_log, Hce3, Hcec. reflexivity. }
    destruct skb; cbn [snd]; apply Hout; reflexivity.
  - exists es. split.
    + rewrite counter_free_trace, Et. unfold w1.
      rewrite !counter_free_trace. reflexivity.
    + right. split; [exact Fe'|]. split.
      * rewrite counter_bump_eq, Hc, Hc1. reflexivity.
      * rewrite counter_bump_ne by discriminate. rewrite Hce, Hce1.
        reflexivity.
Qed.

Lemma rx_clean_delivers_or_drops_witness :
  let w' := snd (@ionic_rx_clean example_consts (filled_slot 71 4096)
                   (mk_cq_info (mk_rxq_comp 0 0 1 128 2 128) 0) None
                   rx_world_1_3) in
  k_trace (k w') = [ev_napi_gro_receive 128]
  /\ counter_of rx_dropped w' = 0
  /\ counter_of rx_csum_error w' = 1.
Proof.
  cbv zeta.
  destruct (@rx_clean_delivers_or_drops example_consts (filled_slot 71 4096)
              (mk_cq_info (mk_rxq_comp 0 0 1 128 2 128) 0) None rx_world_1_3)
    as [es [Ht [[pre [e [_ [_ [_ [Hd [Hc _]]]]]]] | [Hf _]]]].
  - vm_compute. discriminate.
  - vm_compute. reflexivity.
  - split; [reflexivity|]. split; [exact Hd|exact Hc].
  - exfalso. vm_compute in Ht. subst es.
    apply Forall_cons_1 in Hf. destruct Hf as [Hf _]. discriminate Hf.
Defined.

(** A completion that ionic_rx_service accepts for a frame with an error
    status, or longer than mtu + ETH_HLEN + VLAN_HLEN: the descriptor is
    consumed (tail_idx steps, the callback is cleared), the frame is
    counted in rx_dropped and not in rx_pkts, no kernel call is made, and
    the buffers of the slot stay as they were, pages included, for the next
    fill. *)
Theorem rx_service_bad_frame `{ionic_consts} cq ci w :
  color_match (rxc_pkt_type_color (cqi_comp ci)) (cq_done_color cq) = true ->
  q_tail_idx (q w) <> q_head_idx (q w) ->
  q_tail_idx (q w) = rxc_comp_index (cqi_comp ci) ->
  0 <= q_tail_idx (q w) ->
  (Z.to_nat (q_tail_idx (q w)) < length (q_info (q w)))%nat ->
  rxc_status (cqi_comp ci) <> 0
  \/ k_mtu (k w) + ETH_HLEN + VLAN_HLEN < rxc_len (cqi_comp ci) ->
  exists w',
    ionic_rx_service cq ci w = (true, w')
    /\ q_tail_idx (q w')
       = Z.land (q_tail_idx (q w) + 1) (q_num_descs (q w) - 1)
    /\ di_bufs (slot w' (q_tail_idx (q w)))
       = di_bufs (slot w (q_tail_idx (q w)))
    /\ di_cb (slot w' (q_tail_idx (q w))) = None
    /\ di_cb_arg (slot w' (q_tail_idx (q w))) = None
    /\ k_trace (k w')
       = k_trace (k w) ++ [ev_clean cb_ionic_rx_clean (q_tail_idx (q w))]
    /\ counter_of rx_dropped w' = u64 (counter_of rx_dropped w + 1)
    /\ counter_of rx_pkts w' = counter_of rx_pkts w.
Proof.
  intros Hc Hne Hi Ht0 Htl Hbad.
  unfold ionic_rx_service. rewrite Hc. cbn [negb].
  destruct (Z.eqb_spec (q_tail_idx (q w)) (q_head_idx (q w))); [tauto|].
  destruct (Z.eqb_spec (q_tail_idx (q w)) (rxc_comp_index (cqi_comp ci)));
    [|tauto]. cbn [negb].
  set (t := q_tail_idx (q w)) in *.
  set (w1 := log _ _).
  assert (Eclean : ionic_rx_clean (slot w t) ci (di_cb_arg (slot w t)) w1
                   = (slot w t, bump rx_dropped 1 w1)).
  { unfold ionic_rx_clean.
    destruct (Z.eqb_spec (rxc_status (cqi_comp ci)) 0) as [Es|Es];
      cbn [negb]; [|reflexivity].
    destruct (Z.ltb_spec (k_mtu (k w1) + ETH_HLEN + VLAN_HLEN)
                (rxc_len (cqi_comp ci))) as [El|El]; [reflexivity|].
    exfalso. destruct Hbad as [Hs|Hl]; [tauto|].
    change (k_mtu (k w1)) with (k_mtu (k w)) in El. lia. }
  rewrite Eclean. eexists. split; [reflexivity|].
  rewrite slot_store_eq by exact Htl.
  repeat split; unfold w1; counters.
Qed.

Lemma rx_service_bad_frame_witness :
  exists w',
    @ionic_rx_service example_consts (mk_cq 1)
      (mk_cq_info (mk_rxq_comp 1 0 1 1000 0 128) 0) rx_world_1_3 = (true, w')
    /\ q_tail_idx (q w') = 2
    /\ di_bufs (slot w' 1) = di_bufs (slot rx_world_1_3 1)
    /\ k_trace (k w') = [ev_clean cb_ionic_rx_clean 1].
Proof.
  destruct (@rx_service_bad_frame example_consts (mk_cq 1)
              (mk_cq_info (mk_rxq_comp 1 0 1 1000 0 128) 0) rx_world_1_3)
    as [w' [Hr [Ht [Hb [_ [_ [Htr _]]]]]]].
  - reflexivity.
  - simpl. lia.
  - reflexivity.
  - simpl. lia.
  - simpl. lia.
  - left. simpl. lia.
  - exists w'. split; [exact Hr|]. split; [exact Ht|]. split; [exact Hb|].
    exact Htr.
Defined.

(** ** Receive fragments stay inside their pages *)

Section RxFragsPages.
Context `{ionic_consts}.

(** A buffer that holds a page has its offset inside the page. *)
Definition buf_in_page (b : ionic_buf_info) : Prop :=
  match bi_page b with
  | Some _ => 0 <= bi_page_offset b < IONIC_PAGE_SIZE
  | None => True
  end.

(** A fragment (page, offset, length) lies inside its page. *)
Definition frag_in_page (f : page * Z * Z) : Prop :=
  0 <= snd (fst f) /\ 0 <= snd f /\ snd (fst f) + snd f <= IONIC_PAGE_SIZE.

Lemma buf_in_page_lookup bufs n :
  Forall buf_in_page bufs -> buf_in_page (bufs !!! n).
Proof.
  intros Hf. destruct (bufs !! n) as [b|] eqn:E.
  - rewrite (list_lookup_total_correct _ _ _ E).
    eapply Forall_lookup_1; eassumption.
  - rewrite list_lookup_total_alt, E. exact I.
Qed.

Lemma buf_in_page_set j b d :
  buf_in_page b -> Forall buf_in_page (di_bufs d) ->
  Forall buf_in_page (di_bufs (set_di_buf j b d)).
Proof.
  intros Hb Hd. unfold set_di_buf. cbn.
  apply Forall_alter; [exact Hd|]. intros; exact Hb.
Qed.

(** A recycled buffer is still inside its page. *)
Lemma rx_buf_recycle_in_page mtu b used :
  fst (fst (ionic_rx_buf_recycle mtu b used)) = true ->
  buf_in_page (snd (fst (ionic_rx_buf_recycle mtu b used))).
Proof.
  unfold ionic_rx_buf_recycle.
  destruct (bi_page b) as [p|] eqn:Ep; [|discriminate].
  destruct (negb _); [discriminate|].
  destruct (_ <? mtu); [discriminate|].
  destruct (Z.leb_spec IONIC_PAGE_SIZE
              (bi_page_offset
                 (set_bi_page_offset
                    (u32 (bi_page_offset b + ALIGN used IONIC_PAGE_SPLIT_SZ))
                    b))) as [Hle|Hlt]; [discriminate|].
  cbn in Hlt.
  assert (0 <= u32 (bi_page_offset b + ALIGN used IONIC_PAGE_SPLIT_SZ))
    by (apply Z.mod_pos_bound; lia).
  destruct (0 <? IONIC_PAGE_ORDER); intros _; unfold buf_in_page; cbn;
    rewrite Ep; lia.
Qed.

Lemma u16_sub len fl : 0 <= fl <= u16 len -> u16 (len - fl) = u16 len - fl.
Proof.
  intros Hfl. unfold u16 in *.
  rewrite <- Zminus_mod_idemp_l. apply Z.mod_small.
  pose proof (Z.mod_pos_bound len (2 ^ 16) ltac:(lia)). lia.
Qed.

Lemma zsum_app l1 l2 : zsum (l1 ++ l2) = zsum l1 + zsum l2.
Proof.
  unfold zsum. induction l1 as [|x l1 IH]; cbn [app fold_right]; lia.
Qed.

Lemma rx_frags_loop_pages n : forall j len frags d w,
  Forall buf_in_page (di_bufs d) ->
  Forall buf_in_page (di_bufs (snd (fst (rx_frags_loop n j len frags d w))))
  /\ forall out,
       fst (fst (rx_frags_loop n j len frags d w)) = Some (rx_skb_frags out) ->
       exists new,
         out = frags ++ new /\ length new = n
         /\ Forall frag_in_page new
         /\ zsum (map snd new) <= u16 len.
Proof.
  induction n as [|n IH]; intros j len frags d w Hd; cbn [rx_frags_loop].
  - cbn [fst snd]. split; [exact Hd|]. intros out [= <-].
    exists []. rewrite app_nil_r. repeat split; [constructor|].
    cbn. apply Z.mod_pos_bound. lia.
  - pose proof (buf_in_page_lookup (di_bufs d) (Z.to_nat j) Hd) as Hb.
    fold (di_buf d j) in Hb. unfold buf_in_page in Hb.
    destruct (bi_page (di_buf d j)) as [p|] eqn:Ep; cbn [fst snd].
    2:{ split; [exact Hd|]. discriminate. }
    set (off := bi_page_offset (di_buf d j)) in *.
    set (fl := Z.min (u16 len) (u16 (IONIC_PAGE_SIZE - off))).
    assert (Hfl : 0 <= fl <= u16 len /\ fl <= IONIC_PAGE_SIZE - off).
    { unfold fl.
      assert (Hpo : 0 <= IONIC_PAGE_SIZE - off) by (clear -Hb; lia).
      assert (Hl16 : 0 <= u16 len) by (apply Z.mod_pos_bound; lia).
      assert (Hp16 : 0 <= u16 (IONIC_PAGE_SIZE - off)
                     <= IONIC_PAGE_SIZE - off).
      { split; [apply Z.mod_pos_bound; lia|]. apply Z.mod_le; lia. }
      clear -Hl16 Hp16. lia. }
    pose proof (rx_buf_recycle_in_page (k_mtu (k w)) (di_buf d j) fl) as Hrec.
    destruct (ionic_rx_buf_recycle (k_mtu (k w)) (di_buf d j) fl)
      as [[r b] evs]. cbn [fst snd] in Hrec.
    assert (Hstep : forall b' w',
      (r = true -> b' = b) -> (r = false -> bi_page b' = None) ->
      Forall buf_in_page
        (di_bufs (snd (fst (rx_frags_loop n (j + 1) (u16 (len - fl))
                              (frags ++ [(p, off, fl)])
                              (set_di_buf j b' d) w'))))
      /\ forall out,
           fst (fst (rx_frags_loop n (j + 1) (u16 (len - fl))
                       (frags ++ [(p, off, fl)]) (set_di_buf j b' d) w'))
           = Some (rx_skb_frags out) ->
           exists new,
             out = frags ++ new /\ length new = S n
             /\ Forall frag_in_page new
             /\ zsum (map snd new) <= u16 len).
    { intros b' w' Ht Hf.
      assert (Hb' : buf_in_page b').
      { destruct r.
        - rewrite (Ht eq_refl). apply Hrec. reflexivity.
        - unfold buf_in_page. rewrite (Hf eq_refl). exact I. }
      destruct (IH (j + 1) (u16 (len - fl)) (frags ++ [(p, off, fl)])
                  (set_di_buf j b' d) w' (buf_in_page_set j b' d Hb' Hd))
        as [I1 I2].
      split; [exact I1|]. intros out Hout.
      destruct (I2 out Hout) as [new [-> [Hn [Hfn Hs]]]].
      exists ((p, off, fl) :: new). split; [rewrite <- app_assoc; reflexivity|].
      split; [cbn; rewrite Hn; reflexivity|]. split.
      - constructor; [|exact Hfn]. unfold frag_in_page. cbn. lia.
      - cbn [map snd]. change (zsum (fl :: map snd new))
          with (fl + zsum (map snd new)).
        unfold u16 in Hs. rewrite Z.mod_mod in Hs by lia.
        fold (u16 (len - fl)) in Hs.
        rewrite u16_sub in Hs by (clear -Hfl; lia).
        clear -Hs. lia. }
    destruct r.
    + apply Hstep; [reflexivity|discriminate].
    + apply Hstep; [discriminate|reflexivity].
Qed.

(** The fragments ionic_rx_frags hands up: one per buffer of the
    completion (num_sg_elems + 1), each inside its page, together no
    longer than the length the completion reports; and the buffers left in
    the descriptor still have their offsets inside their pages. *)
Theorem rx_frags_within_pages d comp w :
  Forall buf_in_page (di_bufs d) ->
  Forall buf_in_page (di_bufs (snd (fst (ionic_rx_frags d comp w))))
  /\ forall frags,
       fst (fst (ionic_rx_frags d comp w)) = Some (rx_skb_frags frags) ->
       length frags = S (Z.to_nat (u8 (rxc_num_sg_elems comp)))
       /\ Forall frag_in_page frags
       /\ zsum (map snd frags) <= u16 (rxc_len comp).
Proof.
  intros Hd. unfold ionic_rx_frags.
  destruct (pop_alloc_skb w) as [[|] w1]; cbn [negb fst snd].
  - destruct (rx_frags_loop_pages (S (Z.to_nat (u8 (rxc_num_sg_elems comp))))
                0 (rxc_len comp) [] d w1 Hd) as [I1 I2].
    split; [exact I1|]. intros frags Hf.
    destruct (I2 frags Hf) as [new [-> [Hn [Hfn Hs]]]].
    cbn [app]. repeat split; assumption.
  - split; [exact Hd|]. discriminate.
Qed.

End RxFragsPages.

Lemma rx_frags_within_pages_witness :
  fst (fst (@ionic_rx_frags example_consts (filled_slot 71 4096)
              (mk_rxq_comp 0 0 1 1000 0 128) rx_world_1_3))
  = Some (rx_skb_frags [(71, 0, 1000)])
  /\ Forall (@frag_in_page example_consts) [(71, 0, 1000)].
Proof.
  split; [vm_compute; reflexivity|].
  destruct (@rx_frags_within_pages example_consts (filled_slot 71 4096)
              (mk_rxq_comp 0 0 1 1000 0 128) rx_world_1_3) as [_ Hf].
  - repeat (constructor;
            [unfold buf_in_page; cbn; first [exact I | lia]|]).
    constructor.
  - destruct (Hf [(71, 0, 1000)]) as [_ [Hp _]].
    + vm_compute. reflexivity.
    + exact Hp.
Defined.

(** ** The receive fill: what it posts and when it rings *)

(** The kernel calls of the fill loop: page allocations being mapped (or
    freed again), page references, and descriptors posted without the
    doorbell. *)
Definition fill_event (e : event) : Prop :=
  match e with
  | ev_dma_map_page _ _ | ev_free_pages _ | ev_page_ref_add _ _
  | ev_q_post _ _ false _ _ => True
  | _ => False
  end.

(** A receive descriptor as ionic_rx_fill posts it. *)
Definition rx_post
  (p : hw_desc * bool * option ionic_desc_cb * option sk_buff) : Prop :=
  snd (fst (fst p)) = false /\ post_cb p = Some cb_ionic_rx_clean
  /\ post_arg p = None.

Lemma fills_dbval w w' : fills w w' -> q_dbval (q w') = q_dbval (q w).
Proof. intros [st [inf ->]]. reflexivity. Qed.
Lemma fills_dbell_jiffies w w' :
  fills w w' -> q_dbell_jiffies (q w') = q_dbell_jiffies (q w).
Proof. intros [st [inf ->]]. reflexivity. Qed.

Section FillPosts.
Context `{ionic_consts}.

Lemma adds_rx_page_alloc b w :
  adds fill_event w (snd (ionic_rx_page_alloc b w)).
Proof.
  destruct (rx_page_alloc_spec b w) as [w0 [Ht [_ ->]]].
  assert (H0 : adds fill_event w w0) by (apply adds_same; exact Ht).
  destruct (hd None (k_alloc_pages (k w))) as [p|]; cbv zeta.
  - destruct (dma_mapping_error _); cbn [snd];
      repeat adds_step ltac:(exact I); exact H0.
  - cbn [snd]. adds_step ltac:(exact I). exact H0.
Qed.

Lemma adds_rx_fill_alloc nsplits j d w :
  adds fill_event w (snd (rx_fill_alloc nsplits j d w)).
Proof.
  unfold rx_fill_alloc.
  destruct (bi_page (di_buf d j)); cbn [snd]; [apply adds_refl|].
  pose proof (adds_rx_page_alloc (di_buf d j) w) as Ha.
  destruct (ionic_rx_page_alloc _ _) as [[err b] w1]. cbn [snd] in Ha.
  destruct (negb _); cbn [snd]; [exact Ha|].
  destruct (0 <? _); cbn [snd]; [|exact Ha].
  destruct (bi_page _); [|exact Ha].
  destruct (negb _); [adds_step ltac:(exact I)|]; exact Ha.
Qed.

Lemma adds_rx_fill_sg n : forall nsplits j remain nfrags d w,
  adds fill_event w (snd (rx_fill_sg n nsplits j remain nfrags d w)).
Proof.
  induction n as [|n IH]; intros nsplits j remain nfrags d w;
    cbn [rx_fill_sg]; [apply adds_refl|].
  destruct (negb (0 <? remain)); [apply adds_refl|].
  pose proof (adds_rx_fill_alloc nsplits (j + 1) d w) as Ha.
  destruct (rx_fill_alloc _ _ _ _) as [[ok d1] w1]. cbn [snd] in Ha.
  destruct ok; cbn [negb].
  - eapply adds_trans; [exact Ha | apply IH].
  - exact Ha.
Qed.

(** ionic_q_post without the doorbell: one post event. *)
Lemma q_post_quietly cb arg w :
  exists h,
    k_trace (k (ionic_q_post false cb arg w))
    = k_trace (k w) ++ [ev_q_post (q_head_idx (q w)) h false cb arg].
Proof. unfold ionic_q_post. eexists. reflexivity. Qed.

(** One round of the fill loop, seen from the trace. *)
Lemma rx_fill_one_trace len nsplits w :
  let r := rx_fill_one len nsplits w in
  adds fill_event w (snd r)
  /\ (fst r = false -> posted (k_trace (k (snd r))) = posted (k_trace (k w)))
  /\ (fst r = true ->
      exists p, rx_post p
        /\ posted (k_trace (k (snd r))) = posted (k_trace (k w)) ++ [p]).
Proof.
  cbv zeta. unfold rx_fill_one.
  pose proof (adds_rx_fill_alloc nsplits 0 (slot w (q_head_idx (q w))) w) as Ha.
  pose proof (quiet_rx_fill_alloc nsplits 0 (slot w (q_head_idx (q w))) w) as Qa.
  destruct (rx_fill_alloc _ _ _ _) as [[ok d1] w1]. cbn [snd] in Ha, Qa.
  destruct ok; cbn [negb].
  - match goal with
    | |- context [rx_fill_sg ?n ?a ?b ?c ?e ?f ?g] =>
        pose proof (adds_rx_fill_sg n a b c e f g) as Hs;
        pose proof (quiet_rx_fill_sg n a b c e f g) as Qs;
        destruct (rx_fill_sg n a b c e f g) as [[[[ok2 j] nfrags] d2] w2]
    end. cbn [snd] in Hs, Qs.
    pose proof (adds_trans _ _ _ _ Ha Hs) as H2.
    pose proof (quiet_trans _ _ _ Qa Qs) as Q2.
    destruct ok2; cbn [negb fst snd].
    + unfold ionic_rxq_post.
      match goal with
      | |- context [ionic_q_post false ?cb ?arg ?x] =>
          destruct (q_post_quietly cb arg x) as [h Hp]; set (wp := x) in *
      end.
      assert (Htp : k_trace (k wp) = k_trace (k w2)) by reflexivity.
      split; [|split; [discriminate|]].
      * eapply adds_trans; [exact H2|].
        eexists. split; [rewrite Hp, Htp; reflexivity|].
        constructor; [exact I|constructor].
      * intros _. eexists. split; [|rewrite Hp, posted_app, Htp,
                                     (quiet_posted _ _ Q2); reflexivity].
        split; [reflexivity|]. split; reflexivity.
    + split; [|split; [|discriminate]].
      * adds_step ltac:(exact I). exact H2.
      * intros _. rewrite trace_store_slot. apply (quiet_posted _ _ Q2).
  - cbn [fst snd]. split; [|split; [|discriminate]].
    + adds_step ltac:(exact I). exact Ha.
    + intros _. rewrite trace_store_slot. apply (quiet_posted _ _ Qa).
Qed.

(** The fill loop: [n] rounds that all succeed post [n] descriptors and
    move head_idx by [n]; a failure stops the loop. *)
Lemma rx_fill_loop_trace n : forall len nsplits w,
  0 < q_num_descs (q w) ->
  0 <= q_head_idx (q w) < q_num_descs (q w) ->
  let r := rx_fill_loop n len nsplits w in
  adds fill_event w (snd r)
  /\ q_dbval (q (snd r)) = q_dbval (q w)
  /\ q_dbell_jiffies (q (snd r)) = q_dbell_jiffies (q w)
  /\ (fst r = true ->
      q_head_idx (q (snd r))
      = (q_head_idx (q w) + Z.of_nat n) mod q_num_descs (q w)
      /\ exists ps,
           posted (k_trace (k (snd r))) = posted (k_trace (k w)) ++ ps
           /\ length ps = n /\ Forall rx_post ps).
Proof.
  induction n as [|n IH]; intros len nsplits w HN Hh0; cbn [rx_fill_loop].
  - cbn [fst snd]. split; [apply adds_refl|]. split; [reflexivity|].
    split; [reflexivity|]. intros _. split.
    + cbn [Z.of_nat]. rewrite Z.add_0_r. symmetry.
      apply Z.mod_small. exact Hh0.
    + exists []. rewrite app_nil_r. repeat split. constructor.
  - pose proof (rx_fill_one_spec len nsplits w) as Hq. cbv zeta in Hq.
    pose proof (rx_fill_one_trace len nsplits w) as Ht. cbv zeta in Ht.
    destruct (rx_fill_one len nsplits w) as [ok w1]. cbn [fst snd] in Hq, Ht.
    destruct Ht as [Ha [Hpf Hpt]].
    destruct Hq as [[-> Hf] | [-> [w0 [Hf Hq]]]]; cbn [negb fst snd].
    + split; [exact Ha|]. split; [apply (fills_dbval _ _ Hf)|].
      split; [apply (fills_dbell_jiffies _ _ Hf)|]. discriminate.
    + assert (HN1 : q_num_descs (q w1) = q_num_descs (q w))
        by (rewrite Hq; cbn; apply (fills_num_descs _ _ Hf)).
      assert (Hh1 : q_head_idx (q w1)
                    = (q_head_idx (q w) + 1) mod q_num_descs (q w))
        by (rewrite Hq; reflexivity).
      assert (Hv1 : q_dbval (q w1) = q_dbval (q w))
        by (rewrite Hq; cbn; apply (fills_dbval _ _ Hf)).
      assert (Hj1 : q_dbell_jiffies (q w1) = q_dbell_jiffies (q w))
        by (rewrite Hq; cbn; apply (fills_dbell_jiffies _ _ Hf)).
      specialize (IH len nsplits w1 ltac:(rewrite HN1; exact HN)
                    ltac:(rewrite HN1, Hh1; apply Z.mod_pos_bound; exact HN)).
      cbv zeta in IH. destruct IH as [I1 [I2 [I3 I4]]].
      split; [exact (adds_trans _ _ _ _ Ha I1)|].
      split; [rewrite I2; exact Hv1|]. split; [rewrite I3; exact Hj1|].
      intros Hok. destruct (I4 Hok) as [Hh [ps [Hp [Hl Hfa]]]].
      destruct (Hpt eq_refl) as [p [Hp1 Hp2]]. split.
      * rewrite Hh, Hh1, HN1, Zplus_mod_idemp_l. f_equal. lia.
      * exists (p :: ps). split; [rewrite Hp, Hp2, <- app_assoc; reflexivity|].
        split; [cbn; rewrite Hl; reflexivity|]. constructor; assumption.
Qed.

End FillPosts.

(** The hardware is not told: no doorbell, no timer, and a posted
    descriptor did not ask for the doorbell. *)
Definition unannounced (e : event) : Prop :=
  match e with
  | ev_dbell_ring _ | ev_mod_timer => False
  | ev_q_post _ _ db _ _ => db = false
  | _ => True
  end.

Lemma fill_event_unannounced e : fill_event e -> unannounced e.
Proof. destruct e; cbn; try tauto. destruct ring_dbell; tauto. Qed.

(** A fill pass that meets no allocation failure posts exactly
    ionic_q_space_avail descriptors, each with ionic_rx_clean as callback,
    no argument and no doorbell request; it then rings the doorbell once,
    with the new head_idx, and arms the timer; the ring is full
    afterwards. *)
Theorem rx_fill_fills_ring `{ionic_consts} w :
  0 < q_num_descs (q w) < 2 ^ 32 ->
  ring_inv (q w) ->
  fst (rx_fill_pass w) = true ->
  (exists ps,
     posted (k_trace (k (ionic_rx_fill w))) = posted (k_trace (k w)) ++ ps
     /\ Z.of_nat (length ps) = ionic_q_space_avail (q w)
     /\ Forall rx_post ps)
  /\ ionic_q_space_avail (q (ionic_rx_fill w)) = 0
  /\ exists es,
       k_trace (k (ionic_rx_fill w))
       = k_trace (k w) ++ es
         ++ [ev_dbell_ring (Z.lor (q_dbval (q w))
                                  (q_head_idx (q (ionic_rx_fill w))));
             ev_mod_timer]
       /\ Forall fill_event es.
Proof.
  intros HN [Hh Ht] Hok. unfold ionic_rx_fill. unfold rx_fill_pass in Hok |- *.
  set (m := (q_head_idx (q w) - q_tail_idx (q w)) mod q_num_descs (q w)).
  assert (Hm : 0 <= m < q_num_descs (q w))
    by (apply Z.mod_pos_bound; lia).
  assert (Hsp : ionic_q_space_avail (q w) = q_num_descs (q w) - 1 - m)
    by reflexivity.
  rewrite (u32_small (ionic_q_space_avail (q w))) in Hok |- * by lia.
  match goal with
  | |- context [rx_fill_loop ?n ?l ?s w] =>
      pose proof (rx_fill_loop_inv n l s w) as Hi;
      pose proof (rx_fill_loop_trace n l s w ltac:(lia) Hh) as Hl;
      destruct (rx_fill_loop n l s w) as [ok w1]
  end.
  cbv zeta in Hi, Hl. cbn [fst snd] in Hi, Hl, Hok. subst ok. cbn [negb].
  destruct Hi as [HN1 [Ht1 _]].
  destruct Hl as [[es [He Hfe]] [Hv [_ Hpost]]].
  destruct (Hpost eq_refl) as [Hh1 [ps [Hps [Hlen Hfa]]]].
  rewrite Z2Nat.id in Hh1 by lia.
  match goal with
  | |- context [posted (k_trace (k ?x))] => set (wF := x)
  end.
  assert (HqF : q_num_descs (q wF) = q_num_descs (q w1)
                /\ q_head_idx (q wF) = q_head_idx (q w1)
                /\ q_tail_idx (q wF) = q_tail_idx (q w1))
    by (repeat split; reflexivity).
  destruct HqF as [HNF [HhF HtF]].
  assert (HtrF : k_trace (k wF)
                 = k_trace (k w1)
                   ++ [ev_dbell_ring (Z.lor (q_dbval (q w1))
                                            (q_head_idx (q w1)));
                       ev_mod_timer]).
  { unfold wF. rewrite trace_log, !trace_upd_q, trace_log, <- app_assoc.
    reflexivity. }
  split; [|split].
  - exists ps. split; [|split].
    + rewrite HtrF, posted_app, Hps. cbn. rewrite app_nil_r. reflexivity.
    + rewrite Hlen. apply Z2Nat.id. lia.
    + exact Hfa.
  - unfold ionic_q_space_avail.
    rewrite HNF, HhF, HtF, HN1, Ht1, Hh1, Zminus_mod_idemp_l.
    assert (Hmod : (q_head_idx (q w) + ionic_q_space_avail (q w)
                    - q_tail_idx (q w)) mod q_num_descs (q w)
                   = q_num_descs (q w) - 1).
    { symmetry.
      apply (Z.mod_unique _ _
               ((q_head_idx (q w) - q_tail_idx (q w)) / q_num_descs (q w)));
        [left; lia|].
      pose proof (Z.div_mod (q_head_idx (q w) - q_tail_idx (q w))
                    (q_num_descs (q w)) ltac:(lia)) as Hdm.
      fold m in Hdm. rewrite Hsp. lia. }
    rewrite Hmod. lia.
  - exists es. split; [|exact Hfe].
    rewrite HtrF, He, HhF, Hv, <- app_assoc. reflexivity.
Qed.

(** A fill pass cut short by an allocation failure returns without telling
    the hardware: whatever it posted before the failure, it rings no
    doorbell and arms no timer, and the time of the last ring is left as
    it was. *)
Theorem rx_fill_failure_unannounced `{ionic_consts} w :
  0 < q_num_descs (q w) ->
  ring_inv (q w) ->
  fst (rx_fill_pass w) = false ->
  adds unannounced w (ionic_rx_fill w)
  /\ q_dbell_jiffies (q (ionic_rx_fill w)) = q_dbell_jiffies (q w).
Proof.
  intros HN [Hh Ht] Hok. unfold ionic_rx_fill. unfold rx_fill_pass in Hok |- *.
  match goal with
  | |- context [rx_fill_loop ?n ?l ?s w] =>
      pose proof (rx_fill_loop_trace n l s w HN Hh) as Hl;
      destruct (rx_fill_loop n l s w) as [ok w1]
  end.
  cbv zeta in Hl. cbn [fst snd] in Hl, Hok. subst ok. cbn [negb].
  destruct Hl as [Ha [_ [Hj _]]].
  split; [|exact Hj].
  apply (adds_weaken fill_event); [exact fill_event_unannounced|exact Ha].
Qed.

(** An empty receive ring of four slots without pages; the kernel grants
    [n] pages and mappings. *)
Definition rx_fill_world (n : nat) : world :=
  mk_world (example_queue 4 0 0 (replicate 4 (blank_slot 9)))
    (set_dma_map (take n [4096; 8192; 12288])
       (set_alloc_pages (take n [Some 71; Some 72; Some 73]) example_kernel)).

Lemma rx_fill_fills_ring_witness :
  ionic_q_space_avail (q (rx_fill_world 3)) = 3
  /\ ionic_q_space_avail (q (@ionic_rx_fill example_consts (rx_fill_world 3)))
     = 0.
Proof.
  split; [reflexivity|].
  destruct (@rx_fill_fills_ring example_consts (rx_fill_world 3))
    as [_ [Hs _]].
  - simpl. lia.
  - split; simpl; lia.
  - vm_compute. reflexivity.
  - exact Hs.
Defined.

Lemma rx_fill_failure_unannounced_witness :
  q_head_idx (q (@ionic_rx_fill example_consts (rx_fill_world 1))) = 1
  /\ adds unannounced (rx_fill_world 1)
       (@ionic_rx_fill example_consts (rx_fill_world 1)).
Proof.
  split; [vm_compute; reflexivity|].
  destruct (@rx_fill_failure_unannounced example_consts (rx_fill_world 1))
    as [Ha _].
  - simpl. lia.
  - split; simpl; lia.
  - vm_compute. reflexivity.
  - exact Ha.
Defined.

(** ** Transmit mappings: made, then released *)

Section TxMapRun.
Context `{ionic_consts}.

Lemma tx_map_single_run len w a rest :
  k_dma_map (k w) = a :: rest -> dma_mapping_error a = false ->
  exists w',
    ionic_tx_map_single len w = (a, w')
    /\ k_trace (k w') = k_trace (k w) ++ [ev_dma_map_single a len]
    /\ k_dma_map (k w') = rest /\ q w' = q w.
Proof.
  intros Hs He. unfold ionic_tx_map_single, pop_dma_map. rewrite Hs, He.
  eexists. repeat split.
Qed.

Lemma tx_map_frag_run len w a rest :
  k_dma_map (k w) = a :: rest -> dma_mapping_error a = false ->
  exists w',
    ionic_tx_map_frag len w = (a, w')
    /\ k_trace (k w') = k_trace (k w) ++ [ev_dma_map_page a len]
    /\ k_dma_map (k w') = rest /\ q w' = q w.
Proof.
  intros Hs He. unfold ionic_tx_map_frag, pop_dma_map. rewrite Hs, He.
  eexists. repeat split.
Qed.

(** The fragment loop when every mapping is granted: buffer [j + i] gets
    the address and the size of fragment [i]. *)
Lemma tx_map_frags_run frags : forall addrs fi j d w rest,
  k_dma_map (k w) = addrs ++ rest ->
  length addrs = length frags ->
  Forall (fun a => dma_mapping_error a = false) addrs ->
  0 <= j ->
  (Z.to_nat j + length frags <= length (di_bufs d))%nat ->
  exists d' w',
    tx_map_frags frags fi j d w
    = (true, fi + Z.of_nat (length frags), j + Z.of_nat (length frags), d', w')
    /\ k_trace (k w') = k_trace (k w) ++ zip_with ev_dma_map_page addrs frags
    /\ k_dma_map (k w') = rest /\ q w' = q w
    /\ length (di_bufs d') = length (di_bufs d)
    /\ (forall j', 0 <= j' < j -> di_buf d' j' = di_buf d j')
    /\ (forall i a x, addrs !! i = Some a -> frags !! i = Some x ->
          bi_dma_addr (di_buf d' (j + Z.of_nat i)) = a
          /\ bi_len (di_buf d' (j + Z.of_nat i)) = x).
Proof.
  induction frags as [|size frags IH];
    intros addrs fi j d w rest Hs Hl Hf Hj Hlen.
  - destruct addrs; [|discriminate]. cbn [tx_map_frags length Z.of_nat].
    rewrite !Z.add_0_r. exists d, w. cbn [zip_with].
    rewrite app_nil_r.
    split; [reflexivity|]. split; [reflexivity|]. split; [exact Hs|].
    split; [reflexivity|]. split; [reflexivity|].
    split; [reflexivity|]. intros i a x Hi. discriminate.
  - destruct addrs as [|a addrs]; [discriminate|].
    cbn [length] in Hl, Hlen. inversion Hf as [|? ? Ha Hf']; subst.
    cbn [tx_map_frags].
    destruct (tx_map_frag_run size w a (addrs ++ rest) Hs Ha)
      as [w1 [-> [Ht1 [Hs1 Hq1]]]].
    rewrite Ha.
    set (d1 := set_di_buf j _ d).
    assert (Hl1 : length (di_bufs d1) = length (di_bufs d))
      by apply set_di_buf_length.
    destruct (IH addrs (fi + 1) (j + 1) d1 w1 rest Hs1 ltac:(lia) Hf'
                ltac:(lia) ltac:(rewrite Hl1; lia))
      as [d' [w' [-> [Ht [Hs' [Hq [Hl' [Hlow Hbuf]]]]]]]].
    exists d', w'. cbn [length].
    replace (fi + 1 + Z.of_nat (length frags))
      with (fi + Z.of_nat (S (length frags))) by lia.
    replace (j + 1 + Z.of_nat (length frags))
      with (j + Z.of_nat (S (length frags))) by lia.
    split; [reflexivity|].
    split; [rewrite Ht, Ht1, <- app_assoc; reflexivity|].
    split; [exact Hs'|]. split; [rewrite Hq; exact Hq1|].
    split; [rewrite Hl'; exact Hl1|]. split.
    + intros j' Hj'. rewrite Hlow by lia. unfold d1.
      apply di_buf_set_ne; lia.
    + intros [|i] a' x Hi Hx.
      * injection Hi as <-. injection Hx as <-.
        rewrite Z.add_0_r, Hlow by lia. unfold d1.
        rewrite di_buf_set_eq by lia. split; reflexivity.
      * replace (j + Z.of_nat (S i)) with (j + 1 + Z.of_nat i) by lia.
        apply Hbuf; assumption.
Qed.

(** The unmap calls over buffers that hold the given mappings. *)
Lemma unmap_pages_zip d : forall addrs frags j,
  length addrs = length frags ->
  (forall i a x, addrs !! i = Some a -> frags !! i = Some x ->
     bi_dma_addr (di_buf d (j + Z.of_nat i)) = a
     /\ bi_len (di_buf d (j + Z.of_nat i)) = x) ->
  map (fun i => ev_dma_unmap_page (bi_dma_addr (di_buf d i))
                                  (bi_len (di_buf d i)))
      (seqZ j (Z.of_nat (length frags)))
  = zip_with ev_dma_unmap_page addrs frags.
Proof.
  induction addrs as [|a addrs IH]; intros [|x frags] j Hl Hb;
    try discriminate; [reflexivity|].
  cbn [length] in *. rewrite Nat2Z.inj_succ, seqZ_cons by lia.
  cbn [map zip_with].
  destruct (Hb 0%nat a x eq_refl eq_refl) as [Ha Hx].
  rewrite Z.add_0_r in Ha, Hx. rewrite Ha, Hx. f_equal.
  rewrite Z.pred_succ. apply IH; [lia|].
  intros i a' x' Hi Hx'.
  replace (Z.succ j + Z.of_nat i) with (j + Z.of_nat (S i)) by lia.
  apply Hb; assumption.
Qed.

End TxMapRun.

(** When the kernel grants the mapping of the head ([a0]) and of every
    fragment ([addrs]), ionic_tx_map_skb returns 0 with nbufs = 1 +
    nr_frags, and ionic_tx_desc_unmap_bufs afterwards releases exactly
    those mappings: the head with dma_unmap_single, each fragment with
    dma_unmap_page, same addresses and lengths, in the order they were
    made.  It leaves nbufs = 0, so that a second call does nothing. *)
Theorem tx_map_unmap_round_trip `{ionic_consts} skb d w a0 addrs rest :
  k_dma_map (k w) = a0 :: addrs ++ rest ->
  length addrs = length (skb_frags skb) ->
  Forall (fun a => dma_mapping_error a = false) (a0 :: addrs) ->
  (length (skb_frags skb) < length (di_bufs d))%nat ->
  exists d1 w1 d2 w2,
    ionic_tx_map_skb skb d w = (0, d1, w1)
    /\ ionic_tx_desc_unmap_bufs d1 w1 = (d2, w2)
    /\ di_nbufs d1 = 1 + Z.of_nat (length (skb_frags skb))
    /\ k_trace (k w1)
       = k_trace (k w)
         ++ ev_dma_map_single a0 (skb_headlen skb)
            :: zip_with ev_dma_map_page addrs (skb_frags skb)
    /\ k_trace (k w2)
       = k_trace (k w1)
         ++ ev_dma_unmap_single a0 (skb_headlen skb)
            :: zip_with ev_dma_unmap_page addrs (skb_frags skb)
    /\ di_nbufs d2 = 0
    /\ ionic_tx_desc_unmap_bufs d2 w2 = (d2, w2).
Proof.
  intros Hs Hl Hf Hlen. inversion Hf as [|? ? Ha0 Hf']; subst.
  unfold ionic_tx_map_skb.
  destruct (tx_map_single_run (skb_headlen skb) w a0 (addrs ++ rest) Hs Ha0)
    as [w0 [-> [Ht0 [Hs0 Hq0]]]].
  rewrite Ha0.
  set (d0 := set_di_buf 0 _ d).
  assert (Hl0 : length (di_bufs d0) = length (di_bufs d))
    by apply set_di_buf_length.
  destruct (tx_map_frags_run (skb_frags skb) addrs 0 1 d0 w0 rest Hs0 Hl Hf'
              ltac:(lia) ltac:(rewrite Hl0; lia))
    as [d' [w' [-> [Ht [_ [_ [Hl' [Hlow Hbuf]]]]]]]].
  set (n := Z.of_nat (length (skb_frags skb))) in *.
  set (d1 := set_di_nbufs (1 + n) d').
  assert (Hb0 : bi_dma_addr (di_buf d1 0) = a0
                /\ bi_len (di_buf d1 0) = skb_headlen skb).
  { change (di_buf d1 0) with (di_buf d' 0). rewrite Hlow by lia.
    unfold d0. rewrite di_buf_set_eq by lia. split; reflexivity. }
  destruct Hb0 as [Hba Hbl].
  pose proof (tx_desc_unmap_bufs_trace d1 w') as Hu.
  pose proof (tx_desc_unmap_bufs_fst d1 w') as Hd. cbv zeta in Hd.
  destruct (ionic_tx_desc_unmap_bufs d1 w') as [d2 w2] eqn:Eu.
  cbn [fst snd] in Hu, Hd. destruct Hd as [Hn2 _].
  exists d1, w', d2, w2.
  split; [reflexivity|]. split; [exact Eu|]. split; [reflexivity|].
  split; [rewrite Ht, Ht0, <- app_assoc; reflexivity|].
  split; [|split; [exact Hn2|]].
  - rewrite Hu. f_equal. unfold tx_unmap_events.
    change (di_nbufs d1) with (1 + n).
    destruct (Z.eqb_spec (1 + n) 0) as [E|_]; [unfold n in E; lia|].
    rewrite Hba, Hbl. f_equal.
    replace (1 + n - 1) with n by lia. unfold n.
    apply unmap_pages_zip; [exact Hl|].
    intros i a x Hi Hx. change (di_buf d1 (1 + Z.of_nat i))
      with (di_buf d' (1 + Z.of_nat i)).
    apply Hbuf; assumption.
  - unfold ionic_tx_desc_unmap_bufs. rewrite Hn2. reflexivity.
Qed.

(** A packet with a 100-byte head and two fragments, and the three
    mappings granted. *)
Definition skb_two_frags : sk_buff :=
  mk_skb 9 1000 100 [400; 500] 0 0 false false false 0 false false 0 0 54 0
    false 0.

Definition world_three_mappings : world :=
  mk_world (example_queue 4 0 0 (replicate 4 (blank_slot 9)))
    (set_dma_map [4096; 8192; 12288] example_kernel).

Lemma tx_map_unmap_round_trip_witness :
  exists d1 w1 d2 w2,
    @ionic_tx_map_skb example_consts skb_two_frags (blank_slot 9)
      world_three_mappings = (0, d1, w1)
    /\ @ionic_tx_desc_unmap_bufs d1 w1 = (d2, w2)
    /\ k_trace (k w2)
       = [ev_dma_map_single 4096 100; ev_dma_map_page 8192 400;
          ev_dma_map_page 12288 500;
          ev_dma_unmap_single 4096 100; ev_dma_unmap_page 8192 400;
          ev_dma_unmap_page 12288 500].
Proof.
  destruct (@tx_map_unmap_round_trip example_consts skb_two_frags
              (blank_slot 9) world_three_mappings 4096 [8192; 12288] [])
    as [d1 [w1 [d2 [w2 [Hm [Hu [_ [Ht1 [Ht2 _]]]]]]]]].
  - reflexivity.
  - reflexivity.
  - repeat constructor.
  - simpl. lia.
  - exists d1, w1, d2, w2. split; [exact Hm|]. split; [exact Hu|].
    rewrite Ht2, Ht1. reflexivity.
Defined.

(** ** Steps that leave the ring alone *)

(** The kernel state a driver call reads but does not write: whether more
    packets follow, the MTU, the time and the stopped subqueues. *)
Definition same_env (x x' : kernel) : Prop :=
  k_xmit_more x' = k_xmit_more x /\ k_mtu x' = k_mtu x
  /\ k_jiffies x' = k_jiffies x /\ k_stopped x' = k_stopped x.

(** [steps E C w w']: from [w] to [w'] the queue changed in its counters
    at most, and among them only in those of [C]; the kernel calls made
    are all in [E]. *)
Definition steps (E : event -> Prop) (C : counter -> Prop) (w w' : world)
  : Prop :=
  (exists st, q w' = set_stats st (q w))
  /\ (forall c, ~ C c -> counter_of c w' = counter_of c w)
  /\ adds E w w'
  /\ same_env (k w) (k w').

Lemma set_stats_same x : x = set_stats (q_stats x) x.
Proof. destruct x; reflexivity. Qed.

Lemma same_env_refl x : same_env x x.
Proof. repeat split. Qed.

Lemma same_env_trans x1 x2 x3 :
  same_env x1 x2 -> same_env x2 x3 -> same_env x1 x3.
Proof.
  intros [A1 [A2 [A3 A4]]] [B1 [B2 [B3 B4]]].
  repeat split; congruence.
Qed.

Lemma steps_refl E C w : steps E C w w.
Proof.
  split; [|split; [reflexivity|split; [apply adds_refl|apply same_env_refl]]].
  exists (q_stats (q w)). apply set_stats_same.
Qed.

Lemma steps_trans E C w1 w2 w3 :
  steps E C w1 w2 -> steps E C w2 w3 -> steps E C w1 w3.
Proof.
  intros [[st1 Hq1] [Hc1 [Ha1 He1]]] [[st2 Hq2] [Hc2 [Ha2 He2]]].
  split; [|split; [|split]].
  - exists st2. rewrite Hq2, Hq1. reflexivity.
  - intros c Hc. rewrite (Hc2 c Hc). apply (Hc1 c Hc).
  - exact (adds_trans _ _ _ _ Ha1 Ha2).
  - exact (same_env_trans _ _ _ He1 He2).
Qed.

Lemma steps_log (E : event -> Prop) C e w : E e -> steps E C w (log e w).
Proof.
  intros He.
  split; [|split; [reflexivity|split; [apply adds_log, He|repeat split]]].
  exists (q_stats (q w)). change (q (log e w)) with (q w).
  apply set_stats_same.
Qed.

Lemma steps_bump E (C : counter -> Prop) c n w :
  C c -> steps E C w (bump c n w).
Proof.
  intros Hc.
  split; [|split; [|split; [apply adds_same; reflexivity|repeat split]]].
  - eexists. reflexivity.
  - intros c' Hc'. apply counter_bump_ne. intros ->. exact (Hc' Hc).
Qed.

Lemma steps_upd_k E C f w :
  (forall x, k_trace (f x) = k_trace x /\ same_env x (f x)) ->
  steps E C w (upd_k f w).
Proof.
  intros Hf.
  split; [|split; [reflexivity|split; [apply adds_same; apply Hf|apply Hf]]].
  exists (q_stats (q w)). change (q (upd_k f w)) with (q w).
  apply set_stats_same.
Qed.

Lemma steps_weaken (E E' : event -> Prop) (C C' : counter -> Prop) w w' :
  (forall e, E e -> E' e) -> (forall c, C c -> C' c) ->
  steps E C w w' -> steps E' C' w w'.
Proof.
  intros HE HC [Hq [Hc [Ha He]]]. split; [exact Hq|]. split; [|split].
  - intros c Hn. apply Hc. intros H. exact (Hn (HC c H)).
  - exact (adds_weaken _ _ _ _ HE Ha).
  - exact He.
Qed.

(** Chain [steps] from the outside in; [te] proves [E] of a logged event
    and [tc] proves [C] of a bumped counter. *)
Ltac steps_step te tc :=
  match goal with
  | |- steps _ _ ?w ?w => apply steps_refl
  | |- steps ?E ?C ?w (log ?e ?w1) =>
      apply (steps_trans E C w w1); [| apply steps_log; te]
  | |- steps ?E ?C ?w (bump _ _ ?w1) =>
      apply (steps_trans E C w w1); [| apply steps_bump; tc]
  | |- steps ?E ?C ?w (upd_k _ ?w1) =>
      apply (steps_trans E C w w1);
      [| apply steps_upd_k; intros; repeat split]
  end.

Lemma steps_quiet (E : event -> Prop) C w w' :
  (forall e, E e -> silent [e]) -> steps E C w w' -> quiet w w'.
Proof.
  intros HE [Hq [_ [[es [Ht Hf]] _]]]. split; [exact Hq|].
  exists es. split; [exact Ht|]. clear Ht.
  induction Hf as [|e es He Hes IH]; [apply silent_nil|].
  change (e :: es) with ([e] ++ es). apply silent_app; [apply HE, He|exact IH].
Qed.

Lemma steps_head E C w w' :
  steps E C w w' -> q_head_idx (q w') = q_head_idx (q w).
Proof. intros [[st ->] _]. reflexivity. Qed.
Lemma steps_info E C w w' : steps E C w w' -> q_info (q w') = q_info (q w).
Proof. intros [[st ->] _]. reflexivity. Qed.
Lemma steps_index E C w w' : steps E C w w' -> q_index (q w') = q_index (q w).
Proof. intros [[st ->] _]. reflexivity. Qed.
Lemma steps_env E C w w' : steps E C w w' -> same_env (k w) (k w').
Proof. intros [_ [_ [_ He]]]. exact He. Qed.
Lemma steps_adds E C w w' : steps E C w w' -> adds E w w'.
Proof. intros [_ [_ [Ha _]]]. exact Ha. Qed.
Lemma steps_counter E (C : counter -> Prop) w w' c :
  steps E C w w' -> ~ C c -> counter_of c w' = counter_of c w.
Proof. intros [_ [Hc _]]. apply Hc. Qed.

(** ** Sending one packet *)

(** The DMA calls of the transmit mapping. *)
Definition tx_map_event (e : event) : Prop :=
  match e with
  | ev_dma_map_single _ _ | ev_dma_map_page _ _
  | ev_dma_unmap_page _ _ | ev_dma_unmap_single _ _ => True
  | _ => False
  end.

Definition is_dma_map_err (c : counter) : Prop := c = tx_dma_map_err.

Lemma tx_map_event_silent e : tx_map_event e -> silent [e].
Proof. destruct e; cbn; intros []; split; reflexivity. Qed.

Section TxSend.
Context `{ionic_consts}.

Lemma steps_pop_dma_map E C w : steps E C w (snd (pop_dma_map w)).
Proof.
  unfold pop_dma_map. destruct (k_dma_map (k w)); cbn [snd];
    [apply steps_refl|]. apply steps_upd_k. intros; repeat split.
Qed.

Lemma steps_tx_map_single len w :
  steps tx_map_event is_dma_map_err w (snd (ionic_tx_map_single len w)).
Proof.
  unfold ionic_tx_map_single.
  pose proof (steps_pop_dma_map tx_map_event is_dma_map_err w) as Hp.
  destruct (pop_dma_map w) as [a w1]. cbn [snd] in Hp.
  destruct (dma_mapping_error a); cbn [snd];
    repeat steps_step ltac:(exact I) ltac:(reflexivity); exact Hp.
Qed.

Lemma steps_tx_map_frag len w :
  steps tx_map_event is_dma_map_err w (snd (ionic_tx_map_frag len w)).
Proof.
  unfold ionic_tx_map_frag.
  pose proof (steps_pop_dma_map tx_map_event is_dma_map_err w) as Hp.
  destruct (pop_dma_map w) as [a w1]. cbn [snd] in Hp.
  destruct (dma_mapping_error a); cbn [snd];
    repeat steps_step ltac:(exact I) ltac:(reflexivity); exact Hp.
Qed.

Lemma steps_tx_map_frags frags : forall fi j d w,
  steps tx_map_event is_dma_map_err w (snd (tx_map_frags frags fi j d w)).
Proof.
  induction frags as [|size frags IH]; intros fi j d w; cbn [tx_map_frags].
  - apply steps_refl.
  - pose proof (steps_tx_map_frag size w) as Hm.
    destruct (ionic_tx_map_frag size w) as [a w1]. cbn [snd] in Hm.
    destruct (dma_mapping_error a).
    + cbn [snd]. steps_step ltac:(exact I) ltac:(reflexivity). exact Hm.
    + eapply steps_trans; [exact Hm|apply IH].
Qed.

Lemma steps_tx_map_unwind n : forall j d w,
  steps tx_map_event is_dma_map_err w (snd (tx_map_unwind n j d w)).
Proof.
  induction n as [|n IH]; intros j d w; cbn [tx_map_unwind].
  - apply steps_refl.
  - eapply steps_trans; [|apply IH].
    steps_step ltac:(exact I) ltac:(reflexivity). apply steps_refl.
Qed.

Lemma steps_tx_map_skb skb d w :
  steps tx_map_event is_dma_map_err w (snd (ionic_tx_map_skb skb d w)).
Proof.
  unfold ionic_tx_map_skb.
  pose proof (steps_tx_map_single (skb_headlen skb) w) as Hm.
  destruct (ionic_tx_map_single (skb_headlen skb) w) as [a w1].
  cbn [snd] in Hm.
  destruct (dma_mapping_error a).
  - cbn [snd]. steps_step ltac:(exact I) ltac:(reflexivity). exact Hm.
  - match goal with
    | |- context [tx_map_frags ?f ?i ?j ?d0 ?w0] =>
        pose proof (steps_tx_map_frags f i j d0 w0) as Hf;
        destruct (tx_map_frags f i j d0 w0) as [[[[ok fi] j1] d1] w2]
    end. cbn [snd] in Hf.
    pose proof (steps_trans _ _ _ _ _ Hm Hf) as H2.
    destruct ok; cbn [snd]; [exact H2|].
    pose proof (steps_tx_map_unwind (Z.to_nat fi) j1 d1 w2) as Hu.
    destruct (tx_map_unwind (Z.to_nat fi) j1 d1 w2) as [j2 w3].
    cbn [snd] in Hu |- *.
    steps_step ltac:(exact I) ltac:(reflexivity).
    exact (steps_trans _ _ _ _ _ H2 Hu).
Qed.

Lemma tx_map_frags_cb frags : forall fi j d w,
  di_cb (snd (fst (tx_map_frags frags fi j d w))) = di_cb d
  /\ di_cb_arg (snd (fst (tx_map_frags frags fi j d w))) = di_cb_arg d.
Proof.
  induction frags as [|size frags IH]; intros fi j d w; cbn [tx_map_frags].
  - split; reflexivity.
  - destruct (ionic_tx_map_frag size w) as [a w1].
    destruct (dma_mapping_error a); [split; reflexivity|].
    match goal with
    | |- context [tx_map_frags frags ?i ?j0 ?d0 ?w0] =>
        destruct (IH i j0 d0 w0) as [I1 I2]
    end.
    rewrite I1, I2. split; reflexivity.
Qed.

(** ionic_tx_map_skb answers 0 or -EIO, and keeps cb and cb_arg. *)
Lemma tx_map_skb_result skb d w :
  (fst (fst (ionic_tx_map_skb skb d w)) = 0
   \/ fst (fst (ionic_tx_map_skb skb d w)) = - EIO)
  /\ di_cb (snd (fst (ionic_tx_map_skb skb d w))) = di_cb d
  /\ di_cb_arg (snd (fst (ionic_tx_map_skb skb d w))) = di_cb_arg d.
Proof.
  unfold ionic_tx_map_skb.
  destruct (ionic_tx_map_single (skb_headlen skb) w) as [a w1].
  destruct (dma_mapping_error a); cbn [fst snd]; [tauto|].
  match goal with
  | |- context [tx_map_frags ?f ?i ?j ?d0 ?w0] =>
      pose proof (tx_map_frags_cb f i j d0 w0) as Hf;
      destruct (tx_map_frags f i j d0 w0) as [[[[ok fi] j1] d1] w2]
  end. cbn [fst snd] in Hf.
  destruct ok; cbn [fst snd].
  - split; [left; reflexivity|exact Hf].
  - destruct (tx_map_unwind (Z.to_nat fi) j1 d1 w2) as [j2 w3].
    cbn [fst snd]. split; [right; reflexivity|exact Hf].
Qed.

End TxSend.

Section TxOutcome.
Context `{ionic_consts}.

(** What ionic_q_post leaves in the slot it posts. *)
Lemma q_post_slot db cb arg w :
  (Z.to_nat (q_head_idx (q w)) < length (q_info (q w)))%nat ->
  slot (ionic_q_post db cb arg w) (q_head_idx (q w))
  = set_di_cb_arg arg (set_di_cb cb (slot w (q_head_idx (q w))))
  /\ forall c, counter_of c (ionic_q_post db cb arg w) = counter_of c w.
Proof.
  intros Hr. unfold ionic_q_post.
  set (i := q_head_idx (q w)) in *.
  set (w1 := upd_slot i _ w).
  assert (Hs : slot w1 i = set_di_cb_arg arg (set_di_cb cb (slot w i))).
  { unfold w1. rewrite slot_upd_slot. rewrite decide_True; [reflexivity|].
    split; [reflexivity|exact Hr]. }
  rewrite <- Hs. destruct db; split; reflexivity.
Qed.

(** The doorbell request of ionic_tx. *)
Definition tx_ring_dbell (w : world) : bool :=
  if HAVE_SKB_XMIT_MORE then negb (k_xmit_more (k w)) else true.

Lemma bql_sent_spec skb w :
  steps (fun e => e = ev_netdev_tx_sent_queue (skb_len skb))
        (fun _ => False) w (bql_sent skb w).
Proof.
  unfold bql_sent. destruct (_ && _); [|apply steps_refl].
  apply steps_log. reflexivity.
Qed.

End TxOutcome.

(** ionic_tx either sends the packet or leaves the ring as it was.  It
    returns 0 after posting exactly one descriptor, with ionic_tx_clean as
    callback and the packet as its argument (attached to the slot for the
    completion to release), head_idx one further, tx_pkts one up and
    tx_bytes up by the length of the packet; the doorbell is asked for
    unless the stack announced more packets.  Or it returns -EIO, and then
    nothing has been posted, head_idx has not moved, the slot's callback
    argument is untouched and neither counter has changed. *)
Theorem tx_sends_or_leaves `{ionic_consts} skb w :
  (Z.to_nat (q_head_idx (q w)) < length (q_info (q w)))%nat ->
  let r := ionic_tx skb w in
  (fst r = 0
   /\ (exists h,
         posted (k_trace (k (snd r)))
         = posted (k_trace (k w))
           ++ [(h, tx_ring_dbell w, Some cb_ionic_tx_clean, Some skb)])
   /\ q_head_idx (q (snd r)) = (q_head_idx (q w) + 1) mod q_num_descs (q w)
   /\ di_cb_arg (slot (snd r) (q_head_idx (q w))) = Some skb
   /\ counter_of tx_pkts (snd r) = u64 (counter_of tx_pkts w + 1)
   /\ counter_of tx_bytes (snd r) = u64 (counter_of tx_bytes w + skb_len skb))
  \/ (fst r = - EIO
      /\ posted (k_trace (k (snd r))) = posted (k_trace (k w))
      /\ q_head_idx (q (snd r)) = q_head_idx (q w)
      /\ di_cb_arg (slot (snd r) (q_head_idx (q w)))
         = di_cb_arg (slot w (q_head_idx (q w)))
      /\ counter_of tx_pkts (snd r) = counter_of tx_pkts w
      /\ counter_of tx_bytes (snd r) = counter_of tx_bytes w).
Proof.
  intros Hr. cbv zeta. unfold ionic_tx.
  set (i := q_head_idx (q w)) in *.
  pose proof (steps_tx_map_skb skb (slot w i) w) as Hm.
  pose proof (tx_map_skb_result skb (slot w i) w) as Hres.
  destruct (ionic_tx_map_skb skb (slot w i) w) as [[err d1] w1].
  cbn [fst snd] in Hm, Hres. destruct Hres as [Herr [_ Harg]].
  pose proof (steps_quiet _ _ _ _ tx_map_event_silent Hm) as Hq.
  assert (Hr1 : (Z.to_nat i < length (q_info (q w1)))%nat)
    by (rewrite (steps_info _ _ _ _ Hm); exact Hr).
  pose proof (steps_env _ _ _ _ Hm) as [Hxm _].
  destruct Herr as [-> | ->].
  - left. cbn [Z.eqb negb fst snd].
    set (d2 := ionic_tx_skb_frags skb _).
    set (w2 := store_slot i d2 w1).
    set (w3 := bump tx_bytes _ _).
    pose proof (bql_sent_spec skb w3) as Hb.
    set (wS := bql_sent skb w3) in *.
    assert (HqS : quiet w2 wS).
    { apply (quiet_trans _ w3); [unfold w3; repeat quiet_step|].
      eapply steps_quiet; [|exact Hb]. intros e ->. split; reflexivity. }
    assert (HiS : q_head_idx (q wS) = i).
    { rewrite (quiet_head _ _ HqS). apply (quiet_head _ _ Hq). }
    assert (HNS : q_num_descs (q wS) = q_num_descs (q w)).
    { rewrite (quiet_num_descs _ _ HqS). apply (quiet_num_descs _ _ Hq). }
    assert (HrS : (Z.to_nat (q_head_idx (q wS)) < length (q_info (q wS)))%nat).
    { rewrite HiS, (quiet_info _ _ HqS). unfold w2, store_slot, upd_slot.
      cbn. rewrite length_alter. exact Hr1. }
    assert (HxS : tx_ring_dbell wS = tx_ring_dbell w).
    { unfold tx_ring_dbell. destruct (steps_env _ _ _ _ Hb) as [-> _].
      unfold w3. change (k_xmit_more (k _)) with (k_xmit_more (k w1)) at 1.
      rewrite Hxm. reflexivity. }
    fold (tx_ring_dbell wS). unfold ionic_txq_post.
    destruct (q_post_spec (tx_ring_dbell wS) (Some cb_ionic_tx_clean)
                (Some skb) wS HrS) as [Hp [_ [Hh _]]].
    destruct (q_post_slot (tx_ring_dbell wS) (Some cb_ionic_tx_clean)
                (Some skb) wS HrS) as [Hs Hc].
    rewrite HiS in Hs.
    split; [reflexivity|]. split; [|split; [|split; [|split]]].
    + eexists. rewrite Hp, (quiet_posted _ _ HqS). unfold w2.
      rewrite trace_store_slot, (quiet_posted _ _ Hq), HxS. reflexivity.
    + rewrite Hh, HiS, HNS. reflexivity.
    + rewrite Hs. reflexivity.
    + rewrite Hc, (steps_counter _ _ _ _ _ Hb) by tauto.
      unfold w3, w2. counters.
      rewrite (steps_counter _ _ _ _ _ Hm) by discriminate. reflexivity.
    + rewrite Hc, (steps_counter _ _ _ _ _ Hb) by tauto.
      unfold w3, w2. counters.
      rewrite (steps_counter _ _ _ _ _ Hm) by discriminate. reflexivity.
  - right. change (negb (- EIO =? 0)) with true. cbn [fst snd].
    split; [reflexivity|].
    split; [rewrite trace_store_slot; apply (quiet_posted _ _ Hq)|].
    split; [apply (quiet_head _ _ Hq)|].
    split; [rewrite slot_store_eq by exact Hr1; exact Harg|].
    split; (rewrite counter_store_slot;
            apply (steps_counter _ _ _ _ _ Hm); discriminate).
Qed.

Lemma tx_sends_or_leaves_witness :
  fst (@ionic_tx example_consts skb_two_frags world_three_mappings) = 0
  /\ q_head_idx (q (snd (@ionic_tx example_consts skb_two_frags
                           world_three_mappings))) = 1
  /\ di_cb_arg (slot (snd (@ionic_tx example_consts skb_two_frags
                             world_three_mappings)) 0) = Some skb_two_frags.
Proof.
  destruct (@tx_sends_or_leaves example_consts skb_two_frags
              world_three_mappings)
    as [[H0 [_ [Hh [Ha _]]]] | [He _]].
  - simpl. lia.
  - split; [exact H0|]. split; [exact Hh|exact Ha].
  - vm_compute in He. discriminate.
Defined.

(** ** The descriptor of a packet *)

Section TxDescriptor.
Context `{ionic_consts}.

Lemma set_sg_elem_keeps j e d :
  di_bufs (set_sg_elem j e d) = di_bufs d
  /\ di_desc (set_sg_elem j e d) = di_desc d
  /\ length (di_sg_elems (set_sg_elem j e d)) = length (di_sg_elems d).
Proof. unfold set_sg_elem. cbn. rewrite length_alter. repeat split. Qed.

(** ionic_tx_skb_frags over the first [n] fragments: sg element [i] takes
    the address and the length of buffer [i + 1]. *)
Lemma tx_skb_frags_fold d n :
  let d' := fold_left (fun d i =>
               set_sg_elem i
                 (mk_sg_elem (bi_dma_addr (di_buf d (i + 1)))
                             (u16 (bi_len (di_buf d (i + 1))))) d)
              (seqZ 0 (Z.of_nat n)) d in
  di_bufs d' = di_bufs d /\ di_desc d' = di_desc d
  /\ length (di_sg_elems d') = length (di_sg_elems d)
  /\ forall i, (i < n)%nat -> (i < length (di_sg_elems d))%nat ->
       di_sg_elems d' !! i
       = Some (mk_sg_elem (bi_dma_addr (di_buf d (Z.of_nat i + 1)))
                          (u16 (bi_len (di_buf d (Z.of_nat i + 1))))).
Proof.
  induction n as [|n IH]; cbv zeta.
  - cbn. repeat split. intros i Hi. lia.
  - rewrite Nat2Z.inj_succ.
    replace (Z.succ (Z.of_nat n)) with (Z.of_nat n + 1) by lia.
    rewrite seqZ_app by lia. rewrite fold_left_app. cbn [seqZ] in *.
    change (seqZ (0 + Z.of_nat n) 1) with [0 + Z.of_nat n].
    cbn [fold_left]. cbv zeta in IH.
    set (dn := fold_left _ (seqZ 0 (Z.of_nat n)) d) in *.
    destruct IH as [I1 [I2 [I3 I4]]].
    match goal with
    | |- context [set_sg_elem ?j ?e dn] =>
        destruct (set_sg_elem_keeps j e dn) as [K1 [K2 K3]];
        set (dS := set_sg_elem j e dn) in *
    end.
    split; [rewrite K1; exact I1|]. split; [rewrite K2; exact I2|].
    split; [rewrite K3; exact I3|].
    intros i Hi Hl. unfold dS, set_sg_elem. cbn [di_sg_elems set_di_sg_elems].
    rewrite Z.add_0_l, Nat2Z.id.
    destruct (decide (i = n)) as [->|Hne].
    + rewrite list_lookup_alter_eq.
      assert (Hsome : is_Some (di_sg_elems dn !! n))
        by (apply lookup_lt_is_Some; rewrite I3; exact Hl).
      destruct Hsome as [x ->]. cbn. unfold di_buf. rewrite I1. reflexivity.
    + rewrite list_lookup_alter_ne by congruence. apply I4; lia.
Qed.

Lemma tx_skb_frags_spec skb d :
  let d' := ionic_tx_skb_frags skb d in
  di_bufs d' = di_bufs d /\ di_desc d' = di_desc d
  /\ forall i, (i < length (skb_frags skb))%nat ->
       (i < length (di_sg_elems d))%nat ->
       di_sg_elems d' !! i
       = Some (mk_sg_elem (bi_dma_addr (di_buf d (Z.of_nat i + 1)))
                          (u16 (bi_len (di_buf d (Z.of_nat i + 1))))).
Proof.
  cbv zeta. unfold ionic_tx_skb_frags.
  destruct (tx_skb_frags_fold d (length (skb_frags skb)))
    as [I1 [I2 [_ I4]]].
  split; [exact I1|]. split; [exact I2|exact I4].
Qed.

(** The descriptor ionic_tx builds for [skb] whose head is mapped at
    [addr]. *)
Definition tx_desc_of (skb : sk_buff) (addr : Z) : hw_desc :=
  let partial := skb_csum_partial skb in
  desc_txq
    (mk_txq_desc
       (if partial then IONIC_TXQ_DESC_OPCODE_CSUM_PARTIAL
        else IONIC_TXQ_DESC_OPCODE_CSUM_NONE)
       (txq_flags (skb_vlan_present skb) (skb_encapsulation skb))
       (u8 (Z.of_nat (length (skb_frags skb))))
       addr (u16 (skb_headlen skb))
       (if skb_vlan_present skb then u16 (skb_vlan_tci skb) else 0)
       0 0
       (if partial then u16 (skb_csum_start skb) else 0)
       (if partial then u16 (skb_csum_offset skb) else 0)).

End TxDescriptor.

Section TxDescriptorRun.
Context `{ionic_consts}.

Lemma tx_map_frags_sg frags : forall fi j d w,
  di_sg_elems (snd (fst (tx_map_frags frags fi j d w))) = di_sg_elems d.
Proof.
  induction frags as [|size frags IH]; intros fi j d w; cbn [tx_map_frags].
  - reflexivity.
  - destruct (ionic_tx_map_frag size w) as [a w1].
    destruct (dma_mapping_error a); [reflexivity|].
    rewrite IH. reflexivity.
Qed.

(** ionic_tx_map_skb when every mapping is granted. *)
Lemma tx_map_skb_run skb d w a0 addrs rest :
  k_dma_map (k w) = a0 :: addrs ++ rest ->
  length addrs = length (skb_frags skb) ->
  Forall (fun a => dma_mapping_error a = false) (a0 :: addrs) ->
  (length (skb_frags skb) < length (di_bufs d))%nat ->
  exists d1 w1,
    ionic_tx_map_skb skb d w = (0, d1, w1)
    /\ bi_dma_addr (di_buf d1 0) = a0
    /\ bi_len (di_buf d1 0) = skb_headlen skb
    /\ (forall i a x, addrs !! i = Some a -> skb_frags skb !! i = Some x ->
          bi_dma_addr (di_buf d1 (Z.of_nat i + 1)) = a
          /\ bi_len (di_buf d1 (Z.of_nat i + 1)) = x)
    /\ di_sg_elems d1 = di_sg_elems d
    /\ k_trace (k w1)
       = k_trace (k w)
         ++ ev_dma_map_single a0 (skb_headlen skb)
            :: zip_with ev_dma_map_page addrs (skb_frags skb)
    /\ tx_unmap_events d1
       = ev_dma_unmap_single a0 (skb_headlen skb)
         :: zip_with ev_dma_unmap_page addrs (skb_frags skb).
Proof.
  intros Hs Hl Hf Hlen. inversion Hf as [|? ? Ha0 Hf']; subst.
  unfold ionic_tx_map_skb.
  destruct (tx_map_single_run (skb_headlen skb) w a0 (addrs ++ rest) Hs Ha0)
    as [w0 [-> [Ht0 [Hs0 Hq0]]]].
  rewrite Ha0.
  set (d0 := set_di_buf 0 _ d).
  assert (Hl0 : length (di_bufs d0) = length (di_bufs d))
    by apply set_di_buf_length.
  pose proof (tx_map_frags_sg (skb_frags skb) 0 1 d0 w0) as Hsg.
  destruct (tx_map_frags_run (skb_frags skb) addrs 0 1 d0 w0 rest Hs0 Hl Hf'
              ltac:(lia) ltac:(rewrite Hl0; lia))
    as [d' [w' [E [Ht [_ [_ [_ [Hlow Hbuf]]]]]]]].
  rewrite E in Hsg |- *. cbn [fst snd] in Hsg.
  set (n := Z.of_nat (length (skb_frags skb))) in *.
  set (d1 := set_di_nbufs (1 + n) d').
  assert (Hb0 : bi_dma_addr (di_buf d1 0) = a0
                /\ bi_len (di_buf d1 0) = skb_headlen skb).
  { change (di_buf d1 0) with (di_buf d' 0). rewrite Hlow by lia.
    unfold d0. rewrite di_buf_set_eq by lia. split; reflexivity. }
  destruct Hb0 as [Hba Hbl].
  exists d1, w'. split; [reflexivity|].
  split; [exact Hba|]. split; [exact Hbl|]. split; [|split; [|split]].
  - intros i a x Hi Hx. change (di_buf d1 ?j) with (di_buf d' j).
    rewrite (Z.add_comm (Z.of_nat i) 1). apply Hbuf; assumption.
  - exact Hsg.
  - rewrite Ht, Ht0, <- app_assoc. reflexivity.
  - unfold tx_unmap_events. change (di_nbufs d1) with (1 + n).
    destruct (Z.eqb_spec (1 + n) 0) as [E0|_]; [unfold n in E0; lia|].
    rewrite Hba, Hbl. f_equal.
    replace (1 + n - 1) with n by lia. unfold n.
    apply unmap_pages_zip; [exact Hl|].
    intros i a x Hi Hx. change (di_buf d1 (1 + Z.of_nat i))
      with (di_buf d' (1 + Z.of_nat i)).
    apply Hbuf; assumption.
Qed.

End TxDescriptorRun.

(** When the kernel grants the mapping of the head (at [a0]) and of every
    fragment (at [addrs]), ionic_tx returns 0 and the descriptor it posts
    describes the packet: the opcode says whether a checksum is to be
    filled in, the address and length are those of the mapped head, the
    count of sg elements is the number of fragments, and sg element [i]
    holds the address and the length of fragment [i]. *)
Theorem tx_descriptor_describes_packet `{ionic_consts} skb w a0 addrs rest :
  k_dma_map (k w) = a0 :: addrs ++ rest ->
  length addrs = length (skb_frags skb) ->
  Forall (fun a => dma_mapping_error a = false) (a0 :: addrs) ->
  (Z.to_nat (q_head_idx (q w)) < length (q_info (q w)))%nat ->
  (length (skb_frags skb)
   < length (di_bufs (slot w (q_head_idx (q w)))))%nat ->
  (length (skb_frags skb)
   <= length (di_sg_elems (slot w (q_head_idx (q w)))))%nat ->
  exists w',
    ionic_tx skb w = (0, w')
    /\ di_desc (slot w' (q_head_idx (q w))) = tx_desc_of skb a0
    /\ (forall i a x, addrs !! i = Some a -> skb_frags skb !! i = Some x ->
          di_sg_elems (slot w' (q_head_idx (q w))) !! i
          = Some (mk_sg_elem a (u16 x)))
    /\ posted (k_trace (k w'))
       = posted (k_trace (k w))
         ++ [(tx_desc_of skb a0, tx_ring_dbell w,
              Some cb_ionic_tx_clean, Some skb)].
Proof.
  intros Hs Hl Hf Hr Hbufs Hsgl.
  unfold ionic_tx.
  set (i := q_head_idx (q w)) in *.
  pose proof (steps_tx_map_skb skb (slot w i) w) as Hm.
  destruct (tx_map_skb_run skb (slot w i) w a0 addrs rest Hs Hl Hf Hbufs)
    as [d1 [w1 [E [Hb0 [Hbl [Hbuf [Hsg _]]]]]]].
  rewrite E in Hm |- *. cbn [fst snd Z.eqb negb] in Hm |- *.
  assert (Hr1 : (Z.to_nat i < length (q_info (q w1)))%nat)
    by (rewrite (steps_info _ _ _ _ Hm); exact Hr).
  set (dc := if skb_csum_partial skb then ionic_tx_calc_csum skb d1
             else ionic_tx_calc_no_csum skb d1) in *.
  assert (Hdc : di_desc dc = tx_desc_of skb a0
                /\ di_bufs dc = di_bufs d1
                /\ di_sg_elems dc = di_sg_elems d1).
  { unfold dc, tx_desc_of, ionic_tx_calc_csum, ionic_tx_calc_no_csum.
    cbv zeta. destruct (skb_csum_partial skb);
      cbn [di_desc set_di_desc di_bufs di_sg_elems];
      rewrite Hb0, Hbl; repeat split. }
  destruct Hdc as [Hdd [Hdb Hds]].
  destruct (tx_skb_frags_spec skb dc) as [F1 [F2 F3]].
  set (d2 := ionic_tx_skb_frags skb dc) in *.
  set (w2 := store_slot i d2 w1) in *.
  set (w3 := bump tx_bytes _ _) in *.
  pose proof (bql_sent_spec skb w3) as Hb.
  set (wS := bql_sent skb w3) in *.
  assert (HqS : quiet w2 wS).
  { apply (quiet_trans _ w3); [unfold w3; repeat quiet_step|].
    eapply steps_quiet; [|exact Hb]. intros e ->. split; reflexivity. }
  assert (Hslot2 : slot w2 i = d2)
    by (unfold w2; apply slot_store_eq; exact Hr1).
  assert (HslotS : slot wS i = d2)
    by (unfold slot; rewrite (quiet_info _ _ HqS); exact Hslot2).
  assert (HiS : q_head_idx (q wS) = i).
  { rewrite (quiet_head _ _ HqS). apply (steps_head _ _ _ _ Hm). }
  assert (HrS : (Z.to_nat (q_head_idx (q wS)) < length (q_info (q wS)))%nat).
  { rewrite HiS, (quiet_info _ _ HqS). unfold w2, store_slot, upd_slot.
    cbn. rewrite length_alter. exact Hr1. }
  assert (HxS : tx_ring_dbell wS = tx_ring_dbell w).
  { unfold tx_ring_dbell. destruct (steps_env _ _ _ _ Hb) as [-> _].
    destruct (steps_env _ _ _ _ Hm) as [Hxm _].
    unfold w3. change (k_xmit_more (k _)) with (k_xmit_more (k w1)) at 1.
    rewrite Hxm. reflexivity. }
  fold (tx_ring_dbell wS). unfold ionic_txq_post.
  destruct (q_post_spec (tx_ring_dbell wS) (Some cb_ionic_tx_clean)
              (Some skb) wS HrS) as [Hp _].
  destruct (q_post_slot (tx_ring_dbell wS) (Some cb_ionic_tx_clean)
              (Some skb) wS HrS) as [Hsl _].
  rewrite HiS in Hsl, Hp. rewrite HslotS in Hsl, Hp.
  eexists. split; [reflexivity|].
  rewrite Hsl. cbn [di_desc di_sg_elems set_di_cb set_di_cb_arg].
  split; [rewrite F2; exact Hdd|]. split.
  - intros j a x Hj Hx.
    assert (Hjl : (j < length (skb_frags skb))%nat)
      by (apply lookup_lt_Some in Hx; exact Hx).
    rewrite F3 by (rewrite ?Hds, ?Hsg; lia).
    unfold di_buf. rewrite Hdb. fold (di_buf d1 (Z.of_nat j + 1)).
    destruct (Hbuf j a x Hj Hx) as [-> ->]. reflexivity.
  - rewrite Hp, F2, Hdd, HxS, (quiet_posted _ _ HqS). unfold w2.
    rewrite trace_store_slot.
    rewrite (quiet_posted _ _ (steps_quiet _ _ _ _ tx_map_event_silent Hm)).
    reflexivity.
Qed.

Lemma tx_descriptor_describes_packet_witness :
  exists w',
    @ionic_tx example_consts skb_two_frags world_three_mappings = (0, w')
    /\ di_desc (slot w' 0)
       = desc_txq (mk_txq_desc IONIC_TXQ_DESC_OPCODE_CSUM_NONE 0 2 4096 100
                     0 0 0 0 0)
    /\ di_sg_elems (slot w' 0) !! 1%nat = Some (mk_sg_elem 12288 500).
Proof.
  destruct (@tx_descriptor_describes_packet example_consts skb_two_frags
              world_three_mappings 4096 [8192; 12288] [])
    as [w' [Hr [Hd [Hsg _]]]].
  - reflexivity.
  - reflexivity.
  - repeat constructor.
  - simpl. lia.
  - simpl. lia.
  - simpl. lia.
  - exists w'. split; [exact Hr|]. split; [exact Hd|].
    apply (Hsg 1%nat 12288 500); reflexivity.
Defined.

(** ** TSO: giving up before anything is posted *)

(** When the packet is mapped but its header cannot be made writable
    (skb_cow_head answers [err]), ionic_tx_tso returns [err] having
    released every mapping it made, same addresses and lengths; nothing is
    posted, head_idx stays, and the slot is left with nbufs = 0. *)
Theorem tso_header_failure_releases `{ionic_consts}
  skb w a0 addrs rest err :
  k_dma_map (k w) = a0 :: addrs ++ rest ->
  length addrs = length (skb_frags skb) ->
  Forall (fun a => dma_mapping_error a = false) (a0 :: addrs) ->
  (Z.to_nat (q_head_idx (q w)) < length (q_info (q w)))%nat ->
  (length (skb_frags skb)
   < length (di_bufs (slot w (q_head_idx (q w)))))%nat ->
  hd 0 (k_cow_head (k w)) = err -> err <> 0 ->
  exists w',
    ionic_tx_tso skb w = Some (err, w')
    /\ k_trace (k w')
       = k_trace (k w)
         ++ (ev_dma_map_single a0 (skb_headlen skb)
             :: zip_with ev_dma_map_page addrs (skb_frags skb))
         ++ (ev_dma_unmap_single a0 (skb_headlen skb)
             :: zip_with ev_dma_unmap_page addrs (skb_frags skb))
    /\ q_head_idx (q w') = q_head_idx (q w)
    /\ di_nbufs (slot w' (q_head_idx (q w))) = 0.
Proof.
  intros Hs Hl Hf Hr Hbufs Hcow Herr.
  unfold ionic_tx_tso.
  set (i := q_head_idx (q w)) in *.
  pose proof (steps_tx_map_skb skb (slot w i) w) as Hm.
  pose proof (tx_map_skb_ok skb (slot w i) w Hbufs) as Hok. cbv zeta in Hok.
  destruct (tx_map_skb_run skb (slot w i) w a0 addrs rest Hs Hl Hf Hbufs)
    as [d1 [w1 [E [_ [_ [_ [_ [Ht1 Hun]]]]]]]].
  rewrite E in Hm, Hok |- *. cbn [fst snd Z.eqb negb] in Hm, Hok |- *.
  destruct (Hok eq_refl) as [_ [_ [_ Hc1]]].
  assert (Hr1 : (Z.to_nat i < length (q_info (q w1)))%nat)
    by (rewrite (steps_info _ _ _ _ Hm); exact Hr).
  set (wA := store_slot i d1 w1).
  replace (if skb_encapsulation skb then ionic_tx_tcp_inner_pseudo_csum wA
           else ionic_tx_tcp_pseudo_csum wA)
    with (pop_cow_head wA) by (destruct (skb_encapsulation skb); reflexivity).
  unfold pop_cow_head.
  change (k_cow_head (k wA)) with (k_cow_head (k w1)). rewrite Hc1.
  destruct (k_cow_head (k w)) as [|e rest']; cbn [hd] in Hcow;
    [congruence|]. subst e.
  destruct (Z.eqb_spec err 0) as [|_]; [contradiction|]. cbn [negb].
  set (wB := upd_k _ wA).
  assert (HslB : slot wB i = d1)
    by (change (slot wB i) with (slot wA i); apply slot_store_eq; exact Hr1).
  rewrite HslB.
  pose proof (tx_desc_unmap_bufs_trace d1 wB) as Hu.
  pose proof (tx_desc_unmap_bufs_q d1 wB) as Hq.
  pose proof (tx_desc_unmap_bufs_fst d1 wB) as Hd. cbv zeta in Hd.
  destruct (ionic_tx_desc_unmap_bufs d1 wB) as [d2 w2].
  cbn [fst snd] in Hu, Hq, Hd. destruct Hd as [Hn2 _].
  eexists. split; [reflexivity|]. split; [|split].
  - rewrite trace_store_slot, Hu, Hun.
    change (k_trace (k wB)) with (k_trace (k w1)). rewrite Ht1.
    rewrite <- app_assoc. reflexivity.
  - change (q_head_idx (q (store_slot i d2 w2))) with (q_head_idx (q w2)).
    rewrite Hq. change (q_head_idx (q wB)) with (q_head_idx (q w1)).
    apply (steps_head _ _ _ _ Hm).
  - rewrite slot_store_eq; [exact Hn2|].
    rewrite Hq. change (q_info (q wB)) with (q_info (q wA)).
    unfold wA, store_slot, upd_slot. cbn. rewrite length_alter. exact Hr1.
Qed.

(** The kernel of [world_three_mappings] refusing skb_cow_head with
    -ENOMEM. *)
Definition world_cow_fails : world :=
  mk_world (q world_three_mappings)
    (set_cow_head [- ENOMEM] (k world_three_mappings)).

Lemma tso_header_failure_releases_witness :
  exists w',
    @ionic_tx_tso example_consts skb_two_frags world_cow_fails
    = Some (- ENOMEM, w')
    /\ k_trace (k w')
       = [ev_dma_map_single 4096 100; ev_dma_map_page 8192 400;
          ev_dma_map_page 12288 500;
          ev_dma_unmap_single 4096 100; ev_dma_unmap_page 8192 400;
          ev_dma_unmap_page 12288 500].
Proof.
  destruct (@tso_header_failure_releases example_consts skb_two_frags
              world_cow_fails 4096 [8192; 12288] [] (- ENOMEM))
    as [w' [Hr [Ht _]]].
  - reflexivity.
  - reflexivity.
  - repeat constructor.
  - simpl. lia.
  - simpl. lia.
  - reflexivity.
  - discriminate.
  - exists w'. split; [exact Hr|exact Ht].
Defined.

(** ** TSO: how many descriptors *)

(** [ceil_div n d]: n / d rounded up. *)
Definition ceil_div (n d : Z) : Z := (n + d - 1) / d.

Lemma ceil_div_0 d : 0 < d -> ceil_div 0 d = 0.
Proof. intros Hd. unfold ceil_div. apply Z.div_small. lia. Qed.

Lemma ceil_div_step r d :
  0 < d -> 0 < r -> 1 + ceil_div (r - Z.min r d) d = ceil_div r d.
Proof.
  intros Hd Hr. unfold ceil_div.
  destruct (Z.le_gt_cases r d) as [Hle|Hgt].
  - rewrite Z.min_l by lia.
    replace (r - r + d - 1) with (d - 1) by lia.
    rewrite (Z.div_small (d - 1)) by lia.
    apply (Z.div_unique_pos _ _ _ (r - 1)); lia.
  - rewrite Z.min_r by lia.
    replace (r - d + d - 1) with (r - 1) by lia.
    replace (r + d - 1) with (r - 1 + 1 * d) by lia.
    rewrite Z.div_add by lia. lia.
Qed.

Section TsoCount.
Context `{ionic_consts}.
Variable skb : sk_buff.
Variable lens : list Z.
Variables hdrlen mss head0 : Z.
Variable inner : nat.
Hypothesis lens_range : Forall (fun x => 0 <= x < 2 ^ 32) lens.
Hypothesis mss_pos : 0 < mss.

(** The outer loop posts one descriptor for the segment under way and one
    for every further [mss] bytes, or part of it, and head_idx moves by as
    many slots. *)
Lemma tso_loop_count fuel : forall t start w,
  0 < q_num_descs (q w) ->
  0 <= q_head_idx (q w) < q_num_descs (q w) ->
  length (q_info (q w)) = Z.to_nat (q_num_descs (q w)) ->
  bufs_hold lens w head0 ->
  walk_ok lens t ->
  0 < tw_seg_rem t ->
  (Z.to_nat (tw_tso_rem t) <= fuel)%nat ->
  (Z.to_nat (tw_tso_rem t) + length lens <= inner)%nat ->
  exists w' ps,
    tso_loop fuel inner skb hdrlen mss head0 (q_head_idx (q w)) t start w
    = Some w'
    /\ posted (k_trace (k w')) = posted (k_trace (k w)) ++ ps
    /\ Z.of_nat (length ps)
       = 1 + ceil_div (tw_tso_rem t - tw_seg_rem t) mss
    /\ q_num_descs (q w') = q_num_descs (q w)
    /\ q_head_idx (q w')
       = (q_head_idx (q w) + Z.of_nat (length ps)) mod q_num_descs (q w).
Proof.
  induction fuel as [|fuel IH]; intros t start w HN Hh Hlen Hb Hok Hseg Hf Hin.
  - destruct Hok as [_ _ _ Wg _]. lia.
  - pose proof Hok as [Wb Wf Ws Wg Wt].
    cbn [tso_loop].
    destruct (Z.ltb_spec 0 (tw_tso_rem t)) as [Hpos|Hz]; [|lia]. cbn [negb].
    destruct (tso_segment_spec lens head0 (q_head_idx (q w)) lens_range inner
                t (mk_tso_desc None 0 0 0 0) w Hb Hok
                ltac:(left; reflexivity) ltac:(lia))
      as [t1 [s1 [w1 [E1 [Hok1 [Ht1 [Hs1 [Hd1 [Hf1 Hk1]]]]]]]]].
    rewrite E1. rewrite (Hd1 ltac:(left; exact Hseg)).
    set (t2 := mk_tso_walk _ _ _ _ _).
    assert (Hr1 : (Z.to_nat (q_head_idx (q w1)) < length (q_info (q w1)))%nat).
    { rewrite (fr_head _ _ Hf1), (fr_length _ _ Hf1), Hlen. lia. }
    rewrite <- (fr_head _ _ Hf1).
    destruct (tso_post_spec skb (td_addr s1) (td_nsge s1) (td_len s1) hdrlen
                mss (skb_gso_outer_csum skb) (skb_vlan_tci skb)
                (skb_vlan_present skb) start (tw_tso_rem t2 =? 0) w1 Hr1)
      as [w2 [E2 [P1 [P2 [P3 [P4 [P5 P6]]]]]]].
    rewrite E2.
    set (h := desc_txq _) in P1.
    set (w3 := upd_slot (q_head_idx (q w2)) (set_di_nbufs 0) w2).
    assert (Hf3 : frames w2 w3)
      by (apply frames_upd_slot; intros d; reflexivity).
    assert (Hk3 : k w3 = k w2) by reflexivity.
    assert (Htso2 : tw_tso_rem t2 = tw_tso_rem t - tw_seg_rem t)
      by (unfold t2; cbn; exact Ht1).
    assert (HN3 : q_num_descs (q w3) = q_num_descs (q w)).
    { rewrite (fr_num _ _ Hf3), P2. apply (fr_num _ _ Hf1). }
    assert (Hh3 : q_head_idx (q w3)
                  = (q_head_idx (q w) + 1) mod q_num_descs (q w)).
    { rewrite (fr_head _ _ Hf3), P3, (fr_num _ _ Hf1), (fr_head _ _ Hf1).
      reflexivity. }
    destruct (Z.eqb_spec (tw_tso_rem t2) 0) as [Hdone|Hmore].
    + rewrite tso_loop_done by lia.
      exists w3, [tso_post_entry skb start true h].
      split; [reflexivity|]. split; [rewrite Hk3, P1, Hk1; reflexivity|].
      split; [|split; [exact HN3|rewrite (fr_head _ _ Hf1); exact Hh3]].
      rewrite <- Htso2, Hdone, ceil_div_0 by exact mss_pos. reflexivity.
    + destruct Hok1 as [Wb1 Wf1 Ws1 Wg1 Wt1].
      assert (Hok2 : walk_ok lens t2).
      { unfold t2. split; cbn; try assumption. lia. }
      assert (Hseg2 : 0 < tw_seg_rem t2) by (unfold t2; cbn; lia).
      assert (Hh3' : q_head_idx (q w3) = q_head_idx (q w2))
        by apply (fr_head _ _ Hf3).
      rewrite <- Hh3'.
      destruct (IH t2 false w3) as [w' [ps [E3 [Hp3 [Hc3 [HN' Hh']]]]]].
      * rewrite HN3. exact HN.
      * rewrite HN3, Hh3. apply Z.mod_pos_bound. exact HN.
      * rewrite (fr_length _ _ Hf3), P4, (fr_length _ _ Hf1), HN3. exact Hlen.
      * apply (bufs_hold_bufs lens w2); [apply (fr_bufs _ _ Hf3)|].
        apply (bufs_hold_bufs lens w1); [exact P6|].
        apply (bufs_hold_frames lens w); assumption.
      * exact Hok2.
      * exact Hseg2.
      * lia.
      * lia.
      * exists w', (tso_post_entry skb start false h :: ps).
        split; [exact E3|].
        split; [rewrite Hp3, Hk3, P1, Hk1, <- app_assoc; reflexivity|].
        split; [|split; [rewrite HN'; exact HN3|]].
        -- cbn [length]. rewrite Nat2Z.inj_succ, Hc3.
           assert (Hs2 : tw_seg_rem t2 = Z.min (tw_tso_rem t2) mss)
             by reflexivity.
           rewrite Hs2, ceil_div_step by lia. rewrite Htso2. lia.
        -- rewrite Hh', HN3, Hh3, Zplus_mod_idemp_l, (fr_head _ _ Hf1).
           f_equal. cbn [length]. lia.
Qed.

End TsoCount.

(** A TSO packet with payload beyond its headers is sent in exactly
    ceil((len - hdrlen) / mss) descriptors, one per segment, and head_idx
    moves by as many slots: the first descriptor takes the headers and one
    MSS, every later one a further MSS, the last what is left. *)
Theorem tso_descriptor_count `{ionic_consts} (skb : sk_buff) (w : world) :
  0 < q_num_descs (q w) ->
  0 <= q_head_idx (q w) < q_num_descs (q w) ->
  length (q_info (q w)) = Z.to_nat (q_num_descs (q w)) ->
  (length (skb_frags skb)
   < length (di_bufs (slot w (q_head_idx (q w)))))%nat ->
  tso_hdrlen skb < skb_len skb < 2 ^ 32 ->
  skb_len skb = skb_headlen skb + zsum (skb_frags skb) ->
  0 <= skb_headlen skb ->
  Forall (fun x => 0 <= x) (skb_frags skb) ->
  0 < skb_gso_size skb ->
  0 <= tso_hdrlen skb ->
  tso_hdrlen skb + skb_gso_size skb < 2 ^ 32 ->
  fst (fst (ionic_tx_map_skb skb (slot w (q_head_idx (q w))) w)) = 0 ->
  hd 0 (k_cow_head (k w)) = 0 ->
  exists w' ps,
    ionic_tx_tso skb w = Some (0, w')
    /\ posted (k_trace (k w')) = posted (k_trace (k w)) ++ ps
    /\ Z.of_nat (length ps)
       = ceil_div (skb_len skb - tso_hdrlen skb) (skb_gso_size skb)
    /\ q_head_idx (q w')
       = (q_head_idx (q w) + Z.of_nat (length ps)) mod q_num_descs (q w).
Proof.
  intros HN Hh Hlen Hbufs Hpos Hsum Hhead Hfr Hmss Hhdr0 Hhdr Hmap Hcow.
  unfold ionic_tx_tso.
  pose proof (tx_map_skb_ok skb (slot w (q_head_idx (q w))) w Hbufs) as Hm.
  cbv zeta in Hm.
  destruct (ionic_tx_map_skb skb (slot w (q_head_idx (q w))) w)
    as [[e d1] w1].
  cbn [fst snd] in Hm, Hmap. subst e.
  destruct (Hm eq_refl) as [Hl [Hlb [Hq1 Hc1]]]. clear Hm.
  cbn [Z.eqb negb].
  set (head := q_head_idx (q w)) in *.
  set (wA := store_slot head d1 w1).
  assert (HinfoA : length (q_info (q wA)) = Z.to_nat (q_num_descs (q w))).
  { unfold wA, store_slot, upd_slot. simpl. rewrite length_alter.
    rewrite (quiet_info _ _ Hq1). exact Hlen. }
  assert (HslotA : slot wA head = d1).
  { unfold wA, store_slot. rewrite slot_upd_slot.
    rewrite decide_True; [reflexivity|].
    split; [reflexivity|]. rewrite (quiet_info _ _ Hq1), Hlen. lia. }
  replace (if skb_encapsulation skb then ionic_tx_tcp_inner_pseudo_csum wA
           else ionic_tx_tcp_pseudo_csum wA)
    with (pop_cow_head wA) by (destruct (skb_encapsulation skb); reflexivity).
  pose proof (quiet_pop_cow_head wA) as HqB.
  assert (HeB : fst (pop_cow_head wA) = 0).
  { unfold pop_cow_head.
    replace (k_cow_head (k wA)) with (k_cow_head (k w)) by (symmetry; exact Hc1).
    destruct (k_cow_head (k w)); [reflexivity|exact Hcow]. }
  destruct (pop_cow_head wA) as [e wB]. cbn [fst snd] in HqB, HeB. subst e.
  cbn [Z.eqb negb].
  fold (tso_hdrlen skb).
  set (lens := skb_headlen skb :: skb_frags skb).
  destruct (range_of_sum (skb_frags skb) (2 ^ 32) Hfr ltac:(lia)) as [Hfr32 Hfs].
  assert (Hlens : Forall (fun x => 0 <= x < 2 ^ 32) lens).
  { constructor; [lia|exact Hfr32]. }
  assert (HheadB : q_head_idx (q wB) = head).
  { rewrite (quiet_head _ _ HqB). unfold wA, store_slot, upd_slot. simpl.
    apply (quiet_head _ _ Hq1). }
  assert (HnumB : q_num_descs (q wB) = q_num_descs (q w)).
  { rewrite (quiet_num_descs _ _ HqB). unfold wA, store_slot, upd_slot. simpl.
    apply (quiet_num_descs _ _ Hq1). }
  assert (HslotB : slot wB head = d1).
  { unfold slot. rewrite (quiet_info _ _ HqB). exact HslotA. }
  assert (HtraceB : posted (k_trace (k wB)) = posted (k_trace (k w))).
  { rewrite (quiet_posted _ _ HqB). unfold wA, store_slot, upd_slot. simpl.
    apply (quiet_posted _ _ Hq1). }
  assert (Hhold : bufs_hold lens wB head).
  { intros j x Hj Hx. rewrite HslotB, (Hl j x Hj Hx).
    apply u32_small.
    apply list_elem_of_lookup_2 in Hx.
    rewrite List.Forall_forall in Hlens. apply Hlens.
    apply list_elem_of_In. exact Hx. }
  set (fuel := S (Z.to_nat (skb_len skb) + length (di_bufs (slot wB head)))).
  set (t0 := mk_tso_walk 0 0 0 (skb_len skb)
               (Z.min (skb_len skb) (u32 (tso_hdrlen skb + skb_gso_size skb)))).
  assert (Hu : u32 (tso_hdrlen skb + skb_gso_size skb)
               = tso_hdrlen skb + skb_gso_size skb) by (apply u32_small; lia).
  destruct (tso_loop_count skb lens (tso_hdrlen skb) (skb_gso_size skb)
              head fuel Hlens Hmss fuel t0 true wB)
    as [w' [ps [Hrun [Hp [Hc [HN' Hh']]]]]].
  - rewrite HnumB. exact HN.
  - rewrite HheadB, HnumB. exact Hh.
  - rewrite (quiet_info _ _ HqB), HnumB. exact HinfoA.
  - exact Hhold.
  - unfold t0. split; cbn [tw_buf tw_frag_rem tw_tso_rem tw_seg_rem];
      try lia.
    unfold lens.
    change (drop (Z.to_nat 0) (skb_headlen skb :: skb_frags skb))
      with (skb_headlen skb :: skb_frags skb).
    unfold zsum in *. cbn [fold_right]. lia.
  - unfold t0. cbn [tw_seg_rem]. rewrite Hu. lia.
  - unfold t0, fuel. cbn [tw_tso_rem]. lia.
  - unfold t0, fuel, lens. cbn [tw_tso_rem length].
    rewrite HslotB, Hlb. lia.
  - rewrite HheadB in Hrun, Hh'. rewrite HnumB in Hh'.
    fold fuel t0. rewrite Hrun.
    eexists. exists ps. split; [reflexivity|].
    split; [|split].
    + rewrite <- HtraceB, <- Hp.
      apply quiet_posted. repeat quiet_step.
    + rewrite Hc. unfold t0. cbn [tw_tso_rem tw_seg_rem]. rewrite Hu.
      destruct (Z.le_gt_cases (skb_len skb)
                  (tso_hdrlen skb + skb_gso_size skb)) as [Hle|Hgt].
      * rewrite Z.min_l by lia. rewrite Z.sub_diag, ceil_div_0 by lia.
        unfold ceil_div.
        apply (Z.div_unique_pos _ _ _
                 (skb_len skb - tso_hdrlen skb - 1)); lia.
      * rewrite Z.min_r by lia. unfold ceil_div.
        replace (skb_len skb - tso_hdrlen skb + skb_gso_size skb - 1)
          with (skb_len skb - (tso_hdrlen skb + skb_gso_size skb)
                + skb_gso_size skb - 1 + 1 * skb_gso_size skb) by lia.
        rewrite Z.div_add by lia. lia.
    + exact Hh'.
Qed.

Lemma tso_descriptor_count_witness :
  exists w' ps,
    @ionic_tx_tso example_consts tso_skb tso_world = Some (0, w')
    /\ posted (k_trace (k w')) = posted (k_trace (k tso_world)) ++ ps
    /\ length ps = 3%nat
    /\ q_head_idx (q w') = 3.
Proof.
  destruct (@tso_descriptor_count example_consts tso_skb tso_world)
    as [w' [ps [Hr [Hp [Hc Hh]]]]].
  - simpl. lia.
  - simpl. lia.
  - reflexivity.
  - vm_compute. lia.
  - vm_compute. split; reflexivity.
  - reflexivity.
  - simpl. lia.
  - repeat constructor. lia.
  - simpl. lia.
  - vm_compute. discriminate.
  - vm_compute. reflexivity.
  - vm_compute. reflexivity.
  - reflexivity.
  - assert (Hl : length ps = 3%nat).
    { change (ceil_div (skb_len tso_skb - tso_hdrlen tso_skb)
                (skb_gso_size tso_skb)) with 3 in Hc. lia. }
    exists w', ps. split; [exact Hr|]. split; [exact Hp|].
    split; [exact Hl|]. rewrite Hh, Hl. reflexivity.
Defined.

(** ** The send entry point: every packet is accounted for *)

(** The packets freed with dev_kfree_skb, in order. *)
Definition freed (tr : list event) : list sk_buff :=
  omap (fun e => match e with
                 | ev_dev_kfree_skb s => Some s
                 | _ => None
                 end) tr.

Lemma freed_app t1 t2 : freed (t1 ++ t2) = freed t1 ++ freed t2.
Proof. apply omap_app. Qed.

(** [effect ps fs w w']: the calls made from [w] to [w'] post [ps] and
    free [fs]. *)
Definition effect
  (ps : list (hw_desc * bool * option ionic_desc_cb * option sk_buff))
  (fs : list sk_buff) (w w' : world) : Prop :=
  exists es,
    k_trace (k w') = k_trace (k w) ++ es /\ posted es = ps /\ freed es = fs.

(** A call that neither posts nor frees. *)
Definition untouched (e : event) : Prop :=
  match e with
  | ev_dev_kfree_skb _ | ev_q_post _ _ _ _ _ => False
  | _ => True
  end.

Lemma effect_refl w : effect [] [] w w.
Proof. exists []. rewrite app_nil_r. repeat split. Qed.

Lemma effect_trans p1 f1 p2 f2 w1 w2 w3 :
  effect p1 f1 w1 w2 -> effect p2 f2 w2 w3 ->
  effect (p1 ++ p2) (f1 ++ f2) w1 w3.
Proof.
  intros [e1 [T1 [P1 F1]]] [e2 [T2 [P2 F2]]]. exists (e1 ++ e2).
  split; [rewrite T2, T1, <- app_assoc; reflexivity|].
  rewrite posted_app, freed_app, P1, P2, F1, F2. split; reflexivity.
Qed.

Lemma untouched_effect es :
  Forall untouched es -> posted es = [] /\ freed es = [].
Proof.
  induction 1 as [|e es He _ [IH1 IH2]]; [split; reflexivity|].
  change (e :: es) with ([e] ++ es). rewrite posted_app, freed_app, IH1, IH2.
  destruct e; cbn in He |- *; try contradiction; split; reflexivity.
Qed.

Lemma adds_effect w w' : adds untouched w w' -> effect [] [] w w'.
Proof.
  intros [es [Ht Hf]]. exists es. split; [exact Ht|].
  apply untouched_effect, Hf.
Qed.

Lemma effect_quiet_l p f w1 w2 w3 :
  adds untouched w1 w2 -> effect p f w2 w3 -> effect p f w1 w3.
Proof.
  intros Ha He.
  exact (effect_trans [] [] p f _ _ _ (adds_effect _ _ Ha) He).
Qed.

Lemma effect_quiet_r p f w1 w2 w3 :
  effect p f w1 w2 -> adds untouched w2 w3 -> effect p f w1 w3.
Proof.
  intros He Ha.
  pose proof (effect_trans p f [] [] _ _ _ He (adds_effect _ _ Ha)) as Ht.
  rewrite !app_nil_r in Ht. exact Ht.
Qed.

Lemma tx_map_event_untouched e : tx_map_event e -> untouched e.
Proof. destruct e; cbn; tauto. Qed.

(** The packet went exactly one way: freed, or posted with the cleaner to
    release it at completion. *)
Definition consumed_once (skb : sk_buff)
  (ps : list (hw_desc * bool * option ionic_desc_cb * option sk_buff))
  (fs : list sk_buff) : Prop :=
  (ps = [] /\ fs = [skb])
  \/ (fs = [] /\ exists h db, ps = [(h, db, Some cb_ionic_tx_clean, Some skb)]).

(** What the entry point owes the stack for its answer. *)
Definition xmit_accounted (r : netdev_tx_t) (skb : sk_buff)
  (ps : list (hw_desc * bool * option ionic_desc_cb * option sk_buff))
  (fs : list sk_buff) : Prop :=
  match r with
  | NETDEV_TX_BUSY => ps = [] /\ fs = []
  | NETDEV_TX_OK => consumed_once skb ps fs
  end.

Section XmitAccount.
Context `{ionic_consts}.

Lemma q_post_effect db cb arg w :
  exists h, effect [(h, db, cb, arg)] [] w (ionic_q_post db cb arg w).
Proof.
  unfold ionic_q_post. eexists. destruct db; eexists;
    (split; [rewrite ?trace_log, ?trace_upd_q, ?trace_log,
               <- ?app_assoc; reflexivity|]); split; reflexivity.
Qed.

Lemma tx_effect skb w :
  (fst (ionic_tx skb w) = 0
   /\ exists h db,
        effect [(h, db, Some cb_ionic_tx_clean, Some skb)] [] w
          (snd (ionic_tx skb w)))
  \/ (fst (ionic_tx skb w) = - EIO /\ effect [] [] w (snd (ionic_tx skb w))).
Proof.
  unfold ionic_tx.
  set (i := q_head_idx (q w)).
  pose proof (steps_tx_map_skb skb (slot w i) w) as Hm.
  pose proof (tx_map_skb_result skb (slot w i) w) as Hres.
  destruct (ionic_tx_map_skb skb (slot w i) w) as [[err d1] w1].
  cbn [fst snd] in Hm, Hres. destruct Hres as [Herr _].
  assert (Ha : adds untouched w w1).
  { apply (adds_weaken tx_map_event); [exact tx_map_event_untouched|].
    apply (steps_adds _ _ _ _ Hm). }
  destruct Herr as [-> | ->].
  - left. cbn [Z.eqb negb fst snd]. split; [reflexivity|].
    unfold ionic_txq_post.
    match goal with
    | |- context [ionic_q_post ?db ?cb ?arg ?x] =>
        destruct (q_post_effect db cb arg x) as [h Hp];
        exists h, db; set (wS := x) in *
    end.
    apply (effect_quiet_l _ _ w wS); [|exact Hp].
    eapply adds_trans; [exact Ha|].
    unfold wS, bql_sent. destruct (_ && _);
      repeat adds_step ltac:(exact I).
  - right. change (negb (- EIO =? 0)) with true. cbn [fst snd].
    split; [reflexivity|]. apply adds_effect.
    adds_step ltac:(exact I). exact Ha.
Qed.

Lemma descs_needed_effect skb w :
  adds untouched w (snd (ionic_tx_descs_needed skb w))
  /\ (snd (fst (ionic_tx_descs_needed skb w)) = skb
      \/ snd (fst (ionic_tx_descs_needed skb w)) = linearized skb).
Proof.
  unfold ionic_tx_descs_needed.
  destruct (_ <=? q_max_sg_elems (q w)); cbn [fst snd];
    [split; [apply adds_refl|left; reflexivity]|].
  unfold pop_linearize.
  destruct (k_linearize (k w)) as [|e rest].
  - cbn [negb Z.eqb fst snd]. split; [|right; reflexivity].
    repeat adds_step ltac:(exact I).
  - destruct (negb (e =? 0)); cbn [fst snd].
    + split; [|left; reflexivity]. repeat adds_step ltac:(exact I).
    + split; [|right; reflexivity]. repeat adds_step ltac:(exact I).
Qed.

Lemma maybe_stop_effect n w :
  adds untouched w (snd (ionic_maybe_stop_tx n w)).
Proof.
  unfold ionic_maybe_stop_tx.
  destruct (negb (ionic_q_has_space (q w) n)); [|apply adds_refl].
  set (w1 := bump q_stop 1 _).
  assert (H1 : adds untouched w w1).
  { unfold w1, netif_stop_subqueue. repeat adds_step ltac:(exact I). }
  assert (H2 : adds untouched w (smp_rmb w1)).
  { eapply adds_trans; [exact H1|]. unfold smp_rmb.
    destruct (k_racing_tail (k w1)); [apply adds_refl|].
    repeat adds_step ltac:(exact I). }
  destruct (ionic_q_has_space _ _); cbn [snd]; [|exact H2].
  unfold netif_wake_subqueue. repeat adds_step ltac:(exact I). exact H2.
Qed.

Lemma drop_effect skb w : effect [] [skb] w (drop_skb skb w).
Proof.
  unfold drop_skb. exists [ev_dev_kfree_skb skb].
  rewrite trace_log, counter_free_trace. repeat split.
Qed.

Lemma effect_then_drop skb c n w w3 :
  effect [] [] w w3 -> effect [] [skb] w (drop_skb skb (bump c n w3)).
Proof.
  intros He.
  assert (Hb : effect [] [] w3 (bump c n w3))
    by (apply adds_effect, adds_same; reflexivity).
  pose proof (effect_trans _ _ _ _ _ _ _ He Hb) as T1.
  exact (effect_trans _ _ _ _ _ _ _ T1 (drop_effect skb _)).
Qed.

Lemma linearized_not_gso skb :
  skb_is_gso (linearized skb) = skb_is_gso skb.
Proof. reflexivity. Qed.

(** The regular path, on the chosen queue. *)
Lemma start_xmit_on_account skb w :
  skb_is_gso skb = false ->
  exists r w' skb' ps fs,
    start_xmit_on skb w = Some (r, w')
    /\ (skb' = skb \/ skb' = linearized skb)
    /\ effect ps fs w w'
    /\ xmit_accounted r skb' ps fs.
Proof.
  intros Hg. unfold start_xmit_on.
  destruct (descs_needed_effect skb w) as [Hd Hskb].
  destruct (ionic_tx_descs_needed skb w) as [[n skb'] w1].
  cbn [fst snd] in Hd, Hskb.
  assert (Hg' : skb_is_gso skb' = false)
    by (destruct Hskb as [-> | ->]; exact Hg).
  destruct (n <? 0).
  { exists NETDEV_TX_OK, (drop_skb skb' (bump q_stop 1 w1)), skb', [], [skb'].
    split; [reflexivity|]. split; [exact Hskb|].
    split; [|left; split; reflexivity].
    apply effect_then_drop, adds_effect. exact Hd. }
  pose proof (maybe_stop_effect n w1) as Hs.
  destruct (ionic_maybe_stop_tx n w1) as [stopped w2]. cbn [snd] in Hs.
  pose proof (adds_trans _ _ _ _ Hd Hs) as H2.
  destruct (negb (stopped =? 0)).
  { exists NETDEV_TX_BUSY, w2, skb', [], [].
    split; [reflexivity|]. split; [exact Hskb|].
    split; [apply adds_effect; exact H2|split; reflexivity]. }
  unfold xmit_post, xmit_tso_or_tx. rewrite Hg'.
  destruct (tx_effect skb' w2) as [[E [h [db He]]] | [E He]];
    destruct (ionic_tx skb' w2) as [err w3]; cbn [fst snd] in E, He; subst err.
  - cbn [Z.eqb negb].
    pose proof (maybe_stop_effect 4 w3) as H4.
    destruct (ionic_maybe_stop_tx 4 w3) as [s4 w4]. cbn [snd] in H4.
    exists NETDEV_TX_OK, w4, skb',
      [(h, db, Some cb_ionic_tx_clean, Some skb')], [].
    split; [reflexivity|]. split; [exact Hskb|]. split.
    + apply (effect_quiet_r _ _ w w3); [|exact H4].
      apply (effect_quiet_l _ _ w w2); assumption.
    + right. split; [reflexivity|]. exists h, db. reflexivity.
  - change (negb (- EIO =? 0)) with true. cbn iota.
    exists NETDEV_TX_OK, (drop_skb skb' (bump q_stop 1 w3)), skb', [], [skb'].
    split; [reflexivity|]. split; [exact Hskb|].
    split; [|left; split; reflexivity].
    apply effect_then_drop.
    exact (effect_trans _ _ _ _ _ _ _ (adds_effect _ _ H2) He).
Qed.

End XmitAccount.

Section XmitAccountLif.
Context `{ionic_consts}.

Lemma effect_drop skb w w3 :
  effect [] [] w w3 -> effect [] [skb] w (drop_skb skb w3).
Proof.
  intros He. exact (effect_trans _ _ _ _ _ _ _ He (drop_effect skb _)).
Qed.

(** The timestamping path, on [lif->hwstamp_txq]. *)
Lemma hwstamp_xmit_account skb w :
  skb_is_gso skb = false ->
  exists w' skb' ps fs,
    ionic_start_hwstamp_xmit skb w = Some (NETDEV_TX_OK, w')
    /\ (skb' = skb \/ skb' = linearized skb)
    /\ effect ps fs w w'
    /\ consumed_once skb' ps fs.
Proof.
  intros Hg. unfold ionic_start_hwstamp_xmit.
  destruct (descs_needed_effect skb w) as [Hd Hskb].
  destruct (ionic_tx_descs_needed skb w) as [[n skb'] w1].
  cbn [fst snd] in Hd, Hskb.
  assert (Hg' : skb_is_gso skb' = false)
    by (destruct Hskb as [-> | ->]; exact Hg).
  destruct (n <? 0).
  { exists (drop_skb skb' w1), skb', [], [skb'].
    split; [reflexivity|]. split; [exact Hskb|].
    split; [|left; split; reflexivity].
    apply effect_drop, adds_effect. exact Hd. }
  destruct (negb (ionic_q_has_space (q w1) n)).
  { exists (drop_skb skb' w1), skb', [], [skb'].
    split; [reflexivity|]. split; [exact Hskb|].
    split; [|left; split; reflexivity].
    apply effect_drop, adds_effect. exact Hd. }
  unfold xmit_tso_or_tx. rewrite Hg'.
  destruct (tx_effect skb' w1) as [[E [h [db He]]] | [E He]];
    destruct (ionic_tx skb' w1) as [err w3]; cbn [fst snd] in E, He; subst err.
  - cbn [Z.eqb negb].
    exists w3, skb', [(h, db, Some cb_ionic_tx_clean, Some skb')], [].
    split; [reflexivity|]. split; [exact Hskb|]. split.
    + apply (effect_quiet_l _ _ w w1); assumption.
    + right. split; [reflexivity|]. exists h, db. reflexivity.
  - change (negb (- EIO =? 0)) with true. cbn iota.
    exists (drop_skb skb' w3), skb', [], [skb'].
    split; [reflexivity|]. split; [exact Hskb|].
    split; [|left; split; reflexivity].
    apply effect_drop.
    exact (effect_trans _ _ _ _ _ _ _ (adds_effect _ _ Hd) He).
Qed.

End XmitAccountLif.

(** ** Backpressure, on both paths *)

Section XmitProceeds.
Context `{ionic_consts}.

Lemma descs_needed_stopped skb w :
  k_stopped (k (snd (ionic_tx_descs_needed skb w))) = k_stopped (k w).
Proof.
  unfold ionic_tx_descs_needed. destruct (_ <=? _); [reflexivity|].
  unfold pop_linearize. destruct (k_linearize (k w)) as [|e rest]; cbn.
  - reflexivity.
  - destruct (negb _); reflexivity.
Qed.

(** Once the ring has room, ionic_start_xmit never answers busy. *)
Lemma xmit_post_ok skb w r w' :
  xmit_post skb w = Some (r, w') -> r = NETDEV_TX_OK.
Proof.
  unfold xmit_post. destruct (xmit_tso_or_tx skb w) as [[err w1]|];
    [|discriminate].
  destruct (negb _); [intros [= <- _]; reflexivity|].
  destruct (ionic_maybe_stop_tx 4 w1). intros [= <- _]. reflexivity.
Qed.

(** Once the ring has room, a packet that is not TSO goes exactly one
    way: posted, or freed when a mapping fails. *)
Lemma xmit_post_account skb w :
  skb_is_gso skb = false ->
  exists w' es,
    xmit_post skb w = Some (NETDEV_TX_OK, w')
    /\ k_trace (k w') = k_trace (k w) ++ es
    /\ consumed_once skb (posted es) (freed es).
Proof.
  intros Hg. unfold xmit_post, xmit_tso_or_tx. rewrite Hg.
  destruct (tx_effect skb w) as [[E [h [db He]]] | [E He]];
    destruct (ionic_tx skb w) as [err w3]; cbn [fst snd] in E, He; subst err.
  - cbn [Z.eqb negb].
    pose proof (maybe_stop_effect 4 w3) as H4.
    destruct (ionic_maybe_stop_tx 4 w3) as [s4 w4]. cbn [snd] in H4.
    destruct (effect_quiet_r _ _ _ _ _ He H4) as [es [Ht [Hp Hf]]].
    exists w4, es. split; [reflexivity|]. split; [exact Ht|].
    right. split; [exact Hf|]. exists h, db. exact Hp.
  - change (negb (- EIO =? 0)) with true. cbn iota.
    destruct (effect_then_drop skb q_stop 1 _ _ He) as [es [Ht [Hp Hf]]].
    eexists. exists es. split; [reflexivity|]. split; [exact Ht|].
    left. split; [exact Hp|exact Hf].
Qed.

End XmitProceeds.

(** C6, amended.  On an up device.  For a packet that ionic_start_xmit
    sends through a regular transmit queue (not handed to the timestamping
    queue), and whose descriptor demand was computed: if the ring lacks
    that many descriptors, the subqueue is stopped and the check is made
    again after the barrier.  If there is still no room, ionic_start_xmit
    returns NETDEV_TX_BUSY, the subqueue stays stopped, and the only kernel
    call made is the stop: the packet is not freed.  If room has appeared,
    the subqueue is woken at once (the wake is the call after the stop, and
    the subqueue is no longer stopped) and the send goes on from there: the
    answer is never NETDEV_TX_BUSY, and a packet that is not TSO is then
    posted once with ionic_tx_clean to release it, or freed once when a
    mapping fails.  For a packet handed to the timestamping queue, whenever
    that queue lacks the descriptors, ionic_start_xmit returns NETDEV_TX_OK,
    the one kernel call made frees the packet, the set of stopped
    subqueues is what it was and the regular queues are untouched. *)
Theorem xmit_backpressure `{ionic_consts} skb l :
  lif_up l = true ->
  (hwstamp_divert skb l = None ->
   let i := xmit_queue_index skb l in
   let dn := ionic_tx_descs_needed skb (txq_world i l) in
   let ndescs := fst (fst dn) in
   let skb' := snd (fst dn) in
   let w0 := snd dn in
   let qi := q_index (q w0) in
   0 <= ndescs ->
   ionic_q_has_space (q w0) ndescs = false ->
   let w2 := smp_rmb (bump q_stop 1 (netif_stop_subqueue qi w0)) in
   k_trace (k w2) = k_trace (lif_k l) ++ [ev_netif_stop_subqueue qi]
   /\ (ionic_q_has_space (q w2) ndescs = false ->
         ionic_start_xmit skb l = Some (NETDEV_TX_BUSY, put_txq i w2 l)
         /\ In qi (k_stopped (k w2)))
   /\ (ionic_q_has_space (q w2) ndescs = true ->
         let ww := netif_wake_subqueue qi w2 in
         k_trace (k ww)
         = k_trace (lif_k l)
           ++ [ev_netif_stop_subqueue qi; ev_netif_wake_subqueue qi]
         /\ netif_subqueue_stopped qi ww = false
         /\ ionic_start_xmit skb l
            = match (if skb_is_gso skb' then ionic_tx_tso skb' ww
                     else Some (ionic_tx skb' ww)) with
              | Some (err, w') =>
                  Some (NETDEV_TX_OK,
                        put_txq i
                          (if negb (err =? 0)
                           then drop_skb skb' (bump q_stop 1 w')
                           else snd (ionic_maybe_stop_tx 4 w')) l)
              | None => None
              end
         /\ (forall r l',
               ionic_start_xmit skb l = Some (r, l') -> r = NETDEV_TX_OK)
         /\ (skb_is_gso skb = false ->
             exists w' es,
               ionic_start_xmit skb l
               = Some (NETDEV_TX_OK, put_txq i w' l)
               /\ k_trace (k w') = k_trace (k ww) ++ es
               /\ consumed_once skb' (posted es) (freed es))))
  /\ (forall hq,
        hwstamp_divert skb l = Some hq ->
        let dn := ionic_tx_descs_needed skb (mk_world hq (lif_k l)) in
        let ndescs := fst (fst dn) in
        let skb' := snd (fst dn) in
        let w0 := snd dn in
        ionic_q_has_space (q w0) ndescs = false ->
        let l' := put_hwstamp_txq (drop_skb skb' w0) l in
        ionic_start_xmit skb l = Some (NETDEV_TX_OK, l')
        /\ k_trace (lif_k l') = k_trace (lif_k l) ++ [ev_dev_kfree_skb skb']
        /\ k_stopped (lif_k l') = k_stopped (lif_k l)
        /\ lif_txqs l' = lif_txqs l).
Proof.
  intros Hup. split.
  - intros Hdiv. cbv zeta.
    pose proof (descs_needed_trace skb (txq_world (xmit_queue_index skb l) l))
      as Htr.
    pose proof (descs_needed_effect skb
                  (txq_world (xmit_queue_index skb l) l)) as [_ Hskb].
    intros Hn Hsp.
    set (w0 := snd (ionic_tx_descs_needed skb _)) in *.
    set (w1 := bump q_stop 1 (netif_stop_subqueue (q_index (q w0)) w0)).
    destruct (smp_rmb_kernel w1) as [Ht [Hs Hi]].
    assert (Ht2 : k_trace (k (smp_rmb w1))
                  = k_trace (lif_k l)
                    ++ [ev_netif_stop_subqueue (q_index (q w0))]).
    { rewrite Ht. unfold w1, bump, netif_stop_subqueue, log, upd_q, upd_k.
      cbn. rewrite Htr. reflexivity. }
    split; [exact Ht2|]. split.
    + intros Hsp2. split.
      * unfold ionic_start_xmit. rewrite Hup, Hdiv. cbn [negb].
        unfold start_xmit_on. fold w0 in Hsp, Hsp2.
        destruct (ionic_tx_descs_needed skb _) as [[nd sk] wd].
        cbn [fst snd] in *. subst w0.
        destruct (Z.ltb_spec nd 0); [lia|].
        unfold ionic_maybe_stop_tx. rewrite Hsp. cbn [negb].
        fold w1. rewrite Hsp2. cbn. reflexivity.
      * rewrite Hs. unfold w1, bump, netif_stop_subqueue, log, upd_q, upd_k.
        cbn. left. reflexivity.
    + intros Hsp2.
      assert (Heq : ionic_start_xmit skb l
                    = match xmit_post
                              (snd (fst (ionic_tx_descs_needed skb
                                 (txq_world (xmit_queue_index skb l) l))))
                              (netif_wake_subqueue (q_index (q w0))
                                 (smp_rmb w1)) with
                      | Some (r, w') =>
                          Some (r, put_txq (xmit_queue_index skb l) w' l)
                      | None => None
                      end).
      { unfold ionic_start_xmit. rewrite Hup, Hdiv. cbn [negb].
        unfold start_xmit_on. fold w0 in Hsp, Hsp2.
        destruct (ionic_tx_descs_needed skb _) as [[nd sk] wd].
        cbn [fst snd] in *. subst w0.
        destruct (Z.ltb_spec nd 0); [lia|].
        unfold ionic_maybe_stop_tx. rewrite Hsp. cbn [negb].
        fold w1. rewrite Hsp2, Hi. cbn [negb Z.eqb]. reflexivity. }
      split; [|split; [|split; [|split]]].
      * unfold netif_wake_subqueue. rewrite trace_log.
        change (k_trace (k (upd_k _ (smp_rmb w1))))
          with (k_trace (k (smp_rmb w1))).
        rewrite Ht2, <- app_assoc. reflexivity.
      * unfold netif_subqueue_stopped, netif_wake_subqueue.
        apply bool_decide_eq_false.
        change (k_stopped (k (log _ (upd_k _ (smp_rmb w1)))))
          with (filter (fun y => y ≠ q_index (q w0))
                  (k_stopped (k (smp_rmb w1)))).
        rewrite list_elem_of_filter. tauto.
      * rewrite Heq. unfold xmit_post, xmit_tso_or_tx.
        destruct (if skb_is_gso _ then _ else _) as [[err w']|];
          [|reflexivity].
        destruct (negb (err =? 0)); [reflexivity|].
        destruct (ionic_maybe_stop_tx 4 w'). reflexivity.
      * intros r l'. rewrite Heq.
        destruct (xmit_post _ _) as [[r1 w']|] eqn:Ep; [|discriminate].
        intros [= <- _]. exact (xmit_post_ok _ _ _ _ Ep).
      * intros Hg.
        assert (Hg' : skb_is_gso
                        (snd (fst (ionic_tx_descs_needed skb
                           (txq_world (xmit_queue_index skb l) l)))) = false)
          by (destruct Hskb as [-> | ->]; exact Hg).
        destruct (xmit_post_account _
                    (netif_wake_subqueue (q_index (q w0)) (smp_rmb w1)) Hg')
          as [w' [es [Ep [Hte Hc]]]].
        exists w', es. rewrite Heq, Ep. split; [reflexivity|].
        split; [exact Hte|exact Hc].
  - intros hq Hdiv. cbv zeta.
    pose proof (descs_needed_trace skb (mk_world hq (lif_k l))) as Htr.
    pose proof (descs_needed_stopped skb (mk_world hq (lif_k l))) as Hst.
    intros Hsp. split; [|split; [|split]].
    + unfold ionic_start_xmit. rewrite Hup, Hdiv. cbn [negb].
      unfold ionic_start_hwstamp_xmit.
      destruct (ionic_tx_descs_needed skb _) as [[nd sk] wd].
      cbn [fst snd] in *. rewrite Hsp. cbn [negb].
      destruct (nd <? 0); reflexivity.
    + cbn [lif_k put_hwstamp_txq]. unfold drop_skb.
      rewrite trace_log, counter_free_trace, Htr. reflexivity.
    + cbn [lif_k put_hwstamp_txq]. unfold drop_skb.
      change (k_stopped (k (log _ (bump q_drop 1 ?x))))
        with (k_stopped (k x)).
      exact Hst.
    + reflexivity.
Qed.

Lemma xmit_backpressure_witness :
  (@ionic_start_xmit example_consts (example_skb 4 60) (lif_txq_full [])
   = Some (NETDEV_TX_BUSY,
           put_txq 0
             (smp_rmb (bump q_stop 1
                (netif_stop_subqueue 0 (txq_world 0 (lif_txq_full [])))))
             (lif_txq_full [])))
  /\ (exists l',
        @ionic_start_xmit example_consts (example_skb 4 60) (lif_txq_full [2])
        = Some (NETDEV_TX_OK, l')
        /\ In (ev_netif_wake_subqueue 0) (k_trace (lif_k l'))
        /\ posted (k_trace (lif_k l'))
           = [(desc_txq (mk_txq_desc IONIC_TXQ_DESC_OPCODE_CSUM_NONE 0 0 4096
                           60 0 0 0 0 0),
               true, Some cb_ionic_tx_clean, Some (example_skb 4 60))])
  /\ exists l',
       @ionic_start_xmit example_consts stamped_skb lif_hwstamp_full
       = Some (NETDEV_TX_OK, l')
       /\ k_trace (lif_k l') = [ev_dev_kfree_skb stamped_skb]
       /\ k_stopped (lif_k l') = [].
Proof.
  split; [|split].
  - destruct (@xmit_backpressure example_consts (example_skb 4 60)
                (lif_txq_full []) eq_refl) as [Hreg _].
    destruct (Hreg eq_refl) as [_ [Hbusy _]];
      [simpl; lia | reflexivity |].
    apply Hbusy. reflexivity.
  - destruct (@xmit_backpressure example_consts (example_skb 4 60)
                (lif_txq_full [2]) eq_refl) as [Hreg _].
    destruct (Hreg eq_refl) as [_ [_ Hgo]];
      [simpl; lia | reflexivity |].
    destruct (Hgo ltac:(vm_compute; reflexivity)) as [_ [_ [Heq _]]].
    rewrite Heq. vm_compute.
    eexists. split; [reflexivity|]. split; [right; left; reflexivity|].
    reflexivity.
  - destruct (@xmit_backpressure example_consts stamped_skb
                lif_hwstamp_full eq_refl) as [_ Hhw].
    destruct (Hhw txq_full eq_refl eq_refl) as [Hr [Ht [Hs _]]].
    eexists. split; [exact Hr|]. split; [exact Ht|exact Hs].
Defined.


(** ionic_start_xmit accounts for every packet that is not TSO.  When it
    answers NETDEV_TX_BUSY it has neither freed nor posted the packet: the
    stack still owns it.  When it answers NETDEV_TX_OK the packet (as it
    is, or linearized) went exactly one way: it was freed with
    dev_kfree_skb and nothing was posted, or one descriptor was posted
    with ionic_tx_clean and the packet as argument, to be released at
    completion, and nothing was freed. *)
Theorem start_xmit_accounts `{ionic_consts} skb l :
  skb_is_gso skb = false ->
  exists r l' skb' es,
    ionic_start_xmit skb l = Some (r, l')
    /\ (skb' = skb \/ skb' = linearized skb)
    /\ k_trace (lif_k l') = k_trace (lif_k l) ++ es
    /\ xmit_accounted r skb' (posted es) (freed es).
Proof.
  intros Hg. unfold ionic_start_xmit.
  destruct (lif_up l); cbn [negb].
  2:{ exists NETDEV_TX_OK. eexists. exists skb, [ev_dev_kfree_skb skb].
      split; [reflexivity|]. split; [left; reflexivity|].
      split; [reflexivity|]. left. split; reflexivity. }
  destruct (hwstamp_divert skb l) as [hq|].
  - destruct (hwstamp_xmit_account skb (mk_world hq (lif_k l)) Hg)
      as [w' [skb' [ps [fs [-> [Hskb [[es [Ht [Hp Hf]]] Hc]]]]]]].
    exists NETDEV_TX_OK, (put_hwstamp_txq w' l), skb', es.
    split; [reflexivity|]. split; [exact Hskb|].
    split; [exact Ht|]. rewrite Hp, Hf. exact Hc.
  - destruct (start_xmit_on_account skb
                (txq_world (xmit_queue_index skb l) l) Hg)
      as [r [w' [skb' [ps [fs [-> [Hskb [[es [Ht [Hp Hf]]] Hc]]]]]]]].
    exists r, (put_txq (xmit_queue_index skb l) w' l), skb', es.
    split; [reflexivity|]. split; [exact Hskb|].
    split; [exact Ht|]. rewrite Hp, Hf. exact Hc.
Qed.

Lemma start_xmit_accounts_witness :
  exists l' es,
    @ionic_start_xmit example_consts (example_skb 4 60) (lif_txq_full [])
    = Some (NETDEV_TX_BUSY, l')
    /\ k_trace (lif_k l') = k_trace (lif_k (lif_txq_full [])) ++ es
    /\ posted es = [] /\ freed es = [].
Proof.
  destruct (@start_xmit_accounts example_consts (example_skb 4 60)
              (lif_txq_full []) eq_refl)
    as [r [l' [skb' [es [Hr [_ [Ht Ha]]]]]]].
  assert (Hb : r = NETDEV_TX_BUSY).
  { vm_compute in Hr. congruence. }
  subst r. exists l', es. split; [exact Hr|]. split; [exact Ht|exact Ha].
Defined.

(** ** A packet from send to completion *)

Section TxLifecycle.
Context `{ionic_consts}.




End TxLifecycle.

Section TxCompleteOne.
Context `{ionic_consts}.

Lemma steps_tx_desc_unmap_bufs d w :
  steps tx_map_event (fun _ => False) w (snd (ionic_tx_desc_unmap_bufs d w)).
Proof.
  unfold ionic_tx_desc_unmap_bufs.
  destruct (di_nbufs d =? 0); cbn [snd]; [apply steps_refl|].
  set (w0 := log _ w).
  assert (H0 : steps tx_map_event (fun _ => False) w w0)
    by (apply steps_log; exact I).
  revert H0. generalize w0. clear w0.
  induction (seqZ 1 (di_nbufs d - 1)) as [|x l IH]; intros w0 H0;
    cbn [fold_left]; [exact H0|].
  apply IH. eapply steps_trans; [exact H0|]. apply steps_log. exact I.
Qed.


End TxCompleteOne.



(** ** Byte queue limits: what a service call reports *)

(** The packets handed to dev_consume_skb_any, in order. *)
Definition consumed (tr : list event) : list sk_buff :=
  omap (fun e => match e with
                 | ev_dev_consume_skb_any skb => Some skb
                 | _ => None
                 end) tr.

(** The (pkts, bytes) pairs given to netdev_tx_completed_queue, in order. *)
Definition completed (tr : list event) : list (Z * Z) :=
  omap (fun e => match e with
                 | ev_netdev_tx_completed_queue p b => Some (p, b)
                 | _ => None
                 end) tr.

Lemma consumed_app tr1 tr2 :
  consumed (tr1 ++ tr2) = consumed tr1 ++ consumed tr2.
Proof. apply omap_app. Qed.

Lemma completed_app tr1 tr2 :
  completed (tr1 ++ tr2) = completed tr1 ++ completed tr2.
Proof. apply omap_app. Qed.

Lemma tx_unmap_events_bql d :
  consumed (tx_unmap_events d) = [] /\ completed (tx_unmap_events d) = [].
Proof.
  unfold tx_unmap_events. destruct (_ =? _); [split; reflexivity|].
  cbn [consumed completed omap]. cbn [mbind option_bind].
  induction (seqZ 1 (di_nbufs d - 1)) as [|x l [IH1 IH2]];
    [split; reflexivity|].
  split; cbn; [exact IH1|exact IH2].
Qed.

Section BqlBalance.
Context `{ionic_consts}.

(** One round of the service loop on a queue that does not timestamp: the
    packet of the slot, if it holds one, is consumed and counted with its
    length. *)
Lemma tx_drain_one_bql ci pkts bytes w :
  q_hwstamp (q w) = false ->
  let cs := match di_cb_arg (slot w (q_tail_idx (q w))) with
            | Some skb => [skb]
            | None => []
            end in
  exists w',
    tx_drain_one ci pkts bytes w
    = (q_tail_idx (q w), pkts + Z.of_nat (length cs),
       bytes + zsum (map skb_len cs), w')
    /\ consumed (k_trace (k w')) = consumed (k_trace (k w)) ++ cs
    /\ completed (k_trace (k w')) = completed (k_trace (k w))
    /\ q_hwstamp (q w') = false.
Proof.
  intros Hhw. cbv zeta. unfold tx_drain_one.
  set (i := q_tail_idx (q w)) in *.
  set (d0 := set_di_bytes 0 (slot w i)).
  set (w1 := log (ev_clean cb_ionic_tx_clean i) _).
  change (di_cb_arg d0) with (di_cb_arg (slot w i)).
  unfold ionic_tx_clean.
  pose proof (tx_desc_unmap_bufs_trace d0 w1) as Htr.
  pose proof (tx_desc_unmap_bufs_q d0 w1) as Hq.
  pose proof (tx_desc_unmap_bufs_fst d0 w1) as Hd. cbv zeta in Hd.
  destruct (ionic_tx_desc_unmap_bufs d0 w1) as [d1 wU].
  cbn [fst snd] in Htr, Hq, Hd. destruct Hd as [_ [_ Hca1]].
  change (di_cb_arg d0) with (di_cb_arg (slot w i)) in Hca1.
  assert (HhwU : q_hwstamp (q wU) = false) by (rewrite Hq; exact Hhw).
  destruct (tx_unmap_events_bql d0) as [Hu1 Hu2].
  assert (HcU : consumed (k_trace (k wU)) = consumed (k_trace (k w))
                /\ completed (k_trace (k wU)) = completed (k_trace (k w))).
  { rewrite Htr, consumed_app, completed_app, Hu1, Hu2, !app_nil_r.
    unfold w1. rewrite trace_log, trace_upd_q, consumed_app, completed_app.
    cbn. rewrite !app_nil_r. split; reflexivity. }
  destruct HcU as [HcU1 HcU2].
  destruct (di_cb_arg (slot w i)) as [skb|] eqn:Earg.
  - rewrite HhwU. cbn [di_cb_arg set_di_bytes]. rewrite Hca1.
    cbn [di_bytes set_di_bytes length map]. unfold zsum. cbn [fold_right].
    change (Z.of_nat 1) with 1. rewrite Z.add_0_r.
    eexists. split; [reflexivity|].
    rewrite trace_store_slot, trace_log, counter_free_trace.
    rewrite consumed_app, completed_app. cbn [consumed completed omap].
    cbn [mbind option_bind app]. rewrite app_nil_r.
    destruct (netif_subqueue_stopped _ wU).
    + rewrite counter_free_trace. unfold netif_wake_subqueue.
      rewrite trace_log, consumed_app, completed_app.
      change (k_trace (k (upd_k _ wU))) with (k_trace (k wU)).
      cbn [consumed completed omap]. cbn [mbind option_bind].
      rewrite !app_nil_r, HcU1, HcU2.
      split; [reflexivity|]. split; [reflexivity|]. exact HhwU.
    + rewrite HcU1, HcU2.
      split; [reflexivity|]. split; [reflexivity|]. exact HhwU.
  - rewrite Hca1. cbn [length map]. unfold zsum. cbn [fold_right].
    change (Z.of_nat 0) with 0. rewrite !Z.add_0_r.
    eexists. split; [reflexivity|].
    rewrite trace_store_slot, HcU1, HcU2, app_nil_r.
    split; [reflexivity|]. split; [reflexivity|]. exact HhwU.
Qed.

Lemma tx_service_loop_bql fuel : forall ci pkts bytes w p' b' w',
  q_hwstamp (q w) = false ->
  tx_service_loop fuel ci pkts bytes w = Some (p', b', w') ->
  exists cs,
    p' = pkts + Z.of_nat (length cs)
    /\ b' = bytes + zsum (map skb_len cs)
    /\ consumed (k_trace (k w')) = consumed (k_trace (k w)) ++ cs
    /\ completed (k_trace (k w')) = completed (k_trace (k w))
    /\ q_hwstamp (q w') = false.
Proof.
  induction fuel as [|fuel IH]; intros ci pkts bytes w p' b' w' Hhw;
    cbn [tx_service_loop]; [discriminate|].
  destruct (tx_drain_one_bql (Some ci) pkts bytes w Hhw)
    as [w1 [-> [Hc1 [Hd1 Hhw1]]]].
  set (cs1 := match di_cb_arg _ with Some skb => [skb] | None => [] end) in *.
  destruct (negb _).
  - intros Hr. destruct (IH _ _ _ _ _ _ _ Hhw1 Hr)
      as [cs [-> [-> [Hc [Hd Hh]]]]].
    exists (cs1 ++ cs). rewrite length_app, map_app, zsum_app, Nat2Z.inj_add.
    split; [lia|]. split; [lia|].
    rewrite Hc, Hc1, Hd, Hd1, <- app_assoc. repeat split. exact Hh.
  - intros [= <- <- <-]. exists cs1. repeat split; assumption.
Qed.

End BqlBalance.

(** What one ionic_tx_service call on a queue that does not timestamp
    tells the byte-queue-limit accounting: with [cs] the packets it consumed
    and [bytes] the sum of their skb->len (below 2^31, the counters being
    ints), it calls netdev_tx_completed_queue exactly once, with
    (|cs|, bytes), when queue limits are compiled in and [bytes] is not
    zero, and not at all otherwise. *)
Theorem tx_service_bql_balance `{ionic_consts} cq ci w b w' :
  q_hwstamp (q w) = false ->
  ionic_tx_service cq ci w = Some (b, w') ->
  exists cs,
    consumed (k_trace (k w')) = consumed (k_trace (k w)) ++ cs
    /\ (0 <= zsum (map skb_len cs) < 2 ^ 31 ->
        completed (k_trace (k w'))
        = completed (k_trace (k w))
          ++ (if IONIC_SUPPORTS_BQL && negb (zsum (map skb_len cs) =? 0)
              then [(Z.of_nat (length cs), zsum (map skb_len cs))]
              else [])).
Proof.
  intros Hhw. unfold ionic_tx_service. destruct (negb _).
  - intros [= <- <-]. exists []. rewrite !app_nil_r. split; [reflexivity|].
    intros _. rewrite andb_false_r, app_nil_r. reflexivity.
  - destruct (tx_service_loop _ ci 0 0 w) as [[[p1 b1] w1]|] eqn:El;
      [|discriminate].
    intros [= <- <-].
    destruct (tx_service_loop_bql _ _ _ _ _ _ _ _ Hhw El)
      as [cs [-> [-> [Hc [Hd Hh]]]]].
    exists cs. rewrite !Z.add_0_l. unfold bql_completed. rewrite Hh.
    cbn [negb]. rewrite andb_true_r.
    assert (Hp : zsum (map skb_len cs) <> 0 -> Z.of_nat (length cs) <> 0).
    { destruct cs; [intros E; exfalso; apply E; reflexivity|].
      intros _. cbn [length]. lia. }
    destruct IONIC_SUPPORTS_BQL; cbn [andb].
    + destruct (Z.eqb_spec (zsum (map skb_len cs)) 0) as [E|E].
      * rewrite andb_false_r. split; [exact Hc|].
        intros _. rewrite Hd, app_nil_r. reflexivity.
      * apply Hp in E as E'. apply Z.eqb_neq in E'. rewrite E'. cbn [negb andb].
        rewrite trace_log, consumed_app, completed_app. cbn.
        rewrite app_nil_r. split; [exact Hc|]. intros _. rewrite Hd.
        reflexivity.
    + split; [exact Hc|]. intros _. rewrite Hd, app_nil_r. reflexivity.
Qed.

Lemma tx_service_bql_balance_witness :
  exists w',
    @ionic_tx_service example_consts (mk_cq 1) (tx_comp 0 128) tx_world_3_1
    = Some (true, w')
    /\ consumed (k_trace (k w')) = [example_skb 1 1500; example_skb 2 60]
    /\ completed (k_trace (k w')) = [(2, 1560)].
Proof.
  destruct (@ionic_tx_service example_consts (mk_cq 1) (tx_comp 0 128)
              tx_world_3_1) as [[b w']|] eqn:E;
    [|vm_compute in E; discriminate].
  destruct (@tx_service_bql_balance example_consts (mk_cq 1) (tx_comp 0 128)
              tx_world_3_1 b w' eq_refl E) as [cs [Hc Hd]].
  vm_compute in E. injection E as <- <-.
  change (consumed (k_trace (k tx_world_3_1))) with (@nil sk_buff) in Hc.
  change (completed (k_trace (k tx_world_3_1))) with (@nil (Z * Z)) in Hd.
  cbn [app] in Hc, Hd. subst cs.
  eexists. split; [reflexivity|]. split; [reflexivity|].
  rewrite Hd; [reflexivity|]. vm_compute. split; [discriminate|reflexivity].
Defined.

(** * NAPI poll statistics (ionic_lif.h) *)

(** struct ionic_napi_stats *)
Record ionic_napi_stats := mk_napi_stats {
  poll_count : Z;
  work_done_cntr : list Z
}.

Section NapiStats.
(** NAPI_POLL_WEIGHT of linux/netdevice.h *)
Variable NAPI_POLL_WEIGHT : Z.

Definition IONIC_MAX_NUM_NAPI_CNTR : Z := NAPI_POLL_WEIGHT + 1.

(** debug_stats_napi_poll(qcq, work_done), on [qcq->napi_stats].  A store
    past the end of work_done_cntr would be lost here (and undefined in C);
    [napi_poll_histogram] shows there is none. *)
Definition debug_stats_napi_poll (s : ionic_napi_stats) (work_done : Z)
  : ionic_napi_stats :=
  let s := mk_napi_stats (u64 (poll_count s + 1)) (work_done_cntr s) in
  let work_done :=
    if IONIC_MAX_NUM_NAPI_CNTR - 1 <? work_done
    then IONIC_MAX_NUM_NAPI_CNTR - 1 else work_done in
  mk_napi_stats (poll_count s)
    (alter (fun c => u64 (c + 1)) (Z.to_nat work_done) (work_done_cntr s)).

(** The polls among [wds] that are counted in bucket [b]: those with
    work_done = b, and for the last bucket those with more. *)
Definition polls_in (b : Z) (wds : list Z) : Z :=
  Z.of_nat (length (List.filter (fun wd => Z.min wd NAPI_POLL_WEIGHT =? b)
                      wds)).

Lemma polls_in_cons b wd wds :
  polls_in b (wd :: wds)
  = (if Z.min wd NAPI_POLL_WEIGHT =? b then 1 else 0) + polls_in b wds.
Proof.
  unfold polls_in. cbn [List.filter].
  destruct (_ =? _); cbn [length]; lia.
Qed.

Lemma u64_small x : 0 <= x < 2 ^ 64 -> u64 x = x.
Proof. intros Hx. apply Z.mod_small. exact Hx. Qed.

Lemma u64_add_l a b : u64 (u64 a + b) = u64 (a + b).
Proof. unfold u64. apply Zplus_mod_idemp_l. Qed.

Lemma napi_poll_step s wd b :
  0 <= NAPI_POLL_WEIGHT ->
  length (work_done_cntr s) = Z.to_nat IONIC_MAX_NUM_NAPI_CNTR ->
  0 <= wd -> 0 <= b <= NAPI_POLL_WEIGHT ->
  let s' := debug_stats_napi_poll s wd in
  poll_count s' = u64 (poll_count s + 1)
  /\ length (work_done_cntr s') = length (work_done_cntr s)
  /\ work_done_cntr s' !!! Z.to_nat b
     = if Z.min wd NAPI_POLL_WEIGHT =? b
       then u64 (work_done_cntr s !!! Z.to_nat b + 1)
       else work_done_cntr s !!! Z.to_nat b.
Proof.
  intros HW Hl Hwd Hb. cbv zeta. unfold debug_stats_napi_poll.
  cbn [poll_count work_done_cntr]. unfold IONIC_MAX_NUM_NAPI_CNTR in *.
  split; [reflexivity|]. split; [apply length_alter|].
  set (i := if _ <? wd then _ else wd).
  assert (Hi : i = Z.min wd NAPI_POLL_WEIGHT).
  { unfold i. destruct (Z.ltb_spec (NAPI_POLL_WEIGHT + 1 - 1) wd); lia. }
  rewrite Hi. destruct (Z.eqb_spec (Z.min wd NAPI_POLL_WEIGHT) b) as [E|E].
  - rewrite E, list_lookup_total_alter. rewrite decide_True; [reflexivity|].
    split; [reflexivity|]. rewrite Hl. lia.
  - apply list_lookup_total_alter_ne. lia.
Qed.

End NapiStats.

(** The histogram debug_stats_napi_poll keeps: over any run of polls with
    non-negative work_done, on a work_done_cntr array of
    IONIC_MAX_NUM_NAPI_CNTR = NAPI_POLL_WEIGHT + 1 entries, every store
    lands inside the array (its length is kept and no count is lost),
    poll_count goes up by the number of polls, bucket b < NAPI_POLL_WEIGHT
    by the number of polls with work_done = b, and the last bucket by the
    number of polls with work_done >= NAPI_POLL_WEIGHT (all modulo 2^64). *)
Theorem napi_poll_histogram W wds : forall s,
  0 <= W ->
  length (work_done_cntr s) = Z.to_nat (IONIC_MAX_NUM_NAPI_CNTR W) ->
  0 <= poll_count s < 2 ^ 64 ->
  Forall (fun c => 0 <= c < 2 ^ 64) (work_done_cntr s) ->
  Forall (fun wd => 0 <= wd) wds ->
  let s' := fold_left (debug_stats_napi_poll W) wds s in
  poll_count s' = u64 (poll_count s + Z.of_nat (length wds))
  /\ length (work_done_cntr s') = length (work_done_cntr s)
  /\ forall b, 0 <= b <= W ->
       work_done_cntr s' !!! Z.to_nat b
       = u64 (work_done_cntr s !!! Z.to_nat b + polls_in W b wds).
Proof.
  induction wds as [|wd wds IH]; intros s HW Hl Hp Hc Hf; cbv zeta.
  - cbn [fold_left length]. unfold polls_in. cbn [List.filter length].
    change (Z.of_nat 0) with 0. rewrite Z.add_0_r, u64_small by exact Hp.
    split; [reflexivity|]. split; [reflexivity|].
    intros b Hb. rewrite Z.add_0_r. symmetry. apply u64_small.
    assert (Hlt : (Z.to_nat b < length (work_done_cntr s))%nat)
      by (rewrite Hl; unfold IONIC_MAX_NUM_NAPI_CNTR; lia).
    destruct (lookup_lt_is_Some_2 _ _ Hlt) as [c Ec].
    rewrite (list_lookup_total_correct _ _ _ Ec).
    exact (Forall_lookup_1 _ _ _ _ Hc Ec).
  - cbn [fold_left]. inversion Hf as [|x l Hwd Hf']; subst.
    set (s1 := debug_stats_napi_poll W s wd).
    assert (H1 : forall b, 0 <= b <= W ->
              poll_count s1 = u64 (poll_count s + 1)
              /\ length (work_done_cntr s1) = length (work_done_cntr s)
              /\ work_done_cntr s1 !!! Z.to_nat b
                 = if Z.min wd W =? b
                   then u64 (work_done_cntr s !!! Z.to_nat b + 1)
                   else work_done_cntr s !!! Z.to_nat b)
      by (intros b Hb; apply napi_poll_step; assumption).
    destruct (H1 0 ltac:(lia)) as [Hp1 [Hl1 _]].
    assert (Hr : forall x, 0 <= u64 x < 2 ^ 64)
      by (intros x; apply Z.mod_pos_bound; lia).
    destruct (IH s1) as [Ip [Il Ib]].
    + exact HW.
    + rewrite Hl1. exact Hl.
    + rewrite Hp1. apply Hr.
    + unfold s1, debug_stats_napi_poll. cbn [work_done_cntr].
      apply Forall_alter; [exact Hc|]. intros c _ _. apply Hr.
    + exact Hf'.
    + split; [|split].
      * rewrite Ip, Hp1, u64_add_l. f_equal. cbn [length]. lia.
      * rewrite Il. exact Hl1.
      * intros b Hb. rewrite (Ib b Hb), polls_in_cons.
        destruct (H1 b Hb) as [_ [_ ->]].
        destruct (_ =? _); [rewrite u64_add_l|]; f_equal; lia.
Qed.

Lemma napi_poll_histogram_witness :
  let s := fold_left (debug_stats_napi_poll 64) [0; 64; 100; 3; 64]
             (mk_napi_stats 0 (replicate 65 0)) in
  poll_count s = 5
  /\ work_done_cntr s !!! 3%nat = 1
  /\ work_done_cntr s !!! 64%nat = 3.
Proof.
  destruct (napi_poll_histogram 64 [0; 64; 100; 3; 64]
              (mk_napi_stats 0 (replicate 65 0))) as [Hp [_ Hb]].
  - lia.
  - reflexivity.
  - simpl. lia.
  - apply Forall_replicate. lia.
  - repeat constructor; lia.
  - cbv zeta in *. split; [exact Hp|]. split.
    + exact (Hb 3 ltac:(lia)).
    + exact (Hb 64 ltac:(lia)).
Defined.

(** * Receive teardown: each page given back once *)

(** The pages given back along a trace, in order: the address of every
    dma_unmap_page and the page of every free_pages call. *)
Definition releases (tr : list event) : list (Z + page) :=
  omap (fun e => match e with
                 | ev_dma_unmap_page a _ => Some (inl a)
                 | ev_free_pages p => Some (inr p)
                 | _ => None
                 end) tr.

(** What giving back the page of buffer [b] takes: its unmapping, then its
    freeing. *)
Definition buf_release (b : ionic_buf_info) : list (Z + page) :=
  match bi_page b with
  | Some p => [inl (bi_dma_addr b); inr p]
  | None => []
  end.

Lemma releases_app tr1 tr2 :
  releases (tr1 ++ tr2) = releases tr1 ++ releases tr2.
Proof. apply omap_app. Qed.

Lemma concat_map_nil {A B} (f : A -> list B) l :
  (forall x, In x l -> f x = []) -> concat (map f l) = [].
Proof.
  induction l as [|x l IH]; intros Hf; [reflexivity|].
  cbn [map concat]. rewrite (Hf x) by (left; reflexivity).
  apply IH. intros y Hy. apply Hf. right. exact Hy.
Qed.

Section RxEmptyOnce.
Context `{ionic_consts}.

(** The pages slot contents [d] hold, buffer by buffer. *)
Definition slot_releases (d : ionic_desc_info) : list (Z + page) :=
  concat (map (fun j => buf_release (di_buf d j))
            (seqZ 0 (IONIC_RX_MAX_SG_ELEMS + 1))).

(** The pages the ring holds, slot by slot. *)
Definition ring_releases (w : world) : list (Z + page) :=
  concat (map (fun i => slot_releases (slot w i))
            (seqZ 0 (q_num_descs (q w)))).

Lemma rx_page_free_releases b w :
  releases (k_trace (k (snd (ionic_rx_page_free b w))))
  = releases (k_trace (k w)) ++ buf_release b.
Proof.
  unfold ionic_rx_page_free, buf_release.
  destruct (bi_page b) as [p|]; cbn [snd]; [|symmetry; apply app_nil_r].
  destruct (_ && _); rewrite !trace_log, !releases_app, <- ?app_assoc;
    reflexivity.
Qed.

Lemma rx_empty_buf_releases d w x :
  releases (k_trace (k (snd (rx_empty_buf (d, w) x))))
  = releases (k_trace (k w)) ++ buf_release (di_buf d x).
Proof.
  unfold rx_empty_buf.
  destruct (bi_page (di_buf d x)) as [p|] eqn:Ep.
  - pose proof (rx_page_free_releases (di_buf d x) w) as Hr.
    destruct (ionic_rx_page_free _ _) as [b w1]. exact Hr.
  - unfold buf_release. rewrite Ep. symmetry. apply app_nil_r.
Qed.

Lemma rx_empty_bufs_releases l : forall d w,
  Forall (fun j => 0 <= j) l -> NoDup l ->
  releases (k_trace (k (snd (fold_left rx_empty_buf l (d, w)))))
  = releases (k_trace (k w))
    ++ concat (map (fun j => buf_release (di_buf d j)) l).
Proof.
  induction l as [|x l IH]; intros d w Hl Hn; cbn [fold_left map concat].
  - symmetry. apply app_nil_r.
  - inversion Hl as [|? ? Hx Hl']; subst.
    apply NoDup_cons in Hn. destruct Hn as [Hnx Hn].
    pose proof (rx_empty_buf_spec d w x Hx) as Hs. cbv zeta in Hs.
    pose proof (rx_empty_buf_releases d w x) as Hr.
    destruct (rx_empty_buf (d, w) x) as [d1 w1]. cbn [fst snd] in Hs, Hr.
    destruct Hs as [_ [Hne _]].
    rewrite (IH d1 w1 Hl' Hn), Hr, <- app_assoc. f_equal. f_equal. f_equal.
    apply map_ext_in. intros j Hj. rewrite Hne; [reflexivity| |].
    + rewrite Forall_forall in Hl'. apply Hl', list_elem_of_In, Hj.
    + intros ->. apply Hnx, list_elem_of_In, Hj.
Qed.

Lemma rx_empty_one_releases w i :
  releases (k_trace (k (rx_empty_one w i)))
  = releases (k_trace (k w)) ++ slot_releases (slot w i).
Proof.
  unfold rx_empty_one, rx_empty_bufs, slot_releases.
  pose proof (rx_empty_bufs_releases (seqZ 0 (IONIC_RX_MAX_SG_ELEMS + 1))
                (slot w i) w) as Hr.
  destruct (fold_left rx_empty_buf _ _) as [d1 w1]. cbn [snd] in Hr.
  rewrite trace_store_slot. apply Hr; [|apply NoDup_seqZ].
  apply List.Forall_forall. intros j Hj. apply In_seqZ in Hj. lia.
Qed.

Lemma rx_empty_fold_releases l : forall w,
  Forall (fun i => 0 <= i) l -> NoDup l ->
  releases (k_trace (k (fold_left rx_empty_one l w)))
  = releases (k_trace (k w))
    ++ concat (map (fun i => slot_releases (slot w i)) l).
Proof.
  induction l as [|x l IH]; intros w Hl Hn; cbn [fold_left map concat].
  - symmetry. apply app_nil_r.
  - inversion Hl as [|? ? Hx Hl']; subst.
    apply NoDup_cons in Hn. destruct Hn as [Hnx Hn].
    pose proof (rx_empty_one_spec w x Hx) as Hs. cbv zeta in Hs.
    destruct Hs as [_ [_ [Hne _]]].
    rewrite (IH _ Hl' Hn), rx_empty_one_releases, <- app_assoc.
    f_equal. f_equal. f_equal.
    apply map_ext_in. intros i Hi. rewrite Hne; [reflexivity| |].
    + rewrite Forall_forall in Hl'. apply Hl', list_elem_of_In, Hi.
    + intros ->. apply Hnx, list_elem_of_In, Hi.
Qed.

End RxEmptyOnce.

(** ionic_rx_empty gives back each page the ring holds exactly once: going
    through the slots 0 .. num_descs - 1 and the buffers of each in order, it
    unmaps and then frees the page of every buffer that has one, and makes
    no other dma_unmap_page or free_pages call.  Nothing is left to give
    back afterwards, so a second ionic_rx_empty unmaps and frees nothing. *)
Theorem rx_empty_releases_once `{ionic_consts} w :
  releases (k_trace (k (ionic_rx_empty w)))
  = releases (k_trace (k w)) ++ ring_releases w
  /\ ring_releases (ionic_rx_empty w) = []
  /\ releases (k_trace (k (ionic_rx_empty (ionic_rx_empty w))))
     = releases (k_trace (k (ionic_rx_empty w))).
Proof.
  assert (H1 : forall w0,
            releases (k_trace (k (ionic_rx_empty w0)))
            = releases (k_trace (k w0)) ++ ring_releases w0).
  { intros w0. unfold ionic_rx_empty, ring_releases.
    rewrite !trace_upd_q.
    apply rx_empty_fold_releases; [|apply NoDup_seqZ].
    apply List.Forall_forall. intros i Hi. apply In_seqZ in Hi. lia. }
  assert (H2 : ring_releases (ionic_rx_empty w) = []).
  { pose proof (rx_empty_spec w) as Hs. cbv zeta in Hs.
    destruct Hs as [_ [_ [HN Hs]]].
    unfold ring_releases. rewrite HN. apply concat_map_nil.
    intros i Hi. apply In_seqZ in Hi.
    destruct (Hs i ltac:(lia)) as [[_ Hp] _].
    unfold slot_releases. apply concat_map_nil.
    intros j Hj. apply In_seqZ in Hj.
    unfold buf_release. rewrite (Hp j) by lia. reflexivity. }
  split; [apply H1|]. split; [exact H2|].
  rewrite H1, H2. apply app_nil_r.
Qed.

(** * Completions and stopped subqueues *)

Section TxWake.
Context `{ionic_consts}.

(** One round of the service loop on a queue that does not timestamp: the
    subqueues stopped afterwards are those stopped before, less the one
    the packet of the cleaned slot is mapped to. *)
Lemma tx_drain_one_stopped ci pkts bytes w qi :
  q_hwstamp (q w) = false ->
  let cs := match di_cb_arg (slot w (q_tail_idx (q w))) with
            | Some skb => [skb]
            | None => []
            end in
  netif_subqueue_stopped qi (snd (tx_drain_one ci pkts bytes w)) = true
  <-> netif_subqueue_stopped qi w = true
      /\ ~ In qi (map skb_queue_mapping cs).
Proof.
  intros Hhw. cbv zeta. unfold tx_drain_one.
  set (i := q_tail_idx (q w)) in *.
  set (d0 := set_di_bytes 0 (slot w i)).
  set (w1 := log (ev_clean cb_ionic_tx_clean i) _).
  change (di_cb_arg d0) with (di_cb_arg (slot w i)).
  unfold ionic_tx_clean.
  pose proof (steps_tx_desc_unmap_bufs d0 w1) as Hs.
  pose proof (tx_desc_unmap_bufs_q d0 w1) as Hq.
  destruct (ionic_tx_desc_unmap_bufs d0 w1) as [d1 wU].
  cbn [fst snd] in Hs, Hq.
  assert (HhwU : q_hwstamp (q wU) = false) by (rewrite Hq; exact Hhw).
  assert (HstU : k_stopped (k wU) = k_stopped (k w)).
  { destruct (steps_env _ _ _ _ Hs) as [_ [_ [_ ->]]]. reflexivity. }
  destruct (di_cb_arg (slot w i)) as [skb|] eqn:Earg.
  - rewrite HhwU. cbn [map In].
    destruct (di_cb_arg (set_di_bytes _ d1));
      cbn [snd]; unfold netif_subqueue_stopped;
      (destruct (bool_decide (skb_queue_mapping skb ∈ k_stopped (k wU)))
         eqn:Est;
       [ change (k_stopped (k (store_slot _ _ _)))
           with (filter (fun y => y ≠ skb_queue_mapping skb)
                   (k_stopped (k wU)));
         rewrite !bool_decide_eq_true, list_elem_of_filter, HstU
       | change (k_stopped (k (store_slot _ _ _))) with (k_stopped (k wU));
         apply bool_decide_eq_false in Est;
         rewrite !bool_decide_eq_true, HstU; rewrite HstU in Est ]);
      (split;
       [ intros Hin; split; [tauto|];
         intros [E|[]]; subst qi; tauto
       | intros [Hin Hne]; try split; try exact Hin;
         intros E; apply Hne; left; symmetry; exact E ]).
  - cbn [map In].
    destruct (di_cb_arg d1); cbn [snd]; unfold netif_subqueue_stopped;
      change (k_stopped (k (store_slot _ _ _))) with (k_stopped (k wU));
      rewrite HstU; tauto.
Qed.

Lemma tx_service_loop_stopped fuel : forall ci pkts bytes w p' b' w',
  q_hwstamp (q w) = false ->
  tx_service_loop fuel ci pkts bytes w = Some (p', b', w') ->
  exists cs,
    consumed (k_trace (k w')) = consumed (k_trace (k w)) ++ cs
    /\ forall qi,
         netif_subqueue_stopped qi w' = true
         <-> netif_subqueue_stopped qi w = true
             /\ ~ In qi (map skb_queue_mapping cs).
Proof.
  induction fuel as [|fuel IH]; intros ci pkts bytes w p' b' w' Hhw;
    cbn [tx_service_loop]; [discriminate|].
  pose proof (fun qi => tx_drain_one_stopped (Some ci) pkts bytes w qi Hhw)
    as Hw.
  cbv zeta in Hw.
  destruct (tx_drain_one_bql (Some ci) pkts bytes w Hhw)
    as [w1 [E1 [Hc1 [_ Hhw1]]]].
  rewrite E1 in Hw |- *. cbn [snd] in Hw.
  set (cs1 := match di_cb_arg _ with Some skb => [skb] | None => [] end) in *.
  destruct (negb _).
  - intros Hr. destruct (IH _ _ _ _ _ _ _ Hhw1 Hr) as [cs [Hc Hk]].
    exists (cs1 ++ cs). split; [rewrite Hc, Hc1, <- app_assoc; reflexivity|].
    intros qi. rewrite (Hk qi), (Hw qi), map_app, in_app_iff. tauto.
  - intros [= <- <- <-]. exists cs1. split; [exact Hc1|exact Hw].
Qed.

End TxWake.

(** Which subqueues a completion leaves stopped.  On a queue that does not
    timestamp, with [cs] the packets ionic_tx_service consumed: a subqueue
    is stopped when the call returns exactly when it was stopped before and
    no packet of [cs] is mapped to it (skb_get_queue_mapping).  So the call
    stops nothing, restarts the subqueue of every packet it consumed, and
    restarts no other: the queue's own subqueue q->index, the one
    ionic_maybe_stop_tx stops, is restarted only through a consumed packet
    whose queue mapping is q->index. *)
Theorem tx_service_wakes `{ionic_consts} cq ci w b w' :
  q_hwstamp (q w) = false ->
  ionic_tx_service cq ci w = Some (b, w') ->
  exists cs,
    consumed (k_trace (k w')) = consumed (k_trace (k w)) ++ cs
    /\ forall qi,
         netif_subqueue_stopped qi w' = true
         <-> netif_subqueue_stopped qi w = true
             /\ ~ In qi (map skb_queue_mapping cs).
Proof.
  intros Hhw. unfold ionic_tx_service. destruct (negb _).
  - intros [= <- <-]. exists [].
    split; [symmetry; apply app_nil_r|]. intros qi. cbn [map In]. tauto.
  - destruct (tx_service_loop _ ci 0 0 w) as [[[p1 b1] w1]|] eqn:El;
      [|discriminate].
    intros [= <- <-].
    destruct (tx_service_loop_stopped _ _ _ _ _ _ _ _ Hhw El) as [cs [Hc Hk]].
    assert (Hst : k_stopped (k (bql_completed p1 b1 w1)) = k_stopped (k w1))
      by (unfold bql_completed; destruct (_ && _); reflexivity).
    assert (Htr : consumed (k_trace (k (bql_completed p1 b1 w1)))
                  = consumed (k_trace (k w1))).
    { unfold bql_completed. destruct (_ && _); [|reflexivity].
      rewrite trace_log, consumed_app. apply app_nil_r. }
    exists cs. rewrite Htr. split; [exact Hc|].
    intros qi. rewrite <- (Hk qi). unfold netif_subqueue_stopped.
    rewrite Hst. tauto.
Qed.

(** A transmit ring of four slots with packets of subqueue 0 posted in
    slots 3 and 0, while subqueues 0 and 5 are stopped. *)
Definition tx_world_stopped : world :=
  mk_world (q tx_world_3_1) (set_stopped [0; 5] example_kernel).

Lemma tx_service_wakes_witness :
  netif_subqueue_stopped 0 tx_world_stopped = true
  /\ exists w',
       @ionic_tx_service example_consts (mk_cq 1) (tx_comp 3 128)
         tx_world_stopped = Some (true, w')
       /\ consumed (k_trace (k w')) = [example_skb 1 1500]
       /\ netif_subqueue_stopped 0 w' = false
       /\ netif_subqueue_stopped 5 w' = true.
Proof.
  split; [reflexivity|].
  destruct (@ionic_tx_service example_consts (mk_cq 1) (tx_comp 3 128)
              tx_world_stopped) as [[b w']|] eqn:E;
    [|vm_compute in E; discriminate].
  destruct (@tx_service_wakes example_consts (mk_cq 1) (tx_comp 3 128)
              tx_world_stopped b w' eq_refl E) as [cs [Hc Hk]].
  vm_compute in E. injection E as <- <-.
  change (consumed (k_trace (k tx_world_stopped))) with (@nil sk_buff) in Hc.
  cbn [app] in Hc. subst cs.
  eexists. split; [reflexivity|]. split; [reflexivity|]. split.
  - apply not_true_is_false. intros Hs. apply (Hk 0) in Hs.
    destruct Hs as [_ Hn]. apply Hn. left. reflexivity.
  - apply (Hk 5). split; [reflexivity|].
    intros [Hx|[]]. vm_compute in Hx. discriminate Hx.
Defined.

(** * Transmit teardown: each packet given back once *)

(** The calls that give something of a packet back: dma_unmap_single,
    dma_unmap_page and dev_consume_skb_any. *)
Definition is_tx_release (e : event) : bool :=
  match e with
  | ev_dma_unmap_single _ _ | ev_dma_unmap_page _ _
  | ev_dev_consume_skb_any _ => true
  | _ => false
  end.

Definition tx_releases (tr : list event) : list event :=
  List.filter is_tx_release tr.

(** What giving back slot contents [d] takes: unmapping its buffers, then
    consuming its packet if it holds one. *)
Definition slot_tx_releases (d : ionic_desc_info) : list event :=
  tx_unmap_events d
  ++ match di_cb_arg d with
     | Some skb => [ev_dev_consume_skb_any skb]
     | None => []
     end.

Lemma tx_releases_app tr1 tr2 :
  tx_releases (tr1 ++ tr2) = tx_releases tr1 ++ tx_releases tr2.
Proof. apply List.filter_app. Qed.

Lemma tx_releases_unmap d : tx_releases (tx_unmap_events d) = tx_unmap_events d.
Proof.
  unfold tx_unmap_events. destruct (_ =? _); [reflexivity|].
  unfold tx_releases. cbn [List.filter is_tx_release]. f_equal.
  induction (seqZ 1 (di_nbufs d - 1)) as [|x l IH]; [reflexivity|].
  cbn [map List.filter is_tx_release]. f_equal. exact IH.
Qed.

Section TxEmptyOnce.
Context `{ionic_consts}.

(** One round of the drain gives back what the slot at tail_idx holds, and
    nothing else. *)
Lemma tx_drain_one_releases ci pkts bytes w :
  tx_releases (k_trace (k (snd (tx_drain_one ci pkts bytes w))))
  = tx_releases (k_trace (k w))
    ++ slot_tx_releases (slot w (q_tail_idx (q w))).
Proof.
  unfold tx_drain_one, slot_tx_releases.
  set (i := q_tail_idx (q w)) in *.
  set (d0 := set_di_bytes 0 (slot w i)).
  set (w1 := log (ev_clean cb_ionic_tx_clean i) _).
  change (di_cb_arg d0) with (di_cb_arg (slot w i)).
  unfold ionic_tx_clean.
  pose proof (tx_desc_unmap_bufs_trace d0 w1) as Htr.
  destruct (ionic_tx_desc_unmap_bufs d0 w1) as [d1 wU].
  cbn [fst snd] in Htr.
  assert (HU : tx_releases (k_trace (k wU))
               = tx_releases (k_trace (k w)) ++ tx_unmap_events (slot w i)).
  { rewrite Htr, tx_releases_app, tx_releases_unmap.
    unfold w1. rewrite trace_log, trace_upd_q, tx_releases_app.
    cbn. rewrite app_nil_r. reflexivity. }
  destruct (di_cb_arg (slot w i)) as [skb|].
  - match goal with
    | |- context [log (ev_dev_consume_skb_any skb) (bump tx_clean 1 ?x)] =>
        assert (HX : tx_releases (k_trace (k x)) = tx_releases (k_trace (k wU)));
        [|set (wX := x) in *]
    end.
    { destruct (q_hwstamp (q wU)).
      - destruct ci as [ci|]; [|reflexivity].
        destruct (negb _); [|apply f_equal, counter_free_trace].
        rewrite counter_free_trace, trace_log, tx_releases_app.
        apply app_nil_r.
      - destruct (netif_subqueue_stopped _ wU); [|reflexivity].
        rewrite counter_free_trace. unfold netif_wake_subqueue.
        rewrite trace_log, tx_releases_app.
        change (k_trace (k (upd_k _ wU))) with (k_trace (k wU)).
        apply app_nil_r. }
    destruct (di_cb_arg (set_di_bytes _ d1)); cbn [snd];
      rewrite trace_store_slot, trace_log, counter_free_trace,
        tx_releases_app, HX, HU, <- app_assoc; reflexivity.
  - destruct (di_cb_arg d1); cbn [snd];
      rewrite trace_store_slot, HU, app_nil_r; reflexivity.
Qed.

Lemma ring_walk_later N t n j :
  0 < N -> 0 <= t < N -> Z.of_nat n < N ->
  In j (ring_walk N ((t + 1) mod N) n) -> j <> t /\ 0 <= j.
Proof.
  intros HN Ht Hn Hin.
  apply ring_walk_in in Hin; [|exact HN|apply Z.mod_pos_bound; exact HN].
  destruct Hin as [i [Hi ->]].
  rewrite Z.add_mod_idemp_l by lia.
  split; [|apply Z.mod_pos_bound; exact HN].
  destruct (Z_lt_dec (t + 1 + Z.of_nat i) N) as [Hlt|Hge].
  - rewrite Z.mod_small by lia. lia.
  - replace (t + 1 + Z.of_nat i)
      with (t + 1 + Z.of_nat i - N + 1 * N) by lia.
    rewrite Z.mod_add, Z.mod_small by lia. lia.
Qed.

(** The teardown loop gives back what the slots from tail_idx up to
    head_idx hold, slot by slot. *)
Lemma tx_empty_loop_releases n : forall fuel pkts bytes w,
  is_pow2 (q_num_descs (q w)) ->
  0 <= q_tail_idx (q w) < q_num_descs (q w) ->
  ring_at (q_num_descs (q w)) (q_tail_idx (q w)) n = q_head_idx (q w) ->
  ~ In (q_head_idx (q w))
       (ring_walk (q_num_descs (q w)) (q_tail_idx (q w)) n) ->
  (n <= fuel)%nat ->
  Z.of_nat n <= q_num_descs (q w) ->
  exists pkts' bytes' w',
    tx_empty_loop fuel pkts bytes w = Some (pkts', bytes', w')
    /\ q_head_idx (q w') = q_tail_idx (q w')
    /\ tx_releases (k_trace (k w'))
       = tx_releases (k_trace (k w))
         ++ concat (map (fun i => slot_tx_releases (slot w i))
                      (ring_walk (q_num_descs (q w)) (q_tail_idx (q w)) n)).
Proof.
  induction n as [|n IH]; intros fuel pkts bytes w HN Ht Hat Hnin Hf Hn.
  - cbn [ring_at] in Hat.
    assert (E : (q_head_idx (q w) =? q_tail_idx (q w)) = true)
      by (apply Z.eqb_eq; congruence).
    destruct fuel; cbn [tx_empty_loop]; rewrite E;
      do 3 eexists; (split; [reflexivity|]);
      (split; [symmetry; exact Hat|]);
      cbn [ring_walk map concat]; symmetry; apply app_nil_r.
  - destruct fuel as [|fuel]; [lia|]. cbn [tx_empty_loop].
    cbn [ring_at ring_walk] in Hat, Hnin.
    destruct (Z.eqb_spec (q_head_idx (q w)) (q_tail_idx (q w))) as [E|E];
      [exfalso; apply Hnin; left; symmetry; exact E|].
    pose proof (tx_drain_one_releases None pkts bytes w) as Hrel.
    destruct (tx_drain_one_spec None pkts bytes w) as [p1 [b1 [w1 [E1 Hd]]]].
    rewrite E1 in Hrel |- *. cbn [snd] in Hrel.
    destruct (drained_step_ok _ _ HN Ht Hd) as [Ht1 Hr1].
    pose proof (dr_num _ _ Hd) as HN1. pose proof (dr_head _ _ Hd) as Hh1.
    destruct (IH fuel p1 b1 w1) as [p2 [b2 [w2 [E2 [Hh2 Hr2]]]]].
    + rewrite HN1. exact HN.
    + exact Hr1.
    + rewrite HN1, Ht1, Hh1. exact Hat.
    + rewrite HN1, Ht1, Hh1. intros Hin. apply Hnin. right. exact Hin.
    + lia.
    + rewrite HN1. lia.
    + rewrite E2. do 3 eexists. split; [reflexivity|].
      split; [exact Hh2|].
      rewrite Hr2, Hrel, HN1, Ht1, <- app_assoc.
      cbn [ring_walk map concat]. f_equal. f_equal. f_equal.
      apply map_ext_in. intros j Hj.
      assert (Hn' : Z.of_nat n < q_num_descs (q w)) by lia.
      destruct (ring_walk_later _ _ _ _ (is_pow2_pos _ HN) Ht Hn' Hj)
        as [Hne Hj0].
      rewrite (drained_slot_other _ _ j Hd Hne Hj0 (proj1 Ht)). reflexivity.
Qed.

End TxEmptyOnce.

(** ionic_tx_empty, on a ring of N slots (N a power of two, both indices
    inside), gives back each outstanding packet exactly once: walking the
    slots from tail_idx up to head_idx, it unmaps the buffers of each and
    consumes its packet, and makes no other unmap or dev_consume_skb_any
    call.  It leaves a state on which a second ionic_tx_empty does nothing
    at all. *)
Theorem tx_empty_releases_once `{ionic_consts} w :
  is_pow2 (q_num_descs (q w)) ->
  ring_inv (q w) ->
  exists w',
    ionic_tx_empty w = Some w'
    /\ tx_releases (k_trace (k w'))
       = tx_releases (k_trace (k w))
         ++ concat (map (fun i => slot_tx_releases (slot w i))
                      (ring_walk (q_num_descs (q w)) (q_tail_idx (q w))
                         (Z.to_nat ((q_head_idx (q w) - q_tail_idx (q w))
                                    mod q_num_descs (q w)))))
    /\ ionic_tx_empty w' = Some w'.
Proof.
  intros HN [Hh Ht].
  destruct (ring_reach _ _ _ (is_pow2_pos _ HN) Ht Hh) as [Hat [Hnin Hlt]].
  set (n := Z.to_nat _) in *.
  destruct (tx_empty_loop_releases n (S (Z.to_nat (q_num_descs (q w))))
              0 0 w HN Ht Hat Hnin ltac:(lia) ltac:(lia))
    as [p [b [w1 [El [Hht Hrel]]]]].
  unfold ionic_tx_empty at 1. rewrite El.
  assert (Hb : forall x, q (bql_completed p b x) = q x
               /\ tx_releases (k_trace (k (bql_completed p b x)))
                  = tx_releases (k_trace (k x))).
  { intros x. unfold bql_completed. destruct (_ && _); [|split; reflexivity].
    split; [reflexivity|]. rewrite trace_log, tx_releases_app.
    apply app_nil_r. }
  destruct (Hb w1) as [Hq Hr].
  eexists. split; [reflexivity|]. split; [rewrite Hr; exact Hrel|].
  unfold ionic_tx_empty. cbn [tx_empty_loop]. rewrite Hq, Hht, Z.eqb_refl.
  unfold bql_completed at 1. change (0 =? 0) with true. cbn [negb].
  rewrite !andb_false_r. reflexivity.
Qed.

Lemma tx_empty_releases_once_witness :
  exists w',
    @ionic_tx_empty example_consts tx_world_3_1 = Some w'
    /\ tx_releases (k_trace (k w'))
       = [ev_dma_unmap_single 4096 1500;
          ev_dev_consume_skb_any (example_skb 1 1500);
          ev_dma_unmap_single 8192 60;
          ev_dev_consume_skb_any (example_skb 2 60)]
    /\ @ionic_tx_empty example_consts w' = Some w'.
Proof.
  destruct (@tx_empty_releases_once example_consts tx_world_3_1)
    as [w' [E [Hr Hi]]].
  - exists 2. split; [lia | reflexivity].
  - split; simpl; lia.
  - exists w'. split; [exact E|]. split; [exact Hr|exact Hi].
Defined.
